(** * ADA agent runtime: a shallow embedding of the decision loop,
      the settings flow, the evaluation engine, the ingestion endpoint and
      the PGlite adapter, with the properties of the specification proved
      (or refuted) against them.

    Sources embedded here:
    - packages/plugin-bootstrap/src/__tests__/multi-step.test.ts
        ([runMultiStepCoreTest], and the settings action that follows it:
         [getWorldSettings], [updateWorldSettings], [processSettingUpdates])
    - packages/cli/src/commands/scenario/src/EvaluationEngine.ts
    - packages/server/src/api/messaging/core.ts
    - packages/plugin-sql/src/pglite/adapter.ts
    - packages/cli/src/commands/tee/index.ts ([runEvaluationsWithFallback]) *)

From Stdlib Require Import ZArith String List Ascii Bool Lia.
From stdpp Require Import gmap strings list fin_maps pretty.

Local Open Scope string_scope.

(** ** JavaScript values and control effects shared by every component *)

Module Js.

(** The completion of an awaited call: a value, or a thrown exception.
    The exception is kept as the text the handlers print for it
    ([err instanceof Error ? err.message : String(err)]). *)
Inductive Outcome (A : Type) : Type :=
| Ok (a : A)
| Throw (err : string).
Arguments Ok {A} a.
Arguments Throw {A} err.

(** Truthiness of a value that is a string, [undefined] or [null]
    ([None] stands for both): only a non-empty string is truthy. *)
Definition truthy (o : option string) : bool :=
  match o with
  | Some s => negb (String.eqb s "")
  | None => false
  end.

(** [a ?? d] *)
Definition nullish {A} (o : option A) (d : A) : A :=
  match o with Some a => a | None => d end.

(** [a || d] on strings. *)
Definition or_else (o : option string) (d : string) : string :=
  if truthy o then nullish o d else d.

(** *** [parseInt(s)] with no radix argument (ECMAScript 19.2.5).
    [None] is [NaN].  A string is the sequence of the bytes of its UTF-8
    encoding.  Numbers are kept as exact integers, which is what the
    code computes for values up to 2^53. *)

(** White space and line terminators of one byte. *)
Definition is_space (c : ascii) : bool :=
  let n := nat_of_ascii c in
  (Nat.eqb n 9 || Nat.eqb n 10 || Nat.eqb n 11 || Nat.eqb n 12
   || Nat.eqb n 13 || Nat.eqb n 32)%bool.

(** U+00A0, in two bytes. *)
Definition is_space2 (a b : ascii) : bool :=
  (Nat.eqb (nat_of_ascii a) 194 && Nat.eqb (nat_of_ascii b) 160)%bool.

(** U+1680, U+2000 to U+200A, U+2028, U+2029, U+202F, U+205F, U+3000 and
    U+FEFF, in three bytes. *)
Definition is_space3 (a b c : ascii) : bool :=
  let '(x, y, z) := (nat_of_ascii a, nat_of_ascii b, nat_of_ascii c) in
  (Nat.eqb x 225 && Nat.eqb y 154 && Nat.eqb z 128
   || Nat.eqb x 226 && Nat.eqb y 128
      && (Nat.leb 128 z && Nat.leb z 138 || Nat.eqb z 168 || Nat.eqb z 169
          || Nat.eqb z 175)
   || Nat.eqb x 226 && Nat.eqb y 129 && Nat.eqb z 159
   || Nat.eqb x 227 && Nat.eqb y 128 && Nat.eqb z 128
   || Nat.eqb x 239 && Nat.eqb y 187 && Nat.eqb z 191)%bool.

Fixpoint trimStart (s : string) : string :=
  match s with
  | String a r1 =>
      if is_space a then trimStart r1
      else
        match r1 with
        | String b r2 =>
            if is_space2 a b then trimStart r2
            else
              match r2 with
              | String c r3 => if is_space3 a b c then trimStart r3 else s
              | EmptyString => s
              end
        | EmptyString => s
        end
  | EmptyString => s
  end.

Definition digit_value (c : ascii) : option Z :=
  let n := Z.of_nat (nat_of_ascii c) in
  if ((48 <=? n) && (n <=? 57))%Z then Some (n - 48)%Z
  else if ((97 <=? n) && (n <=? 122))%Z then Some (n - 87)%Z
  else if ((65 <=? n) && (n <=? 90))%Z then Some (n - 55)%Z
  else None.

(** The value of the longest prefix of radix-[radix] digits; [acc] is the
    value read so far ([None] before the first digit). *)
Fixpoint digits_prefix (radix : Z) (s : string) (acc : option Z) : option Z :=
  match s with
  | String c r =>
      match digit_value c with
      | Some d =>
          if (d <? radix)%Z
          then digits_prefix radix r (Some (radix * nullish acc 0 + d)%Z)
          else acc
      | None => acc
      end
  | EmptyString => acc
  end.

Definition parseInt (s : string) : option Z :=
  let s1 := trimStart s in
  let '(sign, s2) :=
    match s1 with
    | String "-" r => ((-1)%Z, r)
    | String "+" r => (1%Z, r)
    | _ => (1%Z, s1)
    end in
  let '(radix, s3) :=
    match s2 with
    | String "0" (String "x" r) => (16%Z, r)
    | String "0" (String "X" r) => (16%Z, r)
    | _ => (10%Z, s2)
    end in
  match digits_prefix radix s3 None with
  | Some n => Some (sign * n)%Z
  | None => None
  end.

(** [a < b] and [a >= b] where [b] may be [NaN]: both are false on [NaN]. *)
Definition lessThan (a : Z) (b : option Z) : bool :=
  match b with Some m => (a <? m)%Z | None => false end.

Definition atLeast (a : Z) (b : option Z) : bool :=
  match b with Some m => (m <=? a)%Z | None => false end.

(** *** Awaited calls in sequence: state passing with exceptions.
    A computation reads and writes a state [S] and completes with a value
    or a thrown exception; [bind] is [await]-then-continue, [tryCatch] is
    [try { .. } catch (err) { .. }]. *)

Definition M (S A : Type) : Type := S -> Outcome A * S.

Definition ret {S A} (a : A) : M S A := fun s => (Ok a, s).

Definition throw {S A} (err : string) : M S A := fun s => (Throw err, s).

Definition bind {S A B} (m : M S A) (k : A -> M S B) : M S B :=
  fun s =>
    match m s with
    | (Ok a, s1) => k a s1
    | (Throw e, s1) => (Throw e, s1)
    end.

Definition tryCatch {S A} (body : M S A) (handler : string -> M S A) : M S A :=
  fun s =>
    match body s with
    | (Ok a, s1) => (Ok a, s1)
    | (Throw e, s1) => handler e s1
    end.

Definition modify {S} (f : S -> S) : M S unit := fun s => (Ok tt, f s).

Definition gets {S A} (f : S -> A) : M S A := fun s => (Ok (f s), s).

Declare Scope js_scope.
Delimit Scope js_scope with js.
Notation "x <- m ;; k" := (bind m (fun x => k))
  (at level 100, m at next level, right associativity) : js_scope.
Notation "m ;;; k" := (bind m (fun _ => k))
  (at level 100, right associativity) : js_scope.

Lemma truthy_spec (o : option string) :
  truthy o = true <-> exists s, o = Some s /\ s <> "".
Proof.
  unfold truthy. destruct o as [s|].
  - destruct (String.eqb_spec s ""); simpl; split.
    + discriminate.
    + intros (s' & [= <-] & Hne). contradiction.
    + intros _. eauto.
    + reflexivity.
  - split; [discriminate|]. intros (s & [=] & _).
Qed.

Example parseInt_6 : parseInt "6" = Some 6%Z.
Proof. reflexivity. Qed.

Example parseInt_prefix : parseInt "  12px" = Some 12%Z.
Proof. reflexivity. Qed.

Example parseInt_hex : parseInt "0x1f" = Some 31%Z.
Proof. reflexivity. Qed.

Example parseInt_nan : parseInt "six" = None.
Proof. reflexivity. Qed.

Example parseInt_neg : parseInt "-3" = Some (-3)%Z.
Proof. reflexivity. Qed.

(** A no-break space before the digits is white space too. *)
Example parseInt_no_break_space :
  parseInt (String (ascii_of_nat 194) (String (ascii_of_nat 160) "7"))
  = Some 7%Z.
Proof. reflexivity. Qed.

End Js.

Import Js.

(** ** The PGlite adapter (plugin-sql/src/pglite/adapter.ts) *)

Module Pglite.

(** [PGliteClientManager] lives in ./manager; the adapter only asks it
    whether it is shutting down. *)
Record PGliteClientManager : Type := { shuttingDown : bool }.

Definition isShuttingDown (m : PGliteClientManager) : bool := shuttingDown m.

Inductive LogLine : Type :=
| Warn (msg : string).

Section Adapter.
(** The connection, as the operations see it. *)
Variable Conn : Type.

(** What an adapter call can reach: the connection, the number of
    operations issued on it so far, and the logger. *)
Record Db : Type := mkDb {
  conn : Conn;
  issued : nat;
  logged : list LogLine
}.

(** A database operation [() => Promise<T>]. *)
Definition Operation (T : Type) : Type := Conn -> Outcome T * Conn.

(** Calling [operation()]. *)
Definition invoke {T} (operation : Operation T) (db : Db) : Outcome T * Db :=
  let '(r, c) := operation (conn db) in
  (r, {| conn := c; issued := S (issued db); logged := logged db |}).

Definition warn (msg : string) (db : Db) : Db :=
  {| conn := conn db; issued := issued db; logged := logged db ++ [Warn msg] |}.

(** [withDatabase]: [None] is the [null] returned while shutting down. *)
Definition withDatabase {T} (manager : PGliteClientManager)
    (operation : Operation T) (db : Db) : Outcome (option T) * Db :=
  if isShuttingDown manager then
    (Ok None, warn "Database is shutting down" db)
  else
    let '(r, db') := invoke operation db in
    (match r with Ok v => Ok (Some v) | Throw e => Throw e end, db').

Definition isReady (manager : PGliteClientManager) : bool :=
  negb (isShuttingDown manager).

(** A run of adapter calls, each wrapped in [withDatabase]. *)
Fixpoint runAll {T} (manager : PGliteClientManager)
    (operations : list (Operation T)) (db : Db)
    : list (Outcome (option T)) * Db :=
  match operations with
  | [] => ([], db)
  | op :: rest =>
      let '(r, db1) := withDatabase manager op db in
      let '(rs, db2) := runAll manager rest db1 in
      (r :: rs, db2)
  end.

Lemma withDatabase_shutdown {T} manager (operation : Operation T) db :
  isShuttingDown manager = true ->
  withDatabase manager operation db
  = (Ok None, warn "Database is shutting down" db).
Proof. intros H. unfold withDatabase. now rewrite H. Qed.

Lemma withDatabase_live {T} manager (operation : Operation T) db :
  isShuttingDown manager = false ->
  issued (snd (withDatabase manager operation db)) = S (issued db).
Proof.
  intros H. unfold withDatabase, invoke. rewrite H.
  destruct (operation (conn db)) as [r c]. reflexivity.
Qed.

Lemma runAll_shutdown {T} manager (operations : list (Operation T)) :
  isShuttingDown manager = true ->
  forall db,
    fst (runAll manager operations db) = map (fun _ => Ok None) operations
    /\ conn (snd (runAll manager operations db)) = conn db
    /\ issued (snd (runAll manager operations db)) = issued db.
Proof.
  intros H. induction operations as [|op rest IH]; intros db; simpl.
  - auto.
  - rewrite (withDatabase_shutdown _ _ _ H).
    destruct (runAll manager rest (warn "Database is shutting down" db))
      as [rs db2] eqn:E.
    specialize (IH (warn "Database is shutting down" db)).
    rewrite E in IH. simpl in *. destruct IH as (-> & -> & ->). auto.
Qed.

End Adapter.

Arguments conn {Conn} d.
Arguments issued {Conn} d.
Arguments logged {Conn} d.
Arguments mkDb {Conn} conn issued logged.

(** C10. Once the manager reports that it is shutting down, a call wrapped
    in [withDatabase] returns [null] and leaves the connection and the count
    of issued operations as they were, whatever the operation is; the same
    holds for any run of wrapped calls; and [isReady] answers false. *)
Theorem shutdown_blocks_database (Conn T : Type)
    (manager : PGliteClientManager) (H : isShuttingDown manager = true) :
  (forall (operation : Operation Conn T) (db : Db Conn),
      fst (withDatabase Conn manager operation db) = Ok None
      /\ conn (snd (withDatabase Conn manager operation db)) = conn db
      /\ issued (snd (withDatabase Conn manager operation db)) = issued db)
  /\ (forall (operations : list (Operation Conn T)) (db : Db Conn),
      fst (runAll Conn manager operations db) = map (fun _ => Ok None) operations
      /\ conn (snd (runAll Conn manager operations db)) = conn db
      /\ issued (snd (runAll Conn manager operations db)) = issued db)
  /\ isReady manager = false.
Proof.
  split; [|split].
  - intros operation db. rewrite (withDatabase_shutdown _ _ _ _ H). auto.
  - intros operations db. now apply runAll_shutdown.
  - unfold isReady. now rewrite H.
Qed.

(** An operation that would insert a row and answer with the new size. *)
Definition insertRow : Operation (list nat) nat :=
  fun rows => (Ok (S (length rows)), 7 :: rows).

(** A manager that is shutting down, and an insertion that never happens. *)
Lemma shutdown_blocks_database_witness :
  isShuttingDown {| shuttingDown := true |} = true
  /\ fst (withDatabase (list nat) {| shuttingDown := true |} insertRow
            (mkDb [] 0 [])) = Ok None
  /\ conn (snd (withDatabase (list nat) {| shuttingDown := true |} insertRow
                  (mkDb [] 0 []))) = []
  /\ issued (snd (withDatabase (list nat) {| shuttingDown := true |} insertRow
                    (mkDb [] 0 []))) = 0.
Proof.
  split; [reflexivity|].
  exact (proj1 (shutdown_blocks_database (list nat) nat
                  {| shuttingDown := true |} eq_refl) insertRow (mkDb [] 0 [])).
Defined.

(** The same call on a live manager does reach the connection. *)
Example live_manager_runs_operation :
  withDatabase (list nat) {| shuttingDown := false |} insertRow (mkDb [] 0 [])
  = (Ok (Some 1), mkDb [7] 1 []).
Proof. reflexivity. Qed.

End Pglite.

(** ** The multi-step loop
    (plugin-bootstrap/src/__tests__/multi-step.test.ts, [runMultiStepCoreTest]) *)

Module MultiStep.

Local Open Scope js_scope.

(** *** Data *)

(** The [isFinish] field of a parsed step: a boolean, a string, or absent. *)
Inductive Flag : Type :=
| FlagBool (b : bool)
| FlagStr (s : string)
| FlagUndefined.

(** What [parseKeyValueXml] gives for a model output that parses.
    An absent [providers] field reads as the empty list (the default of
    the destructuring assignment). *)
Record Parsed : Type := mkParsed {
  p_thought : option string;
  p_providers : list string;
  p_action : option string;
  p_isFinish : Flag;
  p_text : option string
}.

(** [isFinish === 'true' || isFinish === true] *)
Definition isFinished (f : Flag) : bool :=
  match f with
  | FlagBool b => b
  | FlagStr s => String.eqb s "true"
  | FlagUndefined => false
  end.

(** An element of [traceActionResult]. *)
Record TraceEntry : Type := mkEntry {
  actionName : string;
  success : bool;
  text : option string;
  error : option string
}.

Record Content : Type := mkContent {
  c_text : string;
  c_actions : list string;
  c_thought : string;
  c_simple : bool
}.

Record Memory : Type := mkMemory {
  m_id : string;
  m_entityId : string;
  m_roomId : string;
  m_createdAt : Z;
  m_content : Content
}.

Record ProviderResult : Type := mkProviderResult {
  pr_text : option string;
  pr_error : option string
}.

(** An action result as the state cache holds it. *)
Record CachedResult : Type := mkCached {
  r_success : option bool;
  r_text : option string
}.

Inductive Mode : Type := simple | none.

(** The states of the loop.  They are not variables of the source: a run
    notes each state it enters, so that transitions can be counted. *)
Inductive Phase : Type := DECIDING | EXECUTING | SUMMARIZING | DONE.

Inductive LogLine : Type :=
| LogStart (iteration : Z) (maxIterations : option Z)
| LogParseFailed (iteration : Z)
| LogComplete (iteration : Z)
| LogNothingToDo (iteration : Z)
| LogProviderNotFound (providerName : string)
| LogProviderNoResult (providerName : string)
| LogStepError (err : string)
| LogMaxReached (maxIterations : option Z).

(** Why the [while] loop was left. *)
Inductive LoopExit : Type :=
| ExitCeiling
| ExitParseError
| ExitFinished
| ExitNothingToDo.

Definition Phase_eq_dec (a b : Phase) : {a = b} + {a <> b}.
Proof. decide equality. Defined.

Section Loop.

(** The world outside the function (model, storage, mocks' call counts),
    and the type of the values a composed state carries. *)
Variable W : Type.
Variable V : Type.

Record State : Type := mkState {
  values : V;
  actionResults : list TraceEntry
}.

(** A provider.  [provider.get(runtime, message, state)] is given the same
    three arguments at every call of a run, so [get] is a function of the
    world alone; [None] is a falsy result. *)
Record Provider : Type := mkProvider {
  name : string;
  get : W -> Outcome (option ProviderResult) * W
}.

(** The runtime handle and the two mocked helpers of the test file. *)
Record Env : Type := mkEnv {
  agentId : string;
  getSetting : string -> option string;
  composeState : W -> Outcome State * W;
  useModel : string -> W -> Outcome string * W;
  providers : list Provider;
  processActions :
    Memory -> Memory -> (W -> Outcome unit * W) -> W -> Outcome unit * W;
  stateCacheGet : string -> W -> list CachedResult;
  now : W -> Z;
  parseKeyValueXml : string -> W -> option Parsed * W;
  composePromptFromState : State -> string -> string
}.

(** What a run threads through its calls. *)
Record St : Type := mkSt {
  world : W;
  traceActionResult : list TraceEntry;
  logger : list LogLine;
  phases : list Phase
}.

Definition init (w : W) : St :=
  {| world := w; traceActionResult := []; logger := []; phases := [] |}.

Definition liftW {A} (f : W -> Outcome A * W) : M St A :=
  fun st =>
    let '(r, w) := f (world st) in
    (r, {| world := w; traceActionResult := traceActionResult st;
           logger := logger st; phases := phases st |}).

Definition push (e : TraceEntry) : M St unit :=
  modify (fun st =>
    {| world := world st; traceActionResult := traceActionResult st ++ [e];
       logger := logger st; phases := phases st |}).

Definition log (l : LogLine) : M St unit :=
  modify (fun st =>
    {| world := world st; traceActionResult := traceActionResult st;
       logger := logger st ++ [l]; phases := phases st |}).

Definition enter (p : Phase) : M St unit :=
  modify (fun st =>
    {| world := world st; traceActionResult := traceActionResult st;
       logger := logger st; phases := phases st ++ [p] |}).

Variable env : Env.
Variable message : Memory.
Variable callback : Content -> W -> Outcome unit * W.

(** [parseInt(runtime.getSetting('MAX_MULTISTEP_ITERATIONS') || '6')] *)
Definition maxIterations : option Z :=
  parseInt (or_else (getSetting env "MAX_MULTISTEP_ITERATIONS") "6").

(** The [for (const providerName of providers)] loop of a step. *)
Fixpoint executeProviders (thought : option string) (names : list string)
    : M St unit :=
  match names with
  | [] => ret tt
  | providerName :: rest =>
      match find (fun p => String.eqb (name p) providerName) (providers env) with
      | None =>
          log (LogProviderNotFound providerName) ;;;
          push {| actionName := providerName; success := false; text := None;
                  error := Some ("Provider not found: " ++ providerName) |} ;;;
          executeProviders thought rest
      | Some provider =>
          providerResult <- liftW (get provider) ;;
          match providerResult with
          | None =>
              log (LogProviderNoResult providerName) ;;;
              push {| actionName := providerName; success := false;
                      text := None;
                      error := Some "Provider returned no result" |} ;;;
              executeProviders thought rest
          | Some r =>
              let ok := truthy (pr_text r) in
              push {| actionName := providerName; success := ok;
                      text := if ok then pr_text r else None;
                      error := if ok then None else pr_error r |} ;;;
              liftW (callback
                {| c_text := "🔎 Provider executed: " ++ providerName;
                   c_actions := [providerName];
                   c_thought := nullish thought "";
                   c_simple := false |}) ;;;
              executeProviders thought rest
          end
      end
  end.

(** The [if (action) { .. }] block of a step. *)
Definition executeAction (thought : option string) (action : string)
    : M St unit :=
  let actionContent :=
    {| c_text := "🔎 Executing action: " ++ action;
       c_actions := [action];
       c_thought := nullish thought "";
       c_simple := false |} in
  createdAt <- gets (fun st => now env (world st)) ;;
  liftW (processActions env message
           {| m_id := "test-action-id"; m_entityId := agentId env;
              m_roomId := m_roomId message; m_createdAt := createdAt;
              m_content := actionContent |}
           (callback actionContent)) ;;;
  actionResults <-
    gets (fun st => stateCacheGet env (m_id message ++ "_action_results")
                      (world st)) ;;
  let result := head actionResults in
  let ok :=
    match result with
    | Some r => nullish (r_success r) false
    | None => false
    end in
  let resultText :=
    match result with Some r => r_text r | None => None end in
  push {| actionName := action; success := ok; text := resultText;
          error := if ok then None else resultText |}.

(** The body of the [try] block of a step. *)
Definition stepBody (parsedStep : Parsed) : M St unit :=
  executeProviders (p_thought parsedStep) (p_providers parsedStep) ;;;
  if truthy (p_action parsedStep)
  then executeAction (p_thought parsedStep) (nullish (p_action parsedStep) "")
  else ret tt.

(** The entry its [catch] block pushes. *)
Definition stepFailure (parsedStep : Parsed) (err : string) : TraceEntry :=
  {| actionName := or_else (p_action parsedStep) "unknown";
     success := false; text := None; error := Some err |}.

(** The [try { .. } catch (err) { .. }] of a step. *)
Definition executeStep (parsedStep : Parsed) : M St unit :=
  tryCatch (stepBody parsedStep)
    (fun err => log (LogStepError err) ;;; push (stepFailure parsedStep err)).

Definition parseError : TraceEntry :=
  {| actionName := "parse_error"; success := false; text := None;
     error := Some "Failed to parse step result" |}.

(** One pass through the body of the [while] loop, [iterationCount] already
    incremented.  [Some exit] is a [break]; [None] falls through to the
    loop condition. *)
Definition iteration (iterationCount : Z) : M St (option LoopExit) :=
  enter DECIDING ;;;
  log (LogStart iterationCount maxIterations) ;;;
  composed <- liftW (composeState env) ;;
  trace <- gets traceActionResult ;;
  let accumulatedState :=
    {| values := values composed; actionResults := trace |} in
  let prompt :=
    composePromptFromState env accumulatedState "multiStepDecisionTemplate" in
  stepResultRaw <- liftW (useModel env prompt) ;;
  parsedStep <- liftW (fun w =>
                  let '(p, w1) := parseKeyValueXml env stepResultRaw w in
                  (Ok p, w1)) ;;
  match parsedStep with
  | None =>
      log (LogParseFailed iterationCount) ;;;
      push parseError ;;;
      ret (Some ExitParseError)
  | Some step =>
      if isFinished (p_isFinish step) then
        log (LogComplete iterationCount) ;;;
        liftW (callback {| c_text := ""; c_actions := [];
                           c_thought := nullish (p_thought step) "";
                           c_simple := false |}) ;;;
        ret (Some ExitFinished)
      else if (match p_providers step with [] => true | _ => false end
               && negb (truthy (p_action step)))%bool then
        log (LogNothingToDo iterationCount) ;;;
        ret (Some ExitNothingToDo)
      else
        enter EXECUTING ;;;
        executeStep step ;;;
        ret None
  end.

(** [while (iterationCount < maxIterations) { iterationCount++; .. }].
    [fuel] bounds the recursion; [Z.to_nat] of the ceiling is always enough
    ([loop_terminates] below), so [None] never comes out of a run. *)
Fixpoint loop (fuel : nat) (iterationCount : Z) (st : St)
    : option (Outcome (LoopExit * Z) * St) :=
  if lessThan iterationCount maxIterations then
    match fuel with
    | O => None
    | S fuel' =>
        let iterationCount := (iterationCount + 1)%Z in
        match iteration iterationCount st with
        | (Throw e, st1) => Some (Throw e, st1)
        | (Ok (Some exit), st1) => Some (Ok (exit, iterationCount), st1)
        | (Ok None, st1) => loop fuel' iterationCount st1
        end
    end
  else Some (Ok (ExitCeiling, iterationCount), st).

Record Result : Type := mkResult {
  responseContent : option Content;
  responseMessages : list Memory;
  state : State;
  mode : Mode
}.

(** The summarization call: state composition, the model, the parse. *)
Definition askSummary : M St (State * option Parsed) :=
  accumulatedState <- liftW (composeState env) ;;
  let summaryPrompt :=
    composePromptFromState env accumulatedState "multiStepSummaryTemplate" in
  finalOutput <- liftW (useModel env summaryPrompt) ;;
  summary <- liftW (fun w =>
               let '(p, w1) := parseKeyValueXml env finalOutput w in
               (Ok p, w1)) ;;
  ret (accumulatedState, summary).

(** [summary?.text] *)
Definition summaryText (summary : option Parsed) : option string :=
  match summary with Some s => p_text s | None => None end.

(** The value the function returns, from the parsed summary. *)
Definition buildResult (accumulatedState : State) (summary : option Parsed)
    (createdAt : Z) : Result :=
  let responseContent :=
    if truthy (summaryText summary) then
      Some {| c_actions := ["REPLY"];
              c_text := nullish (summaryText summary) "";
              c_thought :=
                or_else (match summary with
                         | Some s => p_thought s
                         | None => None
                         end)
                        "Final user-facing message after task completion.";
              c_simple := true |}
    else None in
  {| responseContent := responseContent;
     responseMessages :=
       match responseContent with
       | Some c => [ {| m_id := "test-response-id"; m_entityId := agentId env;
                        m_roomId := m_roomId message;
                        m_createdAt := createdAt; m_content := c |} ]
       | None => []
       end;
     state := accumulatedState;
     mode := match responseContent with Some _ => simple | None => none end |}.

(** Everything after the loop. *)
Definition summarize (iterationCount : Z) : M St Result :=
  (if atLeast iterationCount maxIterations
   then log (LogMaxReached maxIterations) else ret tt) ;;;
  enter SUMMARIZING ;;;
  asked <- askSummary ;;
  createdAt <- gets (fun st => now env (world st)) ;;
  enter DONE ;;;
  ret (buildResult (fst asked) (snd asked) createdAt).

(** Fuel for a run: the ceiling itself ([NaN]: none is needed). *)
Definition fuelFor (ceiling : option Z) : nat :=
  match ceiling with Some m => Z.to_nat m | None => O end.

Definition runLoop (w : W) : option (Outcome (LoopExit * Z) * St) :=
  loop (fuelFor maxIterations) 0%Z (init w).

Definition runMultiStepCoreTest (w : W) : option (Outcome Result * St) :=
  match runLoop w with
  | None => None
  | Some (Throw e, st1) => Some (Throw e, st1)
  | Some (Ok (_, iterationCount), st1) => Some (summarize iterationCount st1)
  end.

(** *** Notions used to state the properties *)

(** A computation that leaves the record of phases as it found it. *)
Definition keeps_phases {A} (m : M St A) : Prop :=
  forall st, phases (snd (m st)) = phases st.

(** How often a run has entered a phase. *)
Definition count (p : Phase) (st : St) : nat :=
  count_occ Phase_eq_dec (phases st) p.

(** The state a failed parse leaves behind at iteration [iterationCount]. *)
Definition afterParseFailure (iterationCount : Z) (st : St) (w : W) : St :=
  {| world := w;
     traceActionResult := traceActionResult st ++ [parseError];
     logger := logger st ++ [LogStart iterationCount maxIterations;
                             LogParseFailed iterationCount];
     phases := phases st ++ [DECIDING] |}.

(** The state in which the [try] block of an iteration starts. *)
Definition atExecuting (iterationCount : Z) (st : St) (w : W) : St :=
  {| world := w;
     traceActionResult := traceActionResult st;
     logger := logger st ++ [LogStart iterationCount maxIterations];
     phases := phases st ++ [DECIDING; EXECUTING] |}.

(** No exception leaves the [DECIDING] part of any step: state composition
    and the model answer, and the callback accepts the completion notice. *)
Definition decidingNeverThrows : Prop :=
  (forall w, exists s w1, composeState env w = (Ok s, w1))
  /\ (forall prompt w, exists raw w1, useModel env prompt w = (Ok raw, w1))
  /\ (forall thought w, exists w1,
        callback {| c_text := ""; c_actions := []; c_thought := thought;
                    c_simple := false |} w = (Ok tt, w1)).

(** *** How the calls touch the record of phases *)

Lemma keeps_ret {A} (a : A) : keeps_phases (ret a).
Proof. intros st. reflexivity. Qed.

Lemma keeps_bind {A B} (m : M St A) (k : A -> M St B) :
  keeps_phases m -> (forall a, keeps_phases (k a)) -> keeps_phases (bind m k).
Proof.
  intros Hm Hk st. unfold bind. specialize (Hm st).
  destruct (m st) as [[a|e] st1]; simpl in *.
  - rewrite Hk. exact Hm.
  - exact Hm.
Qed.

Lemma keeps_tryCatch {A} (body : M St A) (handler : string -> M St A) :
  keeps_phases body -> (forall e, keeps_phases (handler e)) ->
  keeps_phases (tryCatch body handler).
Proof.
  intros Hb Hh st. unfold tryCatch. specialize (Hb st).
  destruct (body st) as [[a|e] st1]; simpl in *.
  - exact Hb.
  - rewrite Hh. exact Hb.
Qed.

Lemma keeps_liftW {A} (f : W -> Outcome A * W) : keeps_phases (liftW f).
Proof. intros st. unfold liftW. destruct (f (world st)). reflexivity. Qed.

Lemma keeps_push e : keeps_phases (push e).
Proof. intros st. reflexivity. Qed.

Lemma keeps_log l : keeps_phases (log l).
Proof. intros st. reflexivity. Qed.

Lemma keeps_gets {A} (f : St -> A) : keeps_phases (gets f).
Proof. intros st. reflexivity. Qed.

Create HintDb phases.
#[local] Hint Resolve keeps_ret keeps_liftW keeps_push keeps_log keeps_gets
  : phases.

Ltac keeps :=
  repeat first
    [ apply keeps_bind; [|intros ?]
    | apply keeps_tryCatch; [|intros ?]
    | solve [auto with phases] ].

Lemma keeps_executeProviders thought names :
  keeps_phases (executeProviders thought names).
Proof.
  induction names as [|providerName rest IH]; simpl.
  - apply keeps_ret.
  - destruct (find _ (providers env)) as [provider|].
    + apply keeps_bind; [apply keeps_liftW|]. intros [r|]; keeps.
    + keeps.
Qed.

Lemma keeps_executeAction thought action :
  keeps_phases (executeAction thought action).
Proof. unfold executeAction. keeps. Qed.

Lemma keeps_executeStep parsedStep : keeps_phases (executeStep parsedStep).
Proof.
  unfold executeStep, stepBody. keeps.
  - apply keeps_executeProviders.
  - destruct (truthy (p_action parsedStep)).
    + apply keeps_executeAction.
    + apply keeps_ret.
Qed.

Lemma keeps_askSummary : keeps_phases askSummary.
Proof.
  unfold askSummary. keeps.
Qed.

(** The handler of a step never throws, so neither does the step. *)
Lemma executeStep_caught parsedStep st :
  exists st1, executeStep parsedStep st = (Ok tt, st1).
Proof.
  unfold executeStep, tryCatch.
  match goal with |- context [match ?b st with _ => _ end] =>
    destruct (b st) as [[[]|e] st1] end.
  - eauto.
  - eexists. reflexivity.
Qed.

(** One pass of the loop body enters [DECIDING] once, and [EXECUTING]
    once more exactly when it falls through to the loop condition. *)
Lemma iteration_phases iterationCount st :
  (fst (iteration iterationCount st) = Ok None
   /\ phases (snd (iteration iterationCount st))
      = (phases st ++ [DECIDING; EXECUTING])%list)
  \/ (fst (iteration iterationCount st) <> Ok None
      /\ phases (snd (iteration iterationCount st))
         = (phases st ++ [DECIDING])%list).
Proof.
  unfold iteration, bind, enter, log, push, modify, liftW, gets, ret. simpl.
  destruct (composeState env (world st)) as [[composed|e] w1]; simpl;
    [|right; split; [discriminate|reflexivity]].
  destruct (useModel env _ w1) as [[raw|e] w2]; simpl;
    [|right; split; [discriminate|reflexivity]].
  destruct (parseKeyValueXml env raw w2) as [[step|] w3]; simpl;
    [|right; split; [discriminate|reflexivity]].
  destruct (isFinished (p_isFinish step)); simpl.
  { destruct (callback _ w3) as [[[]|e] w4]; simpl;
      right; split; (discriminate || reflexivity). }
  destruct (_ && _)%bool; simpl;
    [right; split; [discriminate|reflexivity]|].
  match goal with |- context [executeStep step ?s] =>
    pose proof (keeps_executeStep step s) as Hk;
    destruct (executeStep_caught step s) as [st1 Hs] end.
  rewrite Hs in *. simpl in *. left. split; [reflexivity|].
  rewrite Hk. rewrite <- app_assoc. reflexivity.
Qed.

(** More fuel than a run needs changes nothing. *)
Lemma loop_more_fuel fuel : forall iterationCount st r,
  loop fuel iterationCount st = Some r ->
  loop (S fuel) iterationCount st = Some r.
Proof.
  induction fuel as [|fuel IH]; intros i st r H.
  - simpl in *. destruct (lessThan i maxIterations); [discriminate|exact H].
  - cbn [loop] in *. destruct (lessThan i maxIterations); [|exact H].
    destruct (iteration (i + 1) st) as [[[exit|]|e] st1]; try exact H.
    apply IH. exact H.
Qed.

(** The loop: it ends within its fuel, and what it leaves behind. *)
Lemma loop_spec fuel : forall iterationCount st,
  (Z.to_nat (nullish maxIterations 0%Z - iterationCount) <= fuel)%nat ->
  exists o st1 (k : nat),
    loop fuel iterationCount st = Some (o, st1)
    /\ count DECIDING st1 = (count DECIDING st + k)%nat
    /\ (count EXECUTING st1 <= count EXECUTING st + k)%nat
    /\ count SUMMARIZING st1 = count SUMMARIZING st
    /\ (k <= Z.to_nat (nullish maxIterations 0%Z - iterationCount))%nat
    /\ match o with
       | Ok (exit, i) =>
           i = (iterationCount + Z.of_nat k)%Z
           /\ (exit = ExitCeiling -> lessThan i maxIterations = false)
       | Throw _ => True
       end.
Proof.
  induction fuel as [|fuel IH]; intros i st Hfuel; simpl.
  - destruct (lessThan i maxIterations) eqn:Hlt.
    + exfalso. unfold lessThan in Hlt. destruct maxIterations as [m|]; [|discriminate].
      simpl in Hfuel. apply Z.ltb_lt in Hlt. lia.
    + exists (Ok (ExitCeiling, i)), st, O. rewrite !Nat.add_0_r, Z.add_0_r.
      repeat split; auto. lia.
  - destruct (lessThan i maxIterations) eqn:Hlt.
    2:{ exists (Ok (ExitCeiling, i)), st, O. rewrite !Nat.add_0_r, Z.add_0_r.
        repeat split; auto. lia. }
    assert (Hpos : (i < nullish maxIterations 0)%Z).
    { unfold lessThan in Hlt. destruct maxIterations as [m|]; [|discriminate].
      simpl. now apply Z.ltb_lt in Hlt. }
    destruct (iteration_phases (i + 1) st) as [[Ho Hp]|[Ho Hp]];
      destruct (iteration (i + 1) st) as [o st1] eqn:Hit; simpl in *.
    + subst o.
      destruct (IH (i + 1)%Z st1 ltac:(lia)) as (o & st2 & k & Hl & Hd & He & Hs & Hk & Ho).
      exists o, st2, (S k). rewrite Hl. split; [reflexivity|].
      unfold count in *. rewrite Hp in *.
      rewrite !count_occ_app in *. simpl in *.
      repeat split; try lia.
      destruct o as [[exit i']|e]; [|exact I].
      destruct Ho as [-> Hc]. split; [lia|]. intros Hx.
      specialize (Hc Hx).
      replace (i + Z.of_nat (S k))%Z with (i + 1 + Z.of_nat k)%Z by lia.
      exact Hc.
    + assert (Hcount : count DECIDING st1 = (count DECIDING st + 1)%nat
                       /\ count EXECUTING st1 = count EXECUTING st
                       /\ count SUMMARIZING st1 = count SUMMARIZING st).
      { unfold count. rewrite Hp, !count_occ_app. simpl. lia. }
      destruct Hcount as (Hd & He & Hs).
      destruct o as [[exit|]|e]; [| congruence |].
      * exists (Ok (exit, (i + 1)%Z)), st1, 1%nat.
        repeat split; try lia.
        intros ->. exfalso. revert Hit. clear.
        unfold iteration, bind, enter, log, push, modify, liftW, gets, ret.
        simpl.
        destruct (composeState env (world st)) as [[composed|e] w1]; simpl;
          [|discriminate].
        destruct (useModel env _ w1) as [[raw|e] w2]; simpl; [|discriminate].
        destruct (parseKeyValueXml env raw w2) as [[step|] w3]; simpl;
          [|discriminate].
        destruct (isFinished (p_isFinish step)); simpl.
        { destruct (callback _ w3) as [[[]|e] w4]; simpl; discriminate. }
        destruct (_ && _)%bool; simpl; [discriminate|].
        match goal with |- context [executeStep step ?s] =>
          destruct (executeStep_caught step s) as [st2 Hs] end.
        rewrite Hs. discriminate.
      * exists (Throw e), st1, 1%nat. repeat split; try lia.
Qed.

Lemma loop_at_ceiling fuel iterationCount st :
  lessThan iterationCount maxIterations = false ->
  loop fuel iterationCount st = Some (Ok (ExitCeiling, iterationCount), st).
Proof. intros H. destruct fuel; simpl; rewrite H; reflexivity. Qed.

Lemma fuelFor_enough :
  (Z.to_nat (nullish maxIterations 0%Z - 0) <= fuelFor maxIterations)%nat.
Proof. unfold fuelFor. destruct maxIterations; simpl; lia. Qed.

Lemma count_init p w : count p (init w) = O.
Proof. reflexivity. Qed.

(** What the part after the loop adds to the record of phases. *)
Lemma summarize_trail iterationCount st :
  phases (snd (summarize iterationCount st))
  = (phases st ++ [SUMMARIZING])%list
  \/ phases (snd (summarize iterationCount st))
     = (phases st ++ [SUMMARIZING; DONE])%list.
Proof.
  unfold summarize, bind.
  set (st0 := snd ((if atLeast iterationCount maxIterations
                    then log (LogMaxReached maxIterations) else ret tt) st)).
  assert (H0 : phases st0 = phases st).
  { unfold st0. destruct (atLeast iterationCount maxIterations); reflexivity. }
  replace ((if atLeast iterationCount maxIterations
            then log (LogMaxReached maxIterations) else ret tt) st)
    with (Ok tt, st0)
    by (unfold st0; destruct (atLeast iterationCount maxIterations); reflexivity).
  cbn [enter modify].
  match goal with |- context [askSummary ?s] =>
    pose proof (keeps_askSummary s) as Hk;
    destruct (askSummary s) as [[asked|e] st1] end;
    simpl in Hk; cbn; rewrite Hk, H0.
  - right. now rewrite <- app_assoc.
  - left. reflexivity.
Qed.

Lemma summarize_phases iterationCount st :
  count SUMMARIZING (snd (summarize iterationCount st))
  = S (count SUMMARIZING st)
  /\ count DECIDING (snd (summarize iterationCount st)) = count DECIDING st
  /\ count EXECUTING (snd (summarize iterationCount st)) = count EXECUTING st.
Proof.
  unfold count.
  destruct (summarize_trail iterationCount st) as [-> | ->];
    rewrite !count_occ_app; simpl; lia.
Qed.

(** C1 (as amended).  The ceiling is [parseInt] of the setting, 6 when the
    setting is unset.  Every run of the loop ends; it enters [DECIDING] at
    most ceiling-many times and [EXECUTING] no more often than [DECIDING];
    at the ceiling the loop is left at once.  Whenever the loop is left (by
    the ceiling or by one of its three breaks) the summarization step runs
    exactly once.  An exception thrown in a [DECIDING] step is not caught:
    it ends the cycle, and then no summarization runs. *)
Theorem loop_bounded_then_summarized (w : W) :
  (truthy (getSetting env "MAX_MULTISTEP_ITERATIONS") = false ->
   maxIterations = Some 6%Z)
  /\ (forall fuel iterationCount st,
        lessThan iterationCount maxIterations = false ->
        loop fuel iterationCount st
        = Some (Ok (ExitCeiling, iterationCount), st))
  /\ exists leftBy stl,
       runLoop w = Some (leftBy, stl)
       /\ match maxIterations with
          | Some ceiling =>
              (Z.of_nat (count DECIDING stl) <= Z.max 0 ceiling)%Z
          | None => count DECIDING stl = 0%nat
          end
       /\ (count EXECUTING stl <= count DECIDING stl)%nat
       /\ match leftBy with
          | Ok (exit, iterationCount) =>
              iterationCount = Z.of_nat (count DECIDING stl)
              /\ (exit = ExitCeiling ->
                  lessThan iterationCount maxIterations = false)
              /\ exists o st2,
                   runMultiStepCoreTest w = Some (o, st2)
                   /\ count SUMMARIZING st2 = 1%nat
                   /\ count DECIDING st2 = count DECIDING stl
          | Throw e =>
              runMultiStepCoreTest w = Some (Throw e, stl)
              /\ count SUMMARIZING stl = 0%nat
          end.
Proof.
  split; [|split].
  - intros H. unfold maxIterations, or_else. rewrite H. reflexivity.
  - intros fuel i st H. now apply loop_at_ceiling.
  - destruct (loop_spec (fuelFor maxIterations) 0%Z (init w) fuelFor_enough)
      as (o & stl & k & Hl & Hd & He & Hs & Hk & Ho).
    rewrite !count_init in *. simpl in *.
    exists o, stl. unfold runLoop. rewrite Hl.
    split; [reflexivity|]. split.
    { rewrite Hd. destruct maxIterations as [ceiling|]; simpl in Hk; lia. }
    split; [lia|].
    unfold runMultiStepCoreTest, runLoop. rewrite Hl.
    destruct o as [[exit i]|e].
    + destruct Ho as [-> Hc]. repeat split; [lia|exact Hc|].
      destruct (summarize (0 + Z.of_nat k) stl) as [o st2] eqn:Hsum.
      exists o, st2. split; [reflexivity|].
      pose proof (summarize_phases (0 + Z.of_nat k) stl) as (H1 & H2 & _).
      rewrite Hsum in *. simpl in *. lia.
    + split; [reflexivity|exact Hs].
Qed.

(** The summarization step, taken apart: the returned value is built from
    what the summarization call parsed. *)
Lemma summarize_result iterationCount st res st2 :
  summarize iterationCount st = (Ok res, st2) ->
  exists before accumulatedState summary after,
    world before = world st
    /\ traceActionResult before = traceActionResult st
    /\ askSummary before = (Ok (accumulatedState, summary), after)
    /\ res = buildResult accumulatedState summary (now env (world after)).
Proof.
  unfold summarize, bind.
  set (st0 := snd ((if atLeast iterationCount maxIterations
                    then log (LogMaxReached maxIterations) else ret tt) st)).
  assert (H0 : world st0 = world st
               /\ traceActionResult st0 = traceActionResult st).
  { unfold st0. destruct (atLeast iterationCount maxIterations); split; reflexivity. }
  replace ((if atLeast iterationCount maxIterations
            then log (LogMaxReached maxIterations) else ret tt) st)
    with (Ok tt, st0)
    by (unfold st0; destruct (atLeast iterationCount maxIterations); reflexivity).
  cbn [enter modify].
  match goal with |- context [askSummary ?s] =>
    set (before := s); destruct (askSummary before) as [[[acc summary]|e] after]
      eqn:Hask end; cbn; intros [= <- <-].
  exists before, acc, summary, after. repeat split; auto; apply H0.
Qed.

Lemma buildResult_simple accumulatedState summary createdAt s :
  summaryText summary = Some s -> s <> "" ->
  exists c m,
    responseContent (buildResult accumulatedState summary createdAt) = Some c
    /\ c_text c = s
    /\ responseMessages (buildResult accumulatedState summary createdAt) = [m]
    /\ m_content m = c
    /\ mode (buildResult accumulatedState summary createdAt) = simple.
Proof.
  intros Ht Hne. unfold buildResult.
  assert (H : truthy (summaryText summary) = true)
    by (apply truthy_spec; eauto).
  rewrite H, Ht. simpl. eexists _, _. repeat split.
Qed.

Lemma buildResult_none accumulatedState summary createdAt :
  truthy (summaryText summary) = false ->
  responseContent (buildResult accumulatedState summary createdAt) = None
  /\ responseMessages (buildResult accumulatedState summary createdAt) = []
  /\ mode (buildResult accumulatedState summary createdAt) = none.
Proof. intros H. unfold buildResult. rewrite H. repeat split. Qed.

(** The summarization step, call by call: the state is composed in the
    world the loop left, the model is asked with the summary prompt made
    from that state, and its answer is parsed; the value returned is built
    from that parse. *)
Lemma summarize_calls iterationCount st res st2 :
  summarize iterationCount st = (Ok res, st2) ->
  exists accumulatedState w1 finalOutput w2 summary w3,
    composeState env (world st) = (Ok accumulatedState, w1)
    /\ useModel env
         (composePromptFromState env accumulatedState
            "multiStepSummaryTemplate") w1
       = (Ok finalOutput, w2)
    /\ parseKeyValueXml env finalOutput w2 = (summary, w3)
    /\ world st2 = w3
    /\ res = buildResult accumulatedState summary (now env w3).
Proof.
  unfold summarize, bind.
  destruct (atLeast iterationCount maxIterations); cbn [log enter modify ret];
    unfold askSummary, bind, liftW, gets, ret; simpl.
  all: destruct (composeState env (world st)) as [[acc|e] w1]; simpl;
         [|discriminate].
  all: destruct (useModel env _ w1) as [[raw|e] w2] eqn:Hmodel; simpl;
         [|discriminate].
  all: destruct (parseKeyValueXml env raw w2) as [summary w3] eqn:Hparse; simpl.
  all: intros [= <- <-]; exists acc, w1, raw, w2, summary, w3; auto.
Qed.

(** C2. When a cycle returns, its mode is "simple" exactly when the answer
    of the model to the summary prompt parses to an object with a
    non-empty text: the summary is what [parseKeyValueXml] makes of what
    [useModel] answered to the summary template composed from the state
    read after the loop.  Then the response content carries exactly that
    text and there is one response message, holding that content.
    Otherwise the mode is "none", the response content is null and there
    is no response message. *)
Theorem mode_simple_iff_summary_text (w : W) (res : Result) (st : St) :
  runMultiStepCoreTest w = Some (Ok res, st) ->
  exists exit iterationCount stl accumulatedState w1 finalOutput w2 summary,
    runLoop w = Some (Ok (exit, iterationCount), stl)
    /\ composeState env (world stl) = (Ok accumulatedState, w1)
    /\ useModel env
         (composePromptFromState env accumulatedState
            "multiStepSummaryTemplate") w1
       = (Ok finalOutput, w2)
    /\ parseKeyValueXml env finalOutput w2 = (summary, world st)
    /\ state res = accumulatedState
    /\ (mode res = simple <->
        exists p s, summary = Some p /\ p_text p = Some s /\ s <> "")
    /\ (forall p s, summary = Some p -> p_text p = Some s -> s <> "" ->
        exists c m,
          responseContent res = Some c /\ c_text c = s
          /\ responseMessages res = [m] /\ m_content m = c)
    /\ (mode res <> simple ->
        mode res = none /\ responseContent res = None
        /\ responseMessages res = []).
Proof.
  unfold runMultiStepCoreTest. intros H.
  destruct (runLoop w) as [[[[exit i]|e] stl]|] eqn:Hl; try discriminate.
  injection H as H.
  destruct (summarize_calls _ _ _ _ H)
    as (acc & w1 & raw & w2 & summary & w3 & Hstate & Hmodel & Hparse & Hw & ->).
  exists exit, i, stl, acc, w1, raw, w2, summary.
  split; [reflexivity|]. split; [exact Hstate|]. split; [exact Hmodel|].
  split; [now rewrite Hw|]. split; [reflexivity|].
  destruct (truthy (summaryText summary)) eqn:Ht.
  - apply truthy_spec in Ht as (s & Hs & Hne).
    destruct (buildResult_simple acc summary (now env w3) s Hs Hne)
      as (c & m & Hc & Hct & Hm & Hmc & Hmode).
    split; [|split].
    + split; [|intros _; exact Hmode]. intros _.
      destruct summary as [p|]; [|discriminate]. simpl in Hs. eauto.
    + intros p s' -> Hp _. simpl in Hs. rewrite Hp in Hs.
      injection Hs as ->. exists c, m. repeat split; assumption.
    + intros Hn. contradiction.
  - destruct (buildResult_none acc summary (now env w3) Ht)
      as (Hc & Hm & Hmode).
    split; [|split].
    + split; [intros Hs; congruence|].
      intros (p & s & -> & Hp & Hne). exfalso.
      assert (truthy (summaryText (Some p)) = true)
        by (apply truthy_spec; simpl; eauto).
      congruence.
    + intros p s -> Hp Hne. exfalso.
      assert (truthy (summaryText (Some p)) = true)
        by (apply truthy_spec; simpl; eauto).
      congruence.
    + intros _. auto.
Qed.

(** C3 (as amended).  When the output of a [DECIDING] step does not parse,
    a failed trajectory entry named "parse_error" is appended and the loop
    is left at once, below the ceiling too: no further step is decided, and
    the cycle goes on to the summarization step. *)
Theorem parse_failure_stops_loop (fuel : nat) (iterationCount : Z) (st : St)
    (composed : State) (raw : string) (w1 w2 w3 : W) :
  lessThan iterationCount maxIterations = true ->
  composeState env (world st) = (Ok composed, w1) ->
  useModel env
    (composePromptFromState env
       {| values := values composed;
          actionResults := traceActionResult st |}
       "multiStepDecisionTemplate") w1 = (Ok raw, w2) ->
  parseKeyValueXml env raw w2 = (None, w3) ->
  loop (S fuel) iterationCount st
  = Some (Ok (ExitParseError, (iterationCount + 1)%Z),
          afterParseFailure (iterationCount + 1) st w3)
  /\ success parseError = false
  /\ count DECIDING (afterParseFailure (iterationCount + 1) st w3)
     = S (count DECIDING st)
  /\ count SUMMARIZING
       (snd (summarize (iterationCount + 1)
               (afterParseFailure (iterationCount + 1) st w3)))
     = S (count SUMMARIZING st).
Proof.
  intros Hlt Hc Hu Hp. split; [|split; [reflexivity|split]].
  - simpl. rewrite Hlt.
    unfold iteration, bind, enter, log, push, modify, liftW, gets, ret.
    simpl. rewrite Hc. simpl. rewrite Hu. simpl. rewrite Hp. simpl.
    unfold afterParseFailure. rewrite <- app_assoc. reflexivity.
  - unfold count, afterParseFailure. simpl. rewrite count_occ_app. simpl. lia.
  - destruct (summarize_phases (iterationCount + 1)
                (afterParseFailure (iterationCount + 1) st w3)) as (H & _).
    rewrite H. unfold count, afterParseFailure. simpl.
    rewrite count_occ_app. simpl. lia.
Qed.

(** *** Exceptions inside a step *)

Lemma provider_throw_reaches_catch thought providerName rest provider st err w1 :
  find (fun p => String.eqb (name p) providerName) (providers env)
  = Some provider ->
  get provider (world st) = (Throw err, w1) ->
  executeProviders thought (providerName :: rest) st
  = (Throw err,
     {| world := w1; traceActionResult := traceActionResult st;
        logger := logger st; phases := phases st |}).
Proof.
  intros Hf Hg. simpl. rewrite Hf. unfold bind, liftW. rewrite Hg. reflexivity.
Qed.

Lemma action_throw_reaches_catch thought action st err w1 :
  (forall responseMemory,
      processActions env message responseMemory
        (callback {| c_text := "🔎 Executing action: " ++ action;
                     c_actions := [action];
                     c_thought := nullish thought "";
                     c_simple := false |}) (world st) = (Throw err, w1)) ->
  executeAction thought action st
  = (Throw err,
     {| world := w1; traceActionResult := traceActionResult st;
        logger := logger st; phases := phases st |}).
Proof.
  intros Hp. unfold executeAction, bind, gets, liftW. simpl.
  rewrite Hp. reflexivity.
Qed.

Lemma executeStep_records parsedStep st err st1 :
  stepBody parsedStep st = (Throw err, st1) ->
  executeStep parsedStep st
  = (Ok tt,
     {| world := world st1;
        traceActionResult := traceActionResult st1 ++ [stepFailure parsedStep err];
        logger := logger st1 ++ [LogStepError err];
        phases := phases st1 |}).
Proof. intros H. unfold executeStep, tryCatch. rewrite H. reflexivity. Qed.

Lemma iteration_executes iterationCount st composed raw parsedStep w1 w2 w3 :
  composeState env (world st) = (Ok composed, w1) ->
  useModel env
    (composePromptFromState env
       {| values := values composed;
          actionResults := traceActionResult st |}
       "multiStepDecisionTemplate") w1 = (Ok raw, w2) ->
  parseKeyValueXml env raw w2 = (Some parsedStep, w3) ->
  isFinished (p_isFinish parsedStep) = false ->
  (p_providers parsedStep <> [] \/ truthy (p_action parsedStep) = true) ->
  iteration iterationCount st
  = (Ok None, snd (executeStep parsedStep (atExecuting iterationCount st w3))).
Proof.
  intros Hc Hu Hp Hf Hwork.
  unfold iteration, bind, enter, log, push, modify, liftW, gets, ret.
  simpl. rewrite Hc. simpl. rewrite Hu. simpl. rewrite Hp. simpl.
  rewrite Hf.
  assert (Hb : (match p_providers parsedStep with [] => true | _ => false end
                && negb (truthy (p_action parsedStep)))%bool = false).
  { destruct Hwork as [Hn | Ha].
    - destruct (p_providers parsedStep); [contradiction|reflexivity].
    - rewrite Ha. apply andb_false_r. }
  rewrite Hb. simpl.
  unfold atExecuting. rewrite <- app_assoc. simpl.
  match goal with |- context [executeStep parsedStep ?s] =>
    destruct (executeStep_caught parsedStep s) as [st1 Hs] end.
  rewrite Hs. reflexivity.
Qed.

Lemma iteration_ok iterationCount st :
  decidingNeverThrows ->
  exists exit st1, iteration iterationCount st = (Ok exit, st1).
Proof.
  intros (Hc & Hu & Hcb).
  unfold iteration, bind, enter, log, push, modify, liftW, gets, ret. simpl.
  destruct (Hc (world st)) as (s & w1 & ->). simpl.
  match goal with |- context [useModel env ?p w1] =>
    destruct (Hu p w1) as (raw & w2 & ->) end. simpl.
  destruct (parseKeyValueXml env raw w2) as [[step|] w3]; simpl; [|eauto].
  destruct (isFinished (p_isFinish step)); simpl.
  - destruct (Hcb (nullish (p_thought step) "") w3) as (w4 & ->). simpl. eauto.
  - destruct (_ && _)%bool; simpl; [eauto|].
    match goal with |- context [executeStep step ?s] =>
      destruct (executeStep_caught step s) as [st1 ->] end.
    eauto.
Qed.

Lemma loop_ok fuel : forall iterationCount st,
  decidingNeverThrows ->
  forall r, loop fuel iterationCount st = Some r -> exists x, fst r = Ok x.
Proof.
  induction fuel as [|fuel IH]; intros i st Hsafe r; simpl.
  - destruct (lessThan i maxIterations); [discriminate|]. intros [= <-]. eauto.
  - destruct (lessThan i maxIterations); [|intros [= <-]; eauto].
    destruct (iteration_ok (i + 1) st Hsafe) as (exit & st1 & ->).
    destruct exit as [exit|]; [intros [= <-]; eauto|].
    apply IH. exact Hsafe.
Qed.

Lemma summarize_ok iterationCount st :
  decidingNeverThrows -> exists res st1, summarize iterationCount st = (Ok res, st1).
Proof.
  intros (Hc & Hu & _). unfold summarize, bind.
  destruct (atLeast iterationCount maxIterations); cbn [log enter modify ret];
    unfold askSummary, bind, liftW, gets, ret; simpl.
  all: destruct (Hc (world st)) as (s & w1 & ->); simpl.
  all: match goal with |- context [useModel env ?p ?w] =>
         destruct (Hu p w) as (raw & w2 & ->) end; simpl.
  all: destruct (parseKeyValueXml env _ _) as [p w3]; simpl; eauto.
Qed.

(** C6. An exception thrown while a step pulls a provider or executes its
    action never leaves the step: the [catch] block appends a failed
    trajectory entry carrying the error text, the step completes, and the
    loop goes on to its next condition check.  When nothing throws in the
    [DECIDING] part, the whole cycle returns a result and the summarization
    step has run once, whatever providers, actions and the callbacks made
    from inside a step do. *)
Theorem step_exception_is_recorded :
  (forall parsedStep st, exists st1, executeStep parsedStep st = (Ok tt, st1))
  /\ (forall parsedStep st err st1,
        stepBody parsedStep st = (Throw err, st1) ->
        executeStep parsedStep st
        = (Ok tt,
           {| world := world st1;
              traceActionResult :=
                traceActionResult st1 ++ [stepFailure parsedStep err];
              logger := logger st1 ++ [LogStepError err];
              phases := phases st1 |})
        /\ success (stepFailure parsedStep err) = false
        /\ error (stepFailure parsedStep err) = Some err)
  /\ (forall parsedStep providerName rest provider st err w1,
        p_providers parsedStep = providerName :: rest ->
        find (fun p => String.eqb (name p) providerName) (providers env)
        = Some provider ->
        get provider (world st) = (Throw err, w1) ->
        executeStep parsedStep st
        = (Ok tt,
           {| world := w1;
              traceActionResult :=
                traceActionResult st ++ [stepFailure parsedStep err];
              logger := logger st ++ [LogStepError err];
              phases := phases st |}))
  /\ (forall parsedStep action st err w1,
        p_providers parsedStep = [] ->
        p_action parsedStep = Some action -> action <> "" ->
        (forall responseMemory thunk,
            processActions env message responseMemory thunk (world st)
            = (Throw err, w1)) ->
        executeStep parsedStep st
        = (Ok tt,
           {| world := w1;
              traceActionResult :=
                traceActionResult st
                ++ [ {| actionName := action; success := false; text := None;
                        error := Some err |} ];
              logger := logger st ++ [LogStepError err];
              phases := phases st |}))
  /\ (forall fuel iterationCount st composed raw parsedStep w1 w2 w3,
        lessThan iterationCount maxIterations = true ->
        composeState env (world st) = (Ok composed, w1) ->
        useModel env
          (composePromptFromState env
             {| values := values composed;
                actionResults := traceActionResult st |}
             "multiStepDecisionTemplate") w1 = (Ok raw, w2) ->
        parseKeyValueXml env raw w2 = (Some parsedStep, w3) ->
        isFinished (p_isFinish parsedStep) = false ->
        (p_providers parsedStep <> [] \/ truthy (p_action parsedStep) = true) ->
        loop (S fuel) iterationCount st
        = loop fuel (iterationCount + 1)
            (snd (executeStep parsedStep
                    (atExecuting (iterationCount + 1) st w3))))
  /\ (decidingNeverThrows ->
      forall w, exists res st,
        runMultiStepCoreTest w = Some (Ok res, st)
        /\ count SUMMARIZING st = 1%nat).
Proof.
  split; [exact executeStep_caught|].
  split.
  { intros parsedStep st err st1 H.
    rewrite (executeStep_records _ _ _ _ H). repeat split. }
  split.
  { intros parsedStep providerName rest provider st err w1 Hp Hf Hg.
    rewrite (executeStep_records parsedStep st err
               {| world := w1; traceActionResult := traceActionResult st;
                  logger := logger st; phases := phases st |});
      [reflexivity|].
    unfold stepBody, bind. rewrite Hp.
    rewrite (provider_throw_reaches_catch _ _ _ _ _ _ _ Hf Hg). reflexivity. }
  split.
  { intros parsedStep action st err w1 Hp Ha Hne Hthrow.
    assert (Ht : truthy (p_action parsedStep) = true)
      by (apply truthy_spec; eauto).
    assert (Hb : stepBody parsedStep st
                 = (Throw err,
                    {| world := w1; traceActionResult := traceActionResult st;
                       logger := logger st; phases := phases st |})).
    { unfold stepBody, bind. rewrite Hp, Ht, Ha. simpl.
      apply action_throw_reaches_catch. intros m. apply Hthrow. }
    rewrite (executeStep_records _ _ _ _ Hb). simpl.
    unfold stepFailure, or_else. rewrite Ht, Ha. reflexivity. }
  split.
  { intros fuel i st composed raw parsedStep w1 w2 w3 Hlt Hc Hu Hp Hf Hw.
    simpl. rewrite Hlt.
    rewrite (iteration_executes (i + 1) st composed raw parsedStep w1 w2 w3
               Hc Hu Hp Hf Hw).
    reflexivity. }
  intros Hsafe w.
  destruct (loop_spec (fuelFor maxIterations) 0%Z (init w) fuelFor_enough)
    as (o & stl & k & Hl & _ & _ & Hs & _).
  destruct (loop_ok _ _ _ Hsafe _ Hl) as ([exit i] & Ho). simpl in Ho. subst o.
  unfold runMultiStepCoreTest, runLoop. rewrite Hl.
  destruct (summarize_ok i stl Hsafe) as (res & st2 & Hsum).
  exists res, st2. rewrite Hsum. split; [reflexivity|].
  pose proof (summarize_phases i stl) as (H1 & _).
  rewrite Hsum in H1. simpl in H1. rewrite H1, Hs. reflexivity.
Qed.

End Loop.

Arguments mkState {V} values actionResults.
Arguments mkProvider {W} name get.
Arguments mkSt {W} world traceActionResult logger phases.
Arguments world {W} s.
Arguments traceActionResult {W} s.
Arguments logger {W} s.
Arguments phases {W} s.
Arguments mode {V} r.
Arguments responseContent {V} r.
Arguments responseMessages {V} r.
Arguments count {W} p st.
Arguments init {W} w.
Arguments maxIterations {W V} env.
Arguments loop {W V} env message callback fuel iterationCount st.
Arguments runLoop {W V} env message callback w.
Arguments runMultiStepCoreTest {W V} env message callback w.
Arguments summarize {W V} env message iterationCount.
Arguments askSummary {W V} env.
Arguments buildResult {W V} env message accumulatedState summary createdAt.
Arguments afterParseFailure {W V} env iterationCount st w.

(** *** The mocked runtime of the test file *)

(** What the mocks remember between calls: the values queued on
    [mockParseKeyValueXml] with [mockReturnValueOnce], and the contents the
    callback has been given. *)
Record TestWorld : Type := mkWorld {
  parseQueue : list (option Parsed);
  callbackCalls : list Content
}.

(** The mocked parser: the next queued value, or its fallback value. *)
Definition mockParseKeyValueXml (fallback : option Parsed) (_ : string)
    (w : TestWorld) : option Parsed * TestWorld :=
  match parseQueue w with
  | p :: rest => (p, {| parseQueue := rest; callbackCalls := callbackCalls w |})
  | [] => (fallback, w)
  end.

Definition mockCallback (c : Content) (w : TestWorld) : Outcome unit * TestWorld :=
  (Ok tt, {| parseQueue := parseQueue w;
             callbackCalls := callbackCalls w ++ [c] |}).

Definition errorCallback (_ : Content) (w : TestWorld) : Outcome unit * TestWorld :=
  (Throw "Callback failed", w).

Definition testProvider : Provider TestWorld :=
  mkProvider "TEST_PROVIDER"
    (fun w => (Ok (Some {| pr_text := Some "Provider result"; pr_error := None |}), w)).

Definition anotherProvider : Provider TestWorld :=
  mkProvider "ANOTHER_PROVIDER"
    (fun w => (Ok (Some {| pr_text := Some "Another result"; pr_error := None |}), w)).

Definition failingProvider : Provider TestWorld :=
  mkProvider "TEST_PROVIDER" (fun w => (Throw "Provider failed", w)).

Definition mockUseModel (_ : string) (w : TestWorld) : Outcome string * TestWorld :=
  (Ok "Mock LLM response", w).

Definition modelDown (_ : string) (w : TestWorld) : Outcome string * TestWorld :=
  (Throw "Model unavailable", w).

Definition mockProcessActions (_ _ : Memory)
    (_ : TestWorld -> Outcome unit * TestWorld) (w : TestWorld)
    : Outcome unit * TestWorld :=
  (Ok tt, w).

Definition failingProcessActions (_ _ : Memory)
    (_ : TestWorld -> Outcome unit * TestWorld) (w : TestWorld)
    : Outcome unit * TestWorld :=
  (Throw "Action failed", w).

Definition mockRuntime (setting : option string) (fallback : option Parsed)
    (provs : list (Provider TestWorld))
    (model : string -> TestWorld -> Outcome string * TestWorld)
    (actions : Memory -> Memory -> (TestWorld -> Outcome unit * TestWorld)
               -> TestWorld -> Outcome unit * TestWorld)
    : Env TestWorld unit :=
  {| agentId := "test-agent-id";
     getSetting := fun _ => setting;
     composeState := fun w => (Ok (mkState tt []), w);
     useModel := model;
     providers := provs;
     processActions := actions;
     stateCacheGet := fun _ _ => [];
     now := fun _ => 0%Z;
     parseKeyValueXml := mockParseKeyValueXml fallback;
     composePromptFromState := fun _ _ => "Test prompt" |}.

Definition testMessage : Memory :=
  {| m_id := "test-message-id"; m_entityId := "test-entity-id";
     m_roomId := "test-room-id"; m_createdAt := 0%Z;
     m_content := {| c_text := "Test message content"; c_actions := [];
                     c_thought := ""; c_simple := false |} |}.

(** The fallback value of the parser mock. *)
Definition defaultStep : Parsed :=
  mkParsed (Some "Test thought") ["TEST_PROVIDER"] (Some "TEST_ACTION")
    (FlagBool false) (Some "Test response text").

Definition step (thought : string) (provs : list string)
    (action : option string) (finish : bool) : option Parsed :=
  Some (mkParsed (Some thought) provs action (FlagBool finish) None).

Definition summaryOf (thought text : string) : option Parsed :=
  Some (mkParsed (Some thought) [] None FlagUndefined (Some text)).

Definition testRuntime : Env TestWorld unit :=
  mockRuntime (Some "6") (Some defaultStep) [testProvider; anotherProvider]
    mockUseModel mockProcessActions.

(** "should execute multi-step workflow successfully" *)
Definition successWorld : TestWorld :=
  mkWorld [ step "First step thought" ["TEST_PROVIDER"] None false;
            step "Second step thought" [] (Some "TEST_ACTION") false;
            step "Final step thought" [] None true;
            summaryOf "Task completed successfully" "Final response to user" ]
          [].

Definition successRun : option (Outcome (Result unit) * St TestWorld) :=
  Eval vm_compute in
    runMultiStepCoreTest testRuntime testMessage mockCallback
      successWorld.

Definition successResult : Result unit :=
  match successRun with
  | Some (Ok res, _) => res
  | _ => buildResult testRuntime testMessage (mkState tt []) None 0%Z
  end.

Definition successState : St TestWorld :=
  match successRun with
  | Some (_, st) => st
  | None => init successWorld
  end.

Example success_mode :
  mode successResult = simple
  /\ option_map c_text (responseContent successResult)
     = Some "Final response to user"
  /\ length (responseMessages successResult) = 1%nat
  /\ phases successState
     = [DECIDING; EXECUTING; DECIDING; EXECUTING; DECIDING; SUMMARIZING; DONE]
  /\ map actionName (traceActionResult successState)
     = ["TEST_PROVIDER"; "TEST_ACTION"].
Proof. repeat split. Qed.

(** That run returns.  Its summary is the fourth value queued on the
    parser, read when the model has answered the summary prompt. *)
Lemma mode_simple_iff_summary_text_witness :
  exists exit iterationCount stl accumulatedState w1 finalOutput w2 summary,
    runLoop testRuntime testMessage mockCallback successWorld
    = Some (Ok (exit, iterationCount), stl)
    /\ composeState TestWorld unit testRuntime (world stl)
       = (Ok accumulatedState, w1)
    /\ useModel TestWorld unit testRuntime
         (composePromptFromState TestWorld unit testRuntime accumulatedState
            "multiStepSummaryTemplate") w1
       = (Ok finalOutput, w2)
    /\ parseKeyValueXml TestWorld unit testRuntime finalOutput w2
       = (summary, world successState)
    /\ state unit successResult = accumulatedState
    /\ (mode successResult = simple <->
        exists p s, summary = Some p /\ p_text p = Some s /\ s <> "")
    /\ (forall p s, summary = Some p -> p_text p = Some s -> s <> "" ->
        exists c m,
          responseContent successResult = Some c /\ c_text c = s
          /\ responseMessages successResult = [m] /\ m_content m = c)
    /\ (mode successResult <> simple ->
        mode successResult = none /\ responseContent successResult = None
        /\ responseMessages successResult = []).
Proof.
  exact (mode_simple_iff_summary_text TestWorld unit testRuntime testMessage
           mockCallback successWorld successResult successState eq_refl).
Defined.

(** The same run with a summary that does not parse: the answer to the
    summary prompt is the only thing that changed, and the mode is "none". *)
Example unparsed_summary_gives_mode_none :
  match runMultiStepCoreTest testRuntime testMessage mockCallback
          (mkWorld [ step "First step thought" ["TEST_PROVIDER"] None false;
                     step "Second step thought" [] (Some "TEST_ACTION") false;
                     step "Final step thought" [] None true;
                     None ] []) with
  | Some (Ok res, _) =>
      mode res = none /\ responseContent res = None
      /\ responseMessages res = []
  | _ => False
  end.
Proof. vm_compute. repeat split. Qed.

(** "should handle malformed LLM responses gracefully": the first answer
    does not parse; a good step is queued behind it. *)
Definition malformedWorld : TestWorld :=
  mkWorld [ None; step "Second try" ["TEST_PROVIDER"] None false ] [].

(** With the ceiling at 6, the unparsable first answer ends the loop after
    one [DECIDING] step, at iteration 1: the step queued behind it is never
    asked for. *)
Lemma parse_failure_leaves_loop_below_ceiling :
  maxIterations testRuntime = Some 6%Z
  /\ option_map fst (runLoop testRuntime testMessage mockCallback malformedWorld)
     = Some (Ok (ExitParseError, 1%Z))
  /\ option_map (fun r => count DECIDING (snd r))
       (runLoop testRuntime testMessage mockCallback malformedWorld)
     = Some 1%nat
  /\ option_map (fun r => parseQueue (world (snd r)))
       (runLoop testRuntime testMessage mockCallback malformedWorld)
     = Some [ step "Second try" ["TEST_PROVIDER"] None false ].
Proof. repeat split. Qed.

(** The same run, step by step. *)
Lemma parse_failure_stops_loop_witness :
  loop testRuntime testMessage mockCallback 6 0%Z
    (init malformedWorld)
  = Some (Ok (ExitParseError, 1%Z),
          afterParseFailure testRuntime 1
            (init malformedWorld)
            (mkWorld [ step "Second try" ["TEST_PROVIDER"] None false ] []))
  /\ success parseError = false
  /\ count DECIDING
       (afterParseFailure testRuntime 1
          (init malformedWorld)
          (mkWorld [ step "Second try" ["TEST_PROVIDER"] None false ] []))
     = 1%nat
  /\ count SUMMARIZING
       (snd (summarize testRuntime testMessage 1
               (afterParseFailure testRuntime 1
                  (init malformedWorld)
                  (mkWorld [ step "Second try" ["TEST_PROVIDER"] None false ] []))))
     = 1%nat.
Proof.
  exact (parse_failure_stops_loop TestWorld unit testRuntime testMessage
           mockCallback 5 0%Z (init malformedWorld)
           (mkState tt []) "Mock LLM response" malformedWorld malformedWorld
           (mkWorld [ step "Second try" ["TEST_PROVIDER"] None false ] [])
           eq_refl eq_refl eq_refl eq_refl).
Defined.

(** A model call that fails in the first [DECIDING] step ends the cycle
    with that exception: the summarization step does not run at all. *)
Lemma model_failure_skips_summarization :
  option_map fst
    (runMultiStepCoreTest
       (mockRuntime (Some "6") (Some defaultStep) [testProvider] modelDown
          mockProcessActions)
       testMessage mockCallback (mkWorld [] []))
  = Some (Throw "Model unavailable")
  /\ option_map (fun r => phases (snd r))
       (runMultiStepCoreTest
          (mockRuntime (Some "6") (Some defaultStep) [testProvider] modelDown
             mockProcessActions)
          testMessage mockCallback (mkWorld [] []))
     = Some [DECIDING]
  /\ option_map (fun r => count SUMMARIZING (snd r))
       (runMultiStepCoreTest
          (mockRuntime (Some "6") (Some defaultStep) [testProvider] modelDown
             mockProcessActions)
          testMessage mockCallback (mkWorld [] []))
     = Some 0%nat.
Proof. repeat split. Qed.

(** "should respect maximum iteration limits": ceiling 2, steps that never
    finish; two decide/execute pairs, then one summarization. *)
Example ceiling_two :
  option_map (fun r => phases (snd r))
    (runMultiStepCoreTest
       (mockRuntime (Some "2")
          (step "Step that never finishes" ["TEST_PROVIDER"] None false)
          [testProvider; anotherProvider] mockUseModel mockProcessActions)
       testMessage mockCallback (mkWorld [] []))
  = Some [DECIDING; EXECUTING; DECIDING; EXECUTING; SUMMARIZING; DONE].
Proof. reflexivity. Qed.

(** "should handle provider execution errors gracefully" *)
Example provider_error_run :
  option_map
    (fun r => (match fst r with Ok res => Some (mode res) | Throw _ => None end,
               traceActionResult (snd r), phases (snd r)))
    (runMultiStepCoreTest
       (mockRuntime (Some "6") (Some defaultStep) [failingProvider]
          mockUseModel mockProcessActions)
       testMessage mockCallback
       (mkWorld [ step "Step with failing provider" ["TEST_PROVIDER"] None false;
                  step "Continue after error" [] None true;
                  summaryOf "Task completed despite errors"
                            "Response after handling errors" ] []))
  = Some (Some simple,
          [ {| actionName := "unknown"; success := false; text := None;
               error := Some "Provider failed" |} ],
          [DECIDING; EXECUTING; DECIDING; SUMMARIZING; DONE]).
Proof. reflexivity. Qed.

(** The failing provider of that test, under the step's [try]: the entry
    of the [catch] block is all the step leaves in the trajectory. *)
Lemma step_exception_is_recorded_witness :
  executeStep TestWorld unit
    (mockRuntime (Some "6") (Some defaultStep) [failingProvider]
       mockUseModel mockProcessActions)
    testMessage mockCallback
    (mkParsed (Some "Step with failing provider") ["TEST_PROVIDER"] None
       (FlagBool false) None)
    (init (mkWorld [] []))
  = (Ok tt,
     {| world := mkWorld [] [];
        traceActionResult :=
          [ {| actionName := "unknown"; success := false; text := None;
               error := Some "Provider failed" |} ];
        logger := [LogStepError "Provider failed"];
        phases := [] |}).
Proof.
  exact (proj1 (proj2 (proj2
           (step_exception_is_recorded TestWorld unit
              (mockRuntime (Some "6") (Some defaultStep) [failingProvider]
                 mockUseModel mockProcessActions)
              testMessage mockCallback)))
           (mkParsed (Some "Step with failing provider") ["TEST_PROVIDER"]
              None (FlagBool false) None)
           "TEST_PROVIDER" [] failingProvider (init (mkWorld [] []))
           "Provider failed" (mkWorld [] []) eq_refl eq_refl eq_refl).
Defined.

(** "should use default MAX_MULTISTEP_ITERATIONS when not set" *)
Lemma loop_bounded_then_summarized_witness :
  maxIterations
    (mockRuntime None (Some defaultStep) [testProvider] mockUseModel
       mockProcessActions) = Some 6%Z.
Proof.
  exact (proj1 (loop_bounded_then_summarized TestWorld unit
                  (mockRuntime None (Some defaultStep) [testProvider]
                     mockUseModel mockProcessActions)
                  testMessage mockCallback (mkWorld [] [])) eq_refl).
Defined.

(** "should handle action execution errors gracefully" *)
Example action_error_run :
  option_map (fun r => (traceActionResult (snd r), phases (snd r)))
    (runMultiStepCoreTest
       (mockRuntime (Some "6") (Some defaultStep) [testProvider]
          mockUseModel failingProcessActions)
       testMessage mockCallback
       (mkWorld [ step "Step with failing action" [] (Some "TEST_ACTION") false;
                  step "Continue after error" [] None true;
                  summaryOf "Task completed despite errors"
                            "Response after handling errors" ] []))
  = Some ([ {| actionName := "TEST_ACTION"; success := false; text := None;
               error := Some "Action failed" |} ],
          [DECIDING; EXECUTING; DECIDING; SUMMARIZING; DONE]).
Proof. reflexivity. Qed.

(** "should handle callback errors gracefully": the callback throws on
    every provider notice; each step records it and the loop runs on to
    the ceiling. *)
Example callback_error_run :
  option_map (fun r => (length (traceActionResult (snd r)),
                        count DECIDING (snd r), count SUMMARIZING (snd r)))
    (runMultiStepCoreTest
       (mockRuntime (Some "6")
          (step "Step that calls callback" ["TEST_PROVIDER"] None false)
          [testProvider] mockUseModel mockProcessActions)
       testMessage errorCallback (mkWorld [] []))
  = Some (12%nat, 6%nat, 1%nat).
Proof. reflexivity. Qed.

End MultiStep.

(** ** World settings
    (the settings action that follows the loop in multi-step.test.ts:
     [getWorldSettings], [updateWorldSettings], [processSettingUpdates]) *)

Module Settings.

Local Open Scope js_scope.

(** The value of a setting, [string | boolean]; [null] is [None] below. *)
Inductive SettingValue : Type :=
| VString (s : string)
| VBoolean (b : bool).

(** A setting, by the properties this code reads: [name] and
    [description] as a template literal prints them, [required] by its
    truthiness. *)
Record Setting : Type := mkSetting {
  name : string;
  description : string;
  value : option SettingValue;
  required : bool;
  dependsOn : option (list string);
  onSetAction : option (SettingValue -> Outcome (option string))
}.

(** [WorldSettings]: own keys of the object to their settings. *)
Abbreviation WorldSettings := (gmap string Setting).

Record SettingUpdate : Type := mkUpdate {
  key : string;
  newValue : SettingValue
}.

Record UpdateResult : Type := mkUpdateResult {
  updatedAny : bool;
  messages : list string
}.

Inductive LogLine : Type :=
| LogGetFailed (error : string)
| LogNoWorld (serverId : string)
| LogUpdateFailed (error : string)
| LogProcessingFailed (error : string).

(** *** [processSettingUpdates]: the pass over the updates *)

(** [{ ...setting, value }] *)
Definition withValue (setting : Setting) (v : SettingValue) : Setting :=
  {| name := name setting; description := description setting;
     value := Some v; required := required setting;
     dependsOn := dependsOn setting; onSetAction := onSetAction setting |}.

(** [{ ...setting, value }] when [setting] is not a setting but something
    the copy inherits: the spread of a function, of [Object.prototype] or
    of a boolean copies nothing, and that of a string copies its
    characters, which nothing reads.  The object has a value and none of
    the other properties, so that its name and its description print as
    "undefined" and its [required] is falsy. *)
Definition valueOnly (v : SettingValue) : Setting :=
  {| name := "undefined"; description := "undefined"; value := Some v;
     required := false; dependsOn := None; onSetAction := None |}.

(** [updatedState]: the copy [{ ...worldSettings }] by its own
    properties, and what it inherits beside the members of
    [Object.prototype].  The copy starts with [Object.prototype] as its
    prototype; an update whose key is [__proto__] replaces that prototype
    by an object holding a [value], which the copy then inherits. *)
Record Copy : Type := mkCopy {
  own : WorldSettings;
  inheritedValue : option SettingValue
}.

(** [{ ...worldSettings }] *)
Definition copyOf (worldSettings : WorldSettings) : Copy :=
  {| own := worldSettings; inheritedValue := None |}.

(** The functions that every object inherits from [Object.prototype], by
    the name of the property, with the [name] of the function. *)
Definition inheritedFunction (key : string) : option string :=
  if String.eqb key "constructor" then Some "Object"
  else if existsb (String.eqb key)
            [ "hasOwnProperty"; "isPrototypeOf"; "propertyIsEnumerable";
              "toLocaleString"; "toString"; "valueOf"; "__defineGetter__";
              "__defineSetter__"; "__lookupGetter__"; "__lookupSetter__" ]
  then Some key
  else None.

(** What [updatedState[key]] reads: a property of the copy itself, or
    else what the prototype chain gives for that name. *)
Inductive Found : Type :=
| FoundSetting (setting : Setting)
| FoundFunction (functionName : string)
| FoundPrototype
| FoundValue (inherited : SettingValue)
| FoundNothing.

Definition read (updatedState : Copy) (key : string) : Found :=
  match own updatedState !! key with
  | Some setting => FoundSetting setting
  | None =>
      if String.eqb key "__proto__" then FoundPrototype
      else
        match inheritedFunction key with
        | Some functionName => FoundFunction functionName
        | None =>
            match inheritedValue updatedState with
            | Some inherited =>
                if String.eqb key "value" then FoundValue inherited
                else FoundNothing
            | None => FoundNothing
            end
        end
  end.

(** Truthiness of a value of a setting. *)
Definition truthyValue (v : SettingValue) : bool :=
  match v with
  | VString s => negb (String.eqb s "")
  | VBoolean b => b
  end.

(** [!setting] is false: objects and functions are truthy. *)
Definition isFound (setting : Found) : bool :=
  match setting with
  | FoundNothing => false
  | FoundValue inherited => truthyValue inherited
  | _ => true
  end.

(** [setting.dependsOn], read from whatever was found. *)
Definition dependsOnOf (setting : Found) : option (list string) :=
  match setting with
  | FoundSetting s => dependsOn s
  | _ => None
  end.

(** [setting.onSetAction] *)
Definition onSetActionOf (setting : Found)
    : option (SettingValue -> Outcome (option string)) :=
  match setting with
  | FoundSetting s => onSetAction s
  | _ => None
  end.

(** [setting.name] as a template literal prints it. *)
Definition nameOf (setting : Found) : string :=
  match setting with
  | FoundSetting s => name s
  | FoundFunction functionName => functionName
  | _ => "undefined"
  end.

(** [{ ...setting, value: update.value }] *)
Definition spreadWithValue (setting : Found) (v : SettingValue) : Setting :=
  match setting with
  | FoundSetting s => withValue s v
  | _ => valueOnly v
  end.

(** [updatedState[key] = written]. The assignment writes a property of
    the copy, a new one when the name was inherited, except for an
    inherited [__proto__]: that one is an accessor of [Object.prototype],
    whose setter makes [written] the prototype of the copy. *)
Definition assign (updatedState : Copy) (key : string) (setting : Found)
    (written : Setting) : Copy :=
  match setting with
  | FoundPrototype =>
      {| own := own updatedState; inheritedValue := value written |}
  | _ =>
      {| own := <[key := written]> (own updatedState);
         inheritedValue := inheritedValue updatedState |}
  end.

(** [updatedState[dep]?.value !== null]: only a setting of the copy can
    have a null value; whatever else the name gives (nothing, a function,
    the prototype, an inherited value) has no [value] that is null. *)
Definition valueNotNull (updatedState : Copy) (dep : string) : bool :=
  match read updatedState dep with
  | FoundSetting s => match value s with Some _ => true | None => false end
  | _ => true
  end.

(** [!setting.dependsOn?.length || setting.dependsOn.every(..)] *)
Definition dependenciesMet (updatedState : Copy)
    (dependsOn : option (list string)) : bool :=
  match dependsOn with
  | Some deps => forallb (valueNotNull updatedState) deps
  | None => true
  end.

(** The variables of the loop: the copy of the state, the messages and the
    flag. *)
Definition Acc : Type := (Copy * list string * bool)%type.

(** The body of [for (const update of updates)]. *)
Definition applyUpdate (acc : Acc) (update : SettingUpdate) : Outcome Acc :=
  let '(updatedState, messages, updatedAny) := acc in
  let setting := read updatedState (key update) in
  if negb (isFound setting) then Ok acc
  else if negb (dependenciesMet updatedState (dependsOnOf setting)) then
    Ok (updatedState,
        (messages ++ ["Cannot update " +:+ nameOf setting
                      +:+ " - dependencies not met"])%list,
        updatedAny)
  else
    let updatedState' :=
      assign updatedState (key update) setting
        (spreadWithValue setting (newValue update)) in
    let messages' :=
      (messages ++ ["Updated " +:+ nameOf setting +:+ " successfully"])%list in
    match onSetActionOf setting with
    | None => Ok (updatedState', messages', true)
    | Some action =>
        match action (newValue update) with
        | Throw e => Throw e
        | Ok actionMessage =>
            Ok (updatedState',
                if truthy actionMessage
                then (messages' ++ [nullish actionMessage ""])%list
                else messages',
                true)
        end
    end.

Fixpoint applyUpdates (acc : Acc) (updates : list SettingUpdate) : Outcome Acc :=
  match updates with
  | [] => Ok acc
  | update :: rest =>
      match applyUpdate acc update with
      | Ok acc' => applyUpdates acc' rest
      | Throw e => Throw e
      end
  end.

(** *** What one update does *)

Lemma read_own (updatedState : Copy) key setting :
  own updatedState !! key = Some setting ->
  read updatedState key = FoundSetting setting.
Proof. intros H. unfold read. now rewrite H. Qed.

Lemma read_setting (updatedState : Copy) key setting :
  read updatedState key = FoundSetting setting ->
  own updatedState !! key = Some setting.
Proof.
  unfold read. destruct (own updatedState !! key) as [s|].
  - now intros [= ->].
  - destruct (String.eqb key "__proto__"); [discriminate|].
    destruct (inheritedFunction key); [discriminate|].
    destruct (inheritedValue updatedState); [|discriminate].
    destruct (String.eqb key "value"); discriminate.
Qed.

(** Only a setting of the copy has dependencies or an action. *)
Lemma dependsOnOf_setting setting deps :
  dependsOnOf setting = Some deps ->
  exists s, setting = FoundSetting s /\ dependsOn s = Some deps.
Proof. destruct setting; try discriminate. intros H. now exists setting. Qed.

Lemma valueNotNull_spec (updatedState : Copy) dep :
  valueNotNull updatedState dep = true
  <-> forall s, own updatedState !! dep = Some s -> value s <> None.
Proof.
  unfold valueNotNull. destruct (own updatedState !! dep) as [s|] eqn:Hdep.
  - rewrite (read_own _ _ _ Hdep). destruct (value s) eqn:Hv; split.
    + intros _ s' [= <-]. congruence.
    + reflexivity.
    + discriminate.
    + intros H. exfalso. exact (H s eq_refl Hv).
  - split; [intros _ s [=]|]. intros _.
    destruct (read updatedState dep) as [s| | | |] eqn:Hread; try reflexivity.
    apply read_setting in Hread. congruence.
Qed.

Lemma dependenciesMet_spec (updatedState : Copy) dependsOn :
  dependenciesMet updatedState dependsOn = true
  <-> forall dep, In dep (nullish dependsOn []) ->
      forall s, own updatedState !! dep = Some s -> value s <> None.
Proof.
  unfold dependenciesMet. destruct dependsOn as [deps|]; simpl.
  - rewrite forallb_forall. split.
    + intros H dep Hin. apply valueNotNull_spec, H, Hin.
    + intros H dep Hin. apply valueNotNull_spec, H, Hin.
  - split; [intros _ dep []|reflexivity].
Qed.

Lemma applyUpdate_unknown (updatedState : Copy) msgs any update :
  isFound (read updatedState (key update)) = false ->
  applyUpdate (updatedState, msgs, any) update = Ok (updatedState, msgs, any).
Proof. intros H. unfold applyUpdate. now rewrite H. Qed.

Lemma applyUpdate_blocked (updatedState : Copy) msgs any update :
  isFound (read updatedState (key update)) = true ->
  dependenciesMet updatedState (dependsOnOf (read updatedState (key update)))
  = false ->
  applyUpdate (updatedState, msgs, any) update
  = Ok (updatedState,
        (msgs ++ ["Cannot update " +:+ nameOf (read updatedState (key update))
                  +:+ " - dependencies not met"])%list,
        any).
Proof. intros H Hd. unfold applyUpdate. now rewrite H, Hd. Qed.

Lemma applyUpdate_applied (updatedState : Copy) msgs any update :
  isFound (read updatedState (key update)) = true ->
  dependenciesMet updatedState (dependsOnOf (read updatedState (key update)))
  = true ->
  match applyUpdate (updatedState, msgs, any) update with
  | Ok (updatedState', msgs', any') =>
      updatedState'
      = assign updatedState (key update) (read updatedState (key update))
          (spreadWithValue (read updatedState (key update)) (newValue update))
      /\ any' = true
      /\ exists extra,
           msgs' = (msgs ++ ("Updated "
                             +:+ nameOf (read updatedState (key update))
                             +:+ " successfully") :: extra)%list
  | Throw e =>
      exists action,
        onSetActionOf (read updatedState (key update)) = Some action
        /\ action (newValue update) = Throw e
  end.
Proof.
  intros H Hd. unfold applyUpdate. rewrite H, Hd. simpl.
  destruct (onSetActionOf (read updatedState (key update))) as [action|].
  - destruct (action (newValue update)) as [actionMessage|e] eqn:Ha.
    + repeat split. destruct (truthy actionMessage).
      * exists [nullish actionMessage ""]. now rewrite <- app_assoc.
      * now exists [].
    + eauto.
  - repeat split. now exists [].
Qed.

(** An update changes the state only if its key gave something and the
    dependency check of what it gave passed. *)
Lemma applyUpdate_only_when (updatedState : Copy) msgs any update
    updatedState' msgs' any' :
  applyUpdate (updatedState, msgs, any) update = Ok (updatedState', msgs', any') ->
  (updatedState' = updatedState /\ any' = any)
  \/ (isFound (read updatedState (key update)) = true
      /\ dependenciesMet updatedState
           (dependsOnOf (read updatedState (key update))) = true
      /\ updatedState'
         = assign updatedState (key update) (read updatedState (key update))
             (spreadWithValue (read updatedState (key update))
                (newValue update))
      /\ any' = true).
Proof.
  intros Happ.
  destruct (isFound (read updatedState (key update))) eqn:Hk.
  - destruct (dependenciesMet updatedState
                (dependsOnOf (read updatedState (key update)))) eqn:Hd.
    + pose proof (applyUpdate_applied updatedState msgs any update Hk Hd)
        as Hspec.
      rewrite Happ in Hspec. destruct Hspec as (-> & -> & _).
      right. auto.
    + rewrite (applyUpdate_blocked _ _ _ _ Hk Hd) in Happ.
      injection Happ as <- _ <-. left. auto.
  - rewrite (applyUpdate_unknown _ _ _ _ Hk) in Happ.
    injection Happ as <- _ <-. left. auto.
Qed.

(** When the flag ends up set, some update of the list was applied: the
    first one that was gave something whose check passed in the state
    left by the updates before it. *)
Lemma applyUpdates_first_applied updates : forall (updatedState : Copy)
    msgs updatedState' msgs',
  applyUpdates (updatedState, msgs, false) updates
  = Ok (updatedState', msgs', true) ->
  exists before update after msgsBefore,
    updates = (before ++ update :: after)%list
    /\ applyUpdates (updatedState, msgs, false) before
       = Ok (updatedState, msgsBefore, false)
    /\ isFound (read updatedState (key update)) = true
    /\ dependenciesMet updatedState
         (dependsOnOf (read updatedState (key update))) = true.
Proof.
  induction updates as [|u rest IH]; intros st msgs st' msgs' H;
    cbn [applyUpdates] in H.
  - discriminate.
  - destruct (applyUpdate (st, msgs, false) u) as [[[st1 msgs1] any1]|e] eqn:Hu;
      [|discriminate].
    destruct (applyUpdate_only_when _ _ _ _ _ _ _ Hu)
      as [[-> ->] | (Hk & Hd & -> & ->)].
    + destruct (IH _ _ _ _ H) as (before & update & after & mb
                                   & -> & Hb & Hk & Hd).
      exists (u :: before), update, after, mb.
      cbn [applyUpdates app]. rewrite Hu. auto.
    + exists [], u, rest, msgs. cbn [applyUpdates app]. auto.
Qed.

Lemma applyUpdates_flag_stays updates : forall (updatedState : Copy) msgs
    updatedState' msgs' any',
  applyUpdates (updatedState, msgs, true) updates
  = Ok (updatedState', msgs', any') ->
  any' = true.
Proof.
  induction updates as [|u rest IH]; intros st msgs st' msgs' any' H;
    cbn [applyUpdates] in H.
  - now injection H as _ _ <-.
  - destruct (applyUpdate (st, msgs, true) u) as [[[st1 msgs1] any1]|e] eqn:Hu;
      [|discriminate].
    destruct (applyUpdate_only_when _ _ _ _ _ _ _ Hu)
      as [[-> ->] | (_ & _ & -> & ->)]; eauto.
Qed.

Lemma applyUpdates_none_applied updates : forall (updatedState : Copy)
    msgs updatedState' msgs',
  applyUpdates (updatedState, msgs, false) updates
  = Ok (updatedState', msgs', false) ->
  updatedState' = updatedState.
Proof.
  induction updates as [|u rest IH]; intros st msgs st' msgs' H;
    cbn [applyUpdates] in H.
  - congruence.
  - destruct (applyUpdate (st, msgs, false) u) as [[[st1 msgs1] any1]|e] eqn:Hu;
      [|discriminate].
    destruct (applyUpdate_only_when _ _ _ _ _ _ _ Hu)
      as [[-> ->] | (_ & _ & -> & ->)].
    + exact (IH _ _ _ _ H).
    + apply applyUpdates_flag_stays in H. discriminate.
Qed.

Section Storage.

(** The storage behind the runtime, world identifiers, and whatever else a
    world's metadata holds beside its settings. *)
Variable W : Type.
Variable UUID : Type.
Variable Rest : Type.
Variable noRest : Rest.

Record Metadata : Type := mkMetadata {
  settings : option WorldSettings;
  rest : Rest
}.

Record World : Type := mkWorld {
  id : UUID;
  metadata : option Metadata
}.

Record Runtime : Type := mkRuntime {
  agentId : string;
  getWorld : UUID -> W -> Outcome (option World) * W;
  updateWorld : World -> W -> Outcome unit * W
}.

(** [createUniqueUuid] comes from the core package. *)
Variable createUniqueUuid : Runtime -> string -> Outcome UUID.

Record St : Type := mkSt {
  world : W;
  logger : list LogLine
}.

Definition liftW {A} (f : W -> Outcome A * W) : M St A :=
  fun st =>
    let '(r, w) := f (world st) in
    (r, {| world := w; logger := logger st |}).

Definition log (l : LogLine) : M St unit :=
  modify (fun st => {| world := world st; logger := logger st ++ [l] |}).

Definition pure {A} (o : Outcome A) : M St A := fun st => (o, st).

Definition getWorldSettings (runtime : Runtime) (serverId : string)
    : M St (option WorldSettings) :=
  tryCatch
    (worldId <- pure (createUniqueUuid runtime serverId) ;;
     found <- liftW (getWorld runtime worldId) ;;
     match found with
     | None => ret None
     | Some w =>
         match metadata w with
         | None => ret None
         | Some m => ret (settings m)
         end
     end)
    (fun error => log (LogGetFailed error) ;;; ret None).

Definition updateWorldSettings (runtime : Runtime) (serverId : string)
    (worldSettings : WorldSettings) : M St bool :=
  tryCatch
    (worldId <- pure (createUniqueUuid runtime serverId) ;;
     found <- liftW (getWorld runtime worldId) ;;
     match found with
     | None => log (LogNoWorld serverId) ;;; ret false
     | Some w =>
         let kept :=
           match metadata w with Some m => rest m | None => noRest end in
         liftW (updateWorld runtime
                  {| id := id w;
                     metadata := Some {| settings := Some worldSettings;
                                         rest := kept |} |}) ;;;
         ret true
     end)
    (fun error => log (LogUpdateFailed error) ;;; ret false).

(** The [if (updatedAny) { .. }] block: save, then read back.  The store
    is given the copy; the model hands over its own properties, which are
    all that [Object.entries], a spread or a serialisation see of it. *)
Definition persist (runtime : Runtime) (serverId : string)
    (updatedState : WorldSettings) : M St unit :=
  saved <- updateWorldSettings runtime serverId updatedState ;;
  if negb saved then throw "Failed to save updated state to world metadata"
  else
    savedState <- getWorldSettings runtime serverId ;;
    match savedState with
    | None => throw "Failed to verify state save"
    | Some _ => ret tt
    end.

Definition failed : UpdateResult :=
  {| updatedAny := false;
     messages := ["Error occurred while updating settings"] |}.

Definition processSettingUpdates (runtime : Runtime) (serverId : string)
    (worldSettings : WorldSettings) (updates : list SettingUpdate)
    : M St UpdateResult :=
  match updates with
  | [] => ret {| updatedAny := false; messages := [] |}
  | _ =>
      tryCatch
        (acc <- pure (applyUpdates (copyOf worldSettings, [], false)
                        updates) ;;
         let '(updatedState, messages, updatedAny) := acc in
         (if updatedAny then persist runtime serverId (own updatedState)
          else ret tt) ;;;
         ret {| updatedAny := updatedAny; messages := messages |})
        (fun error => log (LogProcessingFailed error) ;;; ret failed)
  end.

(** *** Storage failures *)

Lemma getWorldSettings_total runtime serverId st :
  exists r st1, getWorldSettings runtime serverId st = (Ok r, st1).
Proof.
  unfold getWorldSettings, tryCatch, bind, pure, liftW, log, modify, ret.
  destruct (createUniqueUuid runtime serverId) as [worldId|e]; [|eauto].
  destruct (getWorld runtime worldId (world st)) as [[[w|]|e] w1]; eauto.
  destruct (metadata w); eauto.
Qed.

Lemma updateWorldSettings_total runtime serverId worldSettings st :
  exists b st1,
    updateWorldSettings runtime serverId worldSettings st = (Ok b, st1).
Proof.
  unfold updateWorldSettings, tryCatch, bind, pure, liftW, log, modify, ret.
  destruct (createUniqueUuid runtime serverId) as [worldId|e]; [|eauto].
  destruct (getWorld runtime worldId (world st)) as [[[w|]|e] w1];
    simpl; eauto.
  destruct (updateWorld runtime _ w1) as [[[]|e] w2]; simpl; eauto.
Qed.

(** C8. Neither [getWorldSettings] nor [updateWorldSettings] lets an
    exception out.  When the world read throws, [getWorldSettings] answers
    null and [updateWorldSettings] answers false; when the world write
    throws, [updateWorldSettings] answers false; each time the error is
    logged. *)
Theorem storage_failure_is_contained :
  (forall runtime serverId st,
      exists r st1, getWorldSettings runtime serverId st = (Ok r, st1))
  /\ (forall runtime serverId worldSettings st,
        exists b st1,
          updateWorldSettings runtime serverId worldSettings st = (Ok b, st1))
  /\ (forall runtime serverId st worldId error w1,
        createUniqueUuid runtime serverId = Ok worldId ->
        getWorld runtime worldId (world st) = (Throw error, w1) ->
        getWorldSettings runtime serverId st
        = (Ok None,
           {| world := w1; logger := logger st ++ [LogGetFailed error] |}))
  /\ (forall runtime serverId worldSettings st worldId error w1,
        createUniqueUuid runtime serverId = Ok worldId ->
        getWorld runtime worldId (world st) = (Throw error, w1) ->
        updateWorldSettings runtime serverId worldSettings st
        = (Ok false,
           {| world := w1; logger := logger st ++ [LogUpdateFailed error] |}))
  /\ (forall runtime serverId worldSettings st worldId w error w1 w2,
        createUniqueUuid runtime serverId = Ok worldId ->
        getWorld runtime worldId (world st) = (Ok (Some w), w1) ->
        updateWorld runtime
          {| id := id w;
             metadata :=
               Some {| settings := Some worldSettings;
                       rest := match metadata w with
                               | Some m => rest m
                               | None => noRest
                               end |} |} w1 = (Throw error, w2) ->
        updateWorldSettings runtime serverId worldSettings st
        = (Ok false,
           {| world := w2; logger := logger st ++ [LogUpdateFailed error] |})).
Proof.
  split; [exact getWorldSettings_total|].
  split; [exact updateWorldSettings_total|].
  split; [|split].
  - intros runtime serverId st worldId error w1 Hid Hget.
    unfold getWorldSettings, tryCatch, bind, pure, liftW, log, modify, ret.
    rewrite Hid, Hget. reflexivity.
  - intros runtime serverId worldSettings st worldId error w1 Hid Hget.
    unfold updateWorldSettings, tryCatch, bind, pure, liftW, log, modify, ret.
    rewrite Hid, Hget. reflexivity.
  - intros runtime serverId worldSettings st worldId w error w1 w2 Hid Hget Hup.
    unfold updateWorldSettings, tryCatch, bind, pure, liftW, log, modify, ret.
    rewrite Hid, Hget. simpl. rewrite Hup. reflexivity.
Qed.

(** Storage is touched only after some update was applied. *)
Lemma processSettingUpdates_persists_only_applied runtime serverId
    (worldSettings : WorldSettings) updates st :
  world (snd (processSettingUpdates runtime serverId worldSettings updates st))
  <> world st ->
  exists before update after msgsBefore,
    updates = (before ++ update :: after)%list
    /\ applyUpdates (copyOf worldSettings, [], false) before
       = Ok (copyOf worldSettings, msgsBefore, false)
    /\ isFound (read (copyOf worldSettings) (key update)) = true
    /\ dependenciesMet (copyOf worldSettings)
         (dependsOnOf (read (copyOf worldSettings) (key update))) = true.
Proof.
  destruct updates as [|u rest]; [intros H; now contradiction H|].
  unfold processSettingUpdates, tryCatch, bind, pure.
  destruct (applyUpdates (copyOf worldSettings, [], false) (u :: rest))
    as [[[updatedState msgs] [|]]|e] eqn:Happ.
  - intros _. exact (applyUpdates_first_applied _ _ _ _ _ Happ).
  - intros H. now contradiction H.
  - intros H. now contradiction H.
Qed.

(** What [processSettingUpdates] does with the outcome of the pass. *)
Lemma processSettingUpdates_outcome runtime serverId
    (worldSettings : WorldSettings) updates st :
  match applyUpdates (copyOf worldSettings, [], false) updates with
  | Ok (updatedState, msgs, false) =>
      processSettingUpdates runtime serverId worldSettings updates st
      = (Ok {| updatedAny := false; messages := msgs |}, st)
  | Ok (updatedState, msgs, true) =>
      processSettingUpdates runtime serverId worldSettings updates st
      = tryCatch
          (persist runtime serverId (own updatedState) ;;;
           ret {| updatedAny := true; messages := msgs |})
          (fun error => log (LogProcessingFailed error) ;;; ret failed) st
  | Throw error =>
      processSettingUpdates runtime serverId worldSettings updates st
      = (Ok failed,
         {| world := world st;
            logger := logger st ++ [LogProcessingFailed error] |})
  end.
Proof.
  destruct updates as [|u rest].
  - reflexivity.
  - unfold processSettingUpdates, tryCatch, bind, pure.
    destruct (applyUpdates (copyOf worldSettings, [], false) (u :: rest))
      as [[[updatedState msgs] [|]]|e]; reflexivity.
Qed.

(** C9 (as amended).  An update is applied to what its key gives in the
    (partially updated) copy of the state only when no key of the
    [dependsOn] list of what it gave is a setting of the copy with a null
    value; a key of the list that the copy does not hold does not stand in
    the way.  Only a setting of the copy has such a list: what a key gives
    through the prototype of the copy (a function of [Object.prototype],
    the prototype itself) has none, and an update under such a key is
    applied.  An update whose check fails leaves the copy as it is and
    adds the "dependencies not met" message.  The world is written only
    when some update was applied, and then with the properties of the
    copy. *)
Theorem updates_honour_present_dependencies :
  (forall (updatedState : Copy) msgs any update,
      isFound (read updatedState (key update)) = true ->
      dependenciesMet updatedState
        (dependsOnOf (read updatedState (key update))) = false ->
      applyUpdate (updatedState, msgs, any) update
      = Ok (updatedState,
            (msgs ++ ["Cannot update "
                      +:+ nameOf (read updatedState (key update))
                      +:+ " - dependencies not met"])%list,
            any))
  /\ (forall (updatedState : Copy) msgs any update
             updatedState' msgs' any',
        applyUpdate (updatedState, msgs, any) update
        = Ok (updatedState', msgs', any') ->
        (updatedState' = updatedState /\ any' = any)
        \/ (isFound (read updatedState (key update)) = true
            /\ dependenciesMet updatedState
                 (dependsOnOf (read updatedState (key update))) = true
            /\ updatedState'
               = assign updatedState (key update)
                   (read updatedState (key update))
                   (spreadWithValue (read updatedState (key update))
                      (newValue update))
            /\ any' = true))
  /\ (forall (updatedState : Copy) dependsOn,
        dependenciesMet updatedState dependsOn = true
        <-> forall dep, In dep (nullish dependsOn []) ->
            forall s, own updatedState !! dep = Some s -> value s <> None)
  /\ (forall (updatedState : Copy) key,
        (forall setting,
            own updatedState !! key = Some setting <->
            read updatedState key = FoundSetting setting)
        /\ forall deps,
             dependsOnOf (read updatedState key) = Some deps ->
             exists setting,
               own updatedState !! key = Some setting
               /\ dependsOn setting = Some deps)
  /\ (forall acc update rest,
        applyUpdates acc (update :: rest)
        = match applyUpdate acc update with
          | Ok acc' => applyUpdates acc' rest
          | Throw e => Throw e
          end)
  /\ (forall runtime serverId (worldSettings : WorldSettings) updates st
             updatedState msgs,
        applyUpdates (copyOf worldSettings, [], false) updates
        = Ok (updatedState, msgs, false) ->
        updatedState = copyOf worldSettings
        /\ processSettingUpdates runtime serverId worldSettings updates st
           = (Ok {| updatedAny := false; messages := msgs |}, st))
  /\ (forall runtime serverId (worldSettings : WorldSettings) updates st
             updatedState msgs,
        applyUpdates (copyOf worldSettings, [], false) updates
        = Ok (updatedState, msgs, true) ->
        processSettingUpdates runtime serverId worldSettings updates st
        = tryCatch
            (persist runtime serverId (own updatedState) ;;;
             ret {| updatedAny := true; messages := msgs |})
            (fun error => log (LogProcessingFailed error) ;;; ret failed) st)
  /\ (forall runtime serverId (worldSettings : WorldSettings) updates st,
        world (snd (processSettingUpdates runtime serverId worldSettings
                      updates st)) <> world st ->
        exists before update after msgsBefore,
          updates = (before ++ update :: after)%list
          /\ applyUpdates (copyOf worldSettings, [], false) before
             = Ok (copyOf worldSettings, msgsBefore, false)
          /\ isFound (read (copyOf worldSettings) (key update)) = true
          /\ dependenciesMet (copyOf worldSettings)
               (dependsOnOf (read (copyOf worldSettings) (key update)))
             = true).
Proof.
  split; [exact applyUpdate_blocked|].
  split; [exact applyUpdate_only_when|].
  split; [exact dependenciesMet_spec|].
  split.
  { intros updatedState k. split.
    - intros setting. split; [apply read_own|apply read_setting].
    - intros deps Hdeps.
      destruct (dependsOnOf_setting _ _ Hdeps) as (setting & Hread & Hs).
      exists setting. split; [now apply read_setting|exact Hs]. }
  split; [reflexivity|].
  split.
  { intros runtime serverId worldSettings updates st updatedState msgs H.
    split; [exact (applyUpdates_none_applied _ _ _ _ _ H)|].
    pose proof (processSettingUpdates_outcome runtime serverId worldSettings
                  updates st) as Ho.
    now rewrite H in Ho. }
  split.
  { intros runtime serverId worldSettings updates st updatedState msgs H.
    pose proof (processSettingUpdates_outcome runtime serverId worldSettings
                  updates st) as Ho.
    now rewrite H in Ho. }
  exact processSettingUpdates_persists_only_applied.
Qed.

End Storage.

Arguments mkMetadata {Rest} settings rest.
Arguments mkWorld {UUID Rest} id metadata.
Arguments mkRuntime {W UUID Rest} agentId getWorld updateWorld.
Arguments mkSt {W} world logger.
Arguments world {W} s.
Arguments logger {W} s.
Arguments getWorldSettings {W UUID Rest} createUniqueUuid runtime serverId.
Arguments updateWorldSettings {W UUID Rest} noRest createUniqueUuid runtime
  serverId worldSettings.
Arguments processSettingUpdates {W UUID Rest} noRest createUniqueUuid runtime
  serverId worldSettings updates.

(** *** An onboarding state with a dependency on a setting it does not hold *)

Definition welcomeChannel : Setting :=
  {| name := "Welcome channel"; description := "Where newcomers are greeted";
     value := None; required := true;
     dependsOn := Some ["GREETING_ENABLED"]; onSetAction := None |}.

Definition greetingEnabled : Setting :=
  {| name := "Greeting"; description := "Whether newcomers are greeted";
     value := None; required := true;
     dependsOn := None; onSetAction := None |}.

Definition setChannel : SettingUpdate :=
  {| key := "WELCOME_CHANNEL"; newValue := VString "general" |}.

(** What a run of the loop leaves: the value of the welcome channel, the
    messages, the flag. *)
Definition outcomeOf (r : Outcome Acc)
    : option (option (option SettingValue) * list string * bool) :=
  match r with
  | Ok (updatedState, msgs, any) =>
      Some (value <$> own updatedState !! "WELCOME_CHANNEL", msgs, any)
  | Throw _ => None
  end.

(** The state holds no "GREETING_ENABLED" setting at all, so that key has
    no value, null or other; the update of the dependent setting is
    applied all the same. *)
Lemma absent_dependency_does_not_block :
  ({[ "WELCOME_CHANNEL" := welcomeChannel ]} : WorldSettings)
    !! "GREETING_ENABLED" = None
  /\ outcomeOf (applyUpdates
                  (copyOf {[ "WELCOME_CHANNEL" := welcomeChannel ]}, [], false)
                  [setChannel])
     = Some (Some (Some (VString "general")),
             ["Updated Welcome channel successfully"], true).
Proof. split; reflexivity. Qed.

(** With the dependency in the state and unset, the update is refused. *)
Lemma updates_honour_present_dependencies_witness :
  applyUpdate
    (copyOf (<[ "GREETING_ENABLED" := greetingEnabled ]>
               {[ "WELCOME_CHANNEL" := welcomeChannel ]}), [], false)
    setChannel
  = Ok (copyOf (<[ "GREETING_ENABLED" := greetingEnabled ]>
                  {[ "WELCOME_CHANNEL" := welcomeChannel ]}),
        ["Cannot update Welcome channel - dependencies not met"], false).
Proof.
  exact (proj1 (updates_honour_present_dependencies unit string unit tt
                  (fun _ serverId => Ok serverId))
           (copyOf (<[ "GREETING_ENABLED" := greetingEnabled ]>
                      {[ "WELCOME_CHANNEL" := welcomeChannel ]}))
           [] false setChannel eq_refl eq_refl).
Defined.

(** A store whose reads fail. *)
Definition brokenStore : Runtime unit string unit :=
  mkRuntime "agent-a"
    (fun _ w => (Throw "connection refused", w))
    (fun _ w => (Ok tt, w)).

(** Reading the settings from it answers null and logs the error. *)
Lemma storage_failure_is_contained_witness :
  getWorldSettings (fun _ serverId => Ok serverId) brokenStore "guild-1"
    (mkSt tt [])
  = (Ok None, mkSt tt [LogGetFailed "connection refused"]).
Proof.
  exact (proj1 (proj2 (proj2
           (storage_failure_is_contained unit string unit tt
              (fun _ serverId => Ok serverId))))
           brokenStore "guild-1" (mkSt tt []) "guild-1" "connection refused"
           tt eq_refl eq_refl).
Defined.

(** The refusal, read off the outcome of the pass. *)
Example unset_dependency_blocks :
  outcomeOf (applyUpdates
               (copyOf (<[ "GREETING_ENABLED" := greetingEnabled ]>
                          {[ "WELCOME_CHANNEL" := welcomeChannel ]}),
                [], false)
               [setChannel])
  = Some (Some None,
          ["Cannot update Welcome channel - dependencies not met"], false).
Proof. reflexivity. Qed.

(** Setting the dependency first, in the same list, lets it through: the
    check reads the partially updated state. *)
Example dependency_set_earlier_in_the_list :
  outcomeOf (applyUpdates
               (copyOf (<[ "GREETING_ENABLED" := greetingEnabled ]>
                          {[ "WELCOME_CHANNEL" := welcomeChannel ]}),
                [], false)
               [ {| key := "GREETING_ENABLED"; newValue := VBoolean true |};
                 setChannel ])
  = Some (Some (Some (VString "general")),
          ["Updated Greeting successfully";
           "Updated Welcome channel successfully"], true).
Proof. reflexivity. Qed.

(** An update under a name that the copy only inherits is applied to the
    function found there: it is reported under the name of the function
    and leaves a setting that has the value only. *)
Example inherited_name_is_updated :
  applyUpdates (copyOf {[ "WELCOME_CHANNEL" := welcomeChannel ]}, [], false)
    [ {| key := "toString"; newValue := VString "general" |};
      {| key := "constructor"; newValue := VBoolean true |} ]
  = Ok ({| own := <[ "constructor" := valueOnly (VBoolean true) ]>
                    (<[ "toString" := valueOnly (VString "general") ]>
                       {[ "WELCOME_CHANNEL" := welcomeChannel ]});
           inheritedValue := None |},
        ["Updated toString successfully"; "Updated Object successfully"],
        true).
Proof. reflexivity. Qed.

(** An update under [__proto__] gives the copy a prototype that holds the
    value, and no property; a later update under [value] finds that value
    and, as it is truthy, writes a property. *)
Example prototype_is_replaced :
  applyUpdates (copyOf {[ "WELCOME_CHANNEL" := welcomeChannel ]}, [], false)
    [ {| key := "value"; newValue := VString "first" |};
      {| key := "__proto__"; newValue := VString "general" |};
      {| key := "value"; newValue := VBoolean true |} ]
  = Ok ({| own := <[ "value" := valueOnly (VBoolean true) ]>
                    {[ "WELCOME_CHANNEL" := welcomeChannel ]};
           inheritedValue := Some (VString "general") |},
        ["Updated undefined successfully"; "Updated undefined successfully"],
        true).
Proof. reflexivity. Qed.

End Settings.

(** ** The scenario evaluation engine
    (cli/src/commands/scenario/src/EvaluationEngine.ts) *)

Module Evaluation.

Local Open Scope js_scope.

Record EvaluationResult : Type := mkResult {
  success : bool;
  message : string
}.

(** A number that may be [NaN]. *)
Inductive Num : Type :=
| Finite (z : Z)
| NaN.

(** A JSON schema, as far as the judge reads it before it asks the model:
    the names under [properties], when the schema has that field. *)
Record JsonSchema : Type := mkSchema {
  properties : option (list string)
}.

(** [getDefaultJudgmentSchema()] *)
Definition defaultJudgmentSchema : JsonSchema :=
  {| properties := Some ["judgment"; "confidence"; "reasoning"] |}.

(** An evaluation of a scenario, by its [type] field.  [Conversation]
    stands for the four conversation evaluations, whose parameters are read
    by evaluators that are not in this file; [Other] for an evaluation
    whose [type] is none of the registered ones. *)
Inductive EvaluationSchema : Type :=
| StringContains (value : string)
| RegexMatch (pattern : string)
| FileExists (path : string)
| TrajectoryContainsAction (action : string)
| LlmJudge (prompt expected : string) (json_schema : option JsonSchema)
| ExecutionTime (max_duration_ms : Z) (min_duration_ms : option Z)
    (target_duration_ms : option Z)
| Conversation (type : string)
| Other (type : string).

(** [evaluation.type] *)
Definition typeOf (evaluation : EvaluationSchema) : string :=
  match evaluation with
  | StringContains _ => "string_contains"
  | RegexMatch _ => "regex_match"
  | FileExists _ => "file_exists"
  | TrajectoryContainsAction _ => "trajectory_contains_action"
  | LlmJudge _ _ _ => "llm_judge"
  | ExecutionTime _ _ _ => "execution_time"
  | Conversation type => type
  | Other type => type
  end.

Record ExecutionResult : Type := mkExecution {
  exitCode : Z;
  stdout : string;
  stderr : string;
  files : list (string * string);
  startedAtMs : option Z;
  endedAtMs : option Z;
  durationMs : option Num
}.

(** [haystack.includes(needle)] *)
Fixpoint includes (haystack needle : string) : bool :=
  if String.prefix needle haystack then true
  else match haystack with
       | String _ rest => includes rest needle
       | EmptyString => false
       end.

(** [s.toLowerCase()], on ASCII letters. *)
Definition lower (c : ascii) : ascii :=
  let n := nat_of_ascii c in
  if (Nat.leb 65 n && Nat.leb n 90)%bool then ascii_of_nat (n + 32) else c.

Fixpoint toLowerCase (s : string) : string :=
  match s with
  | String c rest => String (lower c) (toLowerCase rest)
  | EmptyString => EmptyString
  end.

(** [path.replace(/^\.\//, '')] *)
Definition stripDotSlash (path : string) : string :=
  match path with
  | String "." (String "/" rest) => rest
  | _ => path
  end.

Definition mismatched (expected : string) (params : EvaluationSchema)
    : string :=
  "Mismatched evaluator: expected '" +:+ expected +:+ "', received '"
  +:+ typeOf params +:+ "'".

Definition showBool (b : bool) : string := if b then "true" else "false".

Definition showOptZ (o : option Z) : string :=
  match o with Some z => pretty z | None => "-" end.

Section Engine.

(** The runtime the evaluators reach (memories, models). *)
Variable W : Type.

Definition Evaluator : Type :=
  EvaluationSchema -> ExecutionResult -> W -> Outcome EvaluationResult * W.

(** [new RegExp(pattern, 'i').test(s)]: the constructor throws a
    SyntaxError on an invalid pattern. *)
Variable regExpTest : string -> string -> Outcome bool.

(** What the [try] blocks of the trajectory and LLM-judge evaluators do
    with the runtime (the search of the stored memories; the model call,
    its validation and the comparison with the expectation) before they
    return or throw. *)
Variable searchTrajectory : string -> W -> Outcome EvaluationResult * W.
Variable askJudge : string -> string -> JsonSchema -> ExecutionResult -> W
                    -> Outcome EvaluationResult * W.
Variable timeoutMs : Z.

(** The evaluators of ./ConversationEvaluators, by registered type. *)
Variable conversationEvaluator : string -> Evaluator.

Definition StringContainsEvaluator : Evaluator :=
  fun params runResult w =>
    match params with
    | StringContains value =>
        let ok := includes (stdout runResult) value in
        (Ok {| success := ok;
               message := "Checked if stdout contains " +:+ String "034" value
                          +:+ String "034" ". Result: " +:+ showBool ok |}, w)
    | _ => (Throw (mismatched "string_contains" params), w)
    end.

Definition RegexMatchEvaluator : Evaluator :=
  fun params runResult w =>
    match params with
    | RegexMatch pattern =>
        match regExpTest pattern (stdout runResult) with
        | Ok ok =>
            (Ok {| success := ok;
                   message := "Checked if stdout matches regex "
                              +:+ String "034" pattern
                              +:+ String "034" ". Result: " +:+ showBool ok |},
             w)
        | Throw e => (Throw e, w)
        end
    | _ => (Throw (mismatched "regex_match" params), w)
    end.

Definition FileExistsEvaluator : Evaluator :=
  fun params runResult w =>
    match params with
    | FileExists path =>
        let filePaths := map fst (files runResult) in
        let has p := existsb (String.eqb p) filePaths in
        let ok := (has path || has ("./" +:+ path) || has (stripDotSlash path))%bool in
        (Ok {| success := ok;
               message := "Checked if file " +:+ String "034" path
                          +:+ String "034" " exists. Result: " +:+ showBool ok |},
         w)
    | _ => (Throw (mismatched "file_exists" params), w)
    end.

Definition ExecutionTimeEvaluator : Evaluator :=
  fun params runResult w =>
    match params with
    | ExecutionTime max_duration_ms min_duration_ms target_duration_ms =>
        let duration :=
          match durationMs runResult with
          | Some d => d
          | None => Finite (nullish (endedAtMs runResult) 0
                            - nullish (startedAtMs runResult) 0)%Z
          end in
        match duration with
        | NaN =>
            (Ok {| success := false;
                   message := "No timing information available for this step" |},
             w)
        | Finite d =>
            let tooSlow := (max_duration_ms <? d)%Z in
            let tooFast :=
              match min_duration_ms with
              | Some m => (d <? m)%Z
              | None => false
              end in
            (Ok {| success := (negb tooSlow && negb tooFast)%bool;
                   message := "Execution time " +:+ pretty d +:+ "ms (min="
                              +:+ showOptZ min_duration_ms +:+ ", target="
                              +:+ showOptZ target_duration_ms +:+ ", max="
                              +:+ pretty max_duration_ms +:+ ")" |},
             w)
        end
    | _ => (Throw (mismatched "execution_time" params), w)
    end.

Definition TrajectoryContainsActionEvaluator : Evaluator :=
  fun params _ w =>
    match params with
    | TrajectoryContainsAction action =>
        match searchTrajectory action w with
        | (Ok r, w1) => (Ok r, w1)
        | (Throw e, w1) =>
            (Ok {| success := false;
                   message := "Failed to check action trajectory: " +:+ e |},
             w1)
        end
    | _ => (Throw (mismatched "trajectory_contains_action" params), w)
    end.

Definition LLMJudgeEvaluator : Evaluator :=
  fun params runResult w =>
    match params with
    | LlmJudge prompt expected json_schema =>
        let jsonSchema := nullish json_schema defaultJudgmentSchema in
        (* the prompt is built before the [try]:
           [Object.keys(jsonSchema.properties)] *)
        match properties jsonSchema with
        | None => (Throw "Cannot convert undefined or null to object", w)
        | Some _ =>
            match askJudge prompt expected jsonSchema runResult w with
            | (Ok r, w1) => (Ok r, w1)
            | (Throw e, w1) =>
                (Ok {| success := false;
                       message :=
                         if includes (toLowerCase e) "timeout"
                         then "LLM judge timed out after "
                              +:+ pretty timeoutMs +:+ "ms"
                         else "LLM judge error: " +:+ e |},
                 w1)
            end
        end
    | _ => (Throw (mismatched "llm_judge" params), w)
    end.

(** The table the constructor fills with [register]. *)
Definition evaluators : gmap string Evaluator :=
  <["context_retention" := conversationEvaluator "context_retention"]>
  (<["user_satisfaction" := conversationEvaluator "user_satisfaction"]>
  (<["conversation_flow" := conversationEvaluator "conversation_flow"]>
  (<["conversation_length" := conversationEvaluator "conversation_length"]>
  (<["execution_time" := ExecutionTimeEvaluator]>
  (<["llm_judge" := LLMJudgeEvaluator]>
  (<["trajectory_contains_action" := TrajectoryContainsActionEvaluator]>
  (<["file_exists" := FileExistsEvaluator]>
  (<["regex_match" := RegexMatchEvaluator]>
  (<["string_contains" := StringContainsEvaluator]> ∅))))))))).

Definition unknownEvaluator (evaluation : EvaluationSchema) : EvaluationResult :=
  {| success := false;
     message := "Unknown evaluator type: '" +:+ typeOf evaluation +:+ "'" |}.

(** [this.evaluators.get(type)] *)
Definition getEvaluator (type : string) : option Evaluator :=
  evaluators !! type.

(** One turn of the [for] loop: the result that is pushed. *)
Definition evaluateOne (runResult : ExecutionResult)
    (evaluation : EvaluationSchema) : M W EvaluationResult :=
  match getEvaluator (typeOf evaluation) with
  | None => ret (unknownEvaluator evaluation)
  | Some evaluator => evaluator evaluation runResult
  end.

Fixpoint runEvaluations (evaluations : list EvaluationSchema)
    (runResult : ExecutionResult) : M W (list EvaluationResult) :=
  match evaluations with
  | [] => ret []
  | evaluation :: rest =>
      result <- evaluateOne runResult evaluation ;;
      results <- runEvaluations rest runResult ;;
      ret (result :: results)
  end.

(** The types the constructor registers. *)
Definition registeredTypes : list string :=
  [ "string_contains"; "regex_match"; "file_exists";
    "trajectory_contains_action"; "llm_judge"; "execution_time";
    "conversation_length"; "conversation_flow"; "user_satisfaction";
    "context_retention" ].

(** Whether evaluating [evaluation] on [runResult] completes. *)
Definition completes (runResult : ExecutionResult)
    (evaluation : EvaluationSchema) : Prop :=
  match evaluation with
  | RegexMatch pattern =>
      exists ok, regExpTest pattern (stdout runResult) = Ok ok
  | Conversation type =>
      forall w, exists r w1,
        evaluateOne runResult (Conversation type) w = (Ok r, w1)
  | LlmJudge _ _ json_schema =>
      properties (nullish json_schema defaultJudgmentSchema) <> None
  | Other type => ~ In type registeredTypes
  | _ => True
  end.

(** The result at each position is the one its own evaluation produced. *)
Definition producedBy (runResult : ExecutionResult)
    (evaluation : EvaluationSchema) (result : EvaluationResult) : Prop :=
  exists w w1, evaluateOne runResult evaluation w = (Ok result, w1).

Lemma evaluators_registered :
  getEvaluator "string_contains" = Some StringContainsEvaluator
  /\ getEvaluator "regex_match" = Some RegexMatchEvaluator
  /\ getEvaluator "file_exists" = Some FileExistsEvaluator
  /\ getEvaluator "trajectory_contains_action"
     = Some TrajectoryContainsActionEvaluator
  /\ getEvaluator "llm_judge" = Some LLMJudgeEvaluator
  /\ getEvaluator "execution_time" = Some ExecutionTimeEvaluator.
Proof. repeat split; vm_compute; reflexivity. Qed.

Lemma evaluators_unknown type :
  ~ In type registeredTypes -> getEvaluator type = None.
Proof.
  intros H. unfold getEvaluator, evaluators, registeredTypes in *. simpl in H.
  rewrite !lookup_insert_ne by (intros <-; apply H; tauto).
  apply lookup_empty.
Qed.

Lemma evaluateOne_completes runResult evaluation w :
  completes runResult evaluation ->
  exists r w1, evaluateOne runResult evaluation w = (Ok r, w1).
Proof.
  destruct evaluators_registered as (Hs & Hr & Hf & Ht & Hl & He).
  destruct evaluation; intros H; unfold evaluateOne; cbn [typeOf];
    cbn [completes] in H.
  - rewrite Hs. simpl. eauto.
  - rewrite Hr. simpl. destruct H as [ok ->]. eauto.
  - rewrite Hf. simpl. eauto.
  - rewrite Ht. simpl. destruct (searchTrajectory action w) as [[r|e] w1]; eauto.
  - rewrite Hl. simpl.
    destruct (properties (nullish json_schema defaultJudgmentSchema))
      as [names|]; [|contradiction].
    destruct (askJudge prompt expected _ runResult w) as [[r|e] w1]; eauto.
  - rewrite He. simpl.
    destruct (match durationMs runResult with Some d => d | None => _ end);
      eauto.
  - exact (H w).
  - rewrite (evaluators_unknown _ H). unfold ret. eauto.
Qed.

Lemma runEvaluations_completes runResult evaluations : forall w,
  Forall (completes runResult) evaluations ->
  exists results w1,
    runEvaluations evaluations runResult w = (Ok results, w1)
    /\ length results = length evaluations.
Proof.
  induction evaluations as [|evaluation rest IH]; intros w Hall; simpl.
  - unfold ret. eauto.
  - inversion Hall as [|? ? Hhead Hrest]; subst.
    destruct (evaluateOne_completes runResult evaluation w Hhead)
      as (r & w1 & Hr).
    destruct (IH w1 Hrest) as (results & w2 & Hrs & Hlen).
    unfold bind. rewrite Hr, Hrs. unfold ret.
    exists (r :: results), w2. simpl. auto.
Qed.

Lemma runEvaluations_in_order runResult evaluations : forall w results w1,
  runEvaluations evaluations runResult w = (Ok results, w1) ->
  Forall2 (producedBy runResult) evaluations results.
Proof.
  induction evaluations as [|evaluation rest IH]; intros w results w1; simpl.
  - unfold ret. intros [= <- _]. constructor.
  - unfold bind.
    destruct (evaluateOne runResult evaluation w) as [[r|e] w2] eqn:Hr;
      [|discriminate].
    destruct (runEvaluations rest runResult w2) as [[rs|e] w3] eqn:Hrs;
      [|discriminate].
    unfold ret. intros [= <- _]. constructor.
    + exists w, w2. exact Hr.
    + exact (IH _ _ _ Hrs).
Qed.

Lemma runEvaluations_throws runResult evaluation rest w e w1 :
  evaluateOne runResult evaluation w = (Throw e, w1) ->
  runEvaluations (evaluation :: rest) runResult w = (Throw e, w1).
Proof. intros H. simpl. unfold bind. rewrite H. reflexivity. Qed.

(** C7 (as amended).  When [runEvaluations] returns, it returns one result
    per evaluation, in the order of the list, each produced by the
    evaluator registered for that evaluation's type.  An evaluation of a
    type that is not registered gets a failed result that names the type.
    The trajectory and LLM-judge evaluators turn an exception raised
    inside their [try] blocks into a failed result.  [runEvaluations] has
    no handler of its own: it returns whenever every evaluator it calls
    does, and an exception that an evaluator lets out, such as the
    SyntaxError of an invalid [regex_match] pattern, leaves
    [runEvaluations] with no results. *)
Theorem evaluations_in_order_unless_thrown :
  (forall runResult evaluations w results w1,
      runEvaluations evaluations runResult w = (Ok results, w1) ->
      Forall2 (producedBy runResult) evaluations results
      /\ length results = length evaluations)
  /\ (forall runResult type w,
        ~ In type registeredTypes ->
        evaluateOne runResult (Other type) w
        = (Ok {| success := false;
                 message := "Unknown evaluator type: '" +:+ type +:+ "'" |},
           w))
  /\ (forall runResult action w e w1,
        searchTrajectory action w = (Throw e, w1) ->
        evaluateOne runResult (TrajectoryContainsAction action) w
        = (Ok {| success := false;
                 message := "Failed to check action trajectory: " +:+ e |},
           w1))
  /\ (forall runResult prompt expected json_schema names w e w1,
        properties (nullish json_schema defaultJudgmentSchema) = Some names ->
        askJudge prompt expected (nullish json_schema defaultJudgmentSchema)
          runResult w = (Throw e, w1) ->
        exists r,
          evaluateOne runResult (LlmJudge prompt expected json_schema) w
          = (Ok r, w1)
          /\ success r = false)
  /\ (forall runResult evaluations w,
        Forall (completes runResult) evaluations ->
        exists results w1,
          runEvaluations evaluations runResult w = (Ok results, w1)
          /\ length results = length evaluations)
  /\ (forall runResult pattern rest w e,
        regExpTest pattern (stdout runResult) = Throw e ->
        runEvaluations (RegexMatch pattern :: rest) runResult w
        = (Throw e, w)).
Proof.
  destruct evaluators_registered as (Hs & Hr & Hf & Ht & Hl & He).
  split; [|split; [|split; [|split; [|split]]]].
  - intros runResult evaluations w results w1 H.
    pose proof (runEvaluations_in_order _ _ _ _ _ H) as Hin.
    split; [exact Hin|]. symmetry. exact (Forall2_length _ _ _ Hin).
  - intros runResult type w H. unfold evaluateOne. cbn [typeOf].
    rewrite (evaluators_unknown _ H). reflexivity.
  - intros runResult action w e w1 H. unfold evaluateOne. cbn [typeOf].
    rewrite Ht. simpl. rewrite H. reflexivity.
  - intros runResult prompt expected json_schema names w e w1 Hp H.
    unfold evaluateOne. cbn [typeOf]. rewrite Hl. simpl. rewrite Hp, H.
    eexists. split; reflexivity.
  - intros runResult evaluations w. apply runEvaluations_completes.
  - intros runResult pattern rest w e H. apply runEvaluations_throws.
    unfold evaluateOne. cbn [typeOf]. rewrite Hr. simpl. rewrite H.
    reflexivity.
Qed.

End Engine.

Arguments runEvaluations {W} regExpTest searchTrajectory askJudge timeoutMs
  conversationEvaluator evaluations runResult.

(** *** A small scenario *)

(** A regular-expression engine for the patterns used below: it rejects
    the unterminated group "(" as the constructor does, and matches any
    other pattern as a literal, ignoring case. *)
Definition literalRegExp (pattern s : string) : Outcome bool :=
  if String.eqb pattern "("
  then Throw "Invalid regular expression: /(/i: Unterminated group"
  else Ok (includes (toLowerCase s) (toLowerCase pattern)).

Definition helloRun : ExecutionResult :=
  {| exitCode := 0; stdout := "Hello, World"; stderr := "";
     files := [("./out.txt", "x")];
     startedAtMs := Some 100%Z; endedAtMs := Some 350%Z; durationMs := None |}.

Definition noTrajectory (_ : string) (w : unit) : Outcome EvaluationResult * unit :=
  (Throw "database unavailable", w).

Definition noJudge (_ _ : string) (_ : JsonSchema) (_ : ExecutionResult)
    (w : unit)
    : Outcome EvaluationResult * unit :=
  (Throw "LLM judge timeout after 15000ms", w).

Definition quietConversation (_ : string) : Evaluator unit :=
  fun _ _ w => (Ok {| success := true; message := "" |}, w).

Definition run (evaluations : list EvaluationSchema)
    : Outcome (list EvaluationResult) * unit :=
  runEvaluations literalRegExp noTrajectory noJudge 15000 quietConversation
    evaluations helloRun tt.

Example results_in_order :
  run [ StringContains "World"; RegexMatch "hello"; FileExists "out.txt";
        ExecutionTime 200 None None; TrajectoryContainsAction "REPLY";
        LlmJudge "Did it greet?" "yes" None; Other "sentiment" ]
  = (Ok [ {| success := true;
             message := "Checked if stdout contains " +:+ String "034" "World"
                        +:+ String "034" ". Result: true" |};
          {| success := true;
             message := "Checked if stdout matches regex "
                        +:+ String "034" "hello"
                        +:+ String "034" ". Result: true" |};
          {| success := true;
             message := "Checked if file " +:+ String "034" "out.txt"
                        +:+ String "034" " exists. Result: true" |};
          {| success := false;
             message := "Execution time 250ms (min=-, target=-, max=200)" |};
          {| success := false;
             message := "Failed to check action trajectory: database unavailable" |};
          {| success := false;
             message := "LLM judge timed out after 15000ms" |};
          {| success := false;
             message := "Unknown evaluator type: 'sentiment'" |} ], tt).
Proof. vm_compute. reflexivity. Qed.

(** An invalid pattern: the SyntaxError leaves [runEvaluations], and the
    result of the evaluation before it is lost with it. *)
Lemma invalid_pattern_escapes :
  run [ StringContains "World"; RegexMatch "(" ]
  = (Throw "Invalid regular expression: /(/i: Unterminated group", tt).
Proof. vm_compute. reflexivity. Qed.

(** The invalid pattern first: nothing after it is evaluated. *)
Lemma evaluations_in_order_unless_thrown_witness :
  run [ RegexMatch "("; StringContains "World" ]
  = (Throw "Invalid regular expression: /(/i: Unterminated group", tt).
Proof.
  exact (proj2 (proj2 (proj2 (proj2 (proj2
           (evaluations_in_order_unless_thrown unit literalRegExp
              noTrajectory noJudge 15000 quietConversation)))))
           helloRun "(" [StringContains "World"] tt
           "Invalid regular expression: /(/i: Unterminated group" eq_refl).
Defined.

End Evaluation.

(** ** Ingestion of external messages
    (server/src/api/messaging/core.ts, POST /ingest-external) *)

Module Messaging.

(** The body of the request: a partial [MessageService]. *)
Record Payload : Type := mkPayload {
  channel_id : option string;
  server_id : option string;
  author_id : option string;
  author_display_name : option string;
  content : option string;
  raw_message : option string;
  source_id : option string;
  source_type : option string;
  in_reply_to_message_id : option string;
  metadata : option string
}.

(** What the handler passes to [createMessage]. *)
Record MessageData : Type := mkData {
  d_channelId : string;
  d_authorId : string;
  d_content : string;
  d_rawMessage : option string;
  d_sourceId : option string;
  d_sourceType : option string;
  d_inReplyToRootMessageId : option string;
  d_metadata : option string
}.

(** A stored root message. *)
Record RootMessage : Type := mkMessage {
  id : nat;
  createdAt : Z;
  data : MessageData
}.

Definition sourceId (m : RootMessage) : option string := d_sourceId (data m).

(** The [new_message] event put on the internal bus. *)
Record BusMessage : Type := mkBus {
  b_id : nat;
  b_channel_id : string;
  b_server_id : string;
  b_author_id : string;
  b_author_display_name : option string;
  b_content : string;
  b_raw_message : option string;
  b_source_id : option string;
  b_source_type : option string;
  b_in_reply_to_message_id : option string;
  b_created_at : Z;
  b_metadata : option string
}.

(** The [messageBroadcast] event sent to the channel's socket room. *)
Record Broadcast : Type := mkBroadcast {
  senderId : string;
  senderName : string;
  text : string;
  roomId : string;
  serverId : string;
  broadcastAt : Z;
  source : option string;
  messageId : nat
}.

Inductive Response : Type :=
| BadRequest (error : string)
| Accepted (messageId : nat)
| ServerError (error : string).

(** The server instance: the message store, the internal bus, the socket
    server when there is one, the log. *)
Record Server : Type := mkServer {
  messages : list RootMessage;
  available : bool;
  clock : Z;
  bus : list BusMessage;
  socketIO : option (list Broadcast);
  errors : list string
}.

Definition hasSource (sid : string) (m : RootMessage) : bool :=
  match sourceId m with
  | Some s => String.eqb s sid
  | None => false
  end.

(** The stored messages that carry the source id [sid]. *)
Definition stored (sid : string) (s : Server) : list RootMessage :=
  List.filter (hasSource sid) (messages s).

Definition insertMessage (d : MessageData) (s : Server)
    : Outcome RootMessage * Server :=
  let m := {| id := length (messages s); createdAt := clock s; data := d |} in
  (Ok m,
   {| messages := messages s ++ [m]; available := available s;
      clock := (clock s + 1)%Z; bus := bus s; socketIO := socketIO s;
      errors := errors s |}).

(** Modelled from the spec: [AgentServer.createMessage], which is in
    server/src/index.ts and not among the sources.  Section 5 makes the
    creation of the stored record "idempotent ... keyed by source message
    id": a message whose source id the store already holds is not stored a
    second time, and the stored one is the answer.  Section 6 has storage
    "available-or-unavailable per call". *)
Definition createMessage (d : MessageData) (s : Server)
    : Outcome RootMessage * Server :=
  if negb (available s) then (Throw "storage unavailable", s)
  else
    match d_sourceId d with
    | Some sid =>
        match find (fun m => hasSource sid m) (messages s) with
        | Some m => (Ok m, s)
        | None => insertMessage d s
        end
    | None => insertMessage d s
    end.

(** The store holds at most one message per source id. *)
Definition uniqueSources (s : Server) : Prop :=
  forall sid, (length (stored sid s) <= 1)%nat.

Lemma find_filter {A} (f : A -> bool) (l : list A) :
  match find f l with
  | Some x => exists rest, List.filter f l = x :: rest
  | None => List.filter f l = []
  end.
Proof.
  induction l as [|a l IH]; simpl.
  - reflexivity.
  - destruct (f a); [eauto|exact IH].
Qed.

Lemma hasSource_own d sid n t :
  d_sourceId d = Some sid ->
  hasSource sid {| id := n; createdAt := t; data := d |} = true.
Proof. intros H. unfold hasSource, sourceId. simpl. rewrite H. apply String.eqb_refl. Qed.

Lemma hasSource_other d sid sid' n t :
  d_sourceId d = Some sid -> sid' <> sid ->
  hasSource sid' {| id := n; createdAt := t; data := d |} = false.
Proof.
  intros H Hne. unfold hasSource, sourceId. simpl. rewrite H.
  apply String.eqb_neq. congruence.
Qed.

Lemma hasSource_none d sid n t :
  d_sourceId d = None ->
  hasSource sid {| id := n; createdAt := t; data := d |} = false.
Proof. intros H. unfold hasSource, sourceId. simpl. now rewrite H. Qed.

Lemma stored_insert d s sid :
  stored sid (snd (insertMessage d s))
  = (stored sid s
     ++ List.filter (hasSource sid)
          [ {| id := length (messages s); createdAt := clock s; data := d |} ])%list.
Proof. unfold stored, insertMessage. simpl. apply List.filter_app. Qed.

Lemma createMessage_unique d s :
  uniqueSources s -> uniqueSources (snd (createMessage d s)).
Proof.
  intros Hu. unfold createMessage.
  destruct (available s); simpl; [|exact Hu].
  destruct (d_sourceId d) as [sid|] eqn:Hsid.
  - pose proof (find_filter (hasSource sid) (messages s)) as Hf.
    destruct (find _ (messages s)) as [m|]; [exact Hu|].
    intros sid'. rewrite stored_insert. simpl.
    destruct (String.eq_dec sid' sid) as [->|Hne].
    + unfold stored at 1. rewrite Hf, (hasSource_own _ _ _ _ Hsid). simpl. lia.
    + rewrite (hasSource_other _ _ _ _ _ Hsid Hne), app_nil_r. apply Hu.
  - intros sid'. rewrite stored_insert. simpl.
    rewrite (hasSource_none _ _ _ _ Hsid), app_nil_r. apply Hu.
Qed.

(** Creation keyed by the source id [sid]: afterwards the store holds
    exactly the answer under [sid]; if it held one before, nothing
    changed. *)
Lemma createMessage_keyed d s sid :
  d_sourceId d = Some sid -> available s = true -> uniqueSources s ->
  exists m,
    fst (createMessage d s) = Ok m
    /\ stored sid (snd (createMessage d s)) = [m]
    /\ (stored sid s <> [] -> snd (createMessage d s) = s).
Proof.
  intros Hsid Ha Hu. unfold createMessage. rewrite Ha, Hsid. simpl.
  pose proof (find_filter (hasSource sid) (messages s)) as Hf.
  destruct (find _ (messages s)) as [m|].
  - exists m. simpl. destruct Hf as [rest Hf].
    specialize (Hu sid). unfold stored in *. rewrite Hf in *. simpl in Hu.
    destruct rest; [|simpl in Hu; lia]. auto.
  - eexists. split; [reflexivity|]. split.
    + rewrite stored_insert. unfold stored. rewrite Hf. simpl.
      now rewrite (hasSource_own _ _ _ _ Hsid).
    + unfold stored. rewrite Hf. intros H. now contradiction H.
Qed.

Lemma createMessage_available d s :
  available (snd (createMessage d s)) = available s.
Proof.
  unfold createMessage. destruct (available s) eqn:Ha; simpl; [|exact Ha].
  destruct (d_sourceId d) as [sid|]; [|exact Ha].
  destruct (find (fun m => hasSource sid m) (messages s)); exact Ha.
Qed.

Section Router.

(** [validateUuid] comes from the core package. *)
Variable validateUuid : string -> option string.

Definition messageToCreate (p : Payload) : MessageData :=
  {| d_channelId := nullish (channel_id p) "";
     d_authorId := nullish (author_id p) "";
     d_content := nullish (content p) "";
     d_rawMessage := raw_message p;
     d_sourceId := source_id p;
     d_sourceType := source_type p;
     d_inReplyToRootMessageId :=
       if truthy (in_reply_to_message_id p)
       then validateUuid (nullish (in_reply_to_message_id p) "")
       else None;
     d_metadata := metadata p |}.

Definition messageForBus (p : Payload) (m : RootMessage) : BusMessage :=
  {| b_id := id m;
     b_channel_id := d_channelId (data m);
     b_server_id := nullish (server_id p) "";
     b_author_id := d_authorId (data m);
     b_author_display_name := author_display_name p;
     b_content := d_content (data m);
     b_raw_message := d_rawMessage (data m);
     b_source_id := d_sourceId (data m);
     b_source_type := d_sourceType (data m);
     b_in_reply_to_message_id := d_inReplyToRootMessageId (data m);
     b_created_at := createdAt m;
     b_metadata := d_metadata (data m) |}.

Definition broadcastOf (b : BusMessage) : Broadcast :=
  {| senderId := b_author_id b;
     senderName := or_else (b_author_display_name b) "User";
     text := b_content b;
     roomId := b_channel_id b;
     serverId := b_server_id b;
     broadcastAt := b_created_at b;
     source := b_source_type b;
     messageId := b_id b |}.

(** The payload passes the check at the top of the handler. *)
Definition wellFormed (p : Payload) : bool :=
  (truthy (channel_id p) && truthy (server_id p) && truthy (author_id p)
   && truthy (content p))%bool.

(** The handler of POST /ingest-external. *)
Definition ingestExternal (p : Payload) (s : Server) : Response * Server :=
  if negb (wellFormed p) then
    (BadRequest "Invalid external message payload", s)
  else
    match createMessage (messageToCreate p) s with
    | (Throw e, s1) =>
        (ServerError "Failed to ingest message",
         {| messages := messages s1; available := available s1;
            clock := clock s1; bus := bus s1; socketIO := socketIO s1;
            errors := errors s1 ++ [e] |})
    | (Ok createdRootMessage, s1) =>
        let forBus := messageForBus p createdRootMessage in
        (Accepted (id createdRootMessage),
         {| messages := messages s1; available := available s1;
            clock := clock s1;
            bus := bus s1 ++ [forBus];
            socketIO :=
              match socketIO s1 with
              | Some sent => Some (sent ++ [broadcastOf forBus])%list
              | None => None
              end;
            errors := errors s1 |})
    end.

Fixpoint ingestAll (ps : list Payload) (s : Server) : Server :=
  match ps with
  | [] => s
  | p :: rest => ingestAll rest (snd (ingestExternal p s))
  end.

Lemma ingestExternal_stored p s sid :
  stored sid (snd (ingestExternal p s))
  = if wellFormed p
    then stored sid (snd (createMessage (messageToCreate p) s))
    else stored sid s.
Proof.
  unfold ingestExternal. destruct (wellFormed p); simpl; [|reflexivity].
  destruct (createMessage (messageToCreate p) s) as [[m|e] s1]; reflexivity.
Qed.

Lemma ingestExternal_unique p s :
  uniqueSources s -> uniqueSources (snd (ingestExternal p s)).
Proof.
  intros Hu sid. rewrite ingestExternal_stored.
  destruct (wellFormed p); [|apply Hu].
  apply createMessage_unique, Hu.
Qed.

Lemma ingestAll_unique ps : forall s,
  uniqueSources s -> uniqueSources (ingestAll ps s).
Proof.
  induction ps as [|p rest IH]; intros s Hu; simpl.
  - exact Hu.
  - apply IH, ingestExternal_unique, Hu.
Qed.

Lemma ingestExternal_available p s :
  available (snd (ingestExternal p s)) = available s.
Proof.
  unfold ingestExternal. destruct (wellFormed p); simpl; [|reflexivity].
  pose proof (createMessage_available (messageToCreate p) s) as H.
  destruct (createMessage (messageToCreate p) s) as [[m|e] s1]; exact H.
Qed.

(** C5. On a store that holds at most one message per source id (as every
    store built by ingestion does), ingesting a well-formed payload with
    source id [sid] leaves exactly one stored message with that source id;
    ingesting it a second time stores nothing more and answers with the id
    of the same message. *)
Theorem ingestion_is_idempotent (p : Payload) (sid : string) (s : Server) :
  uniqueSources s ->
  available s = true ->
  wellFormed p = true ->
  source_id p = Some sid ->
  exists m,
    fst (ingestExternal p s) = Accepted (id m)
    /\ stored sid (snd (ingestExternal p s)) = [m]
    /\ fst (ingestExternal p (snd (ingestExternal p s))) = Accepted (id m)
    /\ stored sid (snd (ingestExternal p (snd (ingestExternal p s)))) = [m]
    /\ messages (snd (ingestExternal p (snd (ingestExternal p s))))
       = messages (snd (ingestExternal p s))
    /\ uniqueSources (snd (ingestExternal p (snd (ingestExternal p s)))).
Proof.
  intros Hu Ha Hw Hsid.
  assert (Hd : d_sourceId (messageToCreate p) = Some sid) by exact Hsid.
  destruct (createMessage_keyed _ s sid Hd Ha Hu) as (m & Hm & Hst & _).
  set (s1 := snd (ingestExternal p s)).
  assert (Hu1 : uniqueSources s1) by (apply ingestExternal_unique, Hu).
  assert (Ha1 : available s1 = true)
    by (unfold s1; now rewrite ingestExternal_available).
  assert (Hs1 : stored sid s1 = [m]).
  { unfold s1. now rewrite ingestExternal_stored, Hw. }
  destruct (createMessage_keyed _ s1 sid Hd Ha1 Hu1) as (m' & Hm' & Hst' & Hsame).
  assert (Hkeep : snd (createMessage (messageToCreate p) s1) = s1)
    by (apply Hsame; rewrite Hs1; discriminate).
  rewrite Hkeep, Hs1 in Hst'. injection Hst' as <-.
  exists m. split; [|split; [exact Hs1|split; [|split; [|split]]]].
  - unfold ingestExternal. rewrite Hw. simpl.
    destruct (createMessage (messageToCreate p) s) as [[m0|e] s0];
      simpl in Hm; [|discriminate]. now injection Hm as ->.
  - unfold ingestExternal. rewrite Hw. simpl.
    destruct (createMessage (messageToCreate p) s1) as [[m0|e] s0];
      simpl in Hm'; [|discriminate]. now injection Hm' as ->.
  - rewrite ingestExternal_stored, Hw, Hkeep. exact Hs1.
  - unfold ingestExternal at 1. rewrite Hw. simpl.
    destruct (createMessage (messageToCreate p) s1) as [[m0|e] s0] eqn:Hc;
      simpl in *; subst; reflexivity.
  - apply ingestExternal_unique, Hu1.
Qed.

End Router.

(** *** A Discord message delivered twice *)

Definition emptyServer : Server :=
  {| messages := []; available := true; clock := 1000%Z; bus := [];
     socketIO := Some []; errors := [] |}.

Definition discordMessage : Payload :=
  {| channel_id := Some "11111111-1111-4111-8111-111111111111";
     server_id := Some "00000000-0000-0000-0000-000000000000";
     author_id := Some "22222222-2222-4222-8222-222222222222";
     author_display_name := Some "ada";
     content := Some "hello";
     raw_message := None;
     source_id := Some "discord-9001";
     source_type := Some "discord";
     in_reply_to_message_id := None;
     metadata := None |}.

Lemma emptyServer_unique : uniqueSources emptyServer.
Proof. intros sid. simpl. lia. Qed.

(** The same payload, ingested twice into an empty store. *)
Lemma ingestion_is_idempotent_witness :
  exists m,
    fst (ingestExternal Some discordMessage emptyServer) = Accepted (id m)
    /\ stored "discord-9001"
         (snd (ingestExternal Some discordMessage emptyServer)) = [m]
    /\ fst (ingestExternal Some discordMessage
              (snd (ingestExternal Some discordMessage emptyServer)))
       = Accepted (id m)
    /\ stored "discord-9001"
         (snd (ingestExternal Some discordMessage
                 (snd (ingestExternal Some discordMessage emptyServer))))
       = [m]
    /\ messages (snd (ingestExternal Some discordMessage
                        (snd (ingestExternal Some discordMessage emptyServer))))
       = messages (snd (ingestExternal Some discordMessage emptyServer))
    /\ uniqueSources
         (snd (ingestExternal Some discordMessage
                 (snd (ingestExternal Some discordMessage emptyServer)))).
Proof.
  exact (ingestion_is_idempotent Some discordMessage "discord-9001"
           emptyServer emptyServer_unique eq_refl eq_refl eq_refl).
Defined.

(** The bus hears of both deliveries; the store holds one message. *)
Example delivered_twice :
  let s := ingestAll Some [discordMessage; discordMessage] emptyServer in
  (length (messages s), length (bus s), map b_id (bus s)) = (1%nat, 2%nat, [0%nat; 0%nat]).
Proof. reflexivity. Qed.

End Messaging.

(** ** Untyped values
    Values whose type the code tests at run time (a parsed model answer,
    the [config] of a plugin reference, the result of the enhanced
    evaluation engine). *)

Module JsValue.

(** A value of type [any], as far as JSON reaches, and [undefined].  The
    value of a number plays no part in what follows. *)
#[warnings="-register-all"]
Inductive Any : Type :=
| JUndefined
| JNull
| JBool (b : bool)
| JNumber (n : Z)
| JString (s : string)
| JArray (items : list Any)
| JObject (fields : list (string * Any)).

(** [typeof v] *)
Definition typeof (v : Any) : string :=
  match v with
  | JUndefined => "undefined"
  | JNull | JArray _ | JObject _ => "object"
  | JBool _ => "boolean"
  | JNumber _ => "number"
  | JString _ => "string"
  end.

(** [typeof v === 'object'], which holds of [null] and of arrays too. *)
Definition isObjectType (v : Any) : bool := String.eqb (typeof v) "object".

(** [!!v] *)
Definition isTruthy (v : Any) : bool :=
  match v with
  | JUndefined | JNull => false
  | JBool b => b
  | JNumber n => negb (n =? 0)%Z
  | JString s => negb (String.eqb s "")
  | JArray _ | JObject _ => true
  end.

(** [v.name] on a value that is not [null] or [undefined]: [undefined]
    when there is no such property. *)
Definition property (name : string) (v : Any) : Any :=
  match v with
  | JObject fields =>
      match find (fun field => String.eqb (fst field) name) fields with
      | Some field => snd field
      | None => JUndefined
      end
  | _ => JUndefined
  end.

(** Induction on a value, with the hypothesis for every element of an
    array and every property of an object. *)
Lemma Any_induction (P : Any -> Prop) :
  P JUndefined -> P JNull -> (forall b, P (JBool b))
  -> (forall n, P (JNumber n)) -> (forall s, P (JString s))
  -> (forall items, Forall P items -> P (JArray items))
  -> (forall fields, Forall (fun field => P (snd field)) fields
      -> P (JObject fields))
  -> forall v, P v.
Proof.
  intros Hundef Hnull Hbool Hnum Hstr Harr Hobj.
  fix IH 1. intros [| | b | n | s | items | fields].
  - exact Hundef.
  - exact Hnull.
  - apply Hbool.
  - apply Hnum.
  - apply Hstr.
  - apply Harr. induction items as [|item items IHitems]; constructor.
    + apply IH.
    + exact IHitems.
  - apply Hobj. induction fields as [|[k v] fields IHfields]; constructor.
    + apply IH.
    + exact IHfields.
Qed.

End JsValue.

Import JsValue.

(** ** The multi-step loop: what a run leaves in the trajectory
    (plugin-bootstrap/src/__tests__/multi-step.test.ts, [runMultiStepCoreTest]) *)

Module Trajectory.

Import MultiStep.
Local Open Scope js_scope.

Section Trace.

Variable W : Type.
Variable V : Type.
Variable env : Env W V.
Variable message : Memory.
Variable callback : Content -> W -> Outcome unit * W.

(** The entries a computation appended: what [after] holds beyond
    [before]. *)
Definition appended (before after : St W) (entries : list TraceEntry) : Prop :=
  traceActionResult after = (traceActionResult before ++ entries)%list.

(** No provider of the runtime throws, and the callback accepts every
    notice. *)
Definition providersNeverThrow : Prop :=
  (forall p w, In p (providers W V env) ->
     exists r w1, get W p w = (Ok r, w1))
  /\ (forall c w, exists w1, callback c w = (Ok tt, w1)).

(** [l] is an initial part of [names]. *)
Definition isPrefix (l names : list string) : Prop :=
  exists rest, names = (l ++ rest)%list.

(** What an entry of the provider loop looks like: a success carries the
    non-empty text of a registered provider and no error; a failure
    carries no text. *)
Definition providerEntry (e : TraceEntry) : Prop :=
  if success e
  then truthy (text e) = true /\ error e = None
       /\ exists p, In p (providers W V env) /\ name W p = actionName e
  else text e = None.

Lemma appended_refl st : appended st st [].
Proof. unfold appended. now rewrite app_nil_r. Qed.

Lemma appended_trans st1 st2 st3 l1 l2 :
  appended st1 st2 l1 -> appended st2 st3 l2 -> appended st1 st3 (l1 ++ l2).
Proof. unfold appended. intros H1 H2. now rewrite H2, H1, app_assoc. Qed.

Lemma find_registered providerName provider :
  find (fun p => String.eqb (name W p) providerName) (providers W V env)
  = Some provider ->
  In provider (providers W V env) /\ name W provider = providerName.
Proof.
  intros H. apply find_some in H. destruct H as [Hin Heq].
  split; [exact Hin|]. now apply String.eqb_eq.
Qed.

(** The provider loop: one entry for each name it reached, in the order of
    the request; when it completes it reached all of them. *)
Lemma executeProviders_entries thought names : forall st o st1,
  executeProviders W V env callback thought names st = (o, st1) ->
  exists entries,
    appended st st1 entries
    /\ isPrefix (map actionName entries) names
    /\ Forall providerEntry entries
    /\ (o = Ok tt -> map actionName entries = names).
Proof.
  induction names as [|providerName rest IH]; intros st o st1 H.
  - injection H as <- <-. exists []. split; [apply appended_refl|].
    split; [now exists []|]. split; [constructor|reflexivity].
  - cbn [executeProviders] in H.
    destruct (find _ (providers W V env)) as [provider|] eqn:Hfind.
    + apply find_registered in Hfind.
      unfold bind at 1 in H. unfold liftW at 1 in H.
      destruct (get W provider (world st)) as [[[r|]|e] w1]; simpl in H.
      * assert (He : providerEntry
                       (mkEntry providerName (truthy (pr_text r))
                          (if truthy (pr_text r) then pr_text r else None)
                          (if truthy (pr_text r) then None else pr_error r))).
        { unfold providerEntry. simpl.
          destruct (truthy (pr_text r)) eqn:Ht; [|reflexivity].
          split; [exact Ht|]. split; [reflexivity|]. now exists provider. }
        unfold bind at 1 in H. simpl in H. unfold bind at 1 in H.
        unfold liftW at 1 in H. simpl in H.
        destruct (callback _ w1) as [[[]|e] w2]; simpl in H.
        -- apply IH in H. destruct H as (l & Hl & [tl ->] & Hall & Hok).
           eexists (_ :: l). split; [|split; [|split]].
           ++ unfold appended in *. rewrite Hl. simpl. now rewrite <- app_assoc.
           ++ exists tl. reflexivity.
           ++ constructor; [exact He|exact Hall].
           ++ intros Ho. simpl. f_equal. auto.
        -- injection H as <- <-. eexists [_]. split; [reflexivity|].
           split; [now exists rest|]. split; [|discriminate].
           constructor; [exact He|constructor].
      * unfold bind at 1 in H. simpl in H. unfold bind at 1 in H. simpl in H.
        apply IH in H. destruct H as (l & Hl & [tl ->] & Hall & Hok).
        eexists (_ :: l). split; [|split; [|split]].
        -- unfold appended in *. rewrite Hl. simpl. now rewrite <- app_assoc.
        -- exists tl. reflexivity.
        -- constructor; [reflexivity|exact Hall].
        -- intros Ho. simpl. f_equal. auto.
      * injection H as <- <-. exists [].
        split; [unfold appended; simpl; now rewrite app_nil_r|].
        split; [now exists (providerName :: rest)|].
        split; [constructor|discriminate].
    + unfold bind at 1 in H. simpl in H. unfold bind at 1 in H. simpl in H.
      apply IH in H. destruct H as (l & Hl & [tl ->] & Hall & Hok).
      eexists (_ :: l). split; [|split; [|split]].
      * unfold appended in *. rewrite Hl. simpl. now rewrite <- app_assoc.
      * exists tl. reflexivity.
      * constructor; [reflexivity|exact Hall].
      * intros Ho. simpl. f_equal. auto.
Qed.

Lemma executeProviders_ok thought names :
  providersNeverThrow ->
  forall st, exists st1,
    executeProviders W V env callback thought names st = (Ok tt, st1).
Proof.
  intros [Hget Hcb].
  induction names as [|providerName rest IH]; intros st.
  - eexists. reflexivity.
  - cbn [executeProviders].
    destruct (find _ (providers W V env)) as [provider|] eqn:Hfind.
    + apply find_registered in Hfind. destruct Hfind as [Hin _].
      unfold bind at 1. unfold liftW at 1.
      destruct (Hget provider (world st) Hin) as (r & w1 & ->). simpl.
      destruct r as [r|].
      * unfold bind at 1. simpl. unfold bind at 1. unfold liftW at 1. simpl.
        match goal with |- context [callback ?c w1] =>
          destruct (Hcb c w1) as (w2 & ->) end.
        simpl. apply IH.
      * unfold bind at 1. simpl. unfold bind at 1. simpl. apply IH.
    + unfold bind at 1. simpl. unfold bind at 1. simpl. apply IH.
Qed.

(** The action block: when it completes it has appended one entry. *)
Lemma executeAction_entries thought action st o st1 :
  executeAction W V env message callback thought action st = (o, st1) ->
  exists entries,
    appended st st1 entries /\ (o = Ok tt -> length entries = 1%nat).
Proof.
  unfold executeAction. unfold bind at 1. unfold gets at 1.
  unfold bind at 1. unfold liftW at 1.
  destruct (processActions W V env _ _ _ _) as [[[]|e] w1]; simpl; intros H.
  - injection H as <- <-. eexists [_]. split; reflexivity.
  - injection H as <- <-. exists [].
    split; [unfold appended; simpl; now rewrite app_nil_r|discriminate].
Qed.

(** A step with something to do leaves at least one entry, whether its
    body completes or throws. *)
Lemma executeStep_entries parsedStep st st1 :
  (match p_providers parsedStep with [] => true | _ => false end
   && negb (truthy (p_action parsedStep)))%bool = false ->
  snd (executeStep W V env message callback parsedStep st) = st1 ->
  exists entries,
    appended st st1 entries /\ (1 <= length entries)%nat
    /\ phases st1 = phases st.
Proof.
  intros Hdo <-.
  pose proof (keeps_executeStep W V env message callback parsedStep st) as Hph.
  unfold executeStep, tryCatch in *.
  destruct (stepBody W V env message callback parsedStep st) as [o st2] eqn:Hbody.
  unfold stepBody in Hbody. unfold bind at 1 in Hbody.
  destruct (executeProviders W V env callback (p_thought parsedStep)
              (p_providers parsedStep) st) as [o1 st3] eqn:Hprov.
  destruct (executeProviders_entries _ _ _ _ _ Hprov) as (l1 & Hl1 & _ & _ & Hok).
  destruct o1 as [[]|e1].
  - specialize (Hok eq_refl).
    destruct (truthy (p_action parsedStep)) eqn:Hact.
    + destruct (executeAction_entries _ _ _ _ _ Hbody) as (l2 & Hl2 & Hone).
      destruct o as [[]|e]; simpl in *.
      * exists (l1 ++ l2)%list. split; [eapply appended_trans; eassumption|].
        split; [|exact Hph]. rewrite length_app, (Hone eq_refl). lia.
      * exists ((l1 ++ l2) ++ [stepFailure parsedStep e])%list.
        split; [|split; [|exact Hph]].
        -- unfold appended in *. simpl. rewrite Hl2, Hl1.
           now rewrite !app_assoc.
        -- rewrite length_app. simpl. lia.
    + injection Hbody as <- <-. simpl in *.
      exists l1. split; [exact Hl1|]. split; [|exact Hph].
      destruct (p_providers parsedStep); [discriminate|].
      rewrite <- (length_map actionName), Hok. simpl. lia.
  - injection Hbody as <- <-. simpl in *.
    exists (l1 ++ [stepFailure parsedStep e1])%list.
    split; [|split; [|exact Hph]].
    + unfold appended in *. simpl. rewrite Hl1. now rewrite app_assoc.
    + rewrite length_app. simpl. lia.
Qed.

Lemma count_app p (st : St W) l :
  count_occ Phase_eq_dec (phases st ++ l) p
  = (count p st + count_occ Phase_eq_dec l p)%nat.
Proof. unfold count. apply count_occ_app. Qed.

(** One pass through the loop body: entries are only added, and a pass
    that enters [EXECUTING] adds at least one. *)
Lemma iteration_entries iterationCount st o st1 :
  iteration W V env message callback iterationCount st = (o, st1) ->
  exists entries,
    appended st st1 entries
    /\ (count EXECUTING st1 <= count EXECUTING st + length entries)%nat.
Proof.
  unfold iteration.
  unfold bind at 1. simpl. unfold bind at 1. simpl.
  unfold bind at 1. unfold liftW at 1. simpl.
  destruct (composeState W V env (world st)) as [[composed|e] w1]; simpl.
  2:{ intros [= <- <-]. exists []. unfold appended, count. simpl.
      rewrite app_nil_r, count_occ_app. simpl. split; [reflexivity|lia]. }
  unfold bind at 1. simpl. unfold bind at 1. unfold liftW at 1. simpl.
  destruct (useModel W V env _ w1) as [[raw|e] w2]; simpl.
  2:{ intros [= <- <-]. exists []. unfold appended, count. simpl.
      rewrite app_nil_r, count_occ_app. simpl. split; [reflexivity|lia]. }
  unfold bind at 1. unfold liftW at 1. simpl.
  destruct (parseKeyValueXml W V env raw w2) as [[step|] w3]; simpl.
  - destruct (isFinished (p_isFinish step)).
    + unfold bind at 1. simpl. unfold bind at 1. unfold liftW at 1. simpl.
      destruct (callback _ w3) as [[[]|e] w4]; simpl;
        intros [= <- <-]; exists []; unfold appended, count; simpl;
        rewrite app_nil_r, count_occ_app; simpl; (split; [reflexivity|lia]).
    + destruct (match p_providers step with [] => true | _ => false end
                && negb (truthy (p_action step)))%bool eqn:Hdo.
      * unfold bind at 1. simpl. intros [= <- <-]. exists [].
        unfold appended, count. simpl.
        rewrite app_nil_r, count_occ_app. simpl. split; [reflexivity|lia].
      * unfold bind at 1. simpl. unfold bind at 1.
        match goal with |- context [executeStep _ _ _ _ _ step ?s] =>
          set (s0 := s) end.
        destruct (executeStep_entries step s0 _ Hdo eq_refl)
          as (l & Hl & Hlen & Hph).
        destruct (executeStep_caught W V env message callback step s0)
          as (st2 & Hst2).
        rewrite Hst2 in *. simpl in *. intros [= <- <-].
        exists l. split; [exact Hl|].
        unfold count. rewrite Hph. unfold s0. simpl.
        rewrite !count_occ_app. simpl. fold (count EXECUTING st). lia.
  - unfold bind at 1. simpl. unfold bind at 1. simpl.
    intros [= <- <-]. exists [parseError].
    unfold appended, count. simpl. rewrite count_occ_app. simpl.
    split; [reflexivity|lia].
Qed.

Lemma loop_entries fuel : forall iterationCount st o st1,
  loop env message callback fuel iterationCount st = Some (o, st1) ->
  exists entries,
    appended st st1 entries
    /\ (count EXECUTING st1 <= count EXECUTING st + length entries)%nat.
Proof.
  induction fuel as [|fuel IH]; intros n st o st1; simpl;
    destruct (lessThan n (maxIterations env)).
  - discriminate.
  - intros [= <- <-]. exists []. split; [apply appended_refl|simpl; lia].
  - destruct (iteration W V env message callback (n + 1) st)
      as [[[exit|]|e] st2] eqn:Hit;
      destruct (iteration_entries _ _ _ _ Hit) as (l1 & Hl1 & Hc1).
    + intros [= <- <-]. eauto.
    + intros H. destruct (IH _ _ _ _ H) as (l2 & Hl2 & Hc2).
      exists (l1 ++ l2)%list. split; [eapply appended_trans; eassumption|].
      rewrite length_app. lia.
    + intros [= <- <-]. eauto.
  - intros [= <- <-]. exists []. split; [apply appended_refl|simpl; lia].
Qed.

Lemma summarize_entries iterationCount st :
  traceActionResult (snd (summarize env message iterationCount st))
  = traceActionResult st.
Proof.
  unfold summarize, askSummary.
  unfold bind, liftW, log, enter, modify, gets, ret.
  destruct (atLeast iterationCount (maxIterations env)); simpl;
    destruct (composeState W V env (world st)) as [[s|e] w1]; simpl;
    try reflexivity;
    destruct (useModel W V env _ w1) as [[raw|e] w2]; simpl;
    try reflexivity;
    destruct (parseKeyValueXml W V env raw w2) as [p w3]; reflexivity.
Qed.

(** X1. Every step the loop executes leaves an entry in the trajectory, and
    no entry is ever dropped or rewritten.  For any run of the loop, from
    any state, the trajectory afterwards is the trajectory before followed
    by new entries, at least one for each [EXECUTING] phase entered; a
    whole cycle ends with at least as many entries as executed steps. *)
Theorem executed_steps_leave_entries :
  (forall fuel iterationCount st o st1,
      loop env message callback fuel iterationCount st = Some (o, st1) ->
      exists entries,
        traceActionResult st1 = (traceActionResult st ++ entries)%list
        /\ (count EXECUTING st1 <= count EXECUTING st + length entries)%nat)
  /\ (forall w o st,
        runMultiStepCoreTest env message callback w = Some (o, st) ->
        (count EXECUTING st <= length (traceActionResult st))%nat).
Proof.
  split.
  - intros fuel n st o st1 H. exact (loop_entries _ _ _ _ _ H).
  - intros w o st. unfold runMultiStepCoreTest, runLoop.
    destruct (loop env message callback _ 0 (init w)) as [[[[exit n]|e] stl]|]
      eqn:Hloop; [| |discriminate];
      destruct (loop_entries _ _ _ _ _ Hloop) as (l & Hl & Hc);
      unfold appended in Hl; simpl in Hl; rewrite count_init in Hc.
    + intros [= Hs].
      pose proof (summarize_entries n stl) as Ht.
      destruct (summarize_phases W V env message n stl) as (_ & _ & He).
      rewrite Hs in Ht, He. simpl in Ht, He.
      rewrite Ht, He, Hl. lia.
    + intros [= _ <-]. rewrite Hl. lia.
Qed.

(** X2. With providers and a callback that do not throw, the provider loop
    completes and appends exactly one entry per requested name, in the
    order of the request, whether the name is registered or not; an entry
    marked successful belongs to a registered provider and carries its
    non-empty text and no error. *)
Theorem providers_recorded_in_request_order (thought : option string)
    (names : list string) (st : St W) :
  providersNeverThrow ->
  exists st1 entries,
    executeProviders W V env callback thought names st = (Ok tt, st1)
    /\ traceActionResult st1 = (traceActionResult st ++ entries)%list
    /\ map actionName entries = names
    /\ Forall providerEntry entries.
Proof.
  intros Hsafe.
  destruct (executeProviders_ok thought names Hsafe st) as (st1 & Hrun).
  destruct (executeProviders_entries _ _ _ _ _ Hrun) as (l & Hl & _ & Hall & Hok).
  exists st1, l. auto.
Qed.

(** X3. The completion flag of a step takes precedence over whatever else
    the step names.  When the parsed step is flagged finished, the loop is
    left at once: none of its providers or its action is executed, the
    trajectory is unchanged and no [EXECUTING] phase is entered.  The
    completion notice is sent outside the [try]: if the callback throws on
    it, the exception leaves the loop. *)
Theorem finish_flag_skips_execution (fuel : nat) (iterationCount : Z)
    (st : St W) (composed : State V) (raw : string) (parsedStep : Parsed)
    (w1 w2 w3 w4 : W) (notified : Outcome unit) :
  lessThan iterationCount (maxIterations env) = true ->
  composeState W V env (world st) = (Ok composed, w1) ->
  useModel W V env
    (composePromptFromState W V env
       {| values := values V composed;
          actionResults := traceActionResult st |}
       "multiStepDecisionTemplate") w1 = (Ok raw, w2) ->
  parseKeyValueXml W V env raw w2 = (Some parsedStep, w3) ->
  isFinished (p_isFinish parsedStep) = true ->
  callback {| c_text := ""; c_actions := [];
              c_thought := nullish (p_thought parsedStep) "";
              c_simple := false |} w3 = (notified, w4) ->
  loop env message callback (S fuel) iterationCount st
  = Some (match notified with
          | Ok _ => Ok (ExitFinished, (iterationCount + 1)%Z)
          | Throw e => Throw e
          end,
          {| world := w4;
             traceActionResult := traceActionResult st;
             logger := (logger st
                        ++ [LogStart (iterationCount + 1) (maxIterations env);
                            LogComplete (iterationCount + 1)])%list;
             phases := (phases st ++ [DECIDING])%list |}).
Proof.
  intros Hlt Hcompose Hmodel Hparse Hfin Hcb.
  cbn [loop]. rewrite Hlt. unfold iteration.
  unfold bind, liftW, log, enter, modify, gets, ret. simpl.
  rewrite Hcompose. simpl. rewrite Hmodel. simpl. rewrite Hparse. simpl.
  rewrite Hfin. simpl. rewrite Hcb.
  destruct notified as [[]|e]; simpl; rewrite <- app_assoc; reflexivity.
Qed.

(** X4. A ceiling that is not a positive number switches the loop off.
    When MAX_MULTISTEP_ITERATIONS parses to NaN or to a number below 1, no
    decision step runs at all: the cycle is the summarization alone, so
    the model is asked once, for the summary, with an empty trajectory. *)
Theorem unusable_ceiling_skips_the_loop (w : W) :
  lessThan 0 (maxIterations env) = false ->
  runMultiStepCoreTest env message callback w
  = Some (summarize env message 0 (init w))
  /\ count DECIDING (snd (summarize env message 0 (init w))) = 0%nat
  /\ count EXECUTING (snd (summarize env message 0 (init w))) = 0%nat
  /\ count SUMMARIZING (snd (summarize env message 0 (init w))) = 1%nat
  /\ traceActionResult (snd (summarize env message 0 (init w))) = [].
Proof.
  intros H. split.
  - unfold runMultiStepCoreTest, runLoop.
    now rewrite (loop_at_ceiling W V env message callback _ _ _ H).
  - destruct (summarize_phases W V env message 0 (init w)) as (Hs & Hd & He).
    rewrite Hs, Hd, He, summarize_entries. auto.
Qed.

End Trace.

Arguments providersNeverThrow {W V} env callback.
Arguments providerEntry {W V} env e.

(** *** On the mocked runtime of the test file *)

Lemma testRuntime_providers_safe : providersNeverThrow testRuntime mockCallback.
Proof.
  split.
  - intros p w [<-|[<-|[]]]; eexists _, _; reflexivity.
  - intros c w. eexists. reflexivity.
Qed.

(** Three names, the second one not registered: three entries, in that
    order. *)
Lemma providers_recorded_in_request_order_witness :
  exists st1 entries,
    executeProviders TestWorld unit testRuntime mockCallback (Some "Look up")
      ["TEST_PROVIDER"; "MISSING_PROVIDER"; "ANOTHER_PROVIDER"]
      (init (mkWorld [] []))
    = (Ok tt, st1)
    /\ traceActionResult st1 = (traceActionResult (init (mkWorld [] [])) ++ entries)%list
    /\ map actionName entries
       = ["TEST_PROVIDER"; "MISSING_PROVIDER"; "ANOTHER_PROVIDER"]
    /\ Forall (providerEntry testRuntime) entries.
Proof.
  exact (providers_recorded_in_request_order TestWorld unit testRuntime
           mockCallback (Some "Look up")
           ["TEST_PROVIDER"; "MISSING_PROVIDER"; "ANOTHER_PROVIDER"]
           (init (mkWorld [] [])) testRuntime_providers_safe).
Defined.

Example unknown_provider_is_a_failed_entry :
  map (fun e => (actionName e, success e))
    (traceActionResult
       (snd (executeProviders TestWorld unit testRuntime mockCallback
               (Some "Look up")
               ["TEST_PROVIDER"; "MISSING_PROVIDER"; "ANOTHER_PROVIDER"]
               (init (mkWorld [] [])))))
  = [("TEST_PROVIDER", true); ("MISSING_PROVIDER", false);
     ("ANOTHER_PROVIDER", true)].
Proof. reflexivity. Qed.

(** A step that is flagged finished and still names a provider and an
    action. *)
Definition finishingWorld : TestWorld :=
  mkWorld [ step "All done" ["TEST_PROVIDER"] (Some "TEST_ACTION") true ] [].

Lemma finish_flag_skips_execution_witness :
  loop testRuntime testMessage mockCallback 6 0%Z (init finishingWorld)
  = Some (Ok (ExitFinished, 1%Z),
          {| world :=
               mkWorld []
                 [ {| c_text := ""; c_actions := []; c_thought := "All done";
                      c_simple := false |} ];
             traceActionResult := [];
             logger := [LogStart 1 (Some 6%Z); LogComplete 1];
             phases := [DECIDING] |}).
Proof.
  exact (finish_flag_skips_execution TestWorld unit testRuntime testMessage
           mockCallback 5 0%Z (init finishingWorld) (mkState tt [])
           "Mock LLM response"
           (mkParsed (Some "All done") ["TEST_PROVIDER"] (Some "TEST_ACTION")
              (FlagBool true) None)
           finishingWorld finishingWorld (mkWorld [] [])
           (mkWorld []
              [ {| c_text := ""; c_actions := []; c_thought := "All done";
                   c_simple := false |} ])
           (Ok tt) eq_refl eq_refl eq_refl eq_refl eq_refl eq_refl).
Defined.

(** A setting that is not a number: [parseInt] gives NaN. *)
Definition unreadableCeiling : Env TestWorld unit :=
  mockRuntime (Some "six") (Some defaultStep) [testProvider] mockUseModel
    mockProcessActions.

Lemma unusable_ceiling_skips_the_loop_witness :
  runMultiStepCoreTest unreadableCeiling testMessage mockCallback successWorld
  = Some (summarize unreadableCeiling testMessage 0 (init successWorld))
  /\ count DECIDING
       (snd (summarize unreadableCeiling testMessage 0 (init successWorld)))
     = 0%nat
  /\ count EXECUTING
       (snd (summarize unreadableCeiling testMessage 0 (init successWorld)))
     = 0%nat
  /\ count SUMMARIZING
       (snd (summarize unreadableCeiling testMessage 0 (init successWorld)))
     = 1%nat
  /\ traceActionResult
       (snd (summarize unreadableCeiling testMessage 0 (init successWorld)))
     = [].
Proof.
  exact (unusable_ceiling_skips_the_loop TestWorld unit unreadableCeiling
           testMessage mockCallback successWorld eq_refl).
Defined.

(** The setting "0" is a non-empty string, so the default of 6 does not
    apply: the ceiling is 0 and the loop is off. *)
Example zero_ceiling :
  maxIterations
    (mockRuntime (Some "0") (Some defaultStep) [testProvider] mockUseModel
       mockProcessActions) = Some 0%Z
  /\ option_map (fun r => (phases (snd r), logger (snd r)))
       (runMultiStepCoreTest
          (mockRuntime (Some "0") (Some defaultStep) [testProvider]
             mockUseModel mockProcessActions)
          testMessage mockCallback successWorld)
     = Some ([SUMMARIZING; DONE], [LogMaxReached (Some 0%Z)]).
Proof. split; reflexivity. Qed.

End Trajectory.

(** ** The settings action, beyond the storage calls
    (the second part of multi-step.test.ts: [categorizeSettings],
    [extractSettingValues], [processSettingUpdates] with its store, and
    the reply generators) *)

Module SettingsFlow.

Import Settings.
Local Open Scope js_scope.

(** *** What a pass over the updates can change *)

(** Two settings that differ at most in their value. *)
Definition sameButValue (s s' : Setting) : Prop :=
  name s' = name s /\ description s' = description s
  /\ required s' = required s /\ dependsOn s' = dependsOn s
  /\ onSetAction s' = onSetAction s.

Lemma sameButValue_refl s : sameButValue s s.
Proof. repeat split. Qed.

Lemma sameButValue_withValue s v : sameButValue s (withValue s v).
Proof. repeat split. Qed.

Lemma sameButValue_trans s1 s2 s3 :
  sameButValue s1 s2 -> sameButValue s2 s3 -> sameButValue s1 s3.
Proof.
  intros (? & ? & ? & ? & ?) (? & ? & ? & ? & ?). repeat split; congruence.
Qed.

Lemma sameButValue_same s s' :
  sameButValue s s' -> value s' = value s -> s' = s.
Proof.
  destruct s, s'. intros (? & ? & ? & ? & ?) ?. simpl in *. congruence.
Qed.

Lemma sameButValue_valueOnly v s' w :
  sameButValue (valueOnly v) s' -> value s' = Some w -> s' = valueOnly w.
Proof.
  destruct s'. intros (? & ? & ? & ? & ?) ?. unfold valueOnly. simpl in *.
  congruence.
Qed.

(** What a key gives, case by case. *)
Lemma read_cases (updatedState : Copy) k :
  match read updatedState k with
  | FoundSetting s => own updatedState !! k = Some s
  | FoundFunction f =>
      own updatedState !! k = None /\ inheritedFunction k = Some f
  | FoundPrototype => own updatedState !! k = None /\ k = "__proto__"
  | FoundValue x =>
      own updatedState !! k = None /\ k = "value"
      /\ inheritedValue updatedState = Some x
  | FoundNothing => own updatedState !! k = None
  end.
Proof.
  unfold read. destruct (own updatedState !! k) as [s|]; [reflexivity|].
  destruct (String.eqb_spec k "__proto__") as [->|_]; [now split|].
  destruct (inheritedFunction k) as [f|]; [now split|].
  destruct (inheritedValue updatedState) as [x|]; [|reflexivity].
  destruct (String.eqb_spec k "value") as [->|_]; [now repeat split|reflexivity].
Qed.

(** How [after] relates to [before] when only the updates [updates] were
    at work.  Every setting there was is still there, the same but for its
    value, and a value that changed is the value of an update for that
    key.  A setting that was not there has been written by an update
    under its key, holds the value of such an update and nothing else, and
    its key is a name that the copy inherited: that of a function of
    [Object.prototype], or "value" under a prototype that holds one.  The
    prototype holds a value only by an update under [__proto__], a key
    that was then no setting. *)
Definition passed (updates : list SettingUpdate) (before after : Copy)
    : Prop :=
  (forall k s, own before !! k = Some s ->
     exists s', own after !! k = Some s'
       /\ sameButValue s s'
       /\ (value s' = value s
           \/ exists u, In u updates /\ key u = k
                /\ value s' = Some (newValue u)))
  /\ (forall k s', own after !! k = Some s' -> own before !! k = None ->
        (exists u, In u updates /\ key u = k /\ s' = valueOnly (newValue u))
        /\ (inheritedFunction k <> None
            \/ (k = "value" /\ inheritedValue after <> None)))
  /\ (inheritedValue after = inheritedValue before
      \/ (own before !! "__proto__" = None
          /\ exists u, In u updates /\ key u = "__proto__"
               /\ inheritedValue after = Some (newValue u))).

Lemma passed_refl updates updatedState : passed updates updatedState updatedState.
Proof.
  split; [|split].
  - intros k s H. exists s. split; [exact H|].
    split; [apply sameButValue_refl|now left].
  - intros k s' H H'. congruence.
  - now left.
Qed.

Lemma applyUpdate_passed (updatedState : Copy) msgs any update
    updatedState' msgs' any' :
  applyUpdate (updatedState, msgs, any) update
  = Ok (updatedState', msgs', any') ->
  passed [update] updatedState updatedState'.
Proof.
  intros H. destruct (applyUpdate_only_when _ _ _ _ _ _ _ H)
    as [[-> _]|(Hfound & _ & -> & _)]; [apply passed_refl|].
  pose proof (read_cases updatedState (key update)) as Hread.
  assert (Hin : In update [update]) by now left.
  destruct (read updatedState (key update)) as [setting|f| |x|];
    try discriminate; unfold passed;
    cbn [assign spreadWithValue own inheritedValue valueOnly value].
  - (* a setting of the copy *)
    split; [|split; [|now left]].
    + intros k s Hk. destruct (decide (k = key update)) as [->|Hne].
      * rewrite lookup_insert_eq. eexists. split; [reflexivity|].
        assert (s = setting) as -> by congruence.
        split; [apply sameButValue_withValue|]. right. now exists update.
      * rewrite lookup_insert_ne by congruence. exists s.
        split; [exact Hk|]. split; [apply sameButValue_refl|now left].
    + intros k s' Hk' Hk. destruct (decide (k = key update)) as [->|Hne];
        [congruence|].
      rewrite lookup_insert_ne in Hk' by congruence. congruence.
  - (* a function of Object.prototype *)
    destruct Hread as [Hnone Hf]. split; [|split; [|now left]].
    + intros k s Hk. destruct (decide (k = key update)) as [->|Hne];
        [congruence|].
      rewrite lookup_insert_ne by congruence. exists s.
      split; [exact Hk|]. split; [apply sameButValue_refl|now left].
    + intros k s' Hk' Hk. destruct (decide (k = key update)) as [->|Hne].
      * rewrite lookup_insert_eq in Hk'. injection Hk' as <-.
        split; [now exists update|]. left. congruence.
      * rewrite lookup_insert_ne in Hk' by congruence. congruence.
  - (* the prototype *)
    destruct Hread as [Hnone Hkey]. split; [|split].
    + intros k s Hk. exists s.
      split; [exact Hk|]. split; [apply sameButValue_refl|now left].
    + intros k s' Hk' Hk. congruence.
    + right. rewrite <- Hkey. split; [exact Hnone|]. now exists update.
  - (* the value of the prototype *)
    destruct Hread as (Hnone & Hkey & Hvalue). split; [|split; [|now left]].
    + intros k s Hk. destruct (decide (k = key update)) as [->|Hne];
        [congruence|].
      rewrite lookup_insert_ne by congruence. exists s.
      split; [exact Hk|]. split; [apply sameButValue_refl|now left].
    + intros k s' Hk' Hk. destruct (decide (k = key update)) as [->|Hne].
      * rewrite lookup_insert_eq in Hk'. injection Hk' as <-.
        split; [now exists update|]. right. split; [exact Hkey|]. congruence.
      * rewrite lookup_insert_ne in Hk' by congruence. congruence.
Qed.

Lemma passed_trans u rest a b c :
  passed [u] a b -> passed rest b c -> passed (u :: rest) a c.
Proof.
  intros (Hkept1 & Hadded1 & Hproto1) (Hkept2 & Hadded2 & Hproto2).
  assert (Hstays : inheritedValue b <> None -> inheritedValue c <> None).
  { destruct Hproto2 as [->|(_ & u' & _ & _ & ->)]; [auto|discriminate]. }
  split; [|split].
  - intros k s1 H1.
    destruct (Hkept1 k s1 H1) as (s2 & H2 & Hs12 & Hval12).
    destruct (Hkept2 k s2 H2) as (s3 & H3 & Hs23 & Hval23).
    exists s3. split; [exact H3|].
    split; [eapply sameButValue_trans; eauto|].
    destruct Hval23 as [Heq|(u' & Hin & Hk & Hv)].
    + rewrite Heq. destruct Hval12 as [Heq'|(u' & [<-|[]] & Hk & Hv)].
      * now left.
      * right. exists u. simpl. auto.
    + right. exists u'. simpl. auto.
  - intros k s3 H3 H1. destruct (own b !! k) as [s2|] eqn:H2.
    + destruct (Hadded1 k s2 H2 H1) as [(u0 & [<-|[]] & Hk & ->) Hname].
      destruct (Hkept2 k _ H2) as (s3' & H3' & Hsame & Hval).
      assert (s3' = s3) as -> by congruence.
      split.
      * destruct Hval as [Heq|(u' & Hin & Hk' & Hv)].
        -- exists u. split; [now left|]. split; [exact Hk|].
           now apply sameButValue_same.
        -- exists u'. split; [now right|]. split; [exact Hk'|].
           eapply sameButValue_valueOnly; eauto.
      * destruct Hname as [Hf|[Hv Hp]]; [now left|right; auto].
    + destruct (Hadded2 k s3 H3 H2) as [(u' & Hin & Hk & ->) Hname].
      split; [|exact Hname]. exists u'. split; [now right|auto].
  - destruct Hproto2 as [->|(Hnone & u' & Hin & Hk & ->)].
    + destruct Hproto1 as [->|(Hnone & u0 & [<-|[]] & Hk & ->)]; [now left|].
      right. split; [exact Hnone|]. exists u. simpl. auto.
    + right. split.
      * destruct (own a !! "__proto__") as [s|] eqn:Ha; [|reflexivity].
        destruct (Hkept1 _ _ Ha) as (s' & Hb & _). congruence.
      * exists u'. simpl. auto.
Qed.

Lemma applyUpdates_passed updates : forall (updatedState : Copy) msgs any
    updatedState' msgs' any',
  applyUpdates (updatedState, msgs, any) updates
  = Ok (updatedState', msgs', any') ->
  passed updates updatedState updatedState'.
Proof.
  induction updates as [|u rest IH];
    intros st msgs any st' msgs' any' H; cbn [applyUpdates] in H.
  - injection H as <- _ _. apply passed_refl.
  - destruct (applyUpdate (st, msgs, any) u) as [[[st1 msgs1] any1]|e] eqn:Hu;
      [|discriminate].
    eapply passed_trans.
    + exact (applyUpdate_passed _ _ _ _ _ _ _ Hu).
    + exact (IH _ _ _ _ _ _ H).
Qed.




(** *** [categorizeSettings] and [formatSettingsList] *)

(** [key.startsWith('_')]: an internal setting. *)
Definition isInternal (key : string) : bool := String.prefix "_" key.

Record Categories : Type := mkCategories {
  configured : list (string * Setting);
  requiredUnconfigured : list (string * Setting);
  optionalUnconfigured : list (string * Setting)
}.

(** The body of [for (const [key, setting] of Object.entries(..))]. *)
Definition categorizeEntry (acc : Categories) (entry : string * Setting)
    : Categories :=
  if isInternal (fst entry) then acc
  else
    match value (snd entry) with
    | Some _ =>
        {| configured := configured acc ++ [entry];
           requiredUnconfigured := requiredUnconfigured acc;
           optionalUnconfigured := optionalUnconfigured acc |}
    | None =>
        if required (snd entry) then
          {| configured := configured acc;
             requiredUnconfigured := requiredUnconfigured acc ++ [entry];
             optionalUnconfigured := optionalUnconfigured acc |}
        else
          {| configured := configured acc;
             requiredUnconfigured := requiredUnconfigured acc;
             optionalUnconfigured := optionalUnconfigured acc ++ [entry] |}
    end.

Definition categorizeEntries (entries : list (string * Setting)) : Categories :=
  fold_left categorizeEntry entries
    {| configured := []; requiredUnconfigured := [];
       optionalUnconfigured := [] |}.

(** [lines.join('\n')] *)
Definition newline : string := String (ascii_of_nat 10) EmptyString.

Fixpoint join (sep : string) (lines : list string) : string :=
  match lines with
  | [] => ""
  | [l] => l
  | l :: rest => l +:+ sep +:+ join sep rest
  end.

Definition formatEntry (entry : string * Setting) : string :=
  let status :=
    match value (snd entry) with
    | Some _ => "Configured"
    | None => "Not configured"
    end in
  let required := if required (snd entry) then "Required" else "Optional" in
  "- " +:+ name (snd entry) +:+ " (" +:+ fst entry +:+ "): " +:+ status
  +:+ ", " +:+ required.

Definition formatEntries (entries : list (string * Setting)) : string :=
  let settings :=
    join newline
      (map formatEntry
         (List.filter (fun entry => negb (isInternal (fst entry))) entries)) in
  or_else (Some settings) "No settings available".

(** The three tests of the loop body, as predicates on an entry. *)
Definition isPublic (entry : string * Setting) : bool :=
  negb (isInternal (fst entry)).

Definition isConfigured (entry : string * Setting) : bool :=
  (isPublic entry
   && match value (snd entry) with Some _ => true | None => false end)%bool.

Definition isRequiredUnconfigured (entry : string * Setting) : bool :=
  (isPublic entry
   && match value (snd entry) with Some _ => false | None => true end
   && required (snd entry))%bool.

Definition isOptionalUnconfigured (entry : string * Setting) : bool :=
  (isPublic entry
   && match value (snd entry) with Some _ => false | None => true end
   && negb (required (snd entry)))%bool.

Lemma categorize_fold entries : forall acc,
  configured (fold_left categorizeEntry entries acc)
  = (configured acc ++ List.filter isConfigured entries)%list
  /\ requiredUnconfigured (fold_left categorizeEntry entries acc)
     = (requiredUnconfigured acc
        ++ List.filter isRequiredUnconfigured entries)%list
  /\ optionalUnconfigured (fold_left categorizeEntry entries acc)
     = (optionalUnconfigured acc
        ++ List.filter isOptionalUnconfigured entries)%list.
Proof.
  induction entries as [|entry rest IH]; intros acc; simpl.
  - now rewrite !app_nil_r.
  - destruct (IH (categorizeEntry acc entry)) as (-> & -> & ->).
    unfold categorizeEntry, isConfigured, isRequiredUnconfigured,
      isOptionalUnconfigured, isPublic.
    destruct (isInternal (fst entry)); simpl; [auto|].
    destruct (value (snd entry)); simpl.
    + now rewrite <- app_assoc.
    + destruct (required (snd entry)); simpl; now rewrite <- !app_assoc.
Qed.

Lemma categorizeEntries_filters entries :
  configured (categorizeEntries entries) = List.filter isConfigured entries
  /\ requiredUnconfigured (categorizeEntries entries)
     = List.filter isRequiredUnconfigured entries
  /\ optionalUnconfigured (categorizeEntries entries)
     = List.filter isOptionalUnconfigured entries.
Proof.
  unfold categorizeEntries.
  destruct (categorize_fold entries
              {| configured := []; requiredUnconfigured := [];
                 optionalUnconfigured := [] |}) as (-> & -> & ->).
  auto.
Qed.

Lemma categorizeEntries_partition entries :
  Permutation
    (configured (categorizeEntries entries)
     ++ requiredUnconfigured (categorizeEntries entries)
     ++ optionalUnconfigured (categorizeEntries entries))
    (List.filter isPublic entries).
Proof.
  destruct (categorizeEntries_filters entries) as (-> & -> & ->).
  induction entries as [|entry rest IH]; simpl; [constructor|].
  unfold isConfigured, isRequiredUnconfigured, isOptionalUnconfigured.
  destruct (isPublic entry); simpl; [|exact IH].
  destruct (value (snd entry)); simpl.
  - now constructor.
  - destruct (required (snd entry)); simpl.
    + rewrite <- Permutation_middle. now constructor.
    + rewrite app_assoc, <- Permutation_middle, <- app_assoc. now constructor.
Qed.

Section Enumeration.

(** [Object.entries(worldSettings)].  It lists every own key once, in the
    order the keys were added to the object; that order is not part of a
    [WorldSettings] map, so the enumeration is a parameter, known only to
    list the map's entries. *)
Variable entriesOf : WorldSettings -> list (string * Setting).
Hypothesis entriesOf_lists : forall ws, Permutation (entriesOf ws) (map_to_list ws).

Definition categorizeSettings (worldSettings : WorldSettings) : Categories :=
  categorizeEntries (entriesOf worldSettings).

Definition formatSettingsList (worldSettings : WorldSettings) : string :=
  formatEntries (entriesOf worldSettings).

Lemma entriesOf_In ws k s : In (k, s) (entriesOf ws) <-> ws !! k = Some s.
Proof.
  rewrite <- elem_of_map_to_list, <- (entriesOf_lists ws).
  symmetry. apply list_elem_of_In.
Qed.

Lemma entriesOf_NoDup ws : NoDup (entriesOf ws).*1.
Proof. rewrite (entriesOf_lists ws). apply NoDup_fst_map_to_list. Qed.

Lemma filter_keys_NoDup (f : string * Setting -> bool) l :
  NoDup l.*1 -> NoDup (List.filter f l).*1.
Proof.
  induction l as [|a l IH]; simpl; [auto|].
  rewrite NoDup_cons. intros [Hnotin Hnd].
  destruct (f a); simpl; [|auto].
  apply NoDup_cons. split; [|auto].
  intros Hin. apply Hnotin.
  apply list_elem_of_fmap in Hin. destruct Hin as (x & -> & Hx).
  apply list_elem_of_fmap. exists x. split; [reflexivity|].
  apply list_elem_of_In. apply list_elem_of_In in Hx.
  apply List.filter_In in Hx. tauto.
Qed.

Lemma configured_In ws k s :
  In (k, s) (configured (categorizeSettings ws))
  <-> ws !! k = Some s /\ isInternal k = false /\ value s <> None.
Proof.
  unfold categorizeSettings.
  destruct (categorizeEntries_filters (entriesOf ws)) as (-> & _ & _).
  rewrite List.filter_In, entriesOf_In.
  unfold isConfigured, isPublic. simpl.
  destruct (isInternal k), (value s); simpl; intuition congruence.
Qed.

Lemma requiredUnconfigured_In ws k s :
  In (k, s) (requiredUnconfigured (categorizeSettings ws))
  <-> ws !! k = Some s /\ isInternal k = false /\ value s = None
      /\ required s = true.
Proof.
  unfold categorizeSettings.
  destruct (categorizeEntries_filters (entriesOf ws)) as (_ & -> & _).
  rewrite List.filter_In, entriesOf_In.
  unfold isRequiredUnconfigured, isPublic. simpl.
  destruct (isInternal k), (value s), (required s); simpl;
    intuition congruence.
Qed.

Lemma optionalUnconfigured_In ws k s :
  In (k, s) (optionalUnconfigured (categorizeSettings ws))
  <-> ws !! k = Some s /\ isInternal k = false /\ value s = None
      /\ required s = false.
Proof.
  unfold categorizeSettings.
  destruct (categorizeEntries_filters (entriesOf ws)) as (_ & _ & ->).
  rewrite List.filter_In, entriesOf_In.
  unfold isOptionalUnconfigured, isPublic. simpl.
  destruct (isInternal k), (value s), (required s); simpl;
    intuition congruence.
Qed.

(** X6. [categorizeSettings] sorts the settings that are not internal into
    three lists without losing or repeating one.  A setting of the state is
    listed as configured exactly if its key does not start with "_" and
    its value is not null, as required and unconfigured exactly if the
    value is null and the setting is required, as optional and
    unconfigured exactly if the value is null and it is not required; no
    key is listed twice, and internal keys are listed nowhere. *)
Theorem categories_partition_public_settings (ws : WorldSettings) :
  (forall k s,
      In (k, s) (configured (categorizeSettings ws))
      <-> ws !! k = Some s /\ isInternal k = false /\ value s <> None)
  /\ (forall k s,
        In (k, s) (requiredUnconfigured (categorizeSettings ws))
        <-> ws !! k = Some s /\ isInternal k = false /\ value s = None
            /\ required s = true)
  /\ (forall k s,
        In (k, s) (optionalUnconfigured (categorizeSettings ws))
        <-> ws !! k = Some s /\ isInternal k = false /\ value s = None
            /\ required s = false)
  /\ NoDup (configured (categorizeSettings ws)
            ++ requiredUnconfigured (categorizeSettings ws)
            ++ optionalUnconfigured (categorizeSettings ws))%list.*1.
Proof.
  split; [apply configured_In|].
  split; [apply requiredUnconfigured_In|].
  split; [apply optionalUnconfigured_In|].
  unfold categorizeSettings.
  rewrite (categorizeEntries_partition (entriesOf ws)).
  apply filter_keys_NoDup, entriesOf_NoDup.
Qed.

(** X7. Processing updates never adds to what is left to configure.
    After a pass over any list of updates, every setting still listed as
    required and unconfigured was listed so before, every setting that was
    configured still is, and the number of required settings left has not
    grown: a setting that the pass adds under an inherited name has a
    value. *)
Theorem remaining_required_never_grows (ws : WorldSettings)
    (msgs : list string) (any : bool) (updates : list SettingUpdate)
    (updatedState' : Copy) (msgs' : list string) (any' : bool) :
  applyUpdates (copyOf ws, msgs, any) updates
  = Ok (updatedState', msgs', any') ->
  (forall k s',
      In (k, s')
        (requiredUnconfigured (categorizeSettings (own updatedState'))) ->
      In (k, s') (requiredUnconfigured (categorizeSettings ws)))
  /\ (forall k s,
        In (k, s) (configured (categorizeSettings ws)) ->
        exists s',
          In (k, s') (configured (categorizeSettings (own updatedState'))))
  /\ (length (requiredUnconfigured (categorizeSettings (own updatedState')))
      <= length (requiredUnconfigured (categorizeSettings ws)))%nat.
Proof.
  intros H. apply applyUpdates_passed in H.
  destruct H as (Hkept & Hadded & _). cbn [copyOf own] in Hkept, Hadded.
  assert (Hreq : forall k s',
             In (k, s')
               (requiredUnconfigured (categorizeSettings (own updatedState'))) ->
             In (k, s') (requiredUnconfigured (categorizeSettings ws))).
  { intros k s'. rewrite !requiredUnconfigured_In.
    intros (Hk & Hpub & Hnull & Hreq).
    destruct (ws !! k) as [s|] eqn:Hws.
    - destruct (Hkept k s Hws) as (s0 & Hs0 & Hsame & Hval).
      assert (s0 = s') as -> by congruence.
      destruct Hval as [Heq|(u & _ & _ & Hv)]; [|congruence].
      pose proof (sameButValue_same _ _ Hsame Heq) as ->. auto.
    - destruct (Hadded k s' Hk Hws) as [(u & _ & _ & ->) _]. discriminate. }
  split; [exact Hreq|]. split.
  - intros k s. rewrite configured_In. intros (Hk & Hpub & Hset).
    destruct (Hkept k s Hk) as (s' & Hk' & _ & Hval).
    exists s'. rewrite configured_In. split; [exact Hk'|]. split; [exact Hpub|].
    destruct Hval as [Heq|(u & _ & _ & Hv)]; congruence.
  - apply submseteq_length, NoDup_submseteq.
    + apply (NoDup_fmap_1 fst). unfold categorizeSettings.
      destruct (categorizeEntries_filters (entriesOf (own updatedState')))
        as (_ & -> & _).
      apply filter_keys_NoDup, entriesOf_NoDup.
    + intros [k s']. rewrite !list_elem_of_In. apply Hreq.
Qed.

End Enumeration.

(** *** Saving and reading back *)

Section Store.

Variable W : Type.
Variable UUID : Type.
Variable Rest : Type.
Variable noRest : Rest.
Variable createUniqueUuid : Runtime W UUID Rest -> string -> Outcome UUID.

(** A store that keeps what it is given: a read changes nothing and
    answers with a world of the id asked for, and a read after a write
    answers with the world written. *)
Definition readsBack (runtime : Runtime W UUID Rest) : Prop :=
  (forall i w r w1,
      getWorld W UUID Rest runtime i w = (r, w1) ->
      w1 = w /\ forall found, r = Ok (Some found) -> id UUID Rest found = i)
  /\ (forall written w w1,
        updateWorld W UUID Rest runtime written w = (Ok tt, w1) ->
        getWorld W UUID Rest runtime (id UUID Rest written) w1
        = (Ok (Some written), w1)).

(** What [updateWorldSettings] keeps of the metadata it finds. *)
Definition keptRest (found : World UUID Rest) : Rest :=
  match metadata UUID Rest found with
  | Some m => rest Rest m
  | None => noRest
  end.

Lemma updateWorldSettings_true runtime serverId ws st st1 :
  updateWorldSettings noRest createUniqueUuid runtime serverId ws st
  = (Ok true, st1) ->
  exists worldId found w1 w2,
    createUniqueUuid runtime serverId = Ok worldId
    /\ getWorld W UUID Rest runtime worldId (world st) = (Ok (Some found), w1)
    /\ updateWorld W UUID Rest runtime
         (mkWorld (id UUID Rest found)
            (Some (mkMetadata (Some ws) (keptRest found)))) w1
       = (Ok tt, w2)
    /\ st1 = mkSt w2 (logger st).
Proof.
  unfold updateWorldSettings, tryCatch, bind, pure, liftW, log, modify, ret.
  destruct (createUniqueUuid runtime serverId) as [worldId|e]; [|discriminate].
  destruct (getWorld W UUID Rest runtime worldId (world st))
    as [[[found|]|e] w1] eqn:Hget; simpl; try discriminate.
  destruct (updateWorld W UUID Rest runtime _ w1) as [[[]|e] w2] eqn:Hup;
    simpl; [|discriminate].
  intros [= <-]. exists worldId, found, w1, w2. auto.
Qed.

Lemma updateWorldSettings_reads_back (runtime : Runtime W UUID Rest)
    (serverId : string) (ws : WorldSettings) (st st1 : St W) :
  readsBack runtime ->
  updateWorldSettings noRest createUniqueUuid runtime serverId ws st
  = (Ok true, st1) ->
  getWorldSettings createUniqueUuid runtime serverId st1 = (Ok (Some ws), st1)
  /\ exists worldId found,
       createUniqueUuid runtime serverId = Ok worldId
       /\ getWorld W UUID Rest runtime worldId (world st)
          = (Ok (Some found), world st)
       /\ getWorld W UUID Rest runtime worldId (world st1)
          = (Ok (Some (mkWorld worldId
                         (Some (mkMetadata (Some ws) (keptRest found))))),
             world st1).
Proof.
  intros [Hread Hwrite] H.
  destruct (updateWorldSettings_true _ _ _ _ _ H)
    as (worldId & found & w1 & w2 & Hid & Hget & Hup & ->).
  destruct (Hread _ _ _ _ Hget) as [-> Hfound].
  specialize (Hfound found eq_refl). rewrite Hfound in Hup.
  apply Hwrite in Hup. simpl in Hup.
  split.
  - unfold getWorldSettings, tryCatch, bind, pure, liftW, log, modify, ret.
    rewrite Hid. simpl. rewrite Hup. reflexivity.
  - exists worldId, found. auto.
Qed.

(** X8. On a store that keeps what it is given, settings saved with
    [updateWorldSettings] are the settings [getWorldSettings] reads
    afterwards, and the save leaves the rest of the world's metadata as it
    found it. *)
Theorem saved_settings_read_back (runtime : Runtime W UUID Rest)
    (serverId : string) (ws : WorldSettings) (st st1 : St W) :
  readsBack runtime ->
  updateWorldSettings noRest createUniqueUuid runtime serverId ws st
  = (Ok true, st1) ->
  getWorldSettings createUniqueUuid runtime serverId st1 = (Ok (Some ws), st1)
  /\ exists worldId found,
       createUniqueUuid runtime serverId = Ok worldId
       /\ getWorld W UUID Rest runtime worldId (world st)
          = (Ok (Some found), world st)
       /\ getWorld W UUID Rest runtime worldId (world st1)
          = (Ok (Some (mkWorld worldId
                         (Some (mkMetadata (Some ws) (keptRest found))))),
             world st1).
Proof.
  exact (updateWorldSettings_reads_back runtime serverId ws st st1).
Qed.

(** X9. When [processSettingUpdates] reports that something was updated,
    the settings it computed are stored: on a store that keeps what it is
    given, a later [getWorldSettings] reads exactly the properties of the
    state the pass over the updates produced.  That state holds every
    setting there was, changed at most in values that updates of the list
    set, and beside them only settings that updates added under names the
    copy inherited. *)
Theorem reported_updates_are_stored (runtime : Runtime W UUID Rest)
    (serverId : string) (ws : WorldSettings) (updates : list SettingUpdate)
    (st st1 : St W) (result : UpdateResult) :
  readsBack runtime ->
  processSettingUpdates noRest createUniqueUuid runtime serverId ws updates st
  = (Ok result, st1) ->
  updatedAny result = true ->
  exists updatedState',
    applyUpdates (copyOf ws, [], false) updates
    = Ok (updatedState', messages result, true)
    /\ getWorldSettings createUniqueUuid runtime serverId st1
       = (Ok (Some (own updatedState')), st1)
    /\ passed updates (copyOf ws) updatedState'.
Proof.
  intros Hstore H Hany.
  pose proof (processSettingUpdates_outcome W UUID Rest noRest
                createUniqueUuid runtime serverId ws updates st) as Ho.
  destruct (applyUpdates (copyOf ws, [], false) updates)
    as [[[updatedState' msgs] [|]]|e] eqn:Happ.
  - rewrite Ho in H. unfold tryCatch, bind in H. unfold persist in H.
    unfold bind in H.
    destruct (updateWorldSettings noRest createUniqueUuid runtime serverId
                (own updatedState') st) as [[[|]|e] st2] eqn:Hup; simpl in H.
    + destruct (updateWorldSettings_reads_back _ _ _ _ _ Hstore Hup) as [Hback _].
      rewrite Hback in H. simpl in H. injection H as <- <-.
      exists updatedState'. split; [reflexivity|]. split; [exact Hback|].
      exact (applyUpdates_passed _ _ _ _ _ _ _ Happ).
    + unfold throw, log, modify, ret in H. simpl in H.
      injection H as <- _. discriminate.
    + destruct (updateWorldSettings_total W UUID Rest noRest createUniqueUuid
                  runtime serverId (own updatedState') st) as (b & st3 & Hb).
      congruence.
  - rewrite Ho in H. injection H as <- _. discriminate.
  - rewrite Ho in H. injection H as <- _. discriminate.
Qed.

End Store.

(** *** [extractSettingValues] *)

(** The object model answers with a parsed JSON value. *)


(** The property names every plain object inherits from
    [Object.prototype]: reading one of them from the settings object gives
    a function (or the prototype itself), which is truthy. *)
Definition objectPrototypeKeys : list string :=
  [ "constructor"; "hasOwnProperty"; "isPrototypeOf"; "propertyIsEnumerable";
    "toLocaleString"; "toString"; "valueOf"; "__proto__";
    "__defineGetter__"; "__defineSetter__"; "__lookupGetter__";
    "__lookupSetter__" ].

(** [worldSettings[key]] is truthy. *)
Definition hasSetting (worldSettings : WorldSettings) (key : string) : bool :=
  match worldSettings !! key with
  | Some _ => true
  | None => existsb (String.eqb key) objectPrototypeKeys
  end.

(** An element of the list [extractValidSettings] builds. *)
Record Extracted : Type := mkExtracted {
  e_key : string;
  e_value : Any
}.

(** [traverse], with the pushes in the order they happen. *)
Fixpoint traverse (worldSettings : WorldSettings) (node : Any)
    : list Extracted :=
  match node with
  | JArray items => flat_map (traverse worldSettings) items
  | JObject fields =>
      flat_map
        (fun field =>
           match field with
           | (key, value) =>
               if (hasSetting worldSettings key
                   && negb (isObjectType value))%bool
               then [ {| e_key := key; e_value := value |} ]
               else traverse worldSettings value
           end)
        fields
  | _ => []
  end.

Definition extractValidSettings (obj : Any) (worldSettings : WorldSettings)
    : list Extracted :=
  traverse worldSettings obj.

Lemma hasSetting_spec ws key :
  hasSetting ws key = true
  <-> ws !! key <> None \/ In key objectPrototypeKeys.
Proof.
  unfold hasSetting. destruct (ws !! key) as [s|].
  - split; [intros _; left; discriminate|reflexivity].
  - rewrite existsb_exists. split.
    + intros (k & Hin & Heq). apply String.eqb_eq in Heq. subst. now right.
    + intros [H|H]; [congruence|]. exists key. split; [exact H|].
      apply String.eqb_refl.
Qed.

Lemma traverse_sound ws node :
  Forall (fun u => hasSetting ws (e_key u) = true
                   /\ isObjectType (e_value u) = false)
    (traverse ws node).
Proof.
  induction node as [| | b | n | s | items IH | fields IH] using Any_induction;
    cbn [traverse]; try constructor.
  - induction IH as [|item items Hitem _ IHitems]; simpl; [constructor|].
    apply Forall_app. split; assumption.
  - induction IH as [|[key value] fields Hfield _ IHfields]; simpl;
      [constructor|].
    apply Forall_app. split; [|assumption].
    destruct (hasSetting ws key && negb (isObjectType value))%bool eqn:Hc.
    + apply andb_true_iff in Hc. destruct Hc as [Hk Hv].
      apply negb_true_iff in Hv. constructor; [|constructor]. auto.
    + exact Hfield.
Qed.

Section Extraction.

Variable W : Type.

(** The prompt of the extraction call is a fixed text around the list of
    unconfigured settings and the text of the state. *)
Record ExtractionPrompt : Type := mkPrompt {
  settingsContext : string;
  userMessage : string
}.

(** [runtime.useModel(ModelType.OBJECT_LARGE, ..)]; [JNull] also stands
    for an answer that is [undefined]. *)
Variable useModel : ExtractionPrompt -> W -> Outcome Any * W.

Variable entriesOf : WorldSettings -> list (string * Setting).

(** What the function reaches: the runtime and the console. *)
Record Run : Type := mkRun {
  runtime : W;
  console : list string
}.

Definition describe (entry : string * Setting) : string :=
  let requiredStr := if required (snd entry) then "Required." else "Optional." in
  fst entry +:+ ": " +:+ description (snd entry) +:+ " " +:+ requiredStr.

Definition extractSettingValues (stateText : string)
    (worldSettings : WorldSettings) : M Run (list Extracted) :=
  let categories := categorizeSettings entriesOf worldSettings in
  let settingsContext :=
    join newline
      (map describe
         (requiredUnconfigured categories ++ optionalUnconfigured categories)) in
  tryCatch
    (result <- (fun run =>
                  let '(r, w) :=
                    useModel {| settingsContext := settingsContext;
                                userMessage := stateText |} (runtime run) in
                  (r, {| runtime := w; console := console run |})) ;;
     if negb (isTruthy result) then ret []
     else ret (extractValidSettings result worldSettings))
    (fun error =>
       modify (fun run =>
         {| runtime := runtime run;
            console := console run ++ ["Error extracting settings: " +:+ error] |}) ;;;
       ret []).

(** An answer in the shape the call asks the model for: an array of
    objects with the two properties "key" and "value". *)
Definition schemaShaped (pairs : list (string * string)) : Any :=
  JArray (map (fun pair => JObject [ ("key", JString (fst pair));
                                     ("value", JString (snd pair)) ]) pairs).

(** An answer keyed by setting: one object, a property per setting. *)
Definition keyedBySetting (pairs : list (string * string)) : Any :=
  JObject (map (fun pair => (fst pair, JString (snd pair))) pairs).

(** [typeof value] is none of "object" and "undefined". *)
Definition isStringNumberOrBoolean (v : Any) : Prop :=
  match v with
  | JBool _ | JNumber _ | JString _ => True
  | _ => False
  end.

(** No [undefined] occurs in a value: so it is with every value parsed
    from JSON. *)
Fixpoint definedThroughout (v : Any) : bool :=
  match v with
  | JUndefined => false
  | JArray items => forallb definedThroughout items
  | JObject fields =>
      forallb
        (fun field => match field with (_, value) => definedThroughout value end)
        fields
  | _ => true
  end.

Lemma traverse_defined ws node :
  definedThroughout node = true ->
  Forall (fun u => e_value u <> JUndefined) (traverse ws node).
Proof.
  induction node as [| | b | n | s | items IH | fields IH] using Any_induction;
    cbn [traverse definedThroughout]; intros Hdef; try constructor.
  - induction IH as [|item items Hitem _ IHitems]; simpl in *; [constructor|].
    apply andb_true_iff in Hdef as [Hd Hds].
    apply Forall_app. split; auto.
  - induction IH as [|[key value] fields Hfield _ IHfields]; simpl in *;
      [constructor|].
    apply andb_true_iff in Hdef as [Hd Hds].
    apply Forall_app. split; [|auto].
    destruct (hasSetting ws key && negb (isObjectType value))%bool.
    + constructor; [|constructor]. simpl. intros ->. discriminate.
    + auto.
Qed.

(** X10. Whatever the model answers, [extractSettingValues] returns, and
    every update it returns names a property the settings object has (a
    setting of the state, or a name inherited from Object.prototype) with
    a value that is not an object, an array or null: it is undefined, a
    boolean, a number or a string.  When no value of the answer is
    undefined, as in an answer parsed from JSON, every update carries a
    string, a number or a boolean. *)
Theorem extraction_returns_known_primitives (stateText : string)
    (ws : WorldSettings) (run : Run) :
  exists updates run1,
    extractSettingValues stateText ws run = (Ok updates, run1)
    /\ Forall (fun u =>
                 (ws !! e_key u <> None \/ In (e_key u) objectPrototypeKeys)
                 /\ (e_value u = JUndefined
                     \/ isStringNumberOrBoolean (e_value u))) updates
    /\ forall result w1,
         (forall prompt, useModel prompt (runtime run) = (Ok result, w1)) ->
         definedThroughout result = true ->
         Forall (fun u => isStringNumberOrBoolean (e_value u)) updates.
Proof.
  assert (Hkind : forall v,
            isObjectType v = false ->
            v = JUndefined \/ isStringNumberOrBoolean v).
  { intros [| | b | n | s | items | fields]; simpl; auto; discriminate. }
  unfold extractSettingValues, tryCatch, bind, modify, ret.
  destruct (useModel _ (runtime run)) as [[result|e] w] eqn:Hmodel.
  - destruct (isTruthy result); simpl.
    + eexists _, _. split; [reflexivity|]. split.
      * eapply Forall_impl; [apply traverse_sound|].
        intros u [Hk Hv]. split; [now apply hasSetting_spec|now apply Hkind].
      * intros result' w1 Hall Hdef. rewrite Hall in Hmodel.
        injection Hmodel as -> _. unfold extractValidSettings.
        pose proof (traverse_sound ws result) as Hsound.
        pose proof (traverse_defined ws result Hdef) as Hdefined.
        rewrite List.Forall_forall in *. intros u Hin.
        destruct (Hkind _ (proj2 (Hsound u Hin))) as [Hu|Hu]; [|exact Hu].
        now destruct (Hdefined u Hin).
    + eexists _, _. split; [reflexivity|]. split; [constructor|].
      intros _ _ _ _. constructor.
  - simpl. eexists _, _. split; [reflexivity|]. split; [constructor|].
    intros _ _ _ _. constructor.
Qed.

Lemma traverse_schemaShaped ws pairs :
  hasSetting ws "key" = false -> hasSetting ws "value" = false ->
  traverse ws (schemaShaped pairs) = [].
Proof.
  intros Hk Hv. unfold schemaShaped. cbn [traverse].
  induction pairs as [|pair pairs IH]; simpl; [reflexivity|].
  rewrite Hk, Hv. simpl. exact IH.
Qed.

Lemma traverse_keyedBySetting ws pairs :
  Forall (fun pair => hasSetting ws (fst pair) = true) pairs ->
  traverse ws (keyedBySetting pairs)
  = map (fun pair => {| e_key := fst pair; e_value := JString (snd pair) |})
      pairs.
Proof.
  intros H. unfold keyedBySetting. cbn [traverse].
  induction H as [|pair pairs Hpair _ IH]; simpl; [reflexivity|].
  rewrite Hpair. simpl. now f_equal.
Qed.

(** X11. The extraction reads property names, not "key" and "value"
    fields.  Unless the state has settings called "key" or "value", an
    answer in the shape the call itself requests (an array of
    [{key, value}] objects) yields no update at all, however many settings
    it names; the same pairs given as one object keyed by setting name are
    all extracted, in order. *)
Theorem extraction_reads_property_names (stateText : string)
    (ws : WorldSettings) (run : Run) (pairs : list (string * string))
    (w1 : W) :
  ws !! "key" = None -> ws !! "value" = None ->
  Forall (fun pair => ws !! fst pair <> None) pairs ->
  (forall prompt, useModel prompt (runtime run) = (Ok (schemaShaped pairs), w1)) ->
  extractSettingValues stateText ws run
  = (Ok [], {| runtime := w1; console := console run |})
  /\ extractValidSettings (keyedBySetting pairs) ws
     = map (fun pair => {| e_key := fst pair; e_value := JString (snd pair) |})
         pairs.
Proof.
  intros Hk Hv Hknown Hmodel. split.
  - unfold extractSettingValues, tryCatch, bind, modify, ret.
    rewrite Hmodel. cbn [isTruthy schemaShaped negb].
    unfold extractValidSettings.
    rewrite traverse_schemaShaped; [reflexivity| |].
    + unfold hasSetting. now rewrite Hk.
    + unfold hasSetting. now rewrite Hv.
  - apply traverse_keyedBySetting.
    eapply Forall_impl; [exact Hknown|].
    intros pair H. apply hasSetting_spec. now left.
Qed.

End Extraction.

(** *** The replies: [handleOnboardingComplete] and the three
    [generate..Response] functions *)

(** What the callback is given. *)
Record Reply : Type := mkReply {
  r_text : option string;
  r_actions : list string;
  r_source : string
}.

(** An [ActionResult]; [values] and [data] are object literals, kept as
    their properties in order. *)
Record ActionResult : Type := mkActionResult {
  text : string;
  values : list (string * Any);
  data : list (string * Any);
  success : bool;
  error : option string
}.

(** The lines of [logger.error], by call site, with the error's text. *)
Inductive ReplyLog : Type :=
| CompletionFailed (error : string)
| SuccessResponseFailed (error : string)
| FailureResponseFailed (error : string)
| ErrorResponseFailed (error : string).

(** What [parseKeyValueXml] gives when it gives an object: the field the
    generators read. *)
Record ParsedReply : Type := mkParsedReply {
  x_text : option string
}.

Section Replies.

Variable W : Type.
Variable State : Type.
Variable entriesOf : WorldSettings -> list (string * Setting).

(** From the core package: the prompt builders (given the values they
    substitute and the name of the template constant) and the parser. *)
Variable composePrompt : list (string * string) -> string -> Outcome string.
Variable composePromptFromState : State -> string -> Outcome string.
Variable parseKeyValueXml : string -> Outcome (option ParsedReply).

Variable useModel : string -> W -> Outcome string * W.
Variable callback : Reply -> W -> Outcome unit * W.

(** The text of the TypeError raised by reading [.text] of [null]; it
    depends on the engine. *)
Variable nullTextError : string.

(** What a generator reaches: the runtime, the logger, and every reply
    handed to the callback so far. *)
Record Session : Type := mkSession {
  agent : W;
  logged : list ReplyLog;
  sent : list Reply
}.

Definition askModel (prompt : string) : M Session string :=
  fun s =>
    let '(r, w) := useModel prompt (agent s) in
    (r, {| agent := w; logged := logged s; sent := sent s |}).

(** [await callback(reply)] *)
Definition send (reply : Reply) : M Session unit :=
  fun s =>
    let '(r, w) := callback reply (agent s) in
    (r, {| agent := w; logged := logged s; sent := sent s ++ [reply] |}).

Definition logError (l : ReplyLog) : M Session unit :=
  modify (fun s =>
    {| agent := agent s; logged := logged s ++ [l]; sent := sent s |}).

Definition lift {A} (o : Outcome A) : M Session A := fun s => (o, s).

(** The three lines every generator shares: ask the model, parse, hand
    the parsed text to the callback.  Reading [.text] of a [null] parse
    throws before the callback is called. *)
Definition reply (prompt : string) (action : string) : M Session unit :=
  response <- askModel prompt ;;
  responseContent <- lift (parseKeyValueXml response) ;;
  match responseContent with
  | None => throw nullTextError
  | Some content =>
      send {| r_text := x_text content; r_actions := [action];
              r_source := "discord" |}
  end.

Definition handleOnboardingComplete (worldSettings : WorldSettings)
    : M Session ActionResult :=
  tryCatch
    (prompt <- lift (composePrompt
                      [("settingsStatus", formatSettingsList entriesOf worldSettings)]
                      "completionTemplate") ;;
     reply prompt "ONBOARDING_COMPLETE" ;;;
     ret {| text := "Onboarding completed successfully";
            values := [ ("success", JBool true);
                        ("onboardingComplete", JBool true);
                        ("allRequiredConfigured", JBool true) ];
            data := [ ("actionName", JString "UPDATE_SETTINGS");
                      ("action", JString "ONBOARDING_COMPLETE");
                      ("settingsStatus",
                       JString (formatSettingsList entriesOf worldSettings)) ];
            success := true;
            error := None |})
    (fun error =>
       logError (CompletionFailed error) ;;;
       send {| r_text := Some "Great! All required settings have been configured. Your server is now fully set up and ready to use.";
               r_actions := ["ONBOARDING_COMPLETE"];
               r_source := "discord" |} ;;;
       ret {| text := "Onboarding completed with fallback message";
              values := [ ("success", JBool true);
                          ("onboardingComplete", JBool true);
                          ("fallbackUsed", JBool true) ];
              data := [ ("actionName", JString "UPDATE_SETTINGS");
                        ("action", JString "ONBOARDING_COMPLETE");
                        ("error", JString error) ];
              success := true;
              error := None |}).

(** [requiredUnconfigured.map(([key, setting]) => `${key}: ${setting.name}`).join('\n')] *)
Definition nextSetting (requiredUnconfigured : list (string * Setting)) : string :=
  join newline
    (map (fun entry => fst entry +:+ ": " +:+ name (snd entry))
       requiredUnconfigured).

(** [l.length] *)
Definition lengthOf (l : list (string * Setting)) : Z := Z.of_nat (length l).


Definition generateFailureResponse (worldSettings : WorldSettings)
    : M Session ActionResult :=
  tryCatch
    (let requiredUnconfigured :=
       requiredUnconfigured (categorizeSettings entriesOf worldSettings) in
     match requiredUnconfigured with
     | [] => handleOnboardingComplete worldSettings
     | _ =>
         prompt <- lift (composePrompt
                          [ ("nextSetting", nextSetting requiredUnconfigured);
                            ("remainingRequired",
                             pretty (lengthOf requiredUnconfigured)) ]
                          "failureTemplate") ;;
         reply prompt "SETTING_UPDATE_FAILED" ;;;
         ret {| text := "No settings were updated";
                values := [ ("success", JBool false);
                            ("settingsUpdated", JBool false);
                            ("remainingRequired",
                             JNumber (lengthOf requiredUnconfigured)) ];
                data := [ ("actionName", JString "UPDATE_SETTINGS");
                          ("action", JString "SETTING_UPDATE_FAILED");
                          ("remainingRequired",
                           JNumber (lengthOf requiredUnconfigured)) ];
                success := false;
                error := None |}
     end)
    (fun error =>
       logError (FailureResponseFailed error) ;;;
       send {| r_text := Some "I couldn't understand your settings update. Please try again with a clearer format.";
               r_actions := ["SETTING_UPDATE_FAILED"];
               r_source := "discord" |} ;;;
       ret {| text := "Failed to parse settings with fallback message";
              values := [ ("success", JBool false);
                          ("settingsUpdated", JBool false);
                          ("fallbackUsed", JBool true) ];
              data := [ ("actionName", JString "UPDATE_SETTINGS");
                        ("action", JString "SETTING_UPDATE_FAILED");
                        ("error", JString error) ];
              success := false;
              error := None |}).

Definition errorFallback : Reply :=
  {| r_text := Some "I'm sorry, but I encountered an error while processing your request. Please try again or contact support if the issue persists.";
     r_actions := ["SETTING_UPDATE_ERROR"];
     r_source := "discord" |}.

Definition generateErrorResponse (state : State) : M Session ActionResult :=
  tryCatch
    (prompt <- lift (composePromptFromState state "errorTemplate") ;;
     reply prompt "SETTING_UPDATE_ERROR" ;;;
     ret {| text := "Error processing settings";
            values := [ ("success", JBool false);
                        ("error", JString "PROCESSING_ERROR") ];
            data := [ ("actionName", JString "UPDATE_SETTINGS");
                      ("action", JString "SETTING_UPDATE_ERROR") ];
            success := false;
            error := None |})
    (fun error =>
       logError (ErrorResponseFailed error) ;;;
       send errorFallback ;;;
       ret {| text := "Error with fallback message";
              values := [ ("success", JBool false);
                          ("error", JString "PROCESSING_ERROR");
                          ("fallbackUsed", JBool true) ];
              data := [ ("actionName", JString "UPDATE_SETTINGS");
                        ("action", JString "SETTING_UPDATE_ERROR");
                        ("error", JString error) ];
              success := false;
              error := Some error |}).







(** Whether no required setting is left to configure. *)
Definition allConfigured (ws : WorldSettings) : bool :=
  match requiredUnconfigured (categorizeSettings entriesOf ws) with
  | [] => true
  | _ => false
  end.




(** X13. A reply the callback rejects is followed by the fallback reply,
    and nothing guards the fallback.  When the callback throws on the
    reply [generateErrorResponse] built from the model's answer, the error
    is logged and the callback is called a second time, with the fallback
    text; if it accepts, the result carries the first error; if it throws
    again, that exception leaves [generateErrorResponse]. *)
Theorem rejected_reply_is_followed_by_fallback (state : State) (s : Session)
    (prompt response : string) (content : ParsedReply) (e : string)
    (w1 w2 w3 : W) (second : Outcome unit) :
  composePromptFromState state "errorTemplate" = Ok prompt ->
  useModel prompt (agent s) = (Ok response, w1) ->
  parseKeyValueXml response = Ok (Some content) ->
  callback {| r_text := x_text content; r_actions := ["SETTING_UPDATE_ERROR"];
              r_source := "discord" |} w1 = (Throw e, w2) ->
  callback errorFallback w2 = (second, w3) ->
  generateErrorResponse state s
  = (match second with
     | Ok _ =>
         Ok {| text := "Error with fallback message";
               values := [ ("success", JBool false);
                           ("error", JString "PROCESSING_ERROR");
                           ("fallbackUsed", JBool true) ];
               data := [ ("actionName", JString "UPDATE_SETTINGS");
                         ("action", JString "SETTING_UPDATE_ERROR");
                         ("error", JString e) ];
               success := false;
               error := Some e |}
     | Throw e2 => Throw e2
     end,
     {| agent := w3;
        logged := (logged s ++ [ErrorResponseFailed e])%list;
        sent := (sent s
                 ++ [ {| r_text := x_text content;
                         r_actions := ["SETTING_UPDATE_ERROR"];
                         r_source := "discord" |};
                      errorFallback ])%list |}).
Proof.
  intros Hprompt Hmodel Hparse Hfirst Hsecond.
  unfold generateErrorResponse, tryCatch, reply, bind, lift, askModel, send,
    logError, modify, ret.
  rewrite Hprompt, Hmodel, Hparse. simpl. rewrite Hfirst. simpl.
  rewrite Hsecond. destruct second as [[]|e2]; simpl;
    rewrite <- app_assoc; reflexivity.
Qed.

End Replies.

Arguments categorizeSettings entriesOf worldSettings : assert.
Arguments mkSession {W} agent logged sent.
Arguments readsBack {W UUID Rest} runtime.
Arguments mkRun {W} runtime console.
Arguments extractSettingValues {W} useModel entriesOf stateText worldSettings.

(** *** An onboarding state *)

(** Three settings, one of them internal. *)
Definition onboarding : WorldSettings :=
  <[ "_SETUP_STEP" := {| name := "Setup step"; description := "Bookkeeping";
                         value := None; required := true;
                         dependsOn := None; onSetAction := None |} ]>
  (<[ "GREETING_ENABLED" := greetingEnabled ]>
   {[ "WELCOME_CHANNEL" := welcomeChannel ]}).

Definition enableGreeting : SettingUpdate :=
  {| key := "GREETING_ENABLED"; newValue := VBoolean true |}.

Definition onboarded : WorldSettings :=
  <[ "WELCOME_CHANNEL" := withValue welcomeChannel (VString "general") ]>
  (<[ "GREETING_ENABLED" := withValue greetingEnabled (VBoolean true) ]>
   onboarding).

Lemma onboarding_pass :
  applyUpdates (copyOf onboarding, [], false) [enableGreeting; setChannel]
  = Ok (copyOf onboarded,
        ["Updated Greeting successfully";
         "Updated Welcome channel successfully"], true).
Proof. reflexivity. Qed.



(** Updates under names that the state does not hold but every object
    inherits: each adds a setting that has a value and nothing else, and
    the settings there were are left alone. *)
Example updates_under_inherited_names :
  applyUpdates (copyOf onboarding, [], false)
    [ {| key := "toString"; newValue := VString "general" |};
      {| key := "unknown"; newValue := VString "general" |};
      {| key := "constructor"; newValue := VBoolean true |} ]
  = Ok ({| own := <[ "constructor" := valueOnly (VBoolean true) ]>
                    (<[ "toString" := valueOnly (VString "general") ]>
                       onboarding);
           inheritedValue := None |},
        ["Updated toString successfully"; "Updated Object successfully"],
        true).
Proof. reflexivity. Qed.

(** The enumeration used below: the entries in the order the map lists
    them. *)
Definition listed (ws : WorldSettings) : list (string * Setting) :=
  map_to_list ws.

Lemma listed_lists ws : Permutation (listed ws) (map_to_list ws).
Proof. reflexivity. Qed.

Lemma categories_partition_public_settings_witness :
  (forall k s,
      In (k, s) (configured (categorizeSettings listed onboarding))
      <-> onboarding !! k = Some s /\ isInternal k = false /\ value s <> None)
  /\ (forall k s,
        In (k, s) (requiredUnconfigured (categorizeSettings listed onboarding))
        <-> onboarding !! k = Some s /\ isInternal k = false /\ value s = None
            /\ required s = true)
  /\ (forall k s,
        In (k, s) (optionalUnconfigured (categorizeSettings listed onboarding))
        <-> onboarding !! k = Some s /\ isInternal k = false /\ value s = None
            /\ required s = false)
  /\ NoDup (configured (categorizeSettings listed onboarding)
            ++ requiredUnconfigured (categorizeSettings listed onboarding)
            ++ optionalUnconfigured (categorizeSettings listed onboarding))%list.*1.
Proof.
  exact (categories_partition_public_settings listed listed_lists onboarding).
Defined.

(** The internal key is in no list; both public settings are required and
    unconfigured. *)
Example onboarding_categories :
  map fst (requiredUnconfigured (categorizeSettings listed onboarding))
  = ["WELCOME_CHANNEL"; "GREETING_ENABLED"]
  /\ configured (categorizeSettings listed onboarding) = []
  /\ optionalUnconfigured (categorizeSettings listed onboarding) = []
  /\ map fst (configured (categorizeSettings listed onboarded))
     = ["WELCOME_CHANNEL"; "GREETING_ENABLED"]
  /\ requiredUnconfigured (categorizeSettings listed onboarded) = [].
Proof. vm_compute. auto. Qed.

Lemma remaining_required_never_grows_witness :
  (forall k s',
      In (k, s') (requiredUnconfigured (categorizeSettings listed onboarded)) ->
      In (k, s') (requiredUnconfigured (categorizeSettings listed onboarding)))
  /\ (forall k s,
        In (k, s) (configured (categorizeSettings listed onboarding)) ->
        exists s', In (k, s') (configured (categorizeSettings listed onboarded)))
  /\ (length (requiredUnconfigured (categorizeSettings listed onboarded))
      <= length (requiredUnconfigured (categorizeSettings listed onboarding)))%nat.
Proof.
  exact (remaining_required_never_grows listed listed_lists onboarding []
           false [enableGreeting; setChannel] (copyOf onboarded) _ true
           onboarding_pass).
Defined.

(** A store in memory: the metadata of each world, by world id. *)
Definition memoryStore : Runtime (gmap string (option (Metadata unit))) string unit :=
  mkRuntime "agent-a"
    (fun i w => (Ok ((fun m => mkWorld i m) <$> w !! i), w))
    (fun written w =>
       (Ok tt, <[ id string unit written := metadata string unit written ]> w)).

Lemma memoryStore_readsBack : readsBack memoryStore.
Proof.
  split.
  - intros i w r w1 [= <- <-]. split; [reflexivity|].
    intros found H. destruct (w !! i); simpl in H; [|discriminate].
    injection H as <-. reflexivity.
  - intros [i m] w w1 [= <-]. simpl. now rewrite lookup_insert_eq.
Qed.

(** World "guild-1" before onboarding. *)
Definition guildStore : gmap string (option (Metadata unit)) :=
  {[ "guild-1" := Some (mkMetadata (Some onboarding) tt) ]}.

Lemma saved_settings_read_back_witness :
  getWorldSettings (fun _ serverId => Ok serverId) memoryStore "guild-1"
    (mkSt (<[ "guild-1" := Some (mkMetadata (Some onboarded) tt) ]> guildStore)
       [])
  = (Ok (Some onboarded),
     mkSt (<[ "guild-1" := Some (mkMetadata (Some onboarded) tt) ]> guildStore)
       []).
Proof.
  exact (proj1 (saved_settings_read_back _ string unit tt
                  (fun _ serverId => Ok serverId) memoryStore "guild-1"
                  onboarded (mkSt guildStore [])
                  (mkSt (<[ "guild-1" := Some (mkMetadata (Some onboarded) tt) ]>
                           guildStore) [])
                  memoryStore_readsBack eq_refl)).
Defined.

Lemma reported_updates_are_stored_witness :
  exists updatedState',
    applyUpdates (copyOf onboarding, [], false) [enableGreeting; setChannel]
    = Ok (updatedState',
          ["Updated Greeting successfully";
           "Updated Welcome channel successfully"], true)
    /\ getWorldSettings (fun _ serverId => Ok serverId) memoryStore "guild-1"
         (mkSt (<[ "guild-1" := Some (mkMetadata (Some onboarded) tt) ]>
                  guildStore) [])
       = (Ok (Some (own updatedState')),
          mkSt (<[ "guild-1" := Some (mkMetadata (Some onboarded) tt) ]>
                  guildStore) [])
    /\ passed [enableGreeting; setChannel] (copyOf onboarding) updatedState'.
Proof.
  exact (reported_updates_are_stored _ string unit tt
           (fun _ serverId => Ok serverId) memoryStore "guild-1" onboarding
           [enableGreeting; setChannel] (mkSt guildStore [])
           (mkSt (<[ "guild-1" := Some (mkMetadata (Some onboarded) tt) ]>
                    guildStore) [])
           {| updatedAny := true;
              messages := ["Updated Greeting successfully";
                           "Updated Welcome channel successfully"] |}
           memoryStore_readsBack eq_refl eq_refl).
Defined.

(** A model that answers in the requested shape, whatever it is asked. *)
Definition shapedModel (_ : ExtractionPrompt) (w : unit) : Outcome Any * unit :=
  (Ok (schemaShaped [("WELCOME_CHANNEL", "general")]), w).

Lemma welcome_channel_known :
  Forall (fun pair : string * string => onboarding !! fst pair <> None)
    [("WELCOME_CHANNEL", "general")].
Proof. constructor; [|constructor]. vm_compute. discriminate. Qed.

Lemma extraction_reads_property_names_witness :
  extractSettingValues shapedModel listed "put the welcome in #general"
    onboarding (mkRun tt [])
  = (Ok [], mkRun tt [])
  /\ extractValidSettings (keyedBySetting [("WELCOME_CHANNEL", "general")])
       onboarding
     = [ {| e_key := "WELCOME_CHANNEL"; e_value := JString "general" |} ].
Proof.
  exact (extraction_reads_property_names unit shapedModel listed
           "put the welcome in #general" onboarding (mkRun tt [])
           [("WELCOME_CHANNEL", "general")] tt eq_refl eq_refl
           welcome_channel_known
           (fun _ => eq_refl)).
Defined.

(** A property name every object inherits passes for a setting. *)
Example inherited_name_is_extracted :
  extractValidSettings (JObject [("toString", JString "x")]) onboarding
  = [ {| e_key := "toString"; e_value := JString "x" |} ].
Proof. reflexivity. Qed.

(** *** Replies on a small runtime *)

Definition templateName (_ : list (string * string)) (template : string)
    : Outcome string := Ok template.

Definition stateTemplate (_ : unit) (template : string) : Outcome string :=
  Ok template.

(** A parser that takes the whole answer for the text. *)
Definition wholeAnswer (response : string) : Outcome (option ParsedReply) :=
  Ok (Some {| x_text := Some response |}).

Definition cannedModel (_ : string) (w : nat) : Outcome string * nat :=
  (Ok "Something went wrong on my side.", w).

(** A callback that counts its calls and accepts them all. *)
Definition accepting (_ : Reply) (w : nat) : Outcome unit * nat := (Ok tt, S w).

(** A callback whose first call fails. *)
Definition failingOnce (_ : Reply) (w : nat) : Outcome unit * nat :=
  match w with
  | O => (Throw "socket closed", 1%nat)
  | S _ => (Ok tt, S w)
  end.



(** With every required setting configured, the "failure" response is the
    completion of the onboarding, and it reports success. *)
Example failure_response_completes_onboarding :
  allConfigured listed onboarded = true
  /\ (let '(res, s1) :=
        generateFailureResponse nat listed templateName wholeAnswer
          cannedModel accepting "null has no properties" onboarded
          (mkSession 0%nat [] []) in
      (match res with Ok r => Some (text r, success r) | Throw _ => None end,
       map r_actions (sent nat s1)))
     = (Some ("Onboarding completed successfully", true),
        [["ONBOARDING_COMPLETE"]]).
Proof. split; vm_compute; reflexivity. Qed.

Lemma rejected_reply_is_followed_by_fallback_witness :
  generateErrorResponse nat unit stateTemplate wholeAnswer cannedModel
    failingOnce "null has no properties" tt (mkSession 0%nat [] [])
  = (Ok {| text := "Error with fallback message";
           values := [ ("success", JBool false);
                       ("error", JString "PROCESSING_ERROR");
                       ("fallbackUsed", JBool true) ];
           data := [ ("actionName", JString "UPDATE_SETTINGS");
                     ("action", JString "SETTING_UPDATE_ERROR");
                     ("error", JString "socket closed") ];
           success := false;
           error := Some "socket closed" |},
     {| agent := 2%nat;
        logged := [ErrorResponseFailed "socket closed"];
        sent := [ {| r_text := Some "Something went wrong on my side.";
                     r_actions := ["SETTING_UPDATE_ERROR"];
                     r_source := "discord" |};
                  errorFallback ] |}).
Proof.
  exact (rejected_reply_is_followed_by_fallback nat unit stateTemplate
           wholeAnswer cannedModel failingOnce "null has no properties" tt
           (mkSession 0%nat [] []) "errorTemplate"
           "Something went wrong on my side."
           {| x_text := Some "Something went wrong on my side." |}
           "socket closed" 0%nat 1%nat 2%nat (Ok tt)
           eq_refl eq_refl eq_refl eq_refl eq_refl).
Defined.

End SettingsFlow.

(** ** The plugin parser (cli/src/commands/scenario/src/plugin-parser.ts,
    the last part of the EvaluationEngine.ts source) *)

Module Plugins.

(** A plugin reference of a scenario: a name, or an object. *)
Record PluginObject : Type := mkPluginObject {
  ref_name : string;
  ref_version : option string;
  ref_config : option Any;
  ref_enabled : option bool
}.

Inductive PluginReference : Type :=
| RefName (name : string)
| RefObject (ref : PluginObject).

Section Parser.

(** A loaded plugin, and the runtime that loads it. *)
Variable Plugin : Type.
Variable W : Type.

(** From ../../start/utils/plugin-utils; [None] is a plugin that could
    not be loaded. *)
Variable loadAndPreparePlugin : string -> W -> Outcome (option Plugin) * W.

Record ParsedPlugin : Type := mkParsedPlugin {
  name : string;
  version : option string;
  config : option Any;
  enabled : bool;
  originalReference : PluginReference;
  loadedPlugin : option Plugin
}.

Record PluginValidationResult : Type := mkValidation {
  valid : bool;
  plugins : list ParsedPlugin;
  errors : list string;
  warnings : list string
}.

Definition parsePlugin (ref : PluginReference) : ParsedPlugin :=
  match ref with
  | RefName n =>
      {| name := n; version := None; config := None; enabled := true;
         originalReference := ref; loadedPlugin := None |}
  | RefObject o =>
      {| name := ref_name o; version := ref_version o; config := ref_config o;
         enabled := nullish (ref_enabled o) true;
         originalReference := ref; loadedPlugin := None |}
  end.

(** [parsePlugins]; [None] is [undefined]. *)
Definition parsePlugins (pluginReferences : option (list PluginReference))
    : list ParsedPlugin :=
  match pluginReferences with
  | None | Some [] => []
  | Some refs => map parsePlugin refs
  end.

(** [/^@elizaos\/plugin-[a-zA-Z0-9-]+$/.test(name)] *)
Definition isNameChar (c : ascii) : bool :=
  let n := nat_of_ascii c in
  ((Nat.leb 97 n && Nat.leb n 122) || (Nat.leb 65 n && Nat.leb n 90)
   || (Nat.leb 48 n && Nat.leb n 57) || Nat.eqb n 45)%bool.

Fixpoint allOf (p : ascii -> bool) (s : string) : bool :=
  match s with
  | String c rest => (p c && allOf p rest)%bool
  | EmptyString => true
  end.

(** What follows [prefix] in [s], when [s] starts with it. *)
Fixpoint after (prefix s : string) : option string :=
  match prefix, s with
  | EmptyString, _ => Some s
  | String a p, String b r => if Ascii.eqb a b then after p r else None
  | String _ _, EmptyString => None
  end.

Definition isValidPluginName (name : string) : bool :=
  match after "@elizaos/plugin-" name with
  | Some rest => (negb (String.eqb rest "") && allOf isNameChar rest)%bool
  | None => false
  end.

(** [/^\d+\.\d+\.\d+$/.test(version)] *)
Definition isDigit (c : ascii) : bool :=
  let n := nat_of_ascii c in (Nat.leb 48 n && Nat.leb n 57)%bool.

Fixpoint dropDigits (s : string) : string :=
  match s with
  | String c rest => if isDigit c then dropDigits rest else s
  | EmptyString => s
  end.

(** What follows the digits [s] starts with, when it starts with one. *)
Definition afterDigits (s : string) : option string :=
  match s with
  | String c rest => if isDigit c then Some (dropDigits rest) else None
  | EmptyString => None
  end.

Definition afterDot (s : option string) : option string :=
  match s with
  | Some (String "." rest) => Some rest
  | _ => None
  end.

Definition isValidVersion (version : string) : bool :=
  match afterDot (afterDigits version) with
  | Some minor =>
      match afterDot (afterDigits minor) with
      | Some patch =>
          match afterDigits patch with
          | Some EmptyString => true
          | _ => false
          end
      | None => false
      end
  | None => false
  end.

(** [typeof config === 'object' && config !== null && !Array.isArray(config)] *)
Definition isValidConfig (config : Any) : bool :=
  match config with
  | JObject _ => true
  | _ => false
  end.

Definition warn (result : PluginValidationResult) (warning : string)
    : PluginValidationResult :=
  {| valid := valid result; plugins := plugins result;
     errors := errors result; warnings := warnings result ++ [warning] |}.

(** [result.errors.push(error); result.valid = false] *)
Definition fail (result : PluginValidationResult) (error : string)
    : PluginValidationResult :=
  {| valid := false; plugins := plugins result;
     errors := errors result ++ [error]; warnings := warnings result |}.

(** [plugin.loadedPlugin = loadedPlugin; result.plugins.push(plugin)] *)
Definition accept (result : PluginValidationResult) (plugin : ParsedPlugin)
    (loaded : Plugin) : PluginValidationResult :=
  {| valid := valid result;
     plugins := plugins result
                ++ [ {| name := name plugin; version := version plugin;
                        config := config plugin; enabled := enabled plugin;
                        originalReference := originalReference plugin;
                        loadedPlugin := Some loaded |} ];
     errors := errors result; warnings := warnings result |}.

(** [plugin.version && !this.isValidVersion(plugin.version)] *)
Definition badVersion (plugin : ParsedPlugin) : bool :=
  (truthy (version plugin)
   && negb (isValidVersion (nullish (version plugin) "")))%bool.

(** [plugin.config && !this.isValidConfig(plugin.config)] *)
Definition badConfig (plugin : ParsedPlugin) : bool :=
  match config plugin with
  | Some c => (isTruthy c && negb (isValidConfig c))%bool
  | None => false
  end.

(** The [for (const plugin of plugins)] loop, with the set of names seen
    so far, the result being filled, and the runtime. *)
Fixpoint validateEach (todo : list ParsedPlugin) (seenPlugins : gset string)
    (result : PluginValidationResult) (w : W) : PluginValidationResult * W :=
  match todo with
  | [] => (result, w)
  | plugin :: rest =>
      if negb (enabled plugin) then
        validateEach rest seenPlugins
          (warn result ("Plugin '" +:+ name plugin +:+ "' is disabled")) w
      else if bool_decide (name plugin ∈ seenPlugins) then
        validateEach rest seenPlugins
          (fail result ("Duplicate plugin '" +:+ name plugin +:+ "' found")) w
      else
        let seenPlugins := {[ name plugin ]} ∪ seenPlugins in
        if negb (isValidPluginName (name plugin)) then
          validateEach rest seenPlugins
            (fail result ("Invalid plugin name '" +:+ name plugin
                          +:+ "'. Expected format: @elizaos/plugin-*")) w
        else
          match loadAndPreparePlugin (name plugin) w with
          | (Ok (Some loaded), w1) =>
              let result := accept result plugin loaded in
              if badVersion plugin then
                validateEach rest seenPlugins
                  (fail result ("Invalid version '"
                                +:+ nullish (version plugin) ""
                                +:+ "' for plugin '" +:+ name plugin +:+ "'"))
                  w1
              else if badConfig plugin then
                validateEach rest seenPlugins
                  (fail result ("Invalid configuration for plugin '"
                                +:+ name plugin +:+ "'")) w1
              else validateEach rest seenPlugins result w1
          | (Ok None, w1) =>
              validateEach rest seenPlugins
                (fail result ("Failed to load plugin '" +:+ name plugin +:+ "'"))
                w1
          | (Throw error, w1) =>
              validateEach rest seenPlugins
                (fail result ("Error loading plugin '" +:+ name plugin
                              +:+ "': " +:+ error)) w1
          end
  end.

Definition validatePlugins (plugins : list ParsedPlugin) (w : W)
    : PluginValidationResult * W :=
  validateEach plugins ∅
    {| valid := true; plugins := []; errors := []; warnings := [] |} w.

Definition parseAndValidate (pluginReferences : option (list PluginReference))
    (w : W) : PluginValidationResult * W :=
  validatePlugins (parsePlugins pluginReferences) w.

(** *** What a validation result guarantees *)

(** A plugin that passed the checks made before it is listed. *)
Definition vetted (p : ParsedPlugin) : Prop :=
  enabled p = true /\ isValidPluginName (name p) = true
  /\ loadedPlugin p <> None.

(** The reference a parsed plugin came from is explicitly disabled. *)
Definition explicitlyDisabled (ref : PluginReference) : bool :=
  match ref with
  | RefObject o => negb (nullish (ref_enabled o) true)
  | RefName _ => false
  end.

(** The cases of one turn of the loop. *)
Lemma validateEach_step plugin rest seen result w :
  validateEach (plugin :: rest) seen result w
  = if negb (enabled plugin) then
      validateEach rest seen
        (warn result ("Plugin '" +:+ name plugin +:+ "' is disabled")) w
    else if bool_decide (name plugin ∈ seen) then
      validateEach rest seen
        (fail result ("Duplicate plugin '" +:+ name plugin +:+ "' found")) w
    else if negb (isValidPluginName (name plugin)) then
      validateEach rest ({[ name plugin ]} ∪ seen)
        (fail result ("Invalid plugin name '" +:+ name plugin
                      +:+ "'. Expected format: @elizaos/plugin-*")) w
    else
      match loadAndPreparePlugin (name plugin) w with
      | (Ok (Some loaded), w1) =>
          if badVersion plugin then
            validateEach rest ({[ name plugin ]} ∪ seen)
              (fail (accept result plugin loaded)
                 ("Invalid version '" +:+ nullish (version plugin) ""
                  +:+ "' for plugin '" +:+ name plugin +:+ "'")) w1
          else if badConfig plugin then
            validateEach rest ({[ name plugin ]} ∪ seen)
              (fail (accept result plugin loaded)
                 ("Invalid configuration for plugin '" +:+ name plugin
                  +:+ "'")) w1
          else validateEach rest ({[ name plugin ]} ∪ seen)
                 (accept result plugin loaded) w1
      | (Ok None, w1) =>
          validateEach rest ({[ name plugin ]} ∪ seen)
            (fail result ("Failed to load plugin '" +:+ name plugin +:+ "'"))
            w1
      | (Throw error, w1) =>
          validateEach rest ({[ name plugin ]} ∪ seen)
            (fail result ("Error loading plugin '" +:+ name plugin
                          +:+ "': " +:+ error)) w1
      end.
Proof. reflexivity. Qed.

(** What holds of the result while the loop runs: it is valid exactly
    while it has no error, and what it lists is vetted, under names the
    loop has seen, no two alike. *)
Definition consistent (seen : gset string) (result : PluginValidationResult)
    : Prop :=
  (valid result = true <-> errors result = [])
  /\ Forall vetted (plugins result)
  /\ NoDup (map name (plugins result))
  /\ (forall p, In p (plugins result) -> name p ∈ seen).

Lemma consistent_warn seen result warning :
  consistent seen result -> consistent seen (warn result warning).
Proof. intros H. exact H. Qed.

Lemma consistent_fail seen result error :
  consistent seen result -> consistent seen (fail result error).
Proof.
  intros (_ & Hv & Hnd & Hseen). split; [|auto]. simpl. split.
  - discriminate.
  - intros H. now apply app_eq_nil in H as [_ [=]].
Qed.

Lemma consistent_seen seen n result :
  consistent seen result -> consistent ({[ n ]} ∪ seen) result.
Proof.
  intros (Hva & Hv & Hnd & Hseen).
  split; [exact Hva|]. split; [exact Hv|]. split; [exact Hnd|].
  intros p Hp. apply elem_of_union_r. auto.
Qed.

Lemma consistent_accept seen result plugin loaded :
  consistent seen result ->
  enabled plugin = true -> name plugin ∉ seen ->
  isValidPluginName (name plugin) = true ->
  consistent ({[ name plugin ]} ∪ seen) (accept result plugin loaded).
Proof.
  intros (Hva & Hv & Hnd & Hseen) Hen Hnew Hname. split; [exact Hva|].
  simpl. split; [|split].
  - apply Forall_app. split; [exact Hv|]. constructor; [|constructor].
    repeat split; simpl; auto; discriminate.
  - rewrite map_app. simpl. apply NoDup_app. split; [exact Hnd|].
    split; [|apply NoDup_singleton].
    intros n Hn Hn'. apply list_elem_of_singleton in Hn'. subst.
    apply list_elem_of_In, in_map_iff in Hn. destruct Hn as (p & Hp & Hin).
    apply Hnew. rewrite <- Hp. auto.
  - intros p Hp. apply in_app_or in Hp. destruct Hp as [Hp|[<-|[]]].
    + apply elem_of_union_r. auto.
    + apply elem_of_union_l. simpl. now apply elem_of_singleton.
Qed.

Lemma validateEach_consistent todo : forall seen result w,
  consistent seen result ->
  exists seen', consistent seen' (fst (validateEach todo seen result w)).
Proof.
  induction todo as [|plugin rest IH]; intros seen result w Hc.
  - exists seen. exact Hc.
  - rewrite validateEach_step.
    destruct (enabled plugin) eqn:Hen; simpl.
    2:{ apply IH. now apply consistent_warn. }
    destruct (bool_decide (name plugin ∈ seen)) eqn:Hdup.
    { apply IH. now apply consistent_fail. }
    apply bool_decide_eq_false in Hdup.
    destruct (isValidPluginName (name plugin)) eqn:Hname; simpl.
    2:{ apply IH. now apply consistent_fail, consistent_seen. }
    destruct (loadAndPreparePlugin (name plugin) w) as [[[loaded|]|e] w1].
    + pose proof (consistent_accept _ _ _ loaded Hc Hen Hdup Hname) as Ha.
      destruct (badVersion plugin); [apply IH; now apply consistent_fail|].
      destruct (badConfig plugin); [apply IH; now apply consistent_fail|].
      apply IH. exact Ha.
    + apply IH. now apply consistent_fail, consistent_seen.
    + apply IH. now apply consistent_fail, consistent_seen.
Qed.

Lemma validatePlugins_consistent (ps : list ParsedPlugin) (w : W) :
  exists seen, consistent seen (fst (validatePlugins ps w)).
Proof.
  unfold validatePlugins. apply validateEach_consistent.
  repeat split; simpl; auto; try constructor. intros p [].
Qed.

(** X14. The result of [validatePlugins] is marked valid exactly when it
    holds no error, and every plugin it lists was enabled, has a name of
    the form @elizaos/plugin-*, and was loaded; no two listed plugins have
    the same name. *)
Theorem listed_plugins_are_vetted (ps : list ParsedPlugin) (w : W) :
  (valid (fst (validatePlugins ps w)) = true
   <-> errors (fst (validatePlugins ps w)) = [])
  /\ Forall vetted (plugins (fst (validatePlugins ps w)))
  /\ NoDup (map name (plugins (fst (validatePlugins ps w)))).
Proof.
  destruct (validatePlugins_consistent ps w) as (seen & Hvalid & Hvetted & Hnames & _).
  split; [exact Hvalid|]. split; [exact Hvetted|exact Hnames].
Qed.

(** [listed] is [plugin] as the loop lists it: with what was loaded. *)
Definition loadedFrom (plugin listed : ParsedPlugin) : Prop :=
  exists loaded,
    listed = {| name := name plugin; version := version plugin;
                config := config plugin; enabled := enabled plugin;
                originalReference := originalReference plugin;
                loadedPlugin := Some loaded |}.

(** When the result is valid, no turn of the loop reported an error. *)
Lemma validateEach_valid todo : forall seen result w,
  valid (fst (validateEach todo seen result w)) = true ->
  valid result = true
  /\ exists added,
       plugins (fst (validateEach todo seen result w))
       = (plugins result ++ added)%list
       /\ Forall2 loadedFrom (List.filter enabled todo) added
       /\ Forall (fun p => badVersion p = false /\ badConfig p = false)
            (List.filter enabled todo).
Proof.
  induction todo as [|plugin rest IH]; intros seen result w.
  - simpl. intros H. split; [exact H|].
    exists []. rewrite app_nil_r. repeat split; constructor.
  - rewrite validateEach_step.
    destruct (enabled plugin) eqn:Hen; cbn [negb List.filter]; rewrite ?Hen.
    2:{ intros H. apply IH in H. exact H. }
    destruct (bool_decide (name plugin ∈ seen)).
    { intros H. exfalso. apply IH in H. destruct H as [H _]. discriminate. }
    destruct (isValidPluginName (name plugin)); cbn [negb].
    2:{ intros H. exfalso. apply IH in H. destruct H as [H _]. discriminate. }
    destruct (loadAndPreparePlugin (name plugin) w) as [[[loaded|]|e] w1].
    + destruct (badVersion plugin) eqn:Hbv.
      { intros H. exfalso. apply IH in H. destruct H as [H _]. discriminate. }
      destruct (badConfig plugin) eqn:Hbc.
      { intros H. exfalso. apply IH in H. destruct H as [H _]. discriminate. }
      intros H. apply IH in H.
      destruct H as (Hv & added & Hp & Href & Hall).
      split; [exact Hv|].
      eexists (_ :: added). split; [|split].
      * rewrite Hp. simpl. rewrite <- app_assoc. reflexivity.
      * constructor; [|exact Href]. now exists loaded.
      * constructor; [|exact Hall]. split; [exact Hbv|exact Hbc].
    + intros H. exfalso. apply IH in H. destruct H as [H _]. discriminate.
    + intros H. exfalso. apply IH in H. destruct H as [H _]. discriminate.
Qed.

Lemma loadedFrom_names todo added :
  Forall2 loadedFrom todo added -> map name added = map name todo.
Proof.
  induction 1 as [|p q todo added [loaded ->] _ IH]; simpl; [reflexivity|].
  now rewrite IH.
Qed.

(** X15. A result marked valid lists every enabled plugin of the input, in
    the order of the input, each with what was loaded for it; the enabled
    plugins then all have well-formed versions and configurations, and no
    two of them share a name.  (A result that is not valid promises less:
    it may list a plugin whose version was rejected.) *)
Theorem valid_result_lists_every_enabled_plugin (ps : list ParsedPlugin)
    (w : W) :
  valid (fst (validatePlugins ps w)) = true ->
  Forall2 loadedFrom (List.filter enabled ps)
    (plugins (fst (validatePlugins ps w)))
  /\ Forall (fun p => badVersion p = false /\ badConfig p = false)
       (List.filter enabled ps)
  /\ NoDup (map name (List.filter enabled ps)).
Proof.
  intros H.
  destruct (validatePlugins_consistent ps w) as (seen & _ & _ & Hnd & _).
  unfold validatePlugins in *.
  apply validateEach_valid in H. destruct H as (_ & added & Hp & Hfrom & Hall).
  simpl in Hp. rewrite Hp in *.
  split; [exact Hfrom|]. split; [exact Hall|].
  now rewrite <- (loadedFrom_names _ _ Hfrom).
Qed.

Lemma parsePlugin_enabled ref :
  enabled (parsePlugin ref) = negb (explicitlyDisabled ref).
Proof. destruct ref as [n|o]; simpl; [reflexivity|now rewrite negb_involutive]. Qed.

(** What one turn of the loop does with its plugin: skip it with a
    warning, refuse it with an error, list it, or list it and report an
    error of its version or configuration. *)
Inductive Fate : Type :=
| Skipped (warning : string)
| Refused (error : string)
| Listed (listed : ParsedPlugin)
| ListedWithError (listed : ParsedPlugin) (error : string).

Definition listing (fate : Fate) : list ParsedPlugin :=
  match fate with
  | Listed listed | ListedWithError listed _ => [listed]
  | Skipped _ | Refused _ => []
  end.

Definition report (fate : Fate) : list string :=
  match fate with
  | Refused error | ListedWithError _ error => [error]
  | Skipped _ | Listed _ => []
  end.

Definition notice (fate : Fate) : list string :=
  match fate with
  | Skipped warning => [warning]
  | Refused _ | Listed _ | ListedWithError _ _ => []
  end.

(** The errors with which the loop refuses a plugin. *)
Definition refusalOf (plugin : ParsedPlugin) (error : string) : Prop :=
  error = "Duplicate plugin '" +:+ name plugin +:+ "' found"
  \/ error = "Invalid plugin name '" +:+ name plugin
             +:+ "'. Expected format: @elizaos/plugin-*"
  \/ error = "Failed to load plugin '" +:+ name plugin +:+ "'"
  \/ exists thrown,
       error = "Error loading plugin '" +:+ name plugin +:+ "': " +:+ thrown.

(** The errors the loop reports of a plugin it has listed. *)
Definition complaintOf (plugin : ParsedPlugin) (error : string) : Prop :=
  (badVersion plugin = true
   /\ error = "Invalid version '" +:+ nullish (version plugin) ""
              +:+ "' for plugin '" +:+ name plugin +:+ "'")
  \/ (badVersion plugin = false /\ badConfig plugin = true
      /\ error = "Invalid configuration for plugin '" +:+ name plugin +:+ "'").

(** [fate] is what the loop does with [plugin]. *)
Definition accounts (plugin : ParsedPlugin) (fate : Fate) : Prop :=
  match fate with
  | Skipped warning =>
      enabled plugin = false
      /\ warning = "Plugin '" +:+ name plugin +:+ "' is disabled"
  | Refused error => enabled plugin = true /\ refusalOf plugin error
  | Listed listed =>
      enabled plugin = true /\ loadedFrom plugin listed
      /\ badVersion plugin = false /\ badConfig plugin = false
  | ListedWithError listed error =>
      enabled plugin = true /\ loadedFrom plugin listed
      /\ complaintOf plugin error
  end.

(** What one run adds to the three lists: one fate for each plugin, in
    the order of the plugins. *)
Lemma validateEach_fates todo : forall seen result w,
  exists fates,
    Forall2 accounts todo fates
    /\ plugins (fst (validateEach todo seen result w))
       = (plugins result ++ flat_map listing fates)%list
    /\ errors (fst (validateEach todo seen result w))
       = (errors result ++ flat_map report fates)%list
    /\ warnings (fst (validateEach todo seen result w))
       = (warnings result ++ flat_map notice fates)%list.
Proof.
  induction todo as [|plugin rest IH]; intros seen result w.
  { exists []. simpl. rewrite !app_nil_r. repeat split. constructor. }
  rewrite validateEach_step.
  destruct (enabled plugin) eqn:Hen; cbn [negb].
  2:{ destruct (IH seen (warn result ("Plugin '" +:+ name plugin
                                       +:+ "' is disabled")) w)
        as (fates & Hall & Hp & He & Hw).
      exists (Skipped ("Plugin '" +:+ name plugin +:+ "' is disabled")
              :: fates).
      split; [constructor; [split; [exact Hen|reflexivity]|exact Hall]|].
      rewrite Hp, He, Hw. cbn [warn fail accept plugins errors warnings
                               flat_map listing report notice].
      rewrite <- !app_assoc. auto. }
  destruct (bool_decide (name plugin ∈ seen)).
  { match goal with |- context [validateEach rest ?s (fail ?r ?e) ?w0] =>
      destruct (IH s (fail r e) w0) as (fates & Hall & Hp & He & Hw);
      exists (Refused e :: fates) end.
    split; [constructor; [split; [exact Hen|left; reflexivity]|exact Hall]|].
    rewrite Hp, He, Hw. cbn [warn fail accept plugins errors warnings
                             flat_map listing report notice].
    rewrite <- !app_assoc. auto. }
  destruct (isValidPluginName (name plugin)); cbn [negb].
  2:{ match goal with |- context [validateEach rest ?s (fail ?r ?e) ?w0] =>
        destruct (IH s (fail r e) w0) as (fates & Hall & Hp & He & Hw);
        exists (Refused e :: fates) end.
      split; [constructor;
              [split; [exact Hen|right; left; reflexivity]|exact Hall]|].
      rewrite Hp, He, Hw. cbn [warn fail accept plugins errors warnings
                               flat_map listing report notice].
      rewrite <- !app_assoc. auto. }
  destruct (loadAndPreparePlugin (name plugin) w) as [[[loaded|]|e] w1].
  - destruct (badVersion plugin) eqn:Hversion;
      [|destruct (badConfig plugin) eqn:Hconfig].
    + match goal with
      |- context [validateEach rest ?s (fail (accept ?r ?p ?l) ?e) ?w0] =>
        destruct (IH s (fail (accept r p l) e) w0)
          as (fates & Hall & Hp & He & Hw);
        exists (ListedWithError
                  {| name := name plugin; version := version plugin;
                     config := config plugin; enabled := enabled plugin;
                     originalReference := originalReference plugin;
                     loadedPlugin := Some loaded |} e :: fates) end.
      split; [constructor; [|exact Hall]|].
      { split; [exact Hen|]. split; [now exists loaded|]. left. auto. }
      rewrite Hp, He, Hw. cbn [warn fail accept plugins errors warnings
                               flat_map listing report notice].
      rewrite <- !app_assoc. auto.
    + match goal with
      |- context [validateEach rest ?s (fail (accept ?r ?p ?l) ?e) ?w0] =>
        destruct (IH s (fail (accept r p l) e) w0)
          as (fates & Hall & Hp & He & Hw);
        exists (ListedWithError
                  {| name := name plugin; version := version plugin;
                     config := config plugin; enabled := enabled plugin;
                     originalReference := originalReference plugin;
                     loadedPlugin := Some loaded |} e :: fates) end.
      split; [constructor; [|exact Hall]|].
      { split; [exact Hen|]. split; [now exists loaded|]. right. auto. }
      rewrite Hp, He, Hw. cbn [warn fail accept plugins errors warnings
                               flat_map listing report notice].
      rewrite <- !app_assoc. auto.
    + match goal with
      |- context [validateEach rest ?s (accept ?r ?p ?l) ?w0] =>
        destruct (IH s (accept r p l) w0) as (fates & Hall & Hp & He & Hw);
        exists (Listed
                  {| name := name plugin; version := version plugin;
                     config := config plugin; enabled := enabled plugin;
                     originalReference := originalReference plugin;
                     loadedPlugin := Some loaded |} :: fates) end.
      split; [constructor; [|exact Hall]|].
      { split; [exact Hen|]. split; [now exists loaded|]. auto. }
      rewrite Hp, He, Hw. cbn [warn fail accept plugins errors warnings
                               flat_map listing report notice].
      rewrite <- !app_assoc. auto.
  - match goal with |- context [validateEach rest ?s (fail ?r ?e) ?w0] =>
      destruct (IH s (fail r e) w0) as (fates & Hall & Hp & He & Hw);
      exists (Refused e :: fates) end.
    split; [constructor;
            [split; [exact Hen|right; right; left; reflexivity]|exact Hall]|].
    rewrite Hp, He, Hw. cbn [warn fail accept plugins errors warnings
                             flat_map listing report notice].
    rewrite <- !app_assoc. auto.
  - match goal with |- context [validateEach rest ?s (fail ?r ?e0) ?w0] =>
      destruct (IH s (fail r e0) w0) as (fates & Hall & Hp & He & Hw);
      exists (Refused e0 :: fates) end.
    split; [constructor; [split; [exact Hen|]|exact Hall]|].
    { right; right; right. now exists e. }
    rewrite Hp, He, Hw. cbn [warn fail accept plugins errors warnings
                             flat_map listing report notice].
    rewrite <- !app_assoc. auto.
Qed.

(** X16. No plugin reference is dropped without a trace, and none is
    accounted for twice.  The plugins, errors and warnings of the result
    are, in the order of the references, what one fate for each reference
    gives: a reference that says [enabled: false] is skipped with the
    warning that the plugin is disabled and gives nothing else; every
    other reference is refused with one error that names it (duplicate,
    invalid name, failed to load, error while loading), or listed once
    with what was loaded and under its own name and reference, or listed
    once together with one error of its version or configuration. *)
Theorem no_reference_is_dropped_silently (refs : list PluginReference)
    (w : W) :
  exists fates,
    Forall2 (fun ref fate =>
               accounts (parsePlugin ref) fate
               /\ (explicitlyDisabled ref = true
                   <-> exists warning, fate = Skipped warning)
               /\ (forall listed, In listed (listing fate) ->
                   name listed = name (parsePlugin ref)
                   /\ originalReference listed = ref
                   /\ loadedPlugin listed <> None))
            refs fates
    /\ plugins (fst (parseAndValidate (Some refs) w)) = flat_map listing fates
    /\ errors (fst (parseAndValidate (Some refs) w)) = flat_map report fates
    /\ warnings (fst (parseAndValidate (Some refs) w))
       = flat_map notice fates.
Proof.
  unfold parseAndValidate, validatePlugins.
  assert (Hparse : parsePlugins (Some refs) = map parsePlugin refs)
    by (destruct refs; reflexivity).
  rewrite Hparse.
  destruct (validateEach_fates (map parsePlugin refs) ∅
              {| valid := true; plugins := []; errors := [];
                 warnings := [] |} w) as (fates & Hall & Hp & He & Hw).
  exists fates. simpl in Hp, He, Hw.
  split; [|auto].
  clear Hp He Hw Hparse. revert fates Hall.
  induction refs as [|ref refs IH]; intros fates Hall;
    inversion Hall as [|plugin fate ps fs Hone Hrest]; subst;
    [constructor|].
  constructor; [|now apply IH].
  assert (Horig : originalReference (parsePlugin ref) = ref)
    by (destruct ref; reflexivity).
  split; [exact Hone|]. split.
  - pose proof (parsePlugin_enabled ref) as Hen.
    destruct fate as [warning|error|listed|listed error]; simpl in Hone;
      destruct Hone as (Henabled & _); rewrite Henabled in Hen;
      destruct (explicitlyDisabled ref); try discriminate Hen;
      split; try discriminate; eauto;
      intros (warning' & Heq); discriminate Heq.
  - intros listed Hin.
    destruct fate as [warning|error|listed'|listed' error]; simpl in Hin;
      try contradiction; destruct Hin as [<-|[]];
      simpl in Hone; destruct Hone as (_ & (loaded & ->) & _);
      simpl; repeat split; auto; discriminate.
Qed.

End Parser.

Arguments mkParsedPlugin {Plugin} name version config enabled
  originalReference loadedPlugin.
Arguments name {Plugin} p.
Arguments version {Plugin} p.
Arguments enabled {Plugin} p.
Arguments loadedPlugin {Plugin} p.
Arguments valid {Plugin} p.
Arguments plugins {Plugin} p.
Arguments errors {Plugin} p.
Arguments warnings {Plugin} p.
Arguments parsePlugins {Plugin} pluginReferences.
Arguments validatePlugins {Plugin W} loadAndPreparePlugin plugins w.
Arguments parseAndValidate {Plugin W} loadAndPreparePlugin pluginReferences w.
Arguments loadedFrom {Plugin} plugin listed.
Arguments badVersion {Plugin} plugin.
Arguments badConfig {Plugin} plugin.

(** *** A scenario's plugin list *)

(** A loader that knows two plugins, fails to load a third and throws on
    any other; the runtime records the names asked for. *)
Definition loader (name : string) (w : list string)
    : Outcome (option string) * list string :=
  if (String.eqb name "@elizaos/plugin-sql"
      || String.eqb name "@elizaos/plugin-bootstrap")%bool
  then (Ok (Some name), (w ++ [name])%list)
  else if String.eqb name "@elizaos/plugin-missing"
  then (Ok None, (w ++ [name])%list)
  else (Throw "Cannot find module", (w ++ [name])%list).

Definition scenarioPlugins : list PluginReference :=
  [ RefName "@elizaos/plugin-sql";
    RefObject {| ref_name := "@elizaos/plugin-openai"; ref_version := None;
                 ref_config := None; ref_enabled := Some false |};
    RefObject {| ref_name := "@elizaos/plugin-bootstrap";
                 ref_version := Some "1.4.2";
                 ref_config := Some (JObject [("verbose", JBool true)]);
                 ref_enabled := None |} ].

Lemma valid_result_lists_every_enabled_plugin_witness :
  Forall2 loadedFrom
    (List.filter enabled (parsePlugins (Plugin := string) (Some scenarioPlugins)))
    (plugins (fst (validatePlugins loader
                     (parsePlugins (Some scenarioPlugins)) [])))
  /\ Forall (fun p => badVersion p = false /\ badConfig p = false)
       (List.filter enabled
          (parsePlugins (Plugin := string) (Some scenarioPlugins)))
  /\ NoDup (map name
              (List.filter enabled
                 (parsePlugins (Plugin := string) (Some scenarioPlugins)))).
Proof.
  exact (valid_result_lists_every_enabled_plugin string (list string) loader
           (parsePlugins (Some scenarioPlugins)) [] eq_refl).
Defined.

Example scenario_plugins_validated :
  let r := fst (parseAndValidate loader (Some scenarioPlugins) []) in
  (valid r, map name (plugins r), errors r, warnings r)
  = (true, ["@elizaos/plugin-sql"; "@elizaos/plugin-bootstrap"], [],
     ["Plugin '@elizaos/plugin-openai' is disabled"]).
Proof. vm_compute. reflexivity. Qed.

(** A version that is not three dot-separated numbers is reported after
    the plugin has been listed: the result is not valid and still lists
    it.  A second reference to the same name is a duplicate whatever it
    says. *)
Example rejected_version_is_still_listed :
  let r := fst (parseAndValidate loader
                  (Some [ RefObject {| ref_name := "@elizaos/plugin-sql";
                                       ref_version := Some "1.4";
                                       ref_config := None;
                                       ref_enabled := None |};
                          RefName "@elizaos/plugin-sql";
                          RefName "plugin-sql";
                          RefName "@elizaos/plugin-missing";
                          RefName "@elizaos/plugin-other" ]) []) in
  (valid r, map name (plugins r), errors r)
  = (false, ["@elizaos/plugin-sql"],
     [ "Invalid version '1.4' for plugin '@elizaos/plugin-sql'";
       "Duplicate plugin '@elizaos/plugin-sql' found";
       "Invalid plugin name 'plugin-sql'. Expected format: @elizaos/plugin-*";
       "Failed to load plugin '@elizaos/plugin-missing'";
       "Error loading plugin '@elizaos/plugin-other': Cannot find module" ]).
Proof. vm_compute. reflexivity. Qed.

Example versions :
  map isValidVersion ["1.4.2"; "10.0.13"; "1.4"; "1.4.2-beta"; "v1.4.2"; "1..2"; ""]
  = [true; true; false; false; false; false; false].
Proof. reflexivity. Qed.

End Plugins.

(** ** The evaluation runner of the scenario command
    (cli/src/commands/tee/index.ts, [runEvaluationsWithFallback]) *)

Module Fallback.

Import Evaluation.
Local Open Scope js_scope.

(** An enhanced result converted back to the legacy format: the fields
    are copied as they are found. *)
Record Converted : Type := mkConverted {
  c_success : Any;
  c_message : Any;
  _enhanced : Any
}.

(** What the runner returns: converted enhanced results, or the results
    of [runEvaluations]. *)
Inductive Results : Type :=
| Enhanced (results : list Converted)
| Legacy (results : list EvaluationResult).

Inductive LogLine : Type :=
| DebugUsingEnhanced
| DebugEnhancedSuccessful (count : nat)
| WarnEnhancedInvalid
| WarnEnhancedFailed (error : string)
| DebugUsingLegacy.

(** The check made on the first enhanced result. *)
Definition isStructured (firstResult : Any) : bool :=
  (isTruthy firstResult
   && String.eqb (typeof (property "evaluator_type" firstResult)) "string"
   && String.eqb (typeof (property "success" firstResult)) "boolean"
   && String.eqb (typeof (property "summary" firstResult)) "string"
   && String.eqb (typeof (property "details" firstResult)) "object")%bool.

(** [null] or [undefined]: reading a property of it throws. *)
Definition isNullish (v : Any) : bool :=
  match v with
  | JUndefined | JNull => true
  | _ => false
  end.

Section Runner.

Variable W : Type.

(** The parameters of the evaluation engine (see [Evaluation]). *)
Variable regExpTest : string -> string -> Outcome bool.
Variable searchTrajectory : string -> W -> Outcome EvaluationResult * W.
Variable askJudge : string -> string -> JsonSchema -> ExecutionResult -> W
                    -> Outcome EvaluationResult * W.
Variable timeoutMs : Z.
Variable conversationEvaluator : string -> Evaluator W.

(** [evaluationEngine.runEnhancedEvaluations], which is not among the
    sources; the runner checks what it gets at run time. *)
Variable runEnhancedEvaluations :
  list EvaluationSchema -> ExecutionResult -> W -> Outcome Any * W.

(** The text of the TypeError raised by reading a property of [null] or
    [undefined]; it depends on the engine. *)
Variable nullPropertyError : string.

Record St : Type := mkSt {
  world : W;
  logger : list LogLine
}.

Definition liftW {A} (f : W -> Outcome A * W) : M St A :=
  fun st =>
    let '(r, w) := f (world st) in
    (r, {| world := w; logger := logger st |}).

Definition log (l : LogLine) : M St unit :=
  modify (fun st => {| world := world st; logger := logger st ++ [l] |}).

(** [enhancedResults.map((enhanced) => ({ success: enhanced.success, .. }))] *)
Fixpoint convert (enhancedResults : list Any) : Outcome (list Converted) :=
  match enhancedResults with
  | [] => Ok []
  | enhanced :: rest =>
      if isNullish enhanced then Throw nullPropertyError
      else
        match convert rest with
        | Ok converted =>
            Ok ({| c_success := property "success" enhanced;
                   c_message := property "summary" enhanced;
                   _enhanced := enhanced |} :: converted)
        | Throw e => Throw e
        end
  end.

(** The [try] block: [Some] is its [return], [None] is falling out of
    it. *)
Definition tryEnhanced (evaluations : list EvaluationSchema)
    (result : ExecutionResult) : M St (option (list Converted)) :=
  tryCatch
    (log DebugUsingEnhanced ;;;
     enhancedResults <- liftW (runEnhancedEvaluations evaluations result) ;;
     match enhancedResults with
     | JArray (firstResult :: rest) =>
         if isStructured firstResult then
           log (DebugEnhancedSuccessful (length (firstResult :: rest))) ;;;
           converted <- (fun st => (convert (firstResult :: rest), st)) ;;
           ret (Some converted)
         else
           log WarnEnhancedInvalid ;;; ret None
     | _ => log WarnEnhancedInvalid ;;; ret None
     end)
    (fun error => log (WarnEnhancedFailed error) ;;; ret None).

Definition runEvaluationsWithFallback (evaluations : list EvaluationSchema)
    (result : ExecutionResult) : M St Results :=
  enhanced <- tryEnhanced evaluations result ;;
  match enhanced with
  | Some converted => ret (Enhanced converted)
  | None =>
      log DebugUsingLegacy ;;;
      legacy <- liftW (runEvaluations regExpTest searchTrajectory askJudge
                         timeoutMs conversationEvaluator evaluations result) ;;
      ret (Legacy legacy)
  end.

(** *** When the enhanced results are used *)

(** The answers of the enhanced engine that the runner returns: a
    non-empty array whose first element passes the check and none of whose
    elements is [null] or [undefined]. *)
Definition usable (answer : Outcome Any) : bool :=
  match answer with
  | Ok (JArray (firstResult :: rest)) =>
      (isStructured firstResult
       && forallb (fun v => negb (isNullish v)) (firstResult :: rest))%bool
  | _ => false
  end.

(** Each converted result copies the fields of the enhanced result at its
    position. *)
Definition convertedFrom (enhanced : Any) (c : Converted) : Prop :=
  c_success c = property "success" enhanced
  /\ c_message c = property "summary" enhanced
  /\ _enhanced c = enhanced.

Lemma convert_spec enhancedResults :
  if forallb (fun v => negb (isNullish v)) enhancedResults
  then exists converted,
         convert enhancedResults = Ok converted
         /\ Forall2 convertedFrom enhancedResults converted
  else convert enhancedResults = Throw nullPropertyError.
Proof.
  induction enhancedResults as [|enhanced rest IH]; simpl.
  - exists []. split; [reflexivity|constructor].
  - destruct (isNullish enhanced); simpl; [reflexivity|].
    destruct (forallb _ rest).
    + destruct IH as (converted & -> & Hall). eexists. split; [reflexivity|].
      constructor; [|exact Hall]. repeat split.
    + now rewrite IH.
Qed.

Lemma tryEnhanced_spec evaluations result st answer w1 :
  runEnhancedEvaluations evaluations result (world st) = (answer, w1) ->
  exists enhanced lines,
    tryEnhanced evaluations result st
    = (Ok enhanced, {| world := w1; logger := logger st ++ lines |})
    /\ if usable answer
       then exists all converted,
              answer = Ok (JArray all)
              /\ enhanced = Some converted
              /\ Forall2 convertedFrom all converted
       else enhanced = None.
Proof.
  intros Hrun. unfold tryEnhanced, tryCatch, bind, liftW, log, modify, ret.
  simpl. rewrite Hrun.
  destruct answer as [answer|e]; simpl.
  2:{ eexists _, [_; _]. rewrite <- app_assoc. split; reflexivity. }
  destruct answer as [| | b | n | s | [|firstResult rest] | fields]; simpl;
    try (eexists _, [_; _]; rewrite <- app_assoc; split; reflexivity).
  destruct (isStructured firstResult) eqn:Hs; simpl.
  2:{ eexists _, [_; _]. rewrite <- app_assoc. split; reflexivity. }
  destruct (isNullish firstResult) eqn:Hn; simpl.
  { eexists _, [_; _; _]. rewrite <- !app_assoc. split; reflexivity. }
  pose proof (convert_spec rest) as Hc.
  destruct (forallb _ rest).
  - destruct Hc as (converted & -> & Hall). simpl.
    eexists _, [_; _]. rewrite <- app_assoc. split; [reflexivity|].
    eexists (firstResult :: rest), (_ :: converted).
    split; [reflexivity|]. split; [reflexivity|].
    constructor; [|exact Hall]. repeat split.
  - rewrite Hc. simpl.
    eexists _, [_; _; _]. rewrite <- !app_assoc. split; reflexivity.
Qed.

(** X17. The runner returns the enhanced results exactly when the enhanced
    engine answers with a non-empty array whose first element has the
    structured shape and which holds no [null]; each result is then the
    copy of the enhanced result at its position.  In every other case (the
    engine throws, answers with something else, or the conversion throws)
    the exception does not leave the runner: the legacy [runEvaluations]
    is run on the runtime the attempt left, and its outcome is the
    runner's outcome, a thrown exception included. *)
Theorem fallback_runs_legacy_evaluations (evaluations : list EvaluationSchema)
    (result : ExecutionResult) (st : St) (answer : Outcome Any) (w1 : W) :
  runEnhancedEvaluations evaluations result (world st) = (answer, w1) ->
  if usable answer
  then exists all converted lines,
         answer = Ok (JArray all)
         /\ Forall2 convertedFrom all converted
         /\ runEvaluationsWithFallback evaluations result st
            = (Ok (Enhanced converted),
               {| world := w1; logger := logger st ++ lines |})
  else exists lines,
         runEvaluationsWithFallback evaluations result st
         = (match fst (runEvaluations regExpTest searchTrajectory askJudge
                         timeoutMs conversationEvaluator evaluations result w1)
            with
            | Ok legacy => Ok (Legacy legacy)
            | Throw e => Throw e
            end,
            {| world := snd (runEvaluations regExpTest searchTrajectory
                               askJudge timeoutMs conversationEvaluator
                               evaluations result w1);
               logger := logger st ++ lines |}).
Proof.
  intros Hrun.
  destruct (tryEnhanced_spec evaluations result st answer w1 Hrun)
    as (enhanced & lines & Htry & Hspec).
  unfold runEvaluationsWithFallback.
  destruct (usable answer).
  - destruct Hspec as (all & converted & -> & -> & Hall).
    exists all, converted, lines. unfold bind at 1. rewrite Htry. auto.
  - subst enhanced. exists (lines ++ [DebugUsingLegacy])%list.
    unfold bind at 1. rewrite Htry.
    unfold bind, liftW, log, modify, ret. simpl.
    destruct (runEvaluations _ _ _ _ _ evaluations result w1) as [[legacy|e] w2];
      simpl; rewrite <- app_assoc; reflexivity.
Qed.

End Runner.

Arguments mkSt {W} world logger.
Arguments runEvaluationsWithFallback {W} regExpTest searchTrajectory askJudge
  timeoutMs conversationEvaluator runEnhancedEvaluations nullPropertyError
  evaluations result.

(** *** With and without an enhanced engine *)

(** An engine without enhanced evaluations. *)
Definition noEnhanced (_ : list EvaluationSchema) (_ : ExecutionResult)
    (w : unit) : Outcome Any * unit :=
  (Throw "runEnhancedEvaluations is not a function", w).

Definition structured (type summary : string) (success : bool) : Any :=
  JObject [ ("evaluator_type", JString type); ("success", JBool success);
            ("summary", JString summary); ("details", JObject []) ].

(** An engine whose second result lacks the fields of a structured
    result. *)
Definition looseEnhanced (_ : list EvaluationSchema) (_ : ExecutionResult)
    (w : unit) : Outcome Any * unit :=
  (Ok (JArray [ structured "string_contains" "found" true;
                JObject [("note", JString "skipped")] ]), w).

Definition runner enhanced (evaluations : list EvaluationSchema)
    : Outcome Results * St unit :=
  runEvaluationsWithFallback literalRegExp noTrajectory noJudge 15000
    quietConversation enhanced "Cannot read properties of null"
    evaluations helloRun (mkSt tt []).

(** The engine throws; the invalid pattern of the legacy run then throws
    in its turn, and that exception is the runner's. *)
Lemma fallback_runs_legacy_evaluations_witness :
  exists lines,
    runner noEnhanced [ StringContains "World"; RegexMatch "(" ]
    = (Throw "Invalid regular expression: /(/i: Unterminated group",
       mkSt tt ([] ++ lines)).
Proof.
  exact (fallback_runs_legacy_evaluations unit literalRegExp noTrajectory
           noJudge 15000 quietConversation noEnhanced
           "Cannot read properties of null"
           [ StringContains "World"; RegexMatch "(" ] helloRun (mkSt tt [])
           (Throw "runEnhancedEvaluations is not a function") tt eq_refl).
Defined.

Example fallback_to_legacy_results :
  runner noEnhanced [ StringContains "World" ]
  = (Ok (Legacy [ {| success := true;
                     message := "Checked if stdout contains "
                                +:+ String "034" "World"
                                +:+ String "034" ". Result: true" |} ]),
     mkSt tt [ DebugUsingEnhanced;
               WarnEnhancedFailed "runEnhancedEvaluations is not a function";
               DebugUsingLegacy ]).
Proof. vm_compute. reflexivity. Qed.

(** Only the first enhanced result is checked: the second one is
    converted as it is, to a result without success flag or message; and
    there are two results for one evaluation. *)
Example only_the_first_result_is_checked :
  fst (runner looseEnhanced [ StringContains "World" ])
  = Ok (Enhanced
          [ {| c_success := JBool true; c_message := JString "found";
               _enhanced := structured "string_contains" "found" true |};
            {| c_success := JUndefined; c_message := JUndefined;
               _enhanced := JObject [("note", JString "skipped")] |} ]).
Proof. vm_compute. reflexivity. Qed.

End Fallback.

(** ** The messaging router (server/src/api/messaging/core.ts): the four
    endpoints over a store that is a parameter *)

Module Router.

Definition DEFAULT_SERVER_ID : string := "00000000-0000-0000-0000-000000000000".

(** What the handlers read of [raw_message] and of [metadata]. *)
Record RawMessage : Type := mkRaw {
  thought : option string;
  actions : option (list string)
}.

Record Metadata : Type := mkMetadata {
  agentName : option string;
  attachments : option (list string)
}.

(** The body of a request; a field that is absent is [None]. *)
Record Body : Type := mkBody {
  messageId : option string;
  channel_id : option string;
  server_id : option string;
  author_id : option string;
  author_display_name : option string;
  content : option string;
  in_reply_to_message_id : option string;
  source_id : option string;
  source_type : option string;
  raw_message : option RawMessage;
  metadata : option Metadata
}.

(** What a handler passes to [createMessage] or [updateMessage]. *)
Record MessageData : Type := mkData {
  d_messageId : option string;
  d_channelId : option string;
  d_authorId : option string;
  d_content : option string;
  d_rawMessage : option RawMessage;
  d_sourceId : option string;
  d_sourceType : option string;
  d_inReplyToRootMessageId : option string;
  d_metadata : option Metadata
}.

(** A stored message, with time stamps in milliseconds. *)
Record Message : Type := mkMessage {
  id : string;
  channelId : string;
  authorId : string;
  m_content : string;
  rawMessage : option RawMessage;
  sourceId : option string;
  sourceType : option string;
  inReplyToRootMessageId : option string;
  createdAt : Z;
  updatedAt : Z;
  m_metadata : option Metadata
}.

(** The [new_message] event of the internal bus. *)
Record BusMessage : Type := mkBus {
  b_id : string;
  b_channel_id : string;
  b_server_id : string;
  b_author_id : string;
  b_author_display_name : option string;
  b_content : string;
  b_raw_message : option RawMessage;
  b_source_id : option string;
  b_source_type : option string;
  b_in_reply_to_message_id : option string;
  b_created_at : Z;
  b_metadata : option Metadata
}.

(** A [messageBroadcast] event and the socket room it is sent to. *)
Record Broadcast : Type := mkBroadcast {
  room : string;
  senderId : string;
  senderName : string;
  text : string;
  roomId : string;
  serverId : option string;
  broadcastCreatedAt : Z;
  source : option string;
  broadcastId : string;
  broadcastThought : option string;
  broadcastActions : option (list string);
  broadcastAttachments : option (list string);
  broadcastUpdatedAt : option Z;
  broadcastRawMessage : option RawMessage
}.

(** The [data] of a successful response: the stored message, or (for an
    ingestion) its id alone. *)
Inductive ResponseData : Type :=
| TheMessage (m : Message)
| TheMessageId (messageId : string).

(** [res.status(..).json(..)] *)
Record Response : Type := mkResponse {
  status : Z;
  success : bool;
  error : option string;
  r_message : option string;
  data : option ResponseData
}.

Inductive LogLine : Type :=
| LogSubmitFailed (error : string)
| LogActionFailed (error : string)
| LogUpdateFailed (error : string)
| LogIngestFailed (error : string)
| LogPublished (id : string).

Section Handlers.

(** The message store behind [serverInstance]. *)
Variable S : Type.
Variable createMessage : MessageData -> S -> Outcome Message * S.
Variable updateMessage : string -> MessageData -> S -> Outcome (option Message) * S.

(** [validateUuid] comes from the core package. *)
Variable validateUuid : string -> option string.

(** What a handler reaches: the store, the internal bus, the socket
    server when there is one, the logger. *)
Record Node : Type := mkNode {
  store : S;
  bus : list BusMessage;
  socketIO : option (list Broadcast);
  logger : list LogLine
}.

(** [validateUuid(field)] on a field of the body. *)
Definition validated (field : option string) : option string :=
  match field with
  | Some s => validateUuid s
  | None => None
  end.

(** [server_id === DEFAULT_SERVER_ID || validateUuid(server_id)] *)
Definition isValidServerId (server_id : option string) : bool :=
  (match server_id with
   | Some s => String.eqb s DEFAULT_SERVER_ID
   | None => false
   end || truthy (validated server_id))%bool.

Definition isSome {A} (o : option A) : bool :=
  match o with Some _ => true | None => false end.

Definition badRequest (error : string) : Response :=
  {| status := 400; success := false; error := Some error; r_message := None;
     data := None |}.

Definition serverError (error : string) : Response :=
  {| status := 500; success := false; error := Some error; r_message := None;
     data := None |}.

(** [serverInstance.socketIO.to(room).emit('messageBroadcast', b)], when
    there is a socket server. *)
Definition emit (b : Broadcast) (n : Node) : Node :=
  {| store := store n; bus := bus n;
     socketIO := match socketIO n with
                 | Some sent => Some (sent ++ [b])%list
                 | None => None
                 end;
     logger := logger n |}.

Definition logged (l : LogLine) (n : Node) : Node :=
  {| store := store n; bus := bus n; socketIO := socketIO n;
     logger := logger n ++ [l] |}.

Definition stored (s : S) (n : Node) : Node :=
  {| store := s; bus := bus n; socketIO := socketIO n; logger := logger n |}.

(** [in_reply_to_message_id ? validateUuid(in_reply_to_message_id) || undefined : undefined] *)
Definition replyTarget (in_reply_to_message_id : option string) : option string :=
  if truthy in_reply_to_message_id
  then (if truthy (validated in_reply_to_message_id)
        then validated in_reply_to_message_id else None)
  else None.

(** The first check of POST /submit and POST /action. *)
Definition missingFields (body : Body) : bool :=
  (negb (truthy (validated (channel_id body)))
   || negb (truthy (validated (author_id body)))
   || negb (truthy (content body))
   || negb (isValidServerId (server_id body))
   || negb (truthy (source_type body))
   || negb (isSome (raw_message body)))%bool.

(** The handler of POST /submit. *)
Definition postSubmit (body : Body) (n : Node) : Response * Node :=
  if missingFields body then
    (badRequest "Missing required fields: channel_id, server_id, author_id, content, source_type, raw_message", n)
  else if (truthy (in_reply_to_message_id body)
           && negb (truthy (validated (in_reply_to_message_id body))))%bool then
    (badRequest "Invalid in_reply_to_message_id format", n)
  else
    let newRootMessageData :=
      {| d_messageId := None;
         d_channelId := validated (channel_id body);
         d_authorId := validated (author_id body);
         d_content := content body;
         d_rawMessage := raw_message body;
         d_sourceId := None;
         d_sourceType := Some (or_else (source_type body) "agent_response");
         d_inReplyToRootMessageId := replyTarget (in_reply_to_message_id body);
         d_metadata := metadata body |} in
    match createMessage newRootMessageData (store n) with
    | (Ok createdMessage, s1) =>
        ({| status := 201; success := true; error := None; r_message := None;
            data := Some (TheMessage createdMessage) |},
         emit {| room := nullish (channel_id body) "";
                 senderId := nullish (author_id body) "";
                 senderName :=
                   or_else (match metadata body with
                            | Some m => agentName m
                            | None => None
                            end) "Agent";
                 text := nullish (content body) "";
                 roomId := nullish (channel_id body) "";
                 serverId := server_id body;
                 broadcastCreatedAt := createdAt createdMessage;
                 source := sourceType createdMessage;
                 broadcastId := id createdMessage;
                 broadcastThought :=
                   match raw_message body with
                   | Some r => thought r
                   | None => None
                   end;
                 broadcastActions :=
                   match raw_message body with
                   | Some r => actions r
                   | None => None
                   end;
                 broadcastAttachments :=
                   match metadata body with
                   | Some m => attachments m
                   | None => None
                   end;
                 broadcastUpdatedAt := None;
                 broadcastRawMessage := None |}
           (stored s1 n))
    | (Throw e, s1) =>
        (serverError "Failed to submit agent message",
         logged (LogSubmitFailed e) (stored s1 n))
    end.

(** The handler of POST /action. *)
Definition postAction (body : Body) (n : Node) : Response * Node :=
  if missingFields body then
    (badRequest "Missing required fields: channel_id, server_id, author_id, content, source_type, raw_message", n)
  else if (truthy (in_reply_to_message_id body)
           && negb (truthy (validated (in_reply_to_message_id body))))%bool then
    (badRequest "Invalid in_reply_to_message_id format", n)
  else if (truthy (messageId body)
           && negb (truthy (validated (messageId body))))%bool then
    (badRequest "Invalid messageId format", n)
  else
    let baseData :=
      {| d_messageId := messageId body;
         d_channelId := validated (channel_id body);
         d_authorId := validated (author_id body);
         d_content := content body;
         d_rawMessage := raw_message body;
         d_sourceId := None;
         d_sourceType := Some (or_else (source_type body) "agent_response");
         d_inReplyToRootMessageId := replyTarget (in_reply_to_message_id body);
         d_metadata := metadata body |} in
    match createMessage baseData (store n) with
    | (Ok savedMessage, s1) =>
        ({| status := 201; success := true; error := None; r_message := None;
            data := Some (TheMessage savedMessage) |},
         emit {| room := nullish (channel_id body) "";
                 senderId := nullish (author_id body) "";
                 senderName :=
                   or_else (match metadata body with
                            | Some m => agentName m
                            | None => None
                            end) "Agent";
                 text := m_content savedMessage;
                 roomId := nullish (channel_id body) "";
                 serverId := server_id body;
                 broadcastCreatedAt := createdAt savedMessage;
                 source := sourceType savedMessage;
                 broadcastId := id savedMessage;
                 broadcastThought :=
                   match raw_message body with
                   | Some r => thought r
                   | None => None
                   end;
                 broadcastActions :=
                   match raw_message body with
                   | Some r => actions r
                   | None => None
                   end;
                 broadcastAttachments :=
                   match metadata body with
                   | Some m => attachments m
                   | None => None
                   end;
                 broadcastUpdatedAt := Some (updatedAt savedMessage);
                 broadcastRawMessage := raw_message body |}
           (stored s1 n))
    | (Throw e, s1) =>
        (serverError "Failed to create action",
         logged (LogActionFailed e) (stored s1 n))
    end.

(** The handler of PATCH /action/:id; [body] is [req.body ?? {}]. *)
Definition patchAction (idParam : string) (body : Body) (n : Node)
    : Response * Node :=
  if negb (truthy (validateUuid idParam)) then
    (badRequest "Invalid message id", n)
  else if (truthy (in_reply_to_message_id body)
           && negb (truthy (validated (in_reply_to_message_id body))))%bool then
    (badRequest "Invalid in_reply_to_message_id format", n)
  else if (truthy (author_id body)
           && negb (truthy (validated (author_id body))))%bool then
    (badRequest "Invalid author_id format", n)
  else if (truthy (server_id body)
           && negb (isValidServerId (server_id body)))%bool then
    (badRequest "Invalid server_id format", n)
  else
    match updateMessage idParam
            {| d_messageId := None; d_channelId := None; d_authorId := None;
               d_content := content body;
               d_rawMessage := raw_message body;
               d_sourceId := None;
               d_sourceType := source_type body;
               d_inReplyToRootMessageId :=
                 replyTarget (in_reply_to_message_id body);
               d_metadata := metadata body |} (store n) with
    | (Ok None, s1) =>
        ({| status := 404; success := false;
            error := Some "Message not found"; r_message := None;
            data := None |},
         stored s1 n)
    | (Ok (Some updated), s1) =>
        ({| status := 200; success := true; error := None; r_message := None;
            data := Some (TheMessage updated) |},
         emit {| room := channelId updated;
                 senderId := or_else (author_id body) (authorId updated);
                 senderName :=
                   or_else (match metadata body with
                            | Some m => agentName m
                            | None => None
                            end) "Agent";
                 text := m_content updated;
                 roomId := channelId updated;
                 serverId := server_id body;
                 broadcastCreatedAt := createdAt updated;
                 source := sourceType updated;
                 broadcastId := id updated;
                 broadcastThought :=
                   match raw_message body with
                   | Some r => thought r
                   | None => None
                   end;
                 broadcastActions :=
                   match raw_message body with
                   | Some r => actions r
                   | None => None
                   end;
                 broadcastAttachments :=
                   match metadata body with
                   | Some m => attachments m
                   | None => None
                   end;
                 broadcastUpdatedAt := Some (updatedAt updated);
                 broadcastRawMessage := raw_message body |}
           (stored s1 n))
    | (Throw e, s1) =>
        (serverError "Failed to update action",
         logged (LogUpdateFailed e) (stored s1 n))
    end.

(** The handler of POST /ingest-external. *)
Definition postIngestExternal (messagePayload : Body) (n : Node)
    : Response * Node :=
  if (negb (truthy (channel_id messagePayload))
      || negb (truthy (server_id messagePayload))
      || negb (truthy (author_id messagePayload))
      || negb (truthy (content messagePayload)))%bool then
    (badRequest "Invalid external message payload", n)
  else
    let messageToCreate :=
      {| d_messageId := None;
         d_channelId := channel_id messagePayload;
         d_authorId := author_id messagePayload;
         d_content := content messagePayload;
         d_rawMessage := raw_message messagePayload;
         d_sourceId := source_id messagePayload;
         d_sourceType := source_type messagePayload;
         d_inReplyToRootMessageId :=
           replyTarget (in_reply_to_message_id messagePayload);
         d_metadata := metadata messagePayload |} in
    match createMessage messageToCreate (store n) with
    | (Ok createdRootMessage, s1) =>
        let messageForBus :=
          {| b_id := id createdRootMessage;
             b_channel_id := channelId createdRootMessage;
             b_server_id := nullish (server_id messagePayload) "";
             b_author_id := authorId createdRootMessage;
             b_author_display_name := author_display_name messagePayload;
             b_content := m_content createdRootMessage;
             b_raw_message := rawMessage createdRootMessage;
             b_source_id := sourceId createdRootMessage;
             b_source_type := sourceType createdRootMessage;
             b_in_reply_to_message_id :=
               inReplyToRootMessageId createdRootMessage;
             b_created_at := createdAt createdRootMessage;
             b_metadata := m_metadata createdRootMessage |} in
        let n1 := stored s1 n in
        let n2 :=
          {| store := store n1; bus := bus n1 ++ [messageForBus];
             socketIO := socketIO n1;
             logger := logger n1 ++ [LogPublished (id createdRootMessage)] |} in
        ({| status := 202; success := true; error := None;
            r_message := Some "Message ingested and published to bus";
            data := Some (TheMessageId (id createdRootMessage)) |},
         emit {| room := b_channel_id messageForBus;
                 senderId := b_author_id messageForBus;
                 senderName :=
                   or_else (b_author_display_name messageForBus) "User";
                 text := b_content messageForBus;
                 roomId := b_channel_id messageForBus;
                 serverId := Some (b_server_id messageForBus);
                 broadcastCreatedAt := b_created_at messageForBus;
                 source := b_source_type messageForBus;
                 broadcastId := b_id messageForBus;
                 broadcastThought := None;
                 broadcastActions := None;
                 broadcastAttachments := None;
                 broadcastUpdatedAt := None;
                 broadcastRawMessage := None |} n2)
    | (Throw e, s1) =>
        (serverError "Failed to ingest message",
         logged (LogIngestFailed e) (stored s1 n))
    end.

(** *** A run of requests *)

Inductive Request : Type :=
| Submit (body : Body)
| Action (body : Body)
| Patch (idParam : string) (body : Body)
| IngestExternal (messagePayload : Body).

Definition serve (request : Request) (n : Node) : Response * Node :=
  match request with
  | Submit body => postSubmit body n
  | Action body => postAction body n
  | Patch idParam body => patchAction idParam body n
  | IngestExternal messagePayload => postIngestExternal messagePayload n
  end.

Fixpoint serveAll (requests : list Request) (n : Node)
    : list Response * Node :=
  match requests with
  | [] => ([], n)
  | request :: rest =>
      let '(response, n1) := serve request n in
      let '(responses, n2) := serveAll rest n1 in
      (response :: responses, n2)
  end.

(** The id of the message a response is about. *)
Definition messageOf (response : Response) : list string :=
  match data response with
  | Some (TheMessage m) => [id m]
  | Some (TheMessageId i) => [i]
  | None => []
  end.

Definition isIngestion (request : Request) : bool :=
  match request with
  | IngestExternal _ => true
  | _ => false
  end.

(** The ids of the messages that accepted ingestions answered with, in
    the order of the requests. *)
Fixpoint ingested (requests : list Request) (responses : list Response)
    : list string :=
  match requests, responses with
  | request :: requests, response :: responses =>
      ((if isIngestion request then messageOf response else [])
       ++ ingested requests responses)%list
  | _, _ => []
  end.

Lemma serve_bad_request request n :
  status (fst (serve request n)) = 400%Z -> snd (serve request n) = n.
Proof.
  destruct request as [body|body|idParam body|payload]; simpl.
  - unfold postSubmit. destruct (missingFields body); [reflexivity|].
    destruct (_ && _)%bool; [reflexivity|].
    destruct (createMessage _ (store n)) as [[m|e] s1]; discriminate.
  - unfold postAction. destruct (missingFields body); [reflexivity|].
    destruct (_ && _)%bool; [reflexivity|].
    destruct (_ && _)%bool; [reflexivity|].
    destruct (createMessage _ (store n)) as [[m|e] s1]; discriminate.
  - unfold patchAction. destruct (negb _); [reflexivity|].
    destruct (_ && _)%bool; [reflexivity|].
    destruct (_ && _)%bool; [reflexivity|].
    destruct (_ && _)%bool; [reflexivity|].
    destruct (updateMessage _ _ (store n)) as [[[m|]|e] s1]; discriminate.
  - unfold postIngestExternal. destruct (_ || _)%bool; [reflexivity|].
    destruct (createMessage _ (store n)) as [[m|e] s1]; discriminate.
Qed.

Lemma serve_status request n :
  let response := fst (serve request n) in
  (success response = true
   /\ messageOf response <> []
   /\ status response
      = match request with
        | Submit _ | Action _ => 201
        | Patch _ _ => 200
        | IngestExternal _ => 202
        end%Z)
  \/ (success response = false /\ messageOf response = []
      /\ (status response = 400 \/ status response = 500
          \/ (status response = 404
              /\ exists idParam body, request = Patch idParam body))%Z).
Proof.
  destruct request as [body|body|idParam body|payload]; simpl.
  - unfold postSubmit. destruct (missingFields body); [right; auto|].
    destruct (_ && _)%bool; [right; auto|].
    destruct (createMessage _ (store n)) as [[m|e] s1]; simpl;
      [left; repeat split; discriminate|right; auto].
  - unfold postAction. destruct (missingFields body); [right; auto|].
    destruct (_ && _)%bool; [right; auto|].
    destruct (_ && _)%bool; [right; auto|].
    destruct (createMessage _ (store n)) as [[m|e] s1]; simpl;
      [left; repeat split; discriminate|right; auto].
  - unfold patchAction. destruct (negb _); [right; auto|].
    destruct (_ && _)%bool; [right; auto|].
    destruct (_ && _)%bool; [right; auto|].
    destruct (_ && _)%bool; [right; auto|].
    destruct (updateMessage _ _ (store n)) as [[[m|]|e] s1]; simpl;
      [left; repeat split; discriminate|right|right; auto].
    repeat split. right. right. eauto.
  - unfold postIngestExternal. destruct (_ || _)%bool; [right; auto|].
    destruct (createMessage _ (store n)) as [[m|e] s1]; simpl;
      [left; repeat split; discriminate|right; auto].
Qed.

(** X18. A request that is answered with status 400 has touched nothing:
    the store was not called, nothing was published or broadcast or
    logged.  Every other failure has status 500, or 404 for a PATCH of a
    message the store does not know; a success has status 201 (POST /submit
    and /action), 200 (PATCH) or 202 (POST /ingest-external) and names the
    stored message. *)
Theorem bad_request_touches_nothing (request : Request) (n : Node) :
  (status (fst (serve request n)) = 400%Z -> snd (serve request n) = n)
  /\ ((success (fst (serve request n)) = true
       /\ messageOf (fst (serve request n)) <> []
       /\ status (fst (serve request n))
          = match request with
            | Submit _ | Action _ => 201
            | Patch _ _ => 200
            | IngestExternal _ => 202
            end%Z)
      \/ (success (fst (serve request n)) = false
          /\ messageOf (fst (serve request n)) = []
          /\ (status (fst (serve request n)) = 400
              \/ status (fst (serve request n)) = 500
              \/ (status (fst (serve request n)) = 404
                  /\ exists idParam body, request = Patch idParam body))%Z)).
Proof.
  split; [apply serve_bad_request|apply serve_status].
Qed.

Lemma serve_bus request n :
  map b_id (bus (snd (serve request n)))
  = (map b_id (bus n)
     ++ (if isIngestion request then messageOf (fst (serve request n))
         else []))%list.
Proof.
  destruct request as [body|body|idParam body|payload]; simpl.
  - unfold postSubmit. destruct (missingFields body);
      [now rewrite app_nil_r|].
    destruct (_ && _)%bool; [now rewrite app_nil_r|].
    destruct (createMessage _ (store n)) as [[m|e] s1]; simpl;
      now rewrite app_nil_r.
  - unfold postAction. destruct (missingFields body);
      [now rewrite app_nil_r|].
    destruct (_ && _)%bool; [now rewrite app_nil_r|].
    destruct (_ && _)%bool; [now rewrite app_nil_r|].
    destruct (createMessage _ (store n)) as [[m|e] s1]; simpl;
      now rewrite app_nil_r.
  - unfold patchAction. destruct (negb _); [now rewrite app_nil_r|].
    destruct (_ && _)%bool; [now rewrite app_nil_r|].
    destruct (_ && _)%bool; [now rewrite app_nil_r|].
    destruct (_ && _)%bool; [now rewrite app_nil_r|].
    destruct (updateMessage _ _ (store n)) as [[[m|]|e] s1]; simpl;
      now rewrite app_nil_r.
  - unfold postIngestExternal. destruct (_ || _)%bool;
      [now rewrite app_nil_r|].
    destruct (createMessage _ (store n)) as [[m|e] s1]; simpl.
    + now rewrite map_app.
    + now rewrite app_nil_r.
Qed.

(** X19. Of the four endpoints only POST /ingest-external publishes on the
    internal bus, and it publishes once per message it accepts.  After any
    run of requests the bus holds, behind what it held before, one event
    for each accepted ingestion, in the order of the requests and under
    the message id the response gave; submissions, actions and updates
    add nothing. *)
Theorem bus_holds_the_accepted_ingestions (requests : list Request)
    (n : Node) :
  map b_id (bus (snd (serveAll requests n)))
  = (map b_id (bus n) ++ ingested requests (fst (serveAll requests n)))%list.
Proof.
  revert n. induction requests as [|request rest IH]; intros n; simpl.
  - now rewrite app_nil_r.
  - pose proof (serve_bus request n) as Hb.
    destruct (serve request n) as [response n1]. specialize (IH n1).
    destruct (serveAll rest n1) as [responses n2]. simpl in *.
    rewrite IH, Hb. now rewrite <- app_assoc.
Qed.

(** [emit] on a node, as a function of what was sent before. *)
Definition sending (added : list Broadcast) (n : Node) : option (list Broadcast) :=
  option_map (fun sent => (sent ++ added)%list) (socketIO n).

Lemma sending_nil n : socketIO n = sending [] n.
Proof. unfold sending. destruct (socketIO n); simpl; now rewrite ?app_nil_r. Qed.

Lemma serve_socket request n :
  exists added,
    socketIO (snd (serve request n)) = sending added n
    /\ map broadcastId added = messageOf (fst (serve request n)).
Proof.
  assert (Hemit : forall b s1,
            socketIO (emit b (stored s1 n)) = sending [b] n)
    by (intros b s1; unfold sending, emit; simpl; now destruct (socketIO n)).
  assert (Hnone : exists added,
            socketIO n = sending added n /\ map broadcastId added = [])
    by (exists []; split; [apply sending_nil|reflexivity]).
  destruct request as [body|body|idParam body|payload]; simpl.
  - unfold postSubmit. destruct (missingFields body); [exact Hnone|].
    destruct (_ && _)%bool; [exact Hnone|].
    destruct (createMessage _ (store n)) as [[m|e] s1]; cbn [fst snd];
      [|exact Hnone].
    eexists [_]. split; [apply Hemit|reflexivity].
  - unfold postAction. destruct (missingFields body); [exact Hnone|].
    destruct (_ && _)%bool; [exact Hnone|].
    destruct (_ && _)%bool; [exact Hnone|].
    destruct (createMessage _ (store n)) as [[m|e] s1]; cbn [fst snd];
      [|exact Hnone].
    eexists [_]. split; [apply Hemit|reflexivity].
  - unfold patchAction. destruct (negb _); [exact Hnone|].
    destruct (_ && _)%bool; [exact Hnone|].
    destruct (_ && _)%bool; [exact Hnone|].
    destruct (_ && _)%bool; [exact Hnone|].
    destruct (updateMessage _ _ (store n)) as [[[m|]|e] s1]; cbn [fst snd];
      [|exact Hnone|exact Hnone].
    eexists [_]. split; [apply Hemit|reflexivity].
  - unfold postIngestExternal. destruct (_ || _)%bool; [exact Hnone|].
    destruct (createMessage _ (store n)) as [[m|e] s1]; cbn [fst snd];
      [|exact Hnone].
    eexists [_]. split;
      [unfold sending, emit; simpl; now destruct (socketIO n)|reflexivity].
Qed.

Lemma sending_sending a b n n1 :
  socketIO n1 = sending a n ->
  sending b n1 = sending (a ++ b) n.
Proof.
  unfold sending. intros ->. destruct (socketIO n); simpl; [|reflexivity].
  now rewrite <- app_assoc.
Qed.

(** X20. Every request that succeeds is followed by exactly one
    [messageBroadcast], carrying the id of the stored message, and a
    request that fails by none.  After any run of requests the socket
    server, when there is one, has been sent what it had been sent before,
    followed by one broadcast per successful response, in order; when
    there is none, none appears. *)
Theorem every_success_is_broadcast_once (requests : list Request) (n : Node) :
  exists added,
    socketIO (snd (serveAll requests n))
    = option_map (fun sent => (sent ++ added)%list) (socketIO n)
    /\ map broadcastId added
       = flat_map messageOf (fst (serveAll requests n)).
Proof.
  revert n. induction requests as [|request rest IH]; intros n; simpl.
  - exists []. split; [apply sending_nil|reflexivity].
  - destruct (serve_socket request n) as (a & Ha & Hida).
    destruct (serve request n) as [response n1].
    destruct (IH n1) as (b & Hb & Hidb).
    destruct (serveAll rest n1) as [responses n2]. simpl in *.
    exists (a ++ b)%list. split.
    + fold (sending b n1) in Hb. rewrite Hb. now apply sending_sending.
    + now rewrite map_app, Hida, Hidb.
Qed.

End Handlers.

Arguments mkNode {S} store bus socketIO logger.
Arguments bus {S} n.
Arguments socketIO {S} n.
Arguments store {S} n.
Arguments serveAll {S} createMessage updateMessage validateUuid requests n.

(** *** A run against a store in memory *)

(** A store that numbers its messages; it refuses empty content. *)
Definition memoryCreate (d : MessageData) (s : list Message)
    : Outcome Message * list Message :=
  if truthy (d_content d) then
    let m := {| id := "msg-" +:+ pretty (Z.of_nat (length s));
                channelId := nullish (d_channelId d) "";
                authorId := nullish (d_authorId d) "";
                m_content := nullish (d_content d) "";
                rawMessage := d_rawMessage d;
                sourceId := d_sourceId d;
                sourceType := d_sourceType d;
                inReplyToRootMessageId := d_inReplyToRootMessageId d;
                createdAt := 1000 + Z.of_nat (length s);
                updatedAt := 1000 + Z.of_nat (length s);
                m_metadata := d_metadata d |} in
    (Ok m, (s ++ [m])%list)
  else (Throw "content is required", s).

Definition memoryUpdate (i : string) (d : MessageData) (s : list Message)
    : Outcome (option Message) * list Message :=
  (Ok (find (fun m => String.eqb (id m) i) s), s).

(** Thirty-six characters pass for a UUID here. *)
Definition uuidLength (s : string) : option string :=
  if Nat.eqb (String.length s) 36 then Some s else None.

Definition channel : string := "11111111-1111-4111-8111-111111111111".
Definition author : string := "22222222-2222-4222-8222-222222222222".

Definition reply (text : string) : Body :=
  {| messageId := None; channel_id := Some channel;
     server_id := Some DEFAULT_SERVER_ID; author_id := Some author;
     author_display_name := None; content := Some text;
     in_reply_to_message_id := None; source_id := None;
     source_type := Some "agent_response";
     raw_message := Some {| thought := None; actions := None |};
     metadata := None |}.

Definition external (text : string) : Body :=
  {| messageId := None; channel_id := Some channel;
     server_id := Some DEFAULT_SERVER_ID; author_id := Some author;
     author_display_name := Some "ada"; content := Some text;
     in_reply_to_message_id := None; source_id := Some "discord-9001";
     source_type := Some "discord"; raw_message := None; metadata := None |}.

(** An ingestion, the agent's reply, a submission without content, a
    PATCH of an unknown message, a second ingestion. *)
Example mixed_run :
  let '(responses, n) :=
    serveAll memoryCreate memoryUpdate uuidLength
      [ IngestExternal (external "hello");
        Submit (reply "hi there");
        Submit (reply "");
        Patch "33333333-3333-4333-8333-333333333333" (reply "edited");
        IngestExternal (external "bye") ]
      (mkNode [] [] (Some []) []) in
  (map status responses, map b_id (bus n),
   map broadcastId (nullish (socketIO n) []), length (store n))
  = ([202; 201; 400; 404; 202]%Z, ["msg-0"; "msg-2"],
     ["msg-0"; "msg-1"; "msg-2"], 3%nat).
Proof. vm_compute. reflexivity. Qed.

End Router.

(** ** The agent row of the PGlite adapter
    (plugin-sql/src/pglite/adapter.ts, [ensureAgentExists]) *)

Module PgliteAgents.

Local Open Scope js_scope.

(** [bio: string | string[]] *)
Inductive Bio : Type :=
| BioText (text : string)
| BioLines (lines : list string).

Record Agent : Type := mkAgent {
  id : string;
  name : string;
  username : option string;
  bio : Bio;
  createdAt : Z;
  updatedAt : Z
}.

(** [Partial<Agent>] *)
Record PartialAgent : Type := mkPartial {
  p_id : option string;
  p_name : option string;
  p_username : option string;
  p_bio : option Bio;
  p_createdAt : option Z;
  p_updatedAt : option Z
}.

(** [agent.bio || 'An AI agent']: an array is truthy, also when empty. *)
Definition bioOr (b : option Bio) (d : string) : Bio :=
  match b with
  | Some (BioText t) => if String.eqb t "" then BioText d else BioText t
  | Some (BioLines l) => BioLines l
  | None => BioText d
  end.

Section Adapter.

(** The database, as the methods of the base adapter see it. *)
Variable W : Type.

(** [getAgent] and [createAgent] are methods of BaseDrizzleAdapter
    (../base), [Date.now] is the clock. *)
Variable getAgent : string -> W -> Outcome (option Agent) * W.
Variable createAgent : Agent -> W -> Outcome bool * W.
Variable dateNow : W -> Z * W.

(** [this.agentId] *)
Variable agentId : string.

(** [stamp || Date.now()]: the clock is read only when the stamp is
    missing or 0. *)
Definition stampOr (stamp : option Z) : M W Z :=
  match stamp with
  | Some t => if (t =? 0)%Z then (fun w => let '(t', w1) := dateNow w in (Ok t', w1))
              else ret t
  | None => fun w => let '(t', w1) := dateNow w in (Ok t', w1)
  end.

Definition ensureAgentExists (agent : PartialAgent) : M W Agent :=
  existingAgent <- getAgent agentId ;;
  match existingAgent with
  | Some existing => ret existing
  | None =>
      created <- stampOr (p_createdAt agent) ;;
      updated <- stampOr (p_updatedAt agent) ;;
      let newAgent :=
        {| id := agentId;
           name := or_else (p_name agent) "Unknown Agent";
           username := p_username agent;
           bio := bioOr (p_bio agent) "An AI agent";
           createdAt := created;
           updatedAt := updated |} in
      createAgent newAgent ;;;
      createdAgent <- getAgent agentId ;;
      match createdAgent with
      | None => throw "Failed to create agent"
      | Some a => ret a
      end
  end.

(** Reading an agent leaves the database as it is. *)
Definition readsChangeNothing : Prop :=
  forall i w r w1, getAgent i w = (r, w1) -> w1 = w.

Lemma ensureAgentExists_read agent w a w1 :
  readsChangeNothing ->
  ensureAgentExists agent w = (Ok a, w1) ->
  getAgent agentId w1 = (Ok (Some a), w1).
Proof.
  intros Hread. unfold ensureAgentExists. unfold bind at 1.
  destruct (getAgent agentId w) as [[[existing|]|e] w0] eqn:Hget;
    [| |discriminate].
  - intros [= <- <-]. pose proof (Hread _ _ _ _ Hget) as Hw. subst w0.
    exact Hget.
  - unfold bind at 1.
    destruct (stampOr (p_createdAt agent) w0) as [[created|e] w2];
      [|discriminate].
    unfold bind at 1.
    destruct (stampOr (p_updatedAt agent) w2) as [[updated|e] w3];
      [|discriminate].
    unfold bind at 1.
    destruct (createAgent _ w3) as [[b|e] w4]; [|discriminate].
    unfold bind at 1.
    destruct (getAgent agentId w4) as [[[created'|]|e] w5] eqn:Hget';
      [| discriminate | discriminate].
    intros [= <- <-]. pose proof (Hread _ _ _ _ Hget') as Hw. subst w5.
    exact Hget'.
Qed.

(** X21. [ensureAgentExists] is idempotent.  On a database whose reads
    change nothing, a call made after a call that returned an agent
    returns that same agent, whatever its argument says, without creating
    anything and without changing the database; and the agent a call
    returns is always the row the database holds under the adapter's own
    agent id. *)
Theorem ensureAgentExists_is_idempotent (agent again : PartialAgent) (w w1 : W)
    (a : Agent) :
  readsChangeNothing ->
  ensureAgentExists agent w = (Ok a, w1) ->
  getAgent agentId w1 = (Ok (Some a), w1)
  /\ ensureAgentExists again w1 = (Ok a, w1).
Proof.
  intros Hread Hrun.
  pose proof (ensureAgentExists_read agent w a w1 Hread Hrun) as Hget.
  split; [exact Hget|].
  unfold ensureAgentExists. unfold bind at 1. now rewrite Hget.
Qed.

End Adapter.

Arguments ensureAgentExists {W} getAgent createAgent dateNow agentId agent.
Arguments readsChangeNothing {W} getAgent.

(** *** A table of agents in memory *)

(** The rows by agent id, and the clock. *)
Record Table : Type := mkTable {
  rows : gmap string Agent;
  clock : Z
}.

Definition selectAgent (i : string) (t : Table) : Outcome (option Agent) * Table :=
  (Ok (rows t !! i), t).

Definition insertAgent (a : Agent) (t : Table) : Outcome bool * Table :=
  (Ok true, {| rows := <[ id a := a ]> (rows t); clock := clock t |}).

(** An insertion that reports failure by its result and stores nothing. *)
Definition rejectAgent (_ : Agent) (t : Table) : Outcome bool * Table :=
  (Ok false, t).

Definition tick (t : Table) : Z * Table :=
  (clock t, {| rows := rows t; clock := (clock t + 1)%Z |}).

Lemma selectAgent_reads : readsChangeNothing selectAgent.
Proof. intros i w r w1 [= _ <-]. reflexivity. Qed.

Definition ada : Agent :=
  {| id := "agent-a"; name := "Ada"; username := None;
     bio := BioText "An AI agent"; createdAt := 1000; updatedAt := 1001 |}.

Lemma ensureAgentExists_is_idempotent_witness :
  selectAgent "agent-a" (mkTable {[ "agent-a" := ada ]} 1002)
  = (Ok (Some ada), mkTable {[ "agent-a" := ada ]} 1002)
  /\ ensureAgentExists selectAgent insertAgent tick "agent-a"
       (mkPartial (Some "agent-b") (Some "Bob") None None None None)
       (mkTable {[ "agent-a" := ada ]} 1002)
     = (Ok ada, mkTable {[ "agent-a" := ada ]} 1002).
Proof.
  exact (ensureAgentExists_is_idempotent Table selectAgent insertAgent tick
           "agent-a" (mkPartial None (Some "Ada") None None None None)
           (mkPartial (Some "agent-b") (Some "Bob") None None None None)
           (mkTable ∅ 1000) (mkTable {[ "agent-a" := ada ]} 1002) ada
           selectAgent_reads eq_refl).
Defined.

(** The id and the missing fields of the new row do not come from the
    argument; and an insertion that stores nothing is noticed by the
    second read. *)
Example created_agent_has_the_adapter_id :
  fst (ensureAgentExists selectAgent insertAgent tick "agent-a"
         (mkPartial (Some "agent-b") None None (Some (BioLines [])) None (Some 0%Z))
         (mkTable ∅ 1000))
  = Ok {| id := "agent-a"; name := "Unknown Agent"; username := None;
          bio := BioLines []; createdAt := 1000; updatedAt := 1001 |}
  /\ fst (ensureAgentExists selectAgent rejectAgent tick "agent-a"
            (mkPartial None (Some "Ada") None None None None)
            (mkTable ∅ 1000))
     = Throw "Failed to create agent".
Proof. split; reflexivity. Qed.

End PgliteAgents.

(** ** Deep clone utilities (the second module of the
    cli/src/commands/scenario/src/EvaluationEngine.ts source), over a heap
    of objects with identity *)

Module Clone.

(** A value that is not an object ([typeof v !== 'object'] or [null]). *)
Inductive Primitive : Type :=
| PUndefined
| PNull
| PBool (b : bool)
| PNumber (n : Z)
| PString (s : string)
| PFunction (name : string).

(** An object is known by its location in the heap. *)
Abbreviation Loc := nat.

Inductive Value : Type :=
| Prim (p : Primitive)
| Ref (l : Loc).

(** The name of an own property.  Three names change what the functions
    do with the object that has them as own properties, and are left
    out: [hasOwnProperty] (the loops call [obj.hasOwnProperty(key)],
    which then is the property and not [Object.prototype]'s function),
    [__proto__] (writing [cloned[key]] then goes through the setter of
    [Object.prototype] and replaces the prototype of the clone) and
    [constructor] ([obj.constructor] and [new obj.constructor(..)] then
    read the property and not the constructor of the class). *)
Definition isOrdinaryName (s : string) : bool :=
  negb (existsb (String.eqb s) ["hasOwnProperty"; "__proto__"; "constructor"]).

Record Key : Type := mkKey {
  keyName : string;
  keyOrdinary : isOrdinaryName keyName = true
}.

Abbreviation key s := (mkKey s eq_refl).

Example ordinary_names :
  map isOrdinaryName
    ["name"; "toString"; "hasOwnProperty"; "__proto__"; "constructor"]
  = [true; true; false; false; false].
Proof. reflexivity. Qed.

(** The objects the functions tell apart: arrays (dense, without
    properties of their own), dates, regular expressions, errors, plain
    objects (their prototype is [Object.prototype], so that
    [constructor === Object]) and instances of other classes.  [fields]
    are the own enumerable properties, in the order [for .. in] lists
    them: data properties with string keys (no accessors, no symbols).
    Every object inherits from [Object.prototype], through the prototype
    of its class, and no class defines [hasOwnProperty] or has enumerable
    properties on its prototype; objects without a prototype
    ([Object.create(null)]) are not among them.  [message], [name] and
    [stack] of an error are what [obj.message], [obj.name] and
    [obj.stack] read. *)
Inductive Obj : Type :=
| Arr (items : list Value)
| DateObj (time : Z)
| RegExpObj (source flags : string)
| ErrorObj (className message name stack : string)
    (fields : list (Key * Value))
| Plain (fields : list (Key * Value))
| Instance (className : string) (fields : list (Key * Value)).

Abbreviation Heap := (list Obj).

(** [new ..], [{}], [[]]: the new object is placed behind the others. *)
Definition alloc (o : Obj) (h : Heap) : Value * Heap :=
  (Ref (length h), (h ++ [o])%list).

(** The own enumerable properties of an object that is no array: what
    [for (const key in obj)] visits with [obj.hasOwnProperty(key)], and
    what [{ ...obj }] copies.  (Those of an array are its items; the
    functions read them as items, with [map], [for .. of] and
    [[...obj]].) *)
Definition ownProps (o : Obj) : list (Key * Value) :=
  match o with
  | Arr _ | DateObj _ | RegExpObj _ _ => []
  | ErrorObj _ _ _ _ fields | Plain fields | Instance _ fields => fields
  end.

(** The values an object holds. *)
Definition children (o : Obj) : list Value :=
  match o with
  | Arr items => items
  | DateObj _ | RegExpObj _ _ => []
  | ErrorObj _ _ _ _ fields | Plain fields | Instance _ fields =>
      map snd fields
  end.

(** Threading the heap through the clones of a list of values, in
    order. *)
Fixpoint cloneAll (clone : Value -> Heap -> Value * Heap) (vs : list Value)
    (h : Heap) : list Value * Heap :=
  match vs with
  | [] => ([], h)
  | v :: rest =>
      let '(v', h1) := clone v h in
      let '(rest', h2) := cloneAll clone rest h1 in
      (v' :: rest', h2)
  end.

(** The same for the properties of an object. *)
Definition cloneFields (clone : Value -> Heap -> Value * Heap)
    (fields : list (Key * Value)) (h : Heap)
    : list (Key * Value) * Heap :=
  let '(vs, h1) := cloneAll clone (map snd fields) h in
  (combine (map fst fields) vs, h1).

(** *** [shallowClone] *)

Definition shallowClone (obj : Value) (h : Heap) : Value * Heap :=
  match obj with
  | Prim _ => (obj, h)
  | Ref l =>
      match h !! l with
      | Some (Arr items) => alloc (Arr items) h
      | Some (DateObj t) => alloc (DateObj t) h
      | Some (RegExpObj s f) => alloc (RegExpObj s f) h
      | Some o => alloc (Plain (ownProps o)) h
      | None => (obj, h)
      end
  end.

(** *** [deepCloneWithLimit]
    [cloneWithDepth(current, depth)] recurses on [maxDepth - depth], here
    [budget]; [depth >= maxDepth] is [budget = 0]. *)

Fixpoint cloneWithDepth (budget : nat) (current : Value) (h : Heap)
    : Value * Heap :=
  match current with
  | Prim _ => (current, h)
  | Ref l =>
      match budget with
      | O =>
          match h !! l with
          | Some (Arr items) => alloc (Arr items) h
          | Some o => alloc (Plain (ownProps o)) h
          | None => (current, h)
          end
      | S budget' =>
          match h !! l with
          | Some (DateObj t) => alloc (DateObj t) h
          | Some (RegExpObj s f) => alloc (RegExpObj s f) h
          | Some (Arr items) =>
              let '(cloned, h0) := alloc (Arr []) h in
              let '(items', h1) := cloneAll (cloneWithDepth budget') items h0 in
              (cloned, <[length h := Arr items']> h1)
          | Some o =>
              let '(cloned, h0) := alloc (Plain []) h in
              let '(fields', h1) :=
                cloneFields (cloneWithDepth budget') (ownProps o) h0 in
              (cloned, <[length h := Plain fields']> h1)
          | None => (current, h)
          end
      end
  end.

(** [deepCloneWithLimit(obj, maxDepth)]; the default of [maxDepth] is 50.
    A limit below 0 behaves as 0. *)
Definition deepCloneWithLimit (obj : Value) (maxDepth : option Z) (h : Heap)
    : Value * Heap :=
  cloneWithDepth (Z.to_nat (nullish maxDepth 50%Z)) obj h.

(** *** Heaps and what is reachable in them *)

(** Every object a value or an object refers to is among the first [n]
    of the heap. *)
Definition validValue (n : nat) (v : Value) : Prop :=
  match v with
  | Ref l => (l < n)%nat
  | Prim _ => True
  end.

Definition validObj (n : nat) (o : Obj) : Prop :=
  Forall (validValue n) (children o).

(** The first [n] objects of [h] exist and refer to one another only. *)
Definition closedUpTo (n : nat) (h : Heap) : Prop :=
  (n <= length h)%nat
  /\ forall l o, (l < n)%nat -> h !! l = Some o -> validObj n o.

Definition closed (h : Heap) : Prop := closedUpTo (length h) h.

(** What a value looks like down to depth [d]. *)
#[warnings="-register-all"]
Inductive Tree : Type :=
| TPrim (p : Primitive)
| TCut
| TDangling
| TArr (items : list Tree)
| TDate (time : Z)
| TRegExp (source flags : string)
| TError (className message name stack : string)
    (fields : list (Key * Tree))
| TPlain (fields : list (Key * Tree))
| TInstance (className : string) (fields : list (Key * Tree)).

Fixpoint view (d : nat) (h : Heap) (v : Value) : Tree :=
  match v with
  | Prim p => TPrim p
  | Ref l =>
      match d with
      | O => TCut
      | S d' =>
          let under fields :=
            map (fun field => (fst field, view d' h (snd field))) fields in
          match h !! l with
          | None => TDangling
          | Some (Arr items) => TArr (map (view d' h) items)
          | Some (DateObj t) => TDate t
          | Some (RegExpObj s f) => TRegExp s f
          | Some (ErrorObj c m n s fields) => TError c m n s (under fields)
          | Some (Plain fields) => TPlain (under fields)
          | Some (Instance c fields) => TInstance c (under fields)
          end
      end
  end.

(** The objects found exactly [k] references below a value. *)
Fixpoint level (k : nat) (h : Heap) (v : Value) : list Loc :=
  match v with
  | Prim _ => []
  | Ref l =>
      match k with
      | O => [l]
      | S k' =>
          match h !! l with
          | Some o => flat_map (level k' h) (children o)
          | None => []
          end
      end
  end.

(** *** What [cloneWithDepth] builds *)

(** The copy made at the depth limit: [[...current]] or [{ ...current }]. *)
Definition spread (o : Obj) : Obj :=
  match o with
  | Arr items => Arr items
  | _ => Plain (ownProps o)
  end.

(** [v'] in [h'] is the clone of [v] in [h] made with [budget] levels to
    go: new objects (beyond the first [n]) down to the limit, the values
    of the original below it. *)
Fixpoint copied (budget : nat) (n : nat) (h h' : Heap) (v v' : Value)
    : Prop :=
  match v with
  | Prim _ => v' = v
  | Ref l =>
      match h !! l with
      | None => v' = v
      | Some o =>
          exists l', v' = Ref l' /\ (n <= l')%nat
            /\ match budget with
               | O => h' !! l' = Some (spread o)
               | S b =>
                   match o with
                   | DateObj t => h' !! l' = Some (DateObj t)
                   | RegExpObj s f => h' !! l' = Some (RegExpObj s f)
                   | Arr items =>
                       exists items',
                         h' !! l' = Some (Arr items')
                         /\ Forall2 (copied b n h h') items items'
                   | _ =>
                       exists fields',
                         h' !! l' = Some (Plain fields')
                         /\ map fst fields' = map fst (ownProps o)
                         /\ Forall2 (copied b n h h')
                              (map snd (ownProps o)) (map snd fields')
                   end
               end
      end
  end.

Lemma lookup_alloc o (h : Heap) : (h ++ [o])%list !! length h = Some o.
Proof. rewrite lookup_app_r by lia. now rewrite Nat.sub_diag. Qed.

(** What the clones of a list of values leave: the heap grown, and each
    clone in its place in any heap that holds the new objects. *)
Definition cloneSpec (clone : Value -> Heap -> Value * Heap) (budget n : nat)
    (h0 : Heap) : Prop :=
  forall v h v' h',
    (n <= length h)%nat ->
    (forall l, (l < n)%nat -> h !! l = h0 !! l) ->
    validValue n v ->
    closedUpTo n h0 ->
    clone v h = (v', h') ->
    (exists new, h' = (h ++ new)%list)
    /\ forall h'',
         (forall l, (length h <= l < length h')%nat -> h'' !! l = h' !! l) ->
         copied budget n h0 h'' v v'.

Lemma cloneAll_spec clone budget n h0 :
  cloneSpec clone budget n h0 ->
  forall vs h vs' h',
    (n <= length h)%nat ->
    (forall l, (l < n)%nat -> h !! l = h0 !! l) ->
    Forall (validValue n) vs ->
    closedUpTo n h0 ->
    cloneAll clone vs h = (vs', h') ->
    (exists new, h' = (h ++ new)%list)
    /\ forall h'',
         (forall l, (length h <= l < length h')%nat -> h'' !! l = h' !! l) ->
         Forall2 (copied budget n h0 h'') vs vs'.
Proof.
  intros Hclone. induction vs as [|v rest IH]; intros h vs' h' Hn Hh Hv Hc Hrun.
  - injection Hrun as <- <-. split; [exists []; now rewrite app_nil_r|].
    intros h'' _. constructor.
  - cbn [cloneAll] in Hrun.
    destruct (clone v h) as [v1 h1] eqn:Hv1.
    destruct (cloneAll clone rest h1) as [rest1 h2] eqn:Hrest.
    injection Hrun as <- <-.
    inversion Hv as [|? ? Hvv Hvrest]; subst.
    destruct (Hclone v h v1 h1 Hn Hh Hvv Hc Hv1) as [[new1 ->] Hcopy1].
    assert (Hn1 : (n <= length (h ++ new1))%nat) by (rewrite length_app; lia).
    assert (Hh1 : forall l, (l < n)%nat -> (h ++ new1)%list !! l = h0 !! l).
    { intros l Hl. rewrite lookup_app_l by lia. now apply Hh. }
    destruct (IH (h ++ new1)%list rest1 h2 Hn1 Hh1 Hvrest Hc Hrest)
      as [[new2 ->] Hcopy2].
    split; [exists (new1 ++ new2)%list; now rewrite app_assoc|].
    intros h'' Hagree. constructor.
    + apply Hcopy1. intros l Hl. rewrite Hagree.
      * apply lookup_app_l. lia.
      * rewrite !length_app in *. lia.
    + apply Hcopy2. intros l Hl. apply Hagree.
      rewrite !length_app in *. lia.
Qed.

Lemma combine_fst_snd {A B} (l : list A) (l' : list B) :
  length l = length l' ->
  map fst (combine l l') = l /\ map snd (combine l l') = l'.
Proof.
  revert l'. induction l as [|a l IH]; intros [|b l'] Hlen;
    try discriminate; [now split|].
  simpl in *. destruct (IH l') as [-> ->]; [lia|now split].
Qed.

Lemma cloneFields_spec clone budget n h0 :
  cloneSpec clone budget n h0 ->
  forall fields h fields' h',
    (n <= length h)%nat ->
    (forall l, (l < n)%nat -> h !! l = h0 !! l) ->
    Forall (validValue n) (map snd fields) ->
    closedUpTo n h0 ->
    cloneFields clone fields h = (fields', h') ->
    (exists new, h' = (h ++ new)%list)
    /\ map fst fields' = map fst fields
    /\ forall h'',
         (forall l, (length h <= l < length h')%nat -> h'' !! l = h' !! l) ->
         Forall2 (copied budget n h0 h'') (map snd fields) (map snd fields').
Proof.
  intros Hclone fields h fields' h' Hn Hh Hv Hc Hrun. unfold cloneFields in Hrun.
  destruct (cloneAll clone (map snd fields) h) as [vs h1] eqn:Hvs.
  injection Hrun as <- <-.
  destruct (cloneAll_spec _ _ _ _ Hclone _ _ _ _ Hn Hh Hv Hc Hvs)
    as [Hnew Hcopy].
  assert (Hlen : length (map fst fields) = length vs).
  { rewrite <- (Forall2_length _ _ _ (Hcopy h1 (fun _ _ => eq_refl))).
    now rewrite !length_map. }
  destruct (combine_fst_snd _ _ Hlen) as [Hfst Hsnd].
  split; [exact Hnew|]. split; [exact Hfst|].
  intros h'' Hagree. rewrite Hsnd. now apply Hcopy.
Qed.

Lemma insert_placeholder (h new : Heap) (placeholder o : Obj) :
  <[length h := o]> ((h ++ [placeholder]) ++ new)%list
  = ((h ++ [o]) ++ new)%list.
Proof.
  rewrite insert_app_l by (rewrite length_app; simpl; lia).
  f_equal. replace (length h) with (length h + 0)%nat at 1 by lia.
  now rewrite insert_app_r.
Qed.

Lemma copied_alloc budget n h0 h o l (h'' : Heap) v :
  (n <= length h)%nat ->
  (forall l, (l < n)%nat -> h !! l = h0 !! l) ->
  validValue n (Ref l) ->
  h !! l = Some o ->
  h'' !! length h = Some v ->
  (forall l', h0 !! l = Some o -> (n <= l')%nat -> l' = length h ->
     match budget with
     | O => v = spread o
     | S b =>
         match o with
         | DateObj t => v = DateObj t
         | RegExpObj s f => v = RegExpObj s f
         | Arr items =>
             exists items', v = Arr items'
                            /\ Forall2 (copied b n h0 h'') items items'
         | _ =>
             exists fields', v = Plain fields'
               /\ map fst fields' = map fst (ownProps o)
               /\ Forall2 (copied b n h0 h'')
                    (map snd (ownProps o)) (map snd fields')
         end
     end) ->
  copied budget n h0 h'' (Ref l) (Ref (length h)).
Proof.
  intros Hn Hh Hv Ho Hnew Hshape. simpl in Hv.
  assert (Ho0 : h0 !! l = Some o) by (rewrite <- Hh by lia; exact Ho).
  specialize (Hshape (length h) Ho0 Hn eq_refl).
  destruct budget as [|b]; simpl; rewrite Ho0.
  - exists (length h). subst v. auto.
  - exists (length h). split; [reflexivity|]. split; [exact Hn|].
    destruct o; try (subst v; exact Hnew);
      destruct Hshape as (x & -> & Hrest); eauto.
Qed.

Lemma cloneWithDepth_spec budget : forall n h0,
  cloneSpec (cloneWithDepth budget) budget n h0.
Proof.
  induction budget as [|b IH]; intros n h0 v h v' h' Hn Hh Hv Hc Hrun;
    destruct v as [p|l]; cbn [cloneWithDepth] in Hrun.
  - injection Hrun as <- <-. split; [exists []; now rewrite app_nil_r|].
    intros h'' _. reflexivity.
  - revert Hrun. destruct (h !! l) as [o|] eqn:Ho; intros Hrun.
    + assert (Hrun' : (v', h') = alloc (spread o) h)
        by (symmetry; destruct o; exact Hrun).
      injection Hrun' as -> ->. split; [now eexists|].
      intros h'' Hagree.
      apply (copied_alloc 0 n h0 h o l h'' (spread o)); auto.
      rewrite Hagree by (rewrite length_app; simpl; lia).
      apply lookup_alloc.
    + injection Hrun as <- <-. split; [exists []; now rewrite app_nil_r|].
      intros h'' _. cbn [copied]. rewrite <- Hh by exact Hv. now rewrite Ho.
  - injection Hrun as <- <-. split; [exists []; now rewrite app_nil_r|].
    intros h'' _. reflexivity.
  - revert Hrun. destruct (h !! l) as [o|] eqn:Ho; intros Hrun.
    2:{ injection Hrun as <- <-. split; [exists []; now rewrite app_nil_r|].
        intros h'' _. cbn [copied]. rewrite <- Hh by exact Hv. now rewrite Ho. }
    assert (Ho0 : h0 !! l = Some o) by (rewrite <- Hh by exact Hv; exact Ho).
    assert (Hvalid : validObj n o) by (destruct Hc as [_ Hc]; eapply Hc; eauto).
    assert (Hn0 : forall x : Obj, (n <= length (h ++ [x]))%nat)
      by (intros x; rewrite length_app; lia).
    assert (Hh0 : forall (x : Obj) l0, (l0 < n)%nat ->
                    (h ++ [x])%list !! l0 = h0 !! l0).
    { intros x l0 Hl0. rewrite lookup_app_l by lia. now apply Hh. }
    destruct o as [items|t|src flags|c m nm st fields|fields|c fields].
    4-6: destruct (cloneFields (cloneWithDepth b) fields (h ++ [Plain []]))
           as [fields' h1] eqn:Hfields;
         cbv beta iota zeta delta [alloc ownProps] in Hrun;
         rewrite Hfields in Hrun; injection Hrun as <- <-;
         destruct (cloneFields_spec _ b n h0 (IH n h0) fields _ _ _ (Hn0 _)
                     (Hh0 _) Hvalid Hc Hfields) as ([new ->] & Hkeys & Hcopy);
         rewrite insert_placeholder;
         (split; [exists ([Plain fields'] ++ new)%list;
                  now rewrite <- app_assoc|]);
         intros h'' Hagree;
         apply (copied_alloc (S b) n h0 h _ l h'' (Plain fields') Hn Hh Hv Ho);
         [ rewrite Hagree by (rewrite !length_app; simpl; lia);
           rewrite lookup_app_l by (rewrite length_app; simpl; lia);
           apply lookup_alloc
         | intros _ _ _ _; exists fields'; split; [reflexivity|];
           (split; [exact Hkeys|]);
           apply Hcopy; intros l0 Hl0; rewrite Hagree;
           [ rewrite !length_app in Hl0; simpl in Hl0;
             rewrite !lookup_app_r by (rewrite ?length_app; simpl; lia);
             rewrite !length_app; reflexivity
           | rewrite !length_app in *; simpl in *; lia ] ].
    + (* an array *)
      destruct (cloneAll (cloneWithDepth b) items (h ++ [Arr []]))
        as [items' h1] eqn:Hitems.
      cbv beta iota zeta delta [alloc] in Hrun. rewrite Hitems in Hrun.
      injection Hrun as <- <-.
      destruct (cloneAll_spec _ b n h0 (IH n h0) items _ _ _ (Hn0 _) (Hh0 _)
                  Hvalid Hc Hitems) as [[new ->] Hcopy].
      rewrite insert_placeholder.
      split; [exists ([Arr items'] ++ new)%list; now rewrite <- app_assoc|].
      intros h'' Hagree.
      apply (copied_alloc (S b) n h0 h (Arr items) l h'' (Arr items')); auto.
      * rewrite Hagree by (rewrite !length_app; simpl; lia).
        rewrite lookup_app_l by (rewrite length_app; simpl; lia).
        apply lookup_alloc.
      * intros _ _ _ _. exists items'. split; [reflexivity|].
        apply Hcopy. intros l0 Hl0. rewrite Hagree.
        -- rewrite !length_app in Hl0. simpl in Hl0.
           rewrite !lookup_app_r by (rewrite ?length_app; simpl; lia).
           rewrite !length_app. reflexivity.
        -- rewrite !length_app in *. simpl in *. lia.
    + injection Hrun as <- <-. split; [now eexists|].
      intros h'' Hagree.
      apply (copied_alloc (S b) n h0 h (DateObj t) l h'' (DateObj t)); auto.
      rewrite Hagree by (rewrite length_app; simpl; lia).
      apply lookup_alloc.
    + injection Hrun as <- <-. split; [now eexists|].
      intros h'' Hagree.
      apply (copied_alloc (S b) n h0 h (RegExpObj src flags) l h''
               (RegExpObj src flags)); auto.
      rewrite Hagree by (rewrite length_app; simpl; lia).
      apply lookup_alloc.
Qed.

(** *** What the clone looks like, and what it shares *)

(** Arrays and plain objects, and with them dates and regular
    expressions. *)
Definition isStructure (o : Obj) : bool :=
  match o with
  | Arr _ | Plain _ => true
  | _ => false
  end.

Definition isData (o : Obj) : bool :=
  match o with
  | Arr _ | Plain _ | DateObj _ | RegExpObj _ _ => true
  | _ => false
  end.

Definition limitOf (maxDepth : option Z) : nat :=
  Z.to_nat (nullish maxDepth 50%Z).

Lemma under_ext (f g : Value -> Tree) (fields : list (Key * Value)) :
  Forall (fun v => f v = g v) (map snd fields) ->
  map (fun field => (fst field, f (snd field))) fields
  = map (fun field => (fst field, g (snd field))) fields.
Proof.
  induction fields as [|[k v] rest IH]; intros Hall; [reflexivity|].
  inversion Hall; subst. simpl in *. f_equal; [congruence|auto].
Qed.

Lemma view_frame d : forall n (h h' : Heap) v,
  closedUpTo n h ->
  (forall l, (l < n)%nat -> h' !! l = h !! l) ->
  validValue n v ->
  view d h' v = view d h v.
Proof.
  induction d as [|d IH]; intros n h h' [p|l] Hc Hh Hv; try reflexivity.
  cbn [view]. rewrite Hh by exact Hv.
  destruct (h !! l) as [o|] eqn:Ho; [|reflexivity].
  assert (Hvalid : Forall (fun v => view d h' v = view d h v) (children o)).
  { eapply Forall_impl; [exact (proj2 Hc l o Hv Ho)|].
    intros v Hvv. now apply (IH n). }
  destruct o; simpl in Hvalid; try reflexivity.
  - f_equal. apply map_ext_Forall. exact Hvalid.
  - f_equal. now apply under_ext.
  - f_equal. now apply under_ext.
  - f_equal. now apply under_ext.
Qed.

Lemma Forall2_Forall_impl {A B} (P : A -> Prop) (R Q : A -> B -> Prop) l l' :
  Forall P l -> Forall2 R l l' ->
  (forall x y, P x -> R x y -> Q x y) ->
  Forall2 Q l l'.
Proof.
  intros HP HR Himpl. revert HP.
  induction HR; intros HP; inversion HP; subst; constructor; auto.
Qed.

Lemma fields_view (f g : Value -> Tree) (fields fields' : list (Key * Value)) :
  map fst fields' = map fst fields ->
  Forall2 (fun v v' => g v' = f v) (map snd fields) (map snd fields') ->
  map (fun field => (fst field, g (snd field))) fields'
  = map (fun field => (fst field, f (snd field))) fields.
Proof.
  revert fields'.
  induction fields as [|[k v] rest IH]; intros [|[k' v'] rest'] Hk Hv;
    try discriminate; [reflexivity|].
  simpl in *. inversion Hv; subst. injection Hk as -> Hk.
  f_equal; [congruence|auto].
Qed.

Lemma items_view {T} (f g : Value -> T) items items' :
  Forall2 (fun v v' => g v' = f v) items items' ->
  map g items' = map f items.
Proof. induction 1; simpl; congruence. Qed.

Lemma items_level (f g : Value -> list Loc) items items' :
  Forall2 (fun v v' => g v' = f v) items items' ->
  flat_map g items' = flat_map f items.
Proof. induction 1; simpl; congruence. Qed.

Lemma valid_lookup n (h : Heap) l :
  closedUpTo n h -> (l < n)%nat -> h !! l = None -> False.
Proof.
  intros [Hn _] Hl Hnone. apply lookup_ge_None in Hnone. lia.
Qed.

(** Down to the limit the clone shows what the original shows. *)
Lemma copied_view budget : forall n (h h' : Heap) v v',
  closedUpTo n h ->
  (forall l, (l < n)%nat -> h' !! l = h !! l) ->
  Forall (fun o => isData o = true) h ->
  validValue n v ->
  copied budget n h h' v v' ->
  forall d,
    (d <= budget)%nat \/ Forall (fun o => isStructure o = true) h ->
    view d h' v' = view d h v.
Proof.
  induction budget as [|b IH]; intros n h h' [p|l] v' Hc Hh Hdata Hv Hcopy d Hd;
    cbn [copied] in Hcopy; try (subst v'; now destruct d);
    revert Hcopy; destruct (h !! l) as [o|] eqn:Ho; intros Hcopy;
    try (subst v'; now apply (view_frame d n));
    destruct Hcopy as (l' & -> & Hl' & Hnew);
    (destruct d as [|d]; [reflexivity|]); cbn [view];
    pose proof (Forall_lookup_1 _ _ _ _ Hdata Ho) as Hkind;
    pose proof (proj2 Hc l o Hv Ho) as Hvalid.
  - rewrite Hnew, Ho.
    assert (Hsame : Forall (fun v => view d h' v = view d h v) (children o)).
    { eapply Forall_impl; [exact Hvalid|].
      intros v Hvv. now apply (view_frame d n). }
    assert (Hlimit : isStructure o = true).
    { destruct Hd as [Hd|Hs]; [lia|]. exact (Forall_lookup_1 _ _ _ _ Hs Ho). }
    destruct o; try discriminate; simpl in *; f_equal.
    + now apply map_ext_Forall.
    + now apply under_ext.
  - rewrite Ho.
    assert (Hd' : (d <= b)%nat \/ Forall (fun o => isStructure o = true) h)
      by (destruct Hd; [left; lia|now right]).
    assert (Hstep : forall v v', validValue n v -> copied b n h h' v v' ->
                      view d h' v' = view d h v)
      by (intros v v' Hvv Hvc; now apply (IH n h h' v v')).
    destruct o; try discriminate.
    + destruct Hnew as (items' & -> & Hitems). f_equal.
      apply items_view. eapply Forall2_Forall_impl; eauto.
    + now rewrite Hnew.
    + now rewrite Hnew.
    + destruct Hnew as (fields' & -> & Hkeys & Hvals). f_equal.
      apply fields_view; [exact Hkeys|].
      eapply Forall2_Forall_impl; eauto.
Qed.

(** Down to the limit the objects of the clone are new ones. *)
Lemma copied_fresh budget : forall n (h h' : Heap) v v',
  closedUpTo n h ->
  validValue n v ->
  copied budget n h h' v v' ->
  forall k, (k <= budget)%nat -> Forall (fun l => (n <= l)%nat) (level k h' v').
Proof.
  induction budget as [|b IH]; intros n h h' [p|l] v' Hc Hv Hcopy k Hk;
    cbn [copied] in Hcopy;
    try (subst v'; destruct k; constructor);
    revert Hcopy; destruct (h !! l) as [o|] eqn:Ho; intros Hcopy;
    try (now destruct (valid_lookup n h l));
    destruct Hcopy as (l' & -> & Hl' & Hnew);
    (destruct k as [|k]; [now repeat constructor|]); [lia|].
  cbn [level].
  pose proof (proj2 Hc l o Hv Ho) as Hvalid.
  assert (Hstep : forall vs vs', Forall (validValue n) vs ->
            Forall2 (copied b n h h') vs vs' ->
            Forall (fun l => (n <= l)%nat) (flat_map (level k h') vs')).
  { intros vs vs' Hvs Hall. apply Forall_flat_map.
    revert Hvs. induction Hall; intros Hvs; inversion Hvs; subst;
      constructor; auto.
    apply (IH n h h' x y); auto. lia. }
  destruct o;
    try (rewrite Hnew; constructor);
    try (destruct Hnew as (items' & -> & Hitems); now apply (Hstep items));
    destruct Hnew as (fields' & -> & _ & Hvals);
    now apply (Hstep (map snd fields)).
Qed.

(** One level further the clone holds the objects of the original. *)
Lemma copied_shared budget : forall n (h h' : Heap) v v',
  closedUpTo n h ->
  (forall l, (l < n)%nat -> h' !! l = h !! l) ->
  validValue n v ->
  copied budget n h h' v v' ->
  level (S budget) h' v' = level (S budget) h v.
Proof.
  induction budget as [|b IH]; intros n h h' [p|l] v' Hc Hh Hv Hcopy;
    cbn [copied] in Hcopy; try (subst v'; reflexivity);
    revert Hcopy; destruct (h !! l) as [o|] eqn:Ho; intros Hcopy;
    try (now destruct (valid_lookup n h l));
    destruct Hcopy as (l' & -> & Hl' & Hnew).
  - cbn [level]. rewrite Hnew, Ho.
    replace (children (spread o)) with (children o) by (now destruct o).
    apply flat_map_ext. now intros [p|l0].
  - pose proof (proj2 Hc l o Hv Ho) as Hvalid.
    assert (Hstep : forall vs vs', Forall (validValue n) vs ->
              Forall2 (copied b n h h') vs vs' ->
              flat_map (level (S b) h') vs' = flat_map (level (S b) h) vs).
    { intros vs vs' Hvs Hall. apply items_level.
      eapply Forall2_Forall_impl; eauto. }
    change (level (S (S b)) h' (Ref l'))
      with (match h' !! l' with
            | Some o' => flat_map (level (S b) h') (children o')
            | None => []
            end).
    change (level (S (S b)) h (Ref l))
      with (match h !! l with
            | Some o' => flat_map (level (S b) h) (children o')
            | None => []
            end).
    rewrite Ho.
    destruct o;
      try (now rewrite Hnew);
      try (destruct Hnew as (items' & -> & Hitems); now apply (Hstep items));
      destruct Hnew as (fields' & -> & _ & Hvals);
      now apply (Hstep (map snd fields)).
Qed.

Lemma deepCloneWithLimit_copied obj maxDepth (h : Heap) obj' h' :
  closed h ->
  validValue (length h) obj ->
  deepCloneWithLimit obj maxDepth h = (obj', h') ->
  (exists new, h' = (h ++ new)%list)
  /\ copied (limitOf maxDepth) (length h) h h' obj obj'.
Proof.
  intros Hc Hv Hrun.
  destruct (cloneWithDepth_spec (limitOf maxDepth) (length h) h obj h obj' h')
    as [Hnew Hcopy]; auto.
Qed.

Lemma grown_agrees (h new : Heap) l :
  (l < length h)%nat -> (h ++ new)%list !! l = h !! l.
Proof. intros Hl. now apply lookup_app_l. Qed.

(** X22. [deepCloneWithLimit] on data (arrays, plain objects that inherit
    from [Object.prototype], dates, regular expressions) whose own
    properties have names other than [hasOwnProperty], [__proto__] and
    [constructor]: seen to any depth up to [maxDepth] the clone looks
    like the original, and to every depth when the data holds arrays and
    plain objects only. *)
Theorem limited_clone_looks_like_the_original obj maxDepth (h : Heap) obj' h' :
  closed h ->
  validValue (length h) obj ->
  Forall (fun o => isData o = true) h ->
  deepCloneWithLimit obj maxDepth h = (obj', h') ->
  (forall d, (d <= limitOf maxDepth)%nat -> view d h' obj' = view d h obj)
  /\ (Forall (fun o => isStructure o = true) h ->
      forall d, view d h' obj' = view d h obj).
Proof.
  intros Hc Hv Hdata Hrun.
  destruct (deepCloneWithLimit_copied _ _ _ _ _ Hc Hv Hrun) as [[new ->] Hcopy].
  split; [intros d Hd|intros Hs d];
    apply (copied_view (limitOf maxDepth) (length h) h); auto using grown_agrees.
Qed.

(** X23. On values made of the objects of [Obj] (they inherit from
    [Object.prototype] and have no own property named [hasOwnProperty],
    [__proto__] or [constructor]), [deepCloneWithLimit] leaves every
    object of the original as it was, and each object of the clone down
    to [maxDepth] references below its root is a new one: writing to it
    cannot reach the original. *)
Theorem limited_clone_is_new_down_to_the_limit obj maxDepth (h : Heap) obj' h' :
  closed h ->
  validValue (length h) obj ->
  deepCloneWithLimit obj maxDepth h = (obj', h') ->
  (exists new, h' = (h ++ new)%list)
  /\ forall k l, (k <= limitOf maxDepth)%nat -> In l (level k h' obj') ->
       (length h <= l)%nat.
Proof.
  intros Hc Hv Hrun.
  destruct (deepCloneWithLimit_copied _ _ _ _ _ Hc Hv Hrun) as [Hnew Hcopy].
  split; [exact Hnew|]. intros k l Hk Hin.
  pose proof (copied_fresh _ _ _ _ _ _ Hc Hv Hcopy k Hk) as Hall.
  rewrite List.Forall_forall in Hall. now apply Hall.
Qed.

(** X24. On values made of the objects of [Obj] (they inherit from
    [Object.prototype] and have no own property named [hasOwnProperty],
    [__proto__] or [constructor]), one reference below [maxDepth] the
    clone made by [deepCloneWithLimit] holds the very objects of the
    original: from there on the two are shared, not copied. *)
Theorem limited_clone_shares_below_the_limit obj maxDepth (h : Heap) obj' h' :
  closed h ->
  validValue (length h) obj ->
  deepCloneWithLimit obj maxDepth h = (obj', h') ->
  level (S (limitOf maxDepth)) h' obj' = level (S (limitOf maxDepth)) h obj.
Proof.
  intros Hc Hv Hrun.
  destruct (deepCloneWithLimit_copied _ _ _ _ _ Hc Hv Hrun) as [[new ->] Hcopy].
  apply (copied_shared _ (length h)); auto using grown_agrees.
Qed.

(** *** [deepClone]
    The clone cache is a variable of the module: it lives on between the
    calls. *)

Record Store : Type := mkStore {
  heap : Heap;
  cloneCache : gset Loc
}.

Definition circular : string :=
  "Circular reference detected in object to clone".

(** The clones of the values of a container, in order, up to the first
    exception: the clones made, and the exception if there was one. *)
Fixpoint cloneEach (clone : Value -> Store -> option (Outcome Value * Store))
    (vs : list Value) (st : Store)
    : option (list Value * option string * Store) :=
  match vs with
  | [] => Some ([], None, st)
  | v :: rest =>
      match clone v st with
      | None => None
      | Some (Throw e, st1) => Some ([], Some e, st1)
      | Some (Ok v', st1) =>
          match cloneEach clone rest st1 with
          | None => None
          | Some (rest', thrown, st2) => Some (v' :: rest', thrown, st2)
          end
      end
  end.

(** The object under construction that holds the clones [vs] of the first
    values of [o]. *)
Definition rebuilt (o : Obj) (vs : list Value) : Obj :=
  match o with
  | Arr _ => Arr vs
  | Plain fields => Plain (combine (map fst fields) vs)
  | Instance c fields => Instance c (combine (map fst fields) vs)
  | _ => o
  end.

(** [cloneCache.set(obj, true)], the new container ([obj.map], [{}],
    [Object.create(..)]) and the loop over the values of [obj]: the
    location of the clone, the exception that ended the loop if there was
    one, and the store. What an exception leaves of the array that [map]
    was building cannot be reached. *)
Definition cloneInto (clone : Value -> Store -> option (Outcome Value * Store))
    (l : Loc) (o : Obj) (st : Store) : option (Loc * option string * Store) :=
  let cloned := length (heap st) in
  match cloneEach clone (children o)
          (mkStore (heap st ++ [rebuilt o []]) ({[l]} ∪ cloneCache st)) with
  | None => None
  | Some (vs, thrown, st1) =>
      Some (cloned, thrown,
            mkStore (<[cloned := rebuilt o vs]> (heap st1)) (cloneCache st1))
  end.

(** [cloneCache.delete(obj)] *)
Definition uncache (l : Loc) (st : Store) : Store :=
  mkStore (heap st) (cloneCache st ∖ {[l]}).

(** [deepClone(obj)]. The recursion ends because an object met again
    below itself is in the cache; [fuel] bounds its depth. A reference
    always leads to an object of the heap: the [None] branches are there
    for the lookup only. An error is
    made by its constructor from the message, which is taken to do as
    the constructor of [Error] does; the assignment of [name] then gives
    the clone a property of its own. *)
Fixpoint deepCloneFuel (fuel : nat) (obj : Value) (st : Store)
    : option (Outcome Value * Store) :=
  match fuel with
  | O => None
  | S fuel' =>
      match obj with
      | Prim _ => Some (Ok obj, st)
      | Ref l =>
          if decide (l ∈ cloneCache st) then Some (Throw circular, st)
          else
            let created o :=
              let '(cloned, h) := alloc o (heap st) in
              Some (Ok cloned, mkStore h (cloneCache st)) in
            match heap st !! l with
            | None => Some (Ok obj, st)
            | Some (DateObj t) => created (DateObj t)
            | Some (RegExpObj s f) => created (RegExpObj s f)
            | Some (ErrorObj c m n s _) =>
                created (ErrorObj c m n s [(key "name", Prim (PString n))])
            | Some (Arr _ as o) | Some (Plain _ as o) =>
                match cloneInto (deepCloneFuel fuel') l o st with
                | None => None
                | Some (cloned, None, st1) => Some (Ok (Ref cloned), uncache l st1)
                | Some (_, Some e, st1) => Some (Throw e, uncache l st1)
                end
            | Some (Instance _ _ as o) =>
                match cloneInto (deepCloneFuel fuel') l o st with
                | None => None
                | Some (cloned, None, st1) => Some (Ok (Ref cloned), uncache l st1)
                | Some (_, Some _, st1) => Some (Ok obj, st1)
                end
            end
      end
  end.

(** No chain of references is longer than the number of objects it can
    pass through. *)
Definition deepClone (obj : Value) (st : Store)
    : option (Outcome Value * Store) :=
  deepCloneFuel (S (length (heap st))) obj st.

(** *** [hasCircularReference] *)

(** The loop over the values of an object, left at the first [true]. *)
Fixpoint checkEach (check : Value -> gset Loc -> option (bool * gset Loc))
    (vs : list Value) (visited : gset Loc) : option (bool * gset Loc) :=
  match vs with
  | [] => Some (false, visited)
  | v :: rest =>
      match check v visited with
      | None => None
      | Some (true, visited1) => Some (true, visited1)
      | Some (false, visited1) => checkEach check rest visited1
      end
  end.

Fixpoint checkCircular (fuel : nat) (h : Heap) (current : Value)
    (visited : gset Loc) : option (bool * gset Loc) :=
  match fuel with
  | O => None
  | S fuel' =>
      match current with
      | Prim _ => Some (false, visited)
      | Ref l =>
          if decide (l ∈ visited) then Some (true, visited)
          else
            match h !! l with
            | Some o =>
                checkEach (checkCircular fuel' h) (children o)
                  ({[l]} ∪ visited)
            | None => Some (false, {[l]} ∪ visited)
            end
      end
  end.

Definition hasCircularReference (obj : Value) (h : Heap) : option bool :=
  fst <$> checkCircular (S (length h)) h obj ∅.

(** *** Cycles *)

(** No chain of references below [v] is longer than [d]. A value from
    which a cycle can be reached is [finite] for no [d]. *)
Fixpoint finite (d : nat) (h : Heap) (v : Value) : bool :=
  match v with
  | Prim _ => true
  | Ref l =>
      match d with
      | O => false
      | S d' =>
          match h !! l with
          | Some o => forallb (finite d' h) (children o)
          | None => true
          end
      end
  end.

Definition extends (h h' : Heap) : Prop := exists new, h' = (h ++ new)%list.

Lemma extends_refl (h : Heap) : extends h h.
Proof. exists []. now rewrite app_nil_r. Qed.

Lemma extends_trans (h1 h2 h3 : Heap) :
  extends h1 h2 -> extends h2 h3 -> extends h1 h3.
Proof. intros [n1 ->] [n2 ->]. exists (n1 ++ n2)%list. now rewrite app_assoc. Qed.

Lemma extends_alloc (h : Heap) o : extends h (h ++ [o]).
Proof. now eexists. Qed.

Lemma extends_lookup (h h' : Heap) l :
  extends h h' -> (l < length h)%nat -> h' !! l = h !! l.
Proof. intros [new ->] Hl. now apply lookup_app_l. Qed.

Lemma extends_length (h h' : Heap) :
  extends h h' -> (length h <= length h')%nat.
Proof. intros [new ->]. rewrite length_app. lia. Qed.

(** The store a call leaves: the heap grown, the cache not smaller. *)
Definition grows (st st' : Store) : Prop :=
  extends (heap st) (heap st') /\ cloneCache st ⊆ cloneCache st'.

Lemma grows_refl st : grows st st.
Proof. split; [apply extends_refl|set_solver]. Qed.

Lemma grows_trans st1 st2 st3 : grows st1 st2 -> grows st2 st3 -> grows st1 st3.
Proof.
  intros [He1 Hc1] [He2 Hc2]. split; [eapply extends_trans; eauto|set_solver].
Qed.

Lemma cloneEach_grows clone vs :
  (forall v st r st', clone v st = Some (r, st') -> grows st st') ->
  forall st vs' thrown st',
    cloneEach clone vs st = Some (vs', thrown, st') -> grows st st'.
Proof.
  intros Hclone. induction vs as [|v rest IH]; intros st vs' thrown st' Hrun;
    cbn [cloneEach] in Hrun.
  - injection Hrun as <- <- <-. apply grows_refl.
  - destruct (clone v st) as [[[v1|e] st1]|] eqn:Hv; try discriminate.
    + destruct (cloneEach clone rest st1) as [[[rest1 thrown1] st2]|] eqn:Hrest;
        try discriminate.
      injection Hrun as <- <- <-.
      eapply grows_trans; [eapply Hclone|eapply IH]; eauto.
    + injection Hrun as <- <- <-. eapply Hclone; eauto.
Qed.

(** What the loop over a container leaves. *)
Lemma cloneInto_run clone l o st cloned thrown st1 :
  cloneInto clone l o st = Some (cloned, thrown, st1) ->
  exists vs st0,
    cloneEach clone (children o)
      (mkStore (heap st ++ [rebuilt o []]) ({[l]} ∪ cloneCache st))
    = Some (vs, thrown, st0)
    /\ cloned = length (heap st)
    /\ st1 = mkStore (<[length (heap st) := rebuilt o vs]> (heap st0))
               (cloneCache st0).
Proof.
  unfold cloneInto. intros Hrun.
  destruct (cloneEach _ _ _) as [[[vs thrown0] st0]|]; [|discriminate].
  injection Hrun as <- <- <-. now exists vs, st0.
Qed.

Lemma cloneInto_grows clone l o st cloned thrown st1 :
  (forall v st r st', clone v st = Some (r, st') -> grows st st') ->
  cloneInto clone l o st = Some (cloned, thrown, st1) ->
  exists vs new,
    heap st1 = ((heap st ++ [rebuilt o vs]) ++ new)%list
    /\ {[l]} ∪ cloneCache st ⊆ cloneCache st1.
Proof.
  intros Hclone Hrun.
  destruct (cloneInto_run _ _ _ _ _ _ _ Hrun) as (vs & st0 & Heach & -> & ->).
  destruct (cloneEach_grows _ _ Hclone _ _ _ _ Heach) as [[new Hnew] Hcache].
  simpl in *. exists vs, new. rewrite Hnew. split; [|exact Hcache].
  apply insert_placeholder.
Qed.

Lemma deepCloneFuel_grows fuel : forall obj st r st',
  deepCloneFuel fuel obj st = Some (r, st') -> grows st st'.
Proof.
  induction fuel as [|fuel IH]; intros obj st r st' Hrun; [discriminate|].
  cbn [deepCloneFuel] in Hrun. destruct obj as [p|l].
  { injection Hrun as <- <-. apply grows_refl. }
  destruct (decide (l ∈ cloneCache st)) as [Hin|Hout].
  { injection Hrun as <- <-. apply grows_refl. }
  destruct (heap st !! l) as [o|] eqn:Ho.
  2:{ injection Hrun as <- <-. apply grows_refl. }
  destruct o; cbn [alloc] in Hrun;
    try (injection Hrun as <- <-; split; [apply extends_alloc|reflexivity]);
    destruct (cloneInto _ _ _ _) as [[[cloned [e|]] st1]|] eqn:Hinto;
    try discriminate; injection Hrun as <- <-;
    destruct (cloneInto_grows _ _ _ _ _ _ _ IH Hinto) as (vs & new & Hheap & Hcache);
    (split; cbn [uncache heap cloneCache];
     [rewrite Hheap, <- app_assoc; now eexists|set_solver]).
Qed.

(** *** [deepClone] returns *)

(** The objects a clone may still pass through. *)
Definition unvisited (h0 : Heap) (visited : gset Loc) : gset Loc :=
  set_seq 0 (length h0) ∖ visited.

Lemma unvisited_mono (h0 : Heap) (C C' : gset Loc) :
  C ⊆ C' -> (size (unvisited h0 C') <= size (unvisited h0 C))%nat.
Proof. intros Hsub. apply subseteq_size. unfold unvisited. set_solver. Qed.

Lemma unvisited_less (h0 : Heap) (C : gset Loc) l :
  (l < length h0)%nat -> l ∉ C ->
  (size (unvisited h0 ({[l]} ∪ C)) < size (unvisited h0 C))%nat.
Proof.
  intros Hl Hout. apply subset_size. unfold unvisited.
  assert (l ∈ (set_seq 0 (length h0) : gset Loc))
    by (apply elem_of_set_seq; lia).
  set_solver.
Qed.

Lemma cloneEach_total clone (P : Store -> Prop) vs :
  (forall v st r st', clone v st = Some (r, st') -> P st -> P st') ->
  (forall v st, In v vs -> P st -> exists r st', clone v st = Some (r, st')) ->
  forall st, P st ->
    exists vs' thrown st', cloneEach clone vs st = Some (vs', thrown, st').
Proof.
  intros Hkeep. induction vs as [|v rest IH]; intros Hclone st HP;
    cbn [cloneEach]; [now eauto|].
  destruct (Hclone v st (or_introl eq_refl) HP) as ([v1|e] & st1 & Hv);
    rewrite Hv; [|now eauto].
  destruct (IH (fun c s Hin => Hclone c s (or_intror Hin)) st1
              (Hkeep _ _ _ _ Hv HP)) as (rest1 & thrown & st2 & Hrest).
  rewrite Hrest. now eauto.
Qed.

Lemma deepCloneFuel_total (h0 : Heap) fuel : forall obj st,
  closed h0 ->
  validValue (length h0) obj ->
  extends h0 (heap st) ->
  (size (unvisited h0 (cloneCache st)) < fuel)%nat ->
  exists r st', deepCloneFuel fuel obj st = Some (r, st').
Proof.
  induction fuel as [|fuel IH]; intros obj st Hc Hv Hext Hfuel; [lia|].
  cbn [deepCloneFuel]. destruct obj as [p|l]; [now eauto|].
  destruct (decide (l ∈ cloneCache st)) as [Hin|Hout]; [now eauto|].
  simpl in Hv. rewrite (extends_lookup _ _ _ Hext Hv).
  destruct (h0 !! l) as [o|] eqn:Ho; [|now eauto].
  assert (Hloop : exists cloned thrown st1,
            cloneInto (deepCloneFuel fuel) l o st = Some (cloned, thrown, st1)).
  { unfold cloneInto.
    destruct (cloneEach_total (deepCloneFuel fuel)
                (fun s => extends h0 (heap s)
                          /\ {[l]} ∪ cloneCache st ⊆ cloneCache s)
                (children o)) with
      (st := mkStore (heap st ++ [rebuilt o []]) ({[l]} ∪ cloneCache st))
      as (vs & thrown & st1 & Heach).
    - intros v s r s' Hrun [He Hsub].
      destruct (deepCloneFuel_grows _ _ _ _ _ Hrun) as [He' Hsub'].
      split; [eapply extends_trans; eauto|set_solver].
    - intros v s Hin [He Hsub]. apply IH; auto.
      + pose proof (proj2 Hc l o Hv Ho) as Hvalid.
        unfold validObj in Hvalid.
        rewrite List.Forall_forall in Hvalid. now apply Hvalid.
      + pose proof (unvisited_mono h0 _ _ Hsub).
        pose proof (unvisited_less h0 _ l Hv Hout). lia.
    - split; [|reflexivity]. simpl.
      eapply extends_trans; [exact Hext|apply extends_alloc].
    - rewrite Heach. now eauto. }
  destruct Hloop as (cloned & [e|] & st1 & ->); destruct o; now eauto.
Qed.

(** *** What [deepClone] returns *)

Lemma finite_S d : forall (h : Heap) v,
  finite d h v = true -> finite (S d) h v = true.
Proof.
  induction d as [|d IH]; intros h [p|l] Hfin; try reflexivity;
    [discriminate|].
  cbn [finite] in *. destruct (h !! l) as [o|]; [|reflexivity].
  rewrite forallb_forall in *. intros v Hin. apply IH. now apply Hfin.
Qed.

Lemma finite_le d d' (h : Heap) v :
  (d <= d')%nat -> finite d h v = true -> finite d' h v = true.
Proof. induction 1; auto using finite_S. Qed.

Lemma finite_all_le d d' (h : Heap) vs :
  (d <= d')%nat ->
  forallb (finite d h) vs = true -> forallb (finite d' h) vs = true.
Proof.
  intros Hle. rewrite !forallb_forall. intros Hall v Hin.
  apply (finite_le d); auto.
Qed.

(** [h''] holds the objects made between two stores. *)
Definition holds (h'' : Heap) (st st' : Store) : Prop :=
  forall l, (length (heap st) <= l < length (heap st'))%nat ->
    h'' !! l = heap st' !! l.

(** What a call leaves on data: the cache as it was; the only exception
    is the one of the cache; a value returned is the clone, to any depth,
    of a value without cycles. *)
Definition clonedOk (h0 : Heap) (st st' : Store) (v : Value)
    (r : Outcome Value) : Prop :=
  cloneCache st' = cloneCache st
  /\ match r with
     | Throw e => e = circular
     | Ok v' =>
         exists d, finite d h0 v = true
           /\ forall b h'', (d <= b)%nat -> holds h'' st st' ->
                copied b (length h0) h0 h'' v v'
     end.

Definition allClonedOk (h0 : Heap) (st st' : Store) (vs vs' : list Value)
    (thrown : option string) : Prop :=
  cloneCache st' = cloneCache st
  /\ match thrown with
     | Some e => e = circular
     | None =>
         exists d, forallb (finite d h0) vs = true
           /\ forall b h'', (d <= b)%nat -> holds h'' st st' ->
                Forall2 (copied b (length h0) h0 h'') vs vs'
     end.

Lemma holds_first h'' st st1 st2 :
  grows st st1 -> grows st1 st2 -> holds h'' st st2 -> holds h'' st st1.
Proof.
  intros [He _] [He1 _] Hholds l Hl.
  pose proof (extends_length _ _ He1).
  rewrite Hholds by lia. apply extends_lookup; [exact He1|lia].
Qed.

Lemma holds_rest h'' st st1 st2 :
  grows st st1 -> holds h'' st st2 -> holds h'' st1 st2.
Proof.
  intros [He _] Hholds l Hl. pose proof (extends_length _ _ He).
  apply Hholds. lia.
Qed.

Lemma cloneEach_spec (h0 : Heap) clone vs :
  (forall v st r st', In v vs -> extends h0 (heap st) ->
     clone v st = Some (r, st') -> grows st st' /\ clonedOk h0 st st' v r) ->
  forall st vs' thrown st',
    extends h0 (heap st) ->
    cloneEach clone vs st = Some (vs', thrown, st') ->
    grows st st' /\ allClonedOk h0 st st' vs vs' thrown.
Proof.
  induction vs as [|v rest IH]; intros Hclone st vs' thrown st' Hext Hrun;
    cbn [cloneEach] in Hrun.
  - injection Hrun as <- <- <-. split; [apply grows_refl|].
    split; [reflexivity|]. exists 0%nat. split; [reflexivity|]. constructor.
  - destruct (clone v st) as [[[v1|e] st1]|] eqn:Hv; try discriminate.
    + destruct (Hclone _ _ _ _ (or_introl eq_refl) Hext Hv)
        as (Hg1 & Hcache1 & d1 & Hfin1 & Hcopy1).
      destruct (cloneEach clone rest st1) as [[[rest1 thrown1] st2]|] eqn:Hrest;
        try discriminate.
      injection Hrun as <- <- <-.
      destruct (IH (fun c s r s' Hin => Hclone c s r s' (or_intror Hin))
                  st1 rest1 thrown1 st2) as (Hg2 & Hcache2 & Hrest2); auto.
      { eapply extends_trans; [exact Hext|apply Hg1]. }
      split; [eapply grows_trans; eauto|].
      split; [congruence|].
      destruct thrown1 as [e|]; [exact Hrest2|].
      destruct Hrest2 as (d2 & Hfin2 & Hcopy2).
      exists (Nat.max d1 d2). split.
      * cbn [forallb]. rewrite (finite_le d1) by (auto; lia).
        now rewrite (finite_all_le d2) by (auto; lia).
      * intros b h'' Hb Hholds. constructor.
        -- apply Hcopy1; [lia|]. eapply holds_first; eauto.
        -- apply Hcopy2; [lia|]. eapply holds_rest; eauto.
    + injection Hrun as <- <- <-.
      destruct (Hclone _ _ _ _ (or_introl eq_refl) Hext Hv) as (Hg1 & Hcache1 & He).
      repeat split; auto. apply Hg1. apply Hg1.
Qed.

Lemma copied_prim b n (h h'' : Heap) p : copied b n h h'' (Prim p) (Prim p).
Proof. now destruct b. Qed.

Lemma uncache_cached (C : gset Loc) l : l ∉ C -> ({[l]} ∪ C) ∖ {[l]} = C.
Proof. set_solver. Qed.

Lemma deepCloneFuel_spec (h0 : Heap) :
  closed h0 ->
  Forall (fun o => isData o = true) h0 ->
  forall fuel obj st r st',
    validValue (length h0) obj ->
    extends h0 (heap st) ->
    deepCloneFuel fuel obj st = Some (r, st') ->
    clonedOk h0 st st' obj r.
Proof.
  intros Hc Hdata.
  induction fuel as [|fuel IH]; intros obj st r st' Hv Hext Hrun; [discriminate|].
  cbn [deepCloneFuel] in Hrun. destruct obj as [p|l].
  { injection Hrun as <- <-. split; [reflexivity|]. exists 0%nat.
    split; [reflexivity|]. intros b h'' _ _. apply copied_prim. }
  destruct (decide (l ∈ cloneCache st)) as [Hin|Hout].
  { injection Hrun as <- <-. now split. }
  pose proof (extends_length _ _ Hext) as Hn.
  pose proof (fun l Hl => extends_lookup _ _ l Hext Hl) as Hh.
  assert (Hl : heap st !! l = h0 !! l) by now apply Hh.
  destruct (h0 !! l) as [o|] eqn:Ho; [|now destruct (valid_lookup _ _ _ Hc Hv Ho)].
  rewrite Hl in Hrun.
  pose proof (Forall_lookup_1 _ _ _ _ Hdata Ho) as Hkind.
  pose proof (proj2 Hc l o Hv Ho) as Hvalid.
  assert (Hsimple : forall made,
            children o = [] ->
            match o with
            | DateObj _ | RegExpObj _ _ => made = o
            | _ => False
            end ->
            clonedOk h0 st (mkStore (heap st ++ [made]) (cloneCache st))
              (Ref l) (Ok (Ref (length (heap st))))).
  { intros made Hnone Hmade. split; [reflexivity|]. exists 1%nat. split.
    { cbn [finite]. now rewrite Ho, Hnone. }
    intros [|b] h'' Hb Hholds; [lia|].
    apply (copied_alloc (S b) _ h0 (heap st) o l h'' made); auto.
    - rewrite Hholds by (simpl; rewrite length_app; simpl; lia).
      apply lookup_alloc.
    - intros _ _ _ _. destruct o; try contradiction; exact Hmade. }
  assert (Hloop : forall cloned thrown st1,
            isStructure o = true ->
            cloneInto (deepCloneFuel fuel) l o st = Some (cloned, thrown, st1) ->
            cloned = length (heap st)
            /\ match thrown with
               | Some e => clonedOk h0 st (uncache l st1) (Ref l) (Throw e)
               | None => clonedOk h0 st (uncache l st1) (Ref l) (Ok (Ref cloned))
               end).
  { intros cloned thrown st1 Hstruct Hinto.
    destruct (cloneInto_run _ _ _ _ _ _ _ Hinto) as (vs & st0 & Heach & -> & ->).
    split; [reflexivity|].
    assert (Hchild : forall v s r0 s', In v (children o) ->
              extends h0 (heap s) -> deepCloneFuel fuel v s = Some (r0, s') ->
              grows s s' /\ clonedOk h0 s s' v r0).
    { intros v s r0 s' Hin Hexts Hrunv.
      split; [eapply deepCloneFuel_grows; eauto|].
      apply (IH v s r0 s'); auto.
      unfold validObj in Hvalid. rewrite List.Forall_forall in Hvalid.
      now apply Hvalid. }
    assert (Hext0 : extends h0 (heap st ++ [rebuilt o []]))
      by (eapply extends_trans; [exact Hext|apply extends_alloc]).
    destruct (cloneEach_spec h0 _ _ Hchild
                (mkStore (heap st ++ [rebuilt o []]) ({[l]} ∪ cloneCache st))
                _ _ _ Hext0 Heach)
      as ([[new Hnew] _] & Hcache & Hall).
    simpl in Hnew, Hcache.
    assert (Hrestored : cloneCache (uncache l (mkStore
              (<[length (heap st) := rebuilt o vs]> (heap st0)) (cloneCache st0)))
            = cloneCache st).
    { cbn [uncache cloneCache]. rewrite Hcache. now apply uncache_cached. }
    destruct thrown as [e|]; (split; [exact Hrestored|]); [exact Hall|].
    destruct Hall as (d & Hfin & Hcopy). exists (S d). split.
    { cbn [finite]. now rewrite Ho. }
    intros [|b] h'' Hb Hholds; [lia|].
    assert (Hitems : Forall2 (copied b (length h0) h0 h'') (children o) vs).
    { apply Hcopy; [lia|]. intros l0 Hl0. cbn [heap] in Hl0.
      rewrite length_app in Hl0. simpl in Hl0.
      rewrite Hholds.
      - cbn [uncache heap]. now rewrite list_lookup_insert_ne by lia.
      - cbn [uncache heap]. rewrite length_insert. lia. }
    apply (copied_alloc (S b) _ h0 (heap st) o l h'' (rebuilt o vs)); auto.
    - rewrite Hholds.
      + cbn [uncache heap]. rewrite Hnew, insert_placeholder.
        rewrite lookup_app_l by (rewrite length_app; simpl; lia).
        apply lookup_alloc.
      + cbn [uncache heap]. rewrite length_insert, Hnew, !length_app.
        simpl. lia.
    - intros _ _ _ _. destruct o; try discriminate; simpl in *.
      + now exists vs.
      + exists (combine (map fst fields) vs).
        destruct (combine_fst_snd (map fst fields) vs) as [Hfst Hsnd].
        { rewrite <- (Forall2_length _ _ _ Hitems). now rewrite !length_map. }
        rewrite Hfst, Hsnd. auto. }
  destruct o; try discriminate; cbn [alloc] in Hrun.
  - destruct (cloneInto _ _ _ _) as [[[cloned [e|]] st1]|] eqn:Hinto;
      try discriminate; injection Hrun as <- <-;
      destruct (Hloop _ _ _ eq_refl eq_refl) as [-> Hok]; exact Hok.
  - injection Hrun as <- <-. now apply Hsimple.
  - injection Hrun as <- <-. now apply Hsimple.
  - destruct (cloneInto _ _ _ _) as [[[cloned [e|]] st1]|] eqn:Hinto;
      try discriminate; injection Hrun as <- <-;
      destruct (Hloop _ _ _ eq_refl eq_refl) as [-> Hok]; exact Hok.
Qed.

Lemma cloneEach_ok clone (Q : Store -> Prop) vs :
  (forall v s r s', In v vs -> Q s -> clone v s = Some (r, s') ->
     Q s' /\ exists v', r = Ok v') ->
  forall st vs' thrown st',
    Q st -> cloneEach clone vs st = Some (vs', thrown, st') -> thrown = None.
Proof.
  induction vs as [|v rest IH]; intros Hclone st vs' thrown st' HQ Hrun;
    cbn [cloneEach] in Hrun.
  - now injection Hrun as <- <- <-.
  - destruct (clone v st) as [[r st1]|] eqn:Hv; [|discriminate].
    destruct (Hclone _ _ _ _ (or_introl eq_refl) HQ Hv) as [HQ1 [v1 ->]].
    destruct (cloneEach clone rest st1) as [[[rest1 thrown1] st2]|] eqn:Hrest;
      [|discriminate].
    injection Hrun as <- <- <-.
    apply (IH (fun c s r s' Hin => Hclone c s r s' (or_intror Hin))
             st1 rest1 thrown1 st2 HQ1 Hrest).
Qed.

Lemma finite_false_S d (h : Heap) v :
  finite (S d) h v = false -> finite d h v = false.
Proof.
  intros Hinf. destruct (finite d h v) eqn:Hfin; [|reflexivity].
  apply finite_S in Hfin. congruence.
Qed.

(** A value without cycles is cloned, when no object of the cache lies
    as low as it does. *)
Lemma deepCloneFuel_finite (h0 : Heap) :
  closed h0 ->
  Forall (fun o => isData o = true) h0 ->
  forall d fuel obj st r st',
    validValue (length h0) obj ->
    extends h0 (heap st) ->
    finite d h0 obj = true ->
    (forall a, a ∈ cloneCache st -> finite d h0 (Ref a) = false) ->
    deepCloneFuel fuel obj st = Some (r, st') ->
    exists obj', r = Ok obj'.
Proof.
  intros Hc Hdata.
  induction d as [|d IH]; intros fuel obj st r st' Hv Hext Hfin Hcache Hrun.
  { destruct obj as [p|l]; [|discriminate].
    destruct fuel; [discriminate|]. injection Hrun as <- <-. now eauto. }
  destruct (finite d h0 obj) eqn:Hlow.
  { apply (IH fuel obj st r st'); auto using finite_false_S. }
  destruct obj as [p|l]; [now destruct d|].
  destruct fuel as [|fuel]; [discriminate|]. cbn [deepCloneFuel] in Hrun.
  destruct (decide (l ∈ cloneCache st)) as [Hin|Hout].
  { rewrite (Hcache l Hin) in Hfin. discriminate. }
  rewrite (extends_lookup _ _ _ Hext Hv) in Hrun.
  cbn [finite] in Hfin.
  destruct (h0 !! l) as [o|] eqn:Ho; [|now destruct (valid_lookup _ _ _ Hc Hv Ho)].
  pose proof (Forall_lookup_1 _ _ _ _ Hdata Ho) as Hkind.
  pose proof (proj2 Hc l o Hv Ho) as Hvalid.
  assert (Hloop : forall cloned thrown st1,
            cloneInto (deepCloneFuel fuel) l o st = Some (cloned, thrown, st1) ->
            thrown = None).
  { intros cloned thrown st1 Hinto.
    destruct (cloneInto_run _ _ _ _ _ _ _ Hinto) as (vs & st0 & Heach & _ & _).
    refine (cloneEach_ok (deepCloneFuel fuel)
              (fun s => extends h0 (heap s)
                        /\ cloneCache s = {[l]} ∪ cloneCache st)
              (children o) _ _ _ _ _ _ Heach).
    - intros v s r0 s' Hin [Hexts Hs] Hrunv.
      assert (Hvv : validValue (length h0) v).
      { unfold validObj in Hvalid. rewrite List.Forall_forall in Hvalid.
        now apply Hvalid. }
      destruct (deepCloneFuel_grows _ _ _ _ _ Hrunv) as [Hgrown _].
      destruct (deepCloneFuel_spec h0 Hc Hdata _ _ _ _ _ Hvv Hexts Hrunv)
        as [Hsame _].
      split; [split; [eapply extends_trans; eauto|congruence]|].
      apply (IH fuel v s r0 s'); auto.
      + rewrite forallb_forall in Hfin. now apply Hfin.
      + intros a Ha. rewrite Hs in Ha.
        apply elem_of_union in Ha as [Ha|Ha].
        * apply elem_of_singleton in Ha. now subst a.
        * apply finite_false_S. now apply Hcache.
    - split; [|reflexivity]. simpl.
      eapply extends_trans; [exact Hext|apply extends_alloc]. }
  destruct o; try discriminate; cbn [alloc] in Hrun;
    try (injection Hrun as <- <-; now eauto);
    destruct (cloneInto _ _ _ _) as [[[cloned thrown] st1]|] eqn:Hinto;
    try discriminate;
    rewrite (Hloop _ _ _ eq_refl) in Hrun; injection Hrun as <- <-; now eauto.
Qed.

Lemma unvisited_size (h0 : Heap) (C : gset Loc) :
  (size (unvisited h0 C) < S (length h0))%nat.
Proof.
  pose proof (unvisited_mono h0 ∅ C) as Hle.
  assert (Hall : size (unvisited h0 ∅) = length h0).
  { unfold unvisited. rewrite difference_empty_L. apply size_set_seq. }
  rewrite Hall in Hle. apply Nat.lt_succ_r, Hle. set_solver.
Qed.

Lemma holds_refl st st' : holds (heap st') st st'.
Proof. now intros l _. Qed.

Lemma deepClone_copies obj st d :
  closed (heap st) ->
  validValue (length (heap st)) obj ->
  Forall (fun o => isData o = true) (heap st) ->
  cloneCache st = ∅ ->
  finite d (heap st) obj = true ->
  exists obj' st',
    deepClone obj st = Some (Ok obj', st')
    /\ cloneCache st' = ∅
    /\ extends (heap st) (heap st')
    /\ (forall d', view d' (heap st') obj' = view d' (heap st) obj)
    /\ (forall k l, In l (level k (heap st') obj') ->
          (length (heap st) <= l)%nat).
Proof.
  intros Hc Hv Hdata Hempty Hfin. unfold deepClone.
  destruct (deepCloneFuel_total (heap st) (S (length (heap st))) obj st)
    as (r & st' & Hrun); auto using extends_refl, unvisited_size.
  destruct (deepCloneFuel_finite (heap st) Hc Hdata d
              (S (length (heap st))) obj st r st')
    as [obj' ->]; auto using extends_refl.
  { intros a Ha. rewrite Hempty in Ha. set_solver. }
  destruct (deepCloneFuel_grows _ _ _ _ _ Hrun) as [Hext _].
  destruct (deepCloneFuel_spec (heap st) Hc Hdata _ obj st _ st' Hv
              (extends_refl _) Hrun) as (Hcache & d0 & _ & Hcopy).
  exists obj', st'. split; [exact Hrun|].
  split; [congruence|]. split; [exact Hext|].
  assert (Hsame : forall l, (l < length (heap st))%nat ->
                    heap st' !! l = heap st !! l)
    by (intros l Hl; now apply extends_lookup).
  split.
  - intros d'.
    apply (copied_view (Nat.max d0 d') (length (heap st)) (heap st)); auto.
    + apply Hcopy; [lia|apply holds_refl].
    + left. lia.
  - intros k l Hin.
    pose proof (copied_fresh (Nat.max d0 k) (length (heap st)) (heap st)
                  (heap st') obj obj' Hc Hv
                  (Hcopy _ _ (Nat.le_max_l _ _) (holds_refl _ _))
                  k (Nat.le_max_r _ _)) as Hall.
    rewrite List.Forall_forall in Hall. now apply Hall.
Qed.

(** X25. [deepClone] of data (arrays, plain objects that inherit from
    [Object.prototype], dates, regular expressions; no own property
    named [hasOwnProperty], [__proto__] or [constructor]) without cycles,
    the cache being empty: the call returns
    a value that looks like the original to every depth and of which every
    object is a new one; the objects there were are left as they were and
    the cache is empty again. *)
Theorem clone_is_a_full_copy obj st d :
  closed (heap st) ->
  validValue (length (heap st)) obj ->
  Forall (fun o => isData o = true) (heap st) ->
  cloneCache st = ∅ ->
  finite d (heap st) obj = true ->
  exists obj' st',
    deepClone obj st = Some (Ok obj', st')
    /\ cloneCache st' = ∅
    /\ extends (heap st) (heap st')
    /\ (forall d', view d' (heap st') obj' = view d' (heap st) obj)
    /\ (forall k l, In l (level k (heap st') obj') ->
          (length (heap st) <= l)%nat).
Proof. apply deepClone_copies. Qed.

(** X26. [deepClone] of data (arrays, plain objects that inherit from
    [Object.prototype], dates, regular expressions; no own property
    named [hasOwnProperty], [__proto__] or [constructor]) in which
    reference chains of any length can be followed, that is, from which
    a cycle can be reached: the call
    does not run on for ever but throws the error of the circular
    reference, whatever the cache holds; the cache is left as it was
    found and the objects there were are unchanged. *)
Theorem cycle_is_refused obj st :
  closed (heap st) ->
  validValue (length (heap st)) obj ->
  Forall (fun o => isData o = true) (heap st) ->
  (forall d, finite d (heap st) obj = false) ->
  exists st',
    deepClone obj st = Some (Throw circular, st')
    /\ cloneCache st' = cloneCache st
    /\ extends (heap st) (heap st').
Proof.
  intros Hc Hv Hdata Hcyclic. unfold deepClone.
  destruct (deepCloneFuel_total (heap st) (S (length (heap st))) obj st)
    as (r & st' & Hrun); auto using extends_refl, unvisited_size.
  destruct (deepCloneFuel_grows _ _ _ _ _ Hrun) as [Hext _].
  destruct (deepCloneFuel_spec (heap st) Hc Hdata _ obj st _ st' Hv
              (extends_refl _) Hrun) as (Hcache & Hr).
  destruct r as [obj'|e].
  - destruct Hr as (d & Hfin & _). rewrite Hcyclic in Hfin. discriminate.
  - subst e. now exists st'.
Qed.

(** *** [hasCircularReference] returns *)





Lemma checkEach_false (h : Heap) check vs :
  (forall v V V', In v vs -> check v V = Some (false, V') ->
     exists d, finite d h v = true) ->
  forall V V', checkEach check vs V = Some (false, V') ->
    exists d, forallb (finite d h) vs = true.
Proof.
  induction vs as [|v rest IH]; intros Hcheck V V' Hrun;
    cbn [checkEach] in Hrun; [now exists 0%nat|].
  destruct (check v V) as [[[|] V1]|] eqn:Hv; try discriminate.
  destruct (Hcheck _ _ _ (or_introl eq_refl) Hv) as [d1 Hfin1].
  destruct (IH (fun c W W' Hin => Hcheck c W W' (or_intror Hin)) V1 V' Hrun)
    as [d2 Hfin2].
  exists (Nat.max d1 d2). cbn [forallb].
  rewrite (finite_le d1) by (auto; lia).
  now rewrite (finite_all_le d2) by (auto; lia).
Qed.

Lemma checkCircular_false (h : Heap) fuel : forall v V V',
  checkCircular fuel h v V = Some (false, V') ->
  exists d, finite d h v = true.
Proof.
  induction fuel as [|fuel IH]; intros v V V' Hrun; [discriminate|].
  cbn [checkCircular] in Hrun. destruct v as [p|l]; [now exists 0%nat|].
  destruct (decide (l ∈ V)); [discriminate|].
  destruct (h !! l) as [o|] eqn:Ho.
  - destruct (checkEach_false h _ _ (fun v W W' _ => IH v W W') _ _ Hrun)
      as [d Hfin].
    exists (S d). cbn [finite]. now rewrite Ho.
  - exists 1%nat. cbn [finite]. now rewrite Ho.
Qed.

Lemma hasCircularReference_false obj (h : Heap) :
  hasCircularReference obj h = Some false ->
  exists d, finite d h obj = true.
Proof.
  unfold hasCircularReference. intros Hrun.
  destruct (checkCircular _ h obj ∅) as [[b V]|] eqn:Hcheck; [|discriminate].
  injection Hrun as ->. eapply checkCircular_false; eauto.
Qed.


(** X28. A value of data (arrays, plain objects that inherit from
    [Object.prototype], dates, regular expressions; no own property
    named [hasOwnProperty], [__proto__] or [constructor]) for which
    [hasCircularReference] has returned [false] is cloned by [deepClone]
    without an exception, the cache being empty: the check is a
    sufficient validation before cloning. *)
Theorem checked_value_is_cloned obj st :
  closed (heap st) ->
  validValue (length (heap st)) obj ->
  Forall (fun o => isData o = true) (heap st) ->
  cloneCache st = ∅ ->
  hasCircularReference obj (heap st) = Some false ->
  exists obj' st',
    deepClone obj st = Some (Ok obj', st')
    /\ cloneCache st' = ∅
    /\ forall d, view d (heap st') obj' = view d (heap st) obj.
Proof.
  intros Hc Hv Hdata Hempty Hchecked.
  destruct (hasCircularReference_false _ _ Hchecked) as [d Hfin].
  destruct (deepClone_copies obj st d Hc Hv Hdata Hempty Hfin)
    as (obj' & st' & Hrun & Hcache & _ & Hview & _).
  now exists obj', st'.
Qed.

(** *** A run *)

(** Whether the objects of a heap refer to objects of the heap only. *)
Definition isValid (n : nat) (v : Value) : bool :=
  match v with
  | Ref l => Nat.ltb l n
  | Prim _ => true
  end.

Definition isClosed (h : Heap) : bool :=
  forallb (fun o => forallb (isValid (length h)) (children o)) h.

Lemma isClosed_closed (h : Heap) : isClosed h = true -> closed h.
Proof.
  unfold isClosed. rewrite forallb_forall. intros Hall.
  split; [reflexivity|]. intros l o _ Ho.
  apply list_elem_of_lookup_2, list_elem_of_In, Hall in Ho.
  rewrite forallb_forall in Ho. apply List.Forall_forall. intros [p|l'] Hin.
  - exact I.
  - apply Ho in Hin. now apply Nat.ltb_lt in Hin.
Qed.

(** A report: a plain object holding an array, which holds an object with
    a date. *)
Definition report : Heap :=
  [ Plain [(key "name", Prim (PString "run")); (key "steps", Ref 1)];
    Arr [Ref 2; Prim (PNumber 1)];
    Plain [(key "at", Ref 3)];
    DateObj 1700000000000 ].

Lemma report_closed : closed report.
Proof. now apply isClosed_closed. Qed.

Lemma report_data : Forall (fun o => isData o = true) report.
Proof. repeat constructor. Qed.

Lemma limited_clone_looks_like_the_original_witness :
  view 2 (snd (deepCloneWithLimit (Ref 0) (Some 2%Z) report))
    (fst (deepCloneWithLimit (Ref 0) (Some 2%Z) report))
  = view 2 report (Ref 0).
Proof.
  refine (proj1 (limited_clone_looks_like_the_original (Ref 0) (Some 2%Z)
                   report _ _ report_closed _ report_data eq_refl) 2%nat _).
  - vm_compute. lia.
  - vm_compute. lia.
Defined.

Lemma limited_clone_is_new_down_to_the_limit_witness :
  (exists new, snd (deepCloneWithLimit (Ref 0) (Some 2%Z) report)
               = (report ++ new)%list)
  /\ forall k l, (k <= 2)%nat ->
       In l (level k (snd (deepCloneWithLimit (Ref 0) (Some 2%Z) report))
               (fst (deepCloneWithLimit (Ref 0) (Some 2%Z) report))) ->
       (4 <= l)%nat.
Proof.
  refine (limited_clone_is_new_down_to_the_limit (Ref 0) (Some 2%Z) report
            _ _ report_closed _ eq_refl).
  vm_compute. lia.
Defined.

Lemma limited_clone_shares_below_the_limit_witness :
  level 3 (snd (deepCloneWithLimit (Ref 0) (Some 2%Z) report))
    (fst (deepCloneWithLimit (Ref 0) (Some 2%Z) report))
  = [3%nat].
Proof.
  refine (limited_clone_shares_below_the_limit (Ref 0) (Some 2%Z) report
            _ _ report_closed _ eq_refl).
  vm_compute. lia.
Defined.

(** The clone of the report to depth 2: the three objects down to the
    limit are copied, the last one shallowly, so that the date is the
    original's. *)
Example report_cloned_to_depth_2 :
  deepCloneWithLimit (Ref 0) (Some 2%Z) report
  = (Ref 4,
     (report ++
      [ Plain [(key "name", Prim (PString "run")); (key "steps", Ref 5)];
        Arr [Ref 6; Prim (PNumber 1)];
        Plain [(key "at", Ref 3)] ])%list).
Proof. reflexivity. Qed.

(** At the limit a date is spread into an object without properties,
    where [shallowClone] makes a date. *)
Example date_at_the_limit :
  deepCloneWithLimit (Ref 3) (Some 0%Z) report
  = (Ref 4, (report ++ [Plain []])%list)
  /\ shallowClone (Ref 3) report
     = (Ref 4, (report ++ [DateObj 1700000000000])%list).
Proof. split; reflexivity. Qed.

(** Two objects that hold one another. *)
Definition family : Heap :=
  [ Plain [(key "name", Prim (PString "parent")); (key "child", Ref 1)];
    Arr [Ref 0] ].

Lemma family_closed : closed family.
Proof. now apply isClosed_closed. Qed.

Lemma family_data : Forall (fun o => isData o = true) family.
Proof. repeat constructor. Qed.

Lemma family_cyclic d : finite d family (Ref 0) = false.
Proof.
  assert (Hboth : finite d family (Ref 0) = false
                  /\ finite d family (Ref 1) = false).
  { induction d as [|d [IH0 IH1]]; [now split|].
    split; cbn [finite]; cbn -[finite]; rewrite ?IH0, ?IH1;
      try destruct (finite d family (Prim _)); reflexivity. }
  apply Hboth.
Qed.

Lemma clone_is_a_full_copy_witness :
  exists obj' st',
    deepClone (Ref 0) (mkStore report ∅) = Some (Ok obj', st')
    /\ cloneCache st' = ∅
    /\ extends report (heap st')
    /\ (forall d', view d' (heap st') obj' = view d' report (Ref 0))
    /\ (forall k l, In l (level k (heap st') obj') -> (4 <= l)%nat).
Proof.
  refine (clone_is_a_full_copy (Ref 0) (mkStore report ∅) 4 report_closed _
            report_data eq_refl eq_refl).
  vm_compute. lia.
Defined.

Lemma cycle_is_refused_witness :
  exists st',
    deepClone (Ref 0) (mkStore family ∅) = Some (Throw circular, st')
    /\ cloneCache st' = ∅
    /\ extends family (heap st').
Proof.
  refine (cycle_is_refused (Ref 0) (mkStore family ∅) family_closed _
            family_data family_cyclic).
  vm_compute. lia.
Defined.


Lemma checked_value_is_cloned_witness :
  exists obj' st',
    deepClone (Ref 0) (mkStore report ∅) = Some (Ok obj', st')
    /\ cloneCache st' = ∅
    /\ forall d, view d (heap st') obj' = view d report (Ref 0).
Proof.
  refine (checked_value_is_cloned (Ref 0) (mkStore report ∅) report_closed _
            report_data eq_refl eq_refl).
  vm_compute. lia.
Defined.

(** The clone of the report, and the store it leaves. *)
Example report_cloned :
  deepClone (Ref 0) (mkStore report ∅)
  = Some (Ok (Ref 4),
          mkStore
            (report ++
             [ Plain [(key "name", Prim (PString "run")); (key "steps", Ref 5)];
               Arr [Ref 6; Prim (PNumber 1)];
               Plain [(key "at", Ref 7)];
               DateObj 1700000000000 ])%list
            ∅).
Proof. vm_compute. reflexivity. Qed.

(** The cycle of the family is met at the second visit of the parent; the
    two objects under construction stay behind, out of reach. *)
Example family_refused :
  hasCircularReference (Ref 0) family = Some true
  /\ deepClone (Ref 0) (mkStore family ∅)
     = Some (Throw circular,
             mkStore
               (family ++
                [ Plain [(key "name", Prim (PString "parent"))]; Arr [] ])%list
               ∅).
Proof. split; vm_compute; reflexivity. Qed.

(** An object that is held twice, without any cycle: the check reports a
    circular reference, and the clone holds two copies of the object. *)
Definition pair : Heap := [ Arr [Ref 1; Ref 1]; Plain [] ].

Example shared_object_is_reported_and_copied_twice :
  hasCircularReference (Ref 0) pair = Some true
  /\ deepClone (Ref 0) (mkStore pair ∅)
     = Some (Ok (Ref 2),
             mkStore (pair ++ [ Arr [Ref 3; Ref 4]; Plain []; Plain [] ])%list
               ∅).
Proof. split; vm_compute; reflexivity. Qed.

(** An instance of a class that holds itself: the exception is swallowed,
    the original itself is returned, and it stays in the cache, so that
    the next clone of it is refused. *)
Definition session : Heap := [ Instance "Session" [(key "self", Ref 0)] ].

Example instance_in_a_cycle_stays_in_the_cache :
  deepClone (Ref 0) (mkStore session ∅)
  = Some (Ok (Ref 0), mkStore (session ++ [Instance "Session" []])%list {[0%nat]})
  /\ deepClone (Ref 0)
       (mkStore (session ++ [Instance "Session" []])%list {[0%nat]})
     = Some (Throw circular,
             mkStore (session ++ [Instance "Session" []])%list {[0%nat]}).
Proof. split; vm_compute; reflexivity. Qed.

(** The clone of an error keeps the message, the stack and the name, the
    name as a property of its own, and none of the other properties. *)
Example error_clone_drops_properties :
  deepClone (Ref 0)
    (mkStore [ ErrorObj "Error" "no such file" "Error" "Error: no such file"
                 [(key "code", Prim (PString "ENOENT"))] ] ∅)
  = Some (Ok (Ref 1),
          mkStore
            [ ErrorObj "Error" "no such file" "Error" "Error: no such file"
                [(key "code", Prim (PString "ENOENT"))];
              ErrorObj "Error" "no such file" "Error" "Error: no such file"
                [(key "name", Prim (PString "Error"))] ] ∅).
Proof. vm_compute. reflexivity. Qed.

End Clone.
